(** * GPflow/kernels.py: covariance functions, their combinators and quadrature

    A shallow embedding of [GPflow/kernels.py].  Tensors of the configured
    [float_type] are embedded twice.  The main embedding idealises them as
    tensors of real numbers; its theorems give the results in the order of
    the program's operations.  The module [Binary64] repeats the kernel
    matrices on IEEE 754 binary64 numbers: there the laws of exact
    arithmetic that rounding breaks are refuted on concrete inputs.  A
    rank-1 tensor is the list of its entries, a rank-2 tensor the
    list of its rows, a rank-3 tensor the list of its rank-2 slices.  A rank-2
    tensor without rows therefore carries no column count, and primitives that
    inspect the column count see each row's own length.

    Python exceptions, and the errors TensorFlow raises when the graph runs,
    are values of [exn]; a computation yields its first failure in program
    order (the split between building the graph and running it is not
    modelled).  Integers are unbounded: the entries of an [int32] array and
    the results of a cast to [int32] are taken to fit 32 bits. *)

From Stdlib Require Import Floats.
From Stdlib Require Import String.
From Stdlib Require Import Reals List ZArith Lia Lra Bool.
From Stdlib Require Ascii DecimalString DecimalNat.
Import ListNotations.
Local Open Scope R_scope.
Set Warnings "-inexact-float".

(** ** Exceptions and fallible computations *)

Inductive exn : Type :=
| RuntimeError           (* raised by [_check_quadrature] *)
| TypeError              (* unexpected keyword argument, [reduce] of an empty sequence, ... *)
| ValueError             (* numpy: [np.max] of an empty sequence, bad broadcast, ... *)
| AssertionError         (* a failed Python [assert] *)
| InvalidArgumentError.  (* TensorFlow: failed [tf.assert_equal], shape mismatch, index out of range *)

Inductive result (A : Type) : Type :=
| Ok (a : A)
| Raise (e : exn).
Arguments Ok {A} a.
Arguments Raise {A} e.

Definition bind {A B : Type} (c : result A) (f : A -> result B) : result B :=
  match c with
  | Ok a => f a
  | Raise e => Raise e
  end.

Notation "x <- c ;; k" := (bind c (fun x => k))
  (at level 61, c at next level, right associativity).
Notation "' p <- c ;; k" := (bind c (fun x => let 'p := x in k))
  (at level 61, p pattern, c at next level, right associativity).

Fixpoint mapM {A B : Type} (f : A -> result B) (l : list A) : result (list B) :=
  match l with
  | [] => Ok []
  | a :: l' => b <- f a ;; bs <- mapM f l' ;; Ok (b :: bs)
  end.

(** [functools.reduce(f, l)] without an initial value. *)
Definition reduce {A : Type} (f : A -> A -> A) (l : list A) : result A :=
  match l with
  | [] => Raise TypeError
  | a :: l' => Ok (fold_left f l' a)
  end.

(** ** Tensor primitives *)

Abbreviation vector := (list R) (only parsing).
Abbreviation matrix := (list (list R)) (only parsing).
Abbreviation tensor3 := (list (list (list R))) (only parsing).
Abbreviation tensor4 := (list (list (list (list R)))) (only parsing).

Definition map2 {A B C : Type} (f : A -> B -> C) (a : list A) (b : list B) : list C :=
  map (fun p => f (fst p) (snd p)) (combine a b).

(** [tabulate n f] is [[f 0; ...; f (n-1)]]. *)
Definition tabulate {A : Type} (n : nat) (f : nat -> A) : list A := map f (seq 0 n).

Definition reduce_sum (v : vector) : R := fold_right Rplus 0 v.
Definition square (x : R) : R := x * x.
Definition dot (a b : vector) : R := reduce_sum (map2 Rmult a b).

(** [tf.shape(A)[0]] and [tf.shape(A)[1]]; the latter is exact when [A] has a row. *)
Definition nrows (A : matrix) : nat := length A.
Definition ncols (A : matrix) : nat :=
  match A with
  | [] => 0%nat
  | r :: _ => length r
  end.

(** [tf.fill([n], c)] and [tf.fill([n, m], c)]. *)
Definition fill1 (n : nat) (c : R) : vector := repeat c n.
Definition fill2 (n m : nat) (c : R) : matrix := repeat (repeat c m) n.

(** [tf.diag(d)]. *)
Definition diag (d : vector) : matrix :=
  tabulate (length d) (fun i =>
    tabulate (length d) (fun j => if Nat.eqb i j then nth i d 0 else 0)).

(** [tf.transpose] of a rank-2 tensor with [c] columns. *)
Definition transpose_n (c : nat) (A : matrix) : matrix :=
  tabulate c (fun j => map (fun row => nth j row 0) A).

(** Scalar-tensor products and entrywise maps. *)
Definition vmap (f : R -> R) (v : vector) : vector := map f v.
Definition mmap (f : R -> R) (A : matrix) : matrix := map (map f) A.

(** [tf.add] and [tf.mul] on operands of one shape. *)
Definition vadd (a b : vector) : vector := map2 Rplus a b.
Definition vmul (a b : vector) : vector := map2 Rmult a b.
Definition madd (A B : matrix) : matrix := map2 vadd A B.
Definition mmul (A B : matrix) : matrix := map2 vmul A B.

(** Broadcasting of a binary operation along one axis: equal sizes pair up,
    a size of one is stretched, anything else is a shape error. *)
Definition bcast_vec (f : R -> R -> R) (a b : vector) : result vector :=
  if Nat.eqb (length a) (length b) then Ok (map2 f a b)
  else if Nat.eqb (length a) 1 then Ok (map (f (hd 0 a)) b)
  else if Nat.eqb (length b) 1 then Ok (map (fun x => f x (hd 0 b)) a)
  else Raise InvalidArgumentError.

(** Broadcasting over two axes. *)
Definition bcast_mat (f : R -> R -> R) (A B : matrix) : result matrix :=
  if Nat.eqb (length A) (length B) then
    mapM (fun p => bcast_vec f (fst p) (snd p)) (combine A B)
  else if Nat.eqb (length A) 1 then mapM (bcast_vec f (hd [] A)) B
  else if Nat.eqb (length B) 1 then mapM (fun a => bcast_vec f a (hd [] B)) A
  else Raise InvalidArgumentError.

(** A rank-2 tensor combined with a rank-1 parameter ([X / lengthscales],
    [X * variance]): the parameter is broadcast along the last axis. *)
Definition bcast_rows (f : R -> R -> R) (A : matrix) (p : vector) : result matrix :=
  mapM (fun a => bcast_vec f a p) A.

(** [tf.matmul(A, tf.transpose(B))]: the rows of [A] against the rows of [B]. *)
Definition matmul_nt (A B : matrix) : result matrix :=
  mapM (fun a =>
    mapM (fun b =>
      if Nat.eqb (length a) (length b) then Ok (dot a b)
      else Raise InvalidArgumentError) B) A.

(** [tf.gather(params, indices)] along the first axis (on the CPU an index out
    of range is an error). *)
Definition gather {A : Type} (params : list A) (indices : list Z) : result (list A) :=
  mapM (fun j =>
    match nth_error params (Z.to_nat j) with
    | Some a => if (0 <=? j)%Z then Ok a else Raise InvalidArgumentError
    | None => Raise InvalidArgumentError
    end) indices.

(** [tf.cast(x, tf.int32)] of a float: truncation towards zero (the value is
    taken to be in the range of [int32]). *)
Definition cast_int32 (x : R) : Z :=
  if Rle_dec 0 x then Int_part x else (- Int_part (- x))%Z.

(** [tf.cast(X[:, 0], tf.int32)]. *)
Definition column0_int32 (X : matrix) : result (list Z) :=
  mapM (fun row =>
    match row with
    | [] => Raise InvalidArgumentError
    | x :: _ => Ok (cast_int32 x)
    end) X.

(** ** Python slices *)

(** [slice(start, stop, step).indices(len)] unrolled into the selected
    positions, as [PySlice_AdjustIndices] computes them. *)
Definition slice_indices (start stop step : option Z) (len : Z) : result (list Z) :=
  (let st := match step with None => 1 | Some s => s end in
   if st =? 0 then Raise ValueError else
   let lower := if st <? 0 then -1 else 0 in
   let upper := if st <? 0 then len - 1 else len in
   let clip := fun v => if v <? 0 then Z.max (v + len) lower else Z.min v upper in
   let a := match start with
            | None => if st <? 0 then upper else lower
            | Some v => clip v
            end in
   let b := match stop with
            | None => if st <? 0 then lower else upper
            | Some v => clip v
            end in
   let count :=
     if st <? 0
     then (if b <? a then (a - b - 1) / (- st) + 1 else 0)
     else (if a <? b then (b - a - 1) / st + 1 else 0) in
   Ok (map (fun i => a + Z.of_nat i * st) (seq 0 (Z.to_nat count))))%Z.

(** ** The kernel classes *)

(** [self.active_dims]: a slice object or an [int32] array (whose entries are
    taken to fit 32 bits, so that the conversion keeps them). *)
Inductive active_dims_t : Type :=
| ADslice (start stop step : option Z)
| ADarray (indices : list Z).

(** The attributes every [Kern] has. *)
Record kern_base : Type := mk_base {
  input_dim : Z;
  active_dims : active_dims_t;
  num_gauss_hermite_points : Z;
  input_size : option Z   (* [None]: the object has no attribute [input_size] *)
}.

Inductive static_class : Type := White | Constant | Bias.
Inductive stationary_class : Type :=
  RBF | Exponential | Matern12 | Matern32 | Matern52 | Cosine.
Inductive combination_class : Type := Add | Prod.

(** A kernel object: its class and its attributes.  A parameter made from a
    float is a scalar; [lengthscales] of [Stationary] and [variance] of
    [Linear] hold one entry, or [input_dim] entries under ARD; [degree] of
    [Polynomial] is the degree of a polynomial, a natural number. *)
#[warnings="-register-all"] Inductive kern : Type :=
| Static (c : static_class) (b : kern_base) (variance : R)
| Stationary (c : stationary_class) (b : kern_base)
    (variance : R) (lengthscales : vector) (ARD : bool)
| Linear (b : kern_base) (variance : vector) (ARD : bool)
| Polynomial (b : kern_base) (variance : vector) (ARD : bool) (degree : nat) (offset : R)
| PeriodicKernel (b : kern_base) (variance lengthscales period : R)
| Coregion (b : kern_base) (output_dim rank : nat) (W : matrix) (kappa : vector)
| Combination (c : combination_class) (b : kern_base) (kern_list : list kern).

Definition base (k : kern) : kern_base :=
  match k with
  | Static _ b _ => b
  | Stationary _ b _ _ _ => b
  | Linear b _ _ => b
  | Polynomial b _ _ _ _ => b
  | PeriodicKernel b _ _ _ => b
  | Coregion b _ _ _ _ => b
  | Combination _ b _ => b
  end.

(** [isinstance(k, cls)] for [cls] one of [Add], [Prod]. *)
Definition combination_class_eqb (c d : combination_class) : bool :=
  match c, d with
  | Add, Add => true
  | Prod, Prod => true
  | _, _ => false
  end.

Definition isinstance_combination (k : kern) (cls : combination_class) : bool :=
  match k with
  | Combination c _ _ => combination_class_eqb c cls
  | _ => false
  end.

(** [k.kern_list] (only combinations have the attribute). *)
Definition kern_list_of (k : kern) : list kern :=
  match k with
  | Combination _ _ l => l
  | _ => []
  end.

(** *** Construction *)

(** [Kern.__init__(self, input_dim, active_dims=None)]; the argument
    [active_dims] is [None], a slice, or an iterable of integers.  A slice
    with all three fields set reaches the assertion that unpacks it into
    the arguments of [range], and a slice object cannot be unpacked. *)
Definition Kern_init (input_dim : Z) (active_dims : option active_dims_t)
  : result kern_base :=
  match active_dims with
  | None => Ok (mk_base input_dim (ADslice None (Some input_dim) None) 20 None)
  | Some (ADslice start stop step) =>
      match start, stop, step with
      | Some _, Some _, Some _ => Raise TypeError
      | _, _, _ => Ok (mk_base input_dim (ADslice start stop step) 20 None)
      end
  | Some (ADarray l) =>
      if (Z.of_nat (length l) =? input_dim)%Z
      then Ok (mk_base input_dim (ADarray l) 20 None)
      else Raise AssertionError
  end.

(** [Static.__init__], for the class [c]. *)
Definition Static_init (c : static_class) (input_dim : Z) (variance : R)
  (active_dims : option active_dims_t) : result kern :=
  b <- Kern_init input_dim active_dims ;;
  Ok (Static c b variance).

(** [lengthscales * np.ones(input_dim)]. *)
Definition times_ones (p : vector) (input_dim : Z) : result vector :=
  if (input_dim <? 0)%Z then Raise ValueError
  else bcast_vec Rmult p (repeat 1 (Z.to_nat input_dim)).

(** [Stationary.__init__]; a float [lengthscales] is a one-entry vector. *)
Definition Stationary_init (c : stationary_class) (input_dim : Z) (variance : R)
  (lengthscales : option vector) (active_dims : option active_dims_t) (ARD : bool)
  : result kern :=
  b <- Kern_init input_dim active_dims ;;
  if ARD then
    ls <- match lengthscales with
          | None => if (input_dim <? 0)%Z then Raise ValueError
                    else Ok (repeat 1 (Z.to_nat input_dim))
          | Some l => times_ones l input_dim
          end ;;
    Ok (Stationary c b variance ls true)
  else
    Ok (Stationary c b variance
          (match lengthscales with None => [1] | Some l => l end) false).

(** [Linear.__init__]. *)
Definition Linear_init (input_dim : Z) (variance : vector)
  (active_dims : option active_dims_t) (ARD : bool) : result kern :=
  b <- Kern_init input_dim active_dims ;;
  if ARD then
    v <- times_ones variance input_dim ;;
    Ok (Linear b v true)
  else Ok (Linear b variance false).

(** [Polynomial.__init__]. *)
Definition Polynomial_init (input_dim : Z) (degree : nat) (variance : vector)
  (offset : R) (active_dims : option active_dims_t) (ARD : bool) : result kern :=
  b <- Kern_init input_dim active_dims ;;
  if ARD then
    v <- times_ones variance input_dim ;;
    Ok (Polynomial b v true degree offset)
  else Ok (Polynomial b variance false degree offset).

(** [PeriodicKernel.__init__]. *)
Definition PeriodicKernel_init (input_dim : Z) (period variance lengthscales : R)
  (active_dims : option active_dims_t) : result kern :=
  b <- Kern_init input_dim active_dims ;;
  Ok (PeriodicKernel b variance lengthscales period).

(** [Coregion.__init__]: [W] starts as zeros, [kappa] as ones. *)
Definition Coregion_init (input_dim : Z) (output_dim rank : nat)
  (active_dims : option active_dims_t) : result kern :=
  if (input_dim =? 1)%Z then
    b <- Kern_init input_dim active_dims ;;
    Ok (Coregion b output_dim rank (fill2 output_dim rank 0) (fill1 output_dim 1))
  else Raise AssertionError.

(** [np.max] of a sequence of integers. *)
Definition np_max (l : list Z) : result Z :=
  match l with
  | [] => Raise ValueError
  | a :: l' => Ok (fold_left Z.max l' a)
  end.

(** The entry a child contributes to the [input_dim] of a combination. *)
Definition child_dim (k : kern) : result Z :=
  match active_dims (base k) with
  | ADslice _ _ _ => Ok (input_dim (base k))
  | ADarray l => m <- np_max l ;; Ok (m + 1)%Z
  end.

(** The flattening loop of [Combination.__init__]. *)
Definition flatten_kern_list (cls : combination_class) (kern_list : list kern) : list kern :=
  flat_map (fun k => if isinstance_combination k cls then kern_list_of k else [k])
           kern_list.

(** [Combination.__init__(self, kern_list)] for [self.__class__ = cls]. *)
Definition Combination_init (cls : combination_class) (kern_list : list kern)
  : result kern :=
  dims <- mapM child_dim kern_list ;;
  d <- np_max dims ;;
  b <- Kern_init d None ;;
  Ok (Combination cls b (flatten_kern_list cls kern_list)).

(** [Kern.__add__] and [Kern.__mul__]. *)
Definition kern_add (self other : kern) : result kern := Combination_init Add [self; other].
Definition kern_mul (self other : kern) : result kern := Combination_init Prod [self; other].

(** *** Slicing *)

(** [X[:, s]] for a slice [s]. *)
Definition getitem_cols (start stop step : option Z) (X : matrix) : result matrix :=
  mapM (fun row =>
    idx <- slice_indices start stop step (Z.of_nat (length row)) ;;
    Ok (map (fun j => nth (Z.to_nat j) row 0) idx)) X.

(** [tf.transpose(tf.gather(tf.transpose(X), indices))]. *)
Definition gather_cols (indices : list Z) (X : matrix) : result matrix :=
  mapM (fun row => gather row indices) X.

Definition select_cols (ad : active_dims_t) (X : matrix) : result matrix :=
  match ad with
  | ADslice start stop step => getitem_cols start stop step X
  | ADarray l => gather_cols l X
  end.

(** [tf.assert_equal(tf.shape(X)[1], input_dim)]. *)
Definition assert_cols (d : Z) (X : matrix) : result unit :=
  if forallb (fun row => (Z.of_nat (length row) =? d)%Z) X
  then Ok tt else Raise InvalidArgumentError.

(** [Kern._slice(self, X, X2)]. *)
Definition _slice (b : kern_base) (X : matrix) (X2 : option matrix)
  : result (matrix * option matrix) :=
  Xs <- select_cols (active_dims b) X ;;
  X2s <- match X2 with
         | None => Ok None
         | Some x2 => x2s <- select_cols (active_dims b) x2 ;; Ok (Some x2s)
         end ;;
  _ <- assert_cols (input_dim b) Xs ;;
  Ok (Xs, X2s).

(** The guard [if not presliced: X, X2 = self._slice(X, X2)]. *)
Definition slice_unless (presliced : bool) (b : kern_base) (X : matrix) (X2 : option matrix)
  : result (matrix * option matrix) :=
  if presliced then Ok (X, X2) else _slice b X X2.

(** A keyword argument [presliced] that may be left out. *)
Definition presliced_arg (presliced : option bool) : bool :=
  match presliced with
  | None => false
  | Some p => p
  end.

(** *** Static kernels *)

(** [Static.Kdiag(self, X)]. *)
Definition Static_Kdiag (variance : R) (X : matrix) : vector :=
  fill1 (nrows X) variance.

(** [White.K(self, X, X2=None, presliced=False)]. *)
Definition White_K (variance : R) (X : matrix) (X2 : option matrix) : matrix :=
  match X2 with
  | None => diag (fill1 (nrows X) variance)
  | Some x2 => fill2 (nrows X) (nrows x2) 0
  end.

(** [Constant.K(self, X, X2=None, presliced=False)]. *)
Definition Constant_K (variance : R) (X : matrix) (X2 : option matrix) : matrix :=
  match X2 with
  | None => fill2 (nrows X) (nrows X) variance
  | Some x2 => fill2 (nrows X) (nrows x2) variance
  end.

(** *** Stationary kernels *)

(** [tf.reduce_sum(tf.square(X), 1)]. *)
Definition row_sumsq (X : matrix) : vector := map (fun row => reduce_sum (map square row)) X.

(** [tf.reshape(v, (-1, 1))] and [tf.reshape(v, (1, -1))]. *)
Definition as_column (v : vector) : matrix := map (fun x => [x]) v.
Definition as_row (v : vector) : matrix := [v].

(** [Stationary.square_dist(self, X, X2)]. *)
Definition square_dist (lengthscales : vector) (X : matrix) (X2 : option matrix)
  : result matrix :=
  X <- bcast_rows Rdiv X lengthscales ;;
  let Xs := row_sumsq X in
  match X2 with
  | None =>
      P <- matmul_nt X X ;;
      S <- bcast_mat Rplus (mmap (Rmult (-2)) P) (as_column Xs) ;;
      bcast_mat Rplus S (as_row Xs)
  | Some X2 =>
      X2 <- bcast_rows Rdiv X2 lengthscales ;;
      let X2s := row_sumsq X2 in
      P <- matmul_nt X X2 ;;
      S <- bcast_mat Rplus (mmap (Rmult (-2)) P) (as_column Xs) ;;
      bcast_mat Rplus S (as_row X2s)
  end.

(** [Stationary.euclid_dist(self, X, X2)]. *)
Definition euclid_dist (lengthscales : vector) (X : matrix) (X2 : option matrix)
  : result matrix :=
  r2 <- square_dist lengthscales X X2 ;;
  Ok (mmap (fun x => sqrt (x + 1e-12)) r2).

(** [Stationary.Kdiag(self, X, presliced=False)]. *)
Definition Stationary_Kdiag (variance : R) (X : matrix) : vector :=
  fill1 (nrows X) variance.

(** The [K] methods of the subclasses of [Stationary]. *)
Definition Stationary_K (c : stationary_class) (b : kern_base) (variance : R)
  (lengthscales : vector) (X : matrix) (X2 : option matrix) (presliced : bool)
  : result matrix :=
  '(X, X2) <- slice_unless presliced b X X2 ;;
  match c with
  | RBF =>
      r2 <- square_dist lengthscales X X2 ;;
      Ok (mmap (fun d => variance * exp (- d / 2)) r2)
  | Exponential =>
      r <- euclid_dist lengthscales X X2 ;;
      Ok (mmap (fun r => variance * exp (- 0.5 * r)) r)
  | Matern12 =>
      r <- euclid_dist lengthscales X X2 ;;
      Ok (mmap (fun r => variance * exp (- r)) r)
  | Matern32 =>
      r <- euclid_dist lengthscales X X2 ;;
      Ok (mmap (fun r => variance * (1 + sqrt 3 * r) * exp (- sqrt 3 * r)) r)
  | Matern52 =>
      r <- euclid_dist lengthscales X X2 ;;
      Ok (mmap (fun r => variance * (1 + sqrt 5 * r + 5 / 3 * square r)
                         * exp (- sqrt 5 * r)) r)
  | Cosine =>
      r <- euclid_dist lengthscales X X2 ;;
      Ok (mmap (fun r => variance * cos r) r)
  end.

(** *** Linear and polynomial kernels *)

(** [Linear.K(self, X, X2=None, presliced=False)]. *)
Definition Linear_K (b : kern_base) (variance : vector)
  (X : matrix) (X2 : option matrix) (presliced : bool) : result matrix :=
  '(X, X2) <- slice_unless presliced b X X2 ;;
  Xv <- bcast_rows Rmult X variance ;;
  match X2 with
  | None => matmul_nt Xv X
  | Some X2 => matmul_nt Xv X2
  end.

(** [Linear.Kdiag(self, X, presliced=False)]. *)
Definition Linear_Kdiag (b : kern_base) (variance : vector)
  (X : matrix) (presliced : bool) : result vector :=
  '(X, _) <- slice_unless presliced b X None ;;
  Xv <- bcast_rows Rmult (mmap square X) variance ;;
  Ok (map reduce_sum Xv).

(** [Polynomial.K] and [Polynomial.Kdiag]. *)
Definition Polynomial_K (b : kern_base) (variance : vector) (degree : nat) (offset : R)
  (X : matrix) (X2 : option matrix) (presliced : bool) : result matrix :=
  L <- Linear_K b variance X X2 presliced ;;
  Ok (mmap (fun x => (x + offset) ^ degree) L).

Definition Polynomial_Kdiag (b : kern_base) (variance : vector) (degree : nat) (offset : R)
  (X : matrix) (presliced : bool) : result vector :=
  L <- Linear_Kdiag b variance X presliced ;;
  Ok (vmap (fun x => (x + offset) ^ degree) L).

(** *** The periodic kernel *)

(** [PeriodicKernel.Kdiag(self, X, presliced=False)]. *)
Definition PeriodicKernel_Kdiag (variance : R) (X : matrix) : vector :=
  fill1 (nrows X) variance.

(** [PeriodicKernel.K(self, X, X2=None, presliced=False)]: the entry for the
    rows [x] of [X] and [y] of [X2], then the whole matrix. *)
Definition periodic_entry (variance lengthscales period : R) (x y : vector) : result R :=
  d <- bcast_vec Rminus x y ;;
  let r := map (fun t => PI * t / period) d in
  let r := reduce_sum (map (fun t => square (sin t / lengthscales)) r) in
  Ok (variance * exp (- 0.5 * r)).

Definition PeriodicKernel_K (b : kern_base) (variance lengthscales period : R)
  (X : matrix) (X2 : option matrix) (presliced : bool) : result matrix :=
  '(X, X2) <- slice_unless presliced b X X2 ;;
  let X2 := match X2 with None => X | Some x2 => x2 end in
  mapM (fun x => mapM (fun y => periodic_entry variance lengthscales period x y) X2) X.

(** *** The coregionalisation kernel *)

(** [B = W W^T + diag(kappa)]. *)
Definition coregion_B (W : matrix) (kappa : vector) : result matrix :=
  WWt <- matmul_nt W W ;;
  bcast_mat Rplus WWt (diag kappa).

(** [Coregion.K(self, X, X2=None)]. *)
Definition Coregion_K (b : kern_base) (W : matrix) (kappa : vector)
  (X : matrix) (X2 : option matrix) : result matrix :=
  '(X, X2) <- _slice b X X2 ;;
  X <- column0_int32 X ;;
  X2 <- match X2 with
        | None => Ok X
        | Some x2 => column0_int32 x2
        end ;;
  B <- coregion_B W kappa ;;
  G <- gather B X2 ;;
  gather (transpose_n (ncols B) G) X.

(** [Coregion.Kdiag(self, X)]. *)
Definition Coregion_Kdiag (b : kern_base) (W : matrix) (kappa : vector) (X : matrix)
  : result vector :=
  '(X, _) <- _slice b X None ;;
  X <- column0_int32 X ;;
  Bdiag <- bcast_vec Rplus (row_sumsq W) kappa ;;
  gather Bdiag X.

(** *** Method dispatch *)

(** [tf.add] for [Add], [tf.mul] for [Prod]. *)
Definition combine_K (c : combination_class) : matrix -> matrix -> matrix :=
  match c with
  | Add => madd
  | Prod => mmul
  end.

Definition combine_Kdiag (c : combination_class) : vector -> vector -> vector :=
  match c with
  | Add => vadd
  | Prod => vmul
  end.

(** [k.K(X, X2, presliced=...)]: [presliced = None] is a call that leaves the
    keyword out.  [Coregion.K] has no such parameter; [Add.K] and [Prod.K]
    accept and ignore it. *)
Fixpoint K (k : kern) (X : matrix) (X2 : option matrix) (presliced : option bool)
  {struct k} : result matrix :=
  match k with
  | Static White _ variance => Ok (White_K variance X X2)
  | Static _ _ variance => Ok (Constant_K variance X X2)
  | Stationary c b variance lengthscales _ =>
      Stationary_K c b variance lengthscales X X2 (presliced_arg presliced)
  | Linear b variance _ => Linear_K b variance X X2 (presliced_arg presliced)
  | Polynomial b variance _ degree offset =>
      Polynomial_K b variance degree offset X X2 (presliced_arg presliced)
  | PeriodicKernel b variance lengthscales period =>
      PeriodicKernel_K b variance lengthscales period X X2 (presliced_arg presliced)
  | Coregion b _ _ W kappa =>
      match presliced with
      | Some _ => Raise TypeError
      | None => Coregion_K b W kappa X X2
      end
  | Combination c _ kern_list =>
      Ks <- (fix each (l : list kern) : result (list matrix) :=
               match l with
               | [] => Ok []
               | k' :: l' => m <- K k' X X2 None ;; ms <- each l' ;; Ok (m :: ms)
               end) kern_list ;;
      reduce (combine_K c) Ks
  end.

(** [k.Kdiag(X, presliced=...)].  [Static.Kdiag] and [Coregion.Kdiag] have no
    parameter [presliced]. *)
Fixpoint Kdiag (k : kern) (X : matrix) (presliced : option bool) {struct k}
  : result vector :=
  match k with
  | Static _ _ variance =>
      match presliced with
      | Some _ => Raise TypeError
      | None => Ok (Static_Kdiag variance X)
      end
  | Stationary _ _ variance _ _ => Ok (Stationary_Kdiag variance X)
  | Linear b variance _ => Linear_Kdiag b variance X (presliced_arg presliced)
  | Polynomial b variance _ degree offset =>
      Polynomial_Kdiag b variance degree offset X (presliced_arg presliced)
  | PeriodicKernel _ variance _ _ => Ok (PeriodicKernel_Kdiag variance X)
  | Coregion b _ _ W kappa =>
      match presliced with
      | Some _ => Raise TypeError
      | None => Coregion_Kdiag b W kappa X
      end
  | Combination c _ kern_list =>
      Ks <- (fix each (l : list kern) : result (list vector) :=
               match l with
               | [] => Ok []
               | k' :: l' => m <- Kdiag k' X None ;; ms <- each l' ;; Ok (m :: ms)
               end) kern_list ;;
      reduce (combine_Kdiag c) Ks
  end.

(** ** Quadrature *)

(** What the module takes from outside: [settings.numerics.ekern_quadrature],
    [np.polynomial.hermite.hermgauss] (the module's [hermgauss] only converts
    its result to [float_type]) and [tf.cholesky] on one matrix. *)
Record environment : Type := mk_environment {
  ekern_quadrature : string;
  hermgauss : Z -> option (vector * vector);   (* [None]: numpy's [ValueError] *)
  cholesky : matrix -> option matrix           (* [None]: the decomposition failed *)
}.

Definition np_hermgauss (env : environment) (n : Z) : result (vector * vector) :=
  match hermgauss env n with
  | Some xw => Ok xw
  | None => Raise ValueError
  end.

Definition tf_cholesky (env : environment) (A : matrix) : result matrix :=
  match cholesky env A with
  | Some L => Ok L
  | None => Raise InvalidArgumentError
  end.

(** [str(type(self))], up to the module prefix. *)
Definition class_name (k : kern) : string :=
  match k with
  | Static White _ _ => "White"
  | Static Constant _ _ => "Constant"
  | Static Bias _ _ => "Bias"
  | Stationary RBF _ _ _ _ => "RBF"
  | Stationary Exponential _ _ _ _ => "Exponential"
  | Stationary Matern12 _ _ _ _ => "Matern12"
  | Stationary Matern32 _ _ _ _ => "Matern32"
  | Stationary Matern52 _ _ _ _ => "Matern52"
  | Stationary Cosine _ _ _ _ => "Cosine"
  | Linear _ _ _ => "Linear"
  | Polynomial _ _ _ _ _ => "Polynomial"
  | PeriodicKernel _ _ _ _ => "PeriodicKernel"
  | Coregion _ _ _ _ _ => "Coregion"
  | Combination Add _ _ => "Add"
  | Combination Prod _ _ => "Prod"
  end.

(** A call of [warnings.warn]: the class the message names. *)
Inductive warning : Type := QuadratureWarning (cls : string).

(** A computation that may warn before it returns or raises. *)
Definition warned (A : Type) : Type := (list warning * result A)%type.

(** [Kern._check_quadrature(self)]. *)
Definition _check_quadrature (env : environment) (k : kern) : warned unit :=
  let w := if String.eqb (ekern_quadrature env) "warn"
           then [QuadratureWarning (class_name k)] else [] in
  if String.eqb (ekern_quadrature env) "error"
     || (num_gauss_hermite_points (base k) =? 0)%Z
  then (w, Raise RuntimeError)
  else (w, Ok tt).

(** A method that starts with [self._check_quadrature()]. *)
Definition after_check {A : Type} (env : environment) (k : kern) (body : result A)
  : warned A :=
  match _check_quadrature env k with
  | (w, Ok _) => (w, body)
  | (w, Raise e) => (w, Raise e)
  end.

(** [itertools.product] of [D] copies of [l]: the last position varies fastest. *)
Fixpoint cartesian_power (l : vector) (D : nat) : list vector :=
  match D with
  | O => [[]]
  | S D' => flat_map (fun x => map (cons x) (cartesian_power l D')) l
  end.

(** [np.prod(a, 1)]. *)
Definition row_products (a : list vector) : vector := map (fold_right Rmult 1) a.

(** The sizes [tf.reshape] gives a tensor of [size] entries for the requested
    [dims], of which one may be [-1]. *)
Definition infer_shape (dims : list Z) (size : nat) : result (list nat) :=
  if existsb (fun d => (d <? -1)%Z) dims then Raise InvalidArgumentError else
  let known := fold_right Z.mul 1%Z (filter (fun d => negb (d =? -1)%Z) dims) in
  match length (filter (fun d => (d =? -1)%Z) dims) with
  | O => if (known =? Z.of_nat size)%Z then Ok (map Z.to_nat dims)
         else Raise InvalidArgumentError
  | S O =>
      if (known =? 0)%Z then Raise InvalidArgumentError
      else if (Z.of_nat size mod known =? 0)%Z
           then Ok (map (fun d => if (d =? -1)%Z then Z.to_nat (Z.of_nat size / known)
                                  else Z.to_nat d) dims)
           else Raise InvalidArgumentError
  | _ => Raise InvalidArgumentError
  end.

Definition flatten2 (A : matrix) : vector := concat A.
Definition flatten3 (T : tensor3) : vector := concat (map flatten2 T).

(** [tf.reshape] to rank 2 and to rank 3, from the entries in row-major order. *)
Definition reshape2 (d1 d2 : Z) (flat : vector) : result matrix :=
  s <- infer_shape [d1; d2] (length flat) ;;
  match s with
  | [n1; n2] =>
      Ok (tabulate n1 (fun i => tabulate n2 (fun j => nth (i * n2 + j) flat 0)))
  | _ => Raise InvalidArgumentError
  end.

Definition reshape3 (d1 d2 d3 : Z) (flat : vector) : result tensor3 :=
  s <- infer_shape [d1; d2; d3] (length flat) ;;
  match s with
  | [n1; n2; n3] =>
      Ok (tabulate n1 (fun i => tabulate n2 (fun j => tabulate n3 (fun l =>
            nth ((i * n2 + j) * n3 + l) flat 0))))
  | _ => Raise InvalidArgumentError
  end.

(** [tf.transpose(X, [2, 0, 1])]. *)
Definition transpose_201 (X : tensor3) : tensor3 :=
  let n1 := length X in
  let n2 := length (hd [] X) in
  let n3 := length (hd [] (hd [] X)) in
  tabulate n3 (fun i => tabulate n1 (fun n => tabulate n2 (fun d =>
    nth i (nth d (nth n X []) []) 0))).

(** [tf.transpose(T, (0, 2, 1))]. *)
Definition transpose_021 (T : tensor3) : tensor3 := map (fun A => transpose_n (ncols A) A) T.

(** Broadcasting over three axes. *)
Definition bcast_t3 (f : R -> R -> R) (A B : tensor3) : result tensor3 :=
  if Nat.eqb (length A) (length B) then
    mapM (fun p => bcast_mat f (fst p) (snd p)) (combine A B)
  else if Nat.eqb (length A) 1 then mapM (bcast_mat f (hd [] A)) B
  else if Nat.eqb (length B) 1 then mapM (fun a => bcast_mat f a (hd [] B)) A
  else Raise InvalidArgumentError.

(** [T * wn[:, None, ...]]: the weights meet the first axis of [T]. *)
Definition scale_axis0 {A : Type} (scale : R -> A -> A) (T : list A) (wn : vector)
  : result (list A) :=
  if Nat.eqb (length T) (length wn) then Ok (map2 scale wn T)
  else match T, wn with
       | [t], _ => Ok (map (fun w => scale w t) wn)
       | _, [w] => Ok (map (scale w) T)
       | _, _ => Raise InvalidArgumentError
       end.

Definition vscale (w : R) (v : vector) : vector := map (Rmult w) v.
Definition mscale (w : R) (A : matrix) : matrix := map (vscale w) A.
Definition t3scale (w : R) (T : tensor3) : tensor3 := map (mscale w) T.

(** [tf.reduce_sum(T, 0)] for operands whose slices have the given shape. *)
Definition sum_axis0_vec (n : nat) (T : list vector) : vector :=
  fold_right vadd (fill1 n 0) T.
Definition sum_axis0_mat (n m : nat) (T : list matrix) : matrix :=
  fold_right madd (fill2 n m 0) T.
Definition sum_axis0_t3 (n m l : nat) (T : list tensor3) : tensor3 :=
  fold_right (map2 madd) (repeat (fill2 m l 0) n) T.

(** [mvhermgauss(means, covs, H, D)]. *)
Definition mvhermgauss (env : environment) (means : matrix) (covs : tensor3) (H D : Z)
  : result (matrix * vector) :=
  let N := nrows means in
  '(gh_x, gh_w) <- np_hermgauss env H ;;
  let xn := cartesian_power gh_x (Z.to_nat D) in
  let wn := row_products (cartesian_power gh_w (Z.to_nat D)) in
  cholXcov <- mapM (tf_cholesky env) covs ;;
  P <- mapM (fun p => matmul_nt (fst p) (snd p)) (combine cholXcov (repeat xn N)) ;;
  _ <- (if Nat.eqb (length cholXcov) N then Ok tt else Raise InvalidArgumentError) ;;
  X <- bcast_t3 Rplus (map (mmap (Rmult (sqrt 2))) P)
                      (map (map (fun m => [m])) means) ;;
  Xr <- reshape2 (-1) D (flatten3 (transpose_201 X)) ;;
  Ok (Xr, map (fun w => w * Rpower PI (- IZR D * 0.5)) wn).

(** The argument [Xcov]: one diagonal per input (NxD) or full matrices (NxDxD). *)
Inductive covariances : Type :=
| DiagCov (c : matrix)
| FullCov (c : tensor3).

(** [Kern._slice_cov(self, cov)]. *)
Definition _slice_cov (b : kern_base) (cov : covariances) : result tensor3 :=
  let cov := match cov with
             | DiagCov c => map diag c
             | FullCov c => c
             end in
  match active_dims b with
  | ADslice start stop step =>
      mapM (fun C =>
        idx <- slice_indices start stop step (Z.of_nat (length C)) ;;
        getitem_cols start stop step (map (fun i => nth (Z.to_nat i) C []) idx)) cov
  | ADarray l =>
      mapM (fun C => cs <- gather_cols l C ;; gather cs l) cov
  end.

(** [Kern.eKdiag(self, Xmu, Xcov)]. *)
Definition eKdiag (env : environment) (k : kern) (Xmu : matrix) (Xcov : covariances)
  : warned vector :=
  after_check env k (
    let H := num_gauss_hermite_points (base k) in
    let D := input_dim (base k) in
    '(Xmu, _) <- _slice (base k) Xmu None ;;
    Xcov <- _slice_cov (base k) Xcov ;;
    '(X, wn) <- mvhermgauss env Xmu Xcov H D ;;
    Kd <- Kdiag k X (Some true) ;;
    Kd <- reshape2 (H ^ D) (Z.of_nat (nrows Xmu)) Kd ;;
    Kw <- scale_axis0 vscale Kd wn ;;
    Ok (sum_axis0_vec (nrows Xmu) Kw)).

(** The part [eKxz] and [eKzxKxz] share: the kernel at the quadrature points,
    as an [H^D x N x M] tensor, and the weights. *)
Definition quadrature_Kxz (env : environment) (k : kern)
  (Z : matrix) (Xmu : matrix) (Xcov : covariances) : result (tensor3 * vector) :=
  let H := num_gauss_hermite_points (base k) in
  let D := input_dim (base k) in
  '(Xmu, Z) <- _slice (base k) Xmu (Some Z) ;;
  Xcov <- _slice_cov (base k) Xcov ;;
  let N := Z.of_nat (nrows Xmu) in
  let M := Z.of_nat (nrows (match Z with Some z => z | None => [] end)) in
  let HpowD := (H ^ D)%Z in
  '(X, wn) <- mvhermgauss env Xmu Xcov H D ;;
  X <- reshape2 (-1) D (flatten2 X) ;;
  Kxz <- K k X Z (Some true) ;;
  Kxz <- reshape3 HpowD N M (flatten2 Kxz) ;;
  Ok (Kxz, wn).

(** [Kern.eKxz(self, Z, Xmu, Xcov)]. *)
Definition eKxz (env : environment) (k : kern)
  (Z : matrix) (Xmu : matrix) (Xcov : covariances) : warned matrix :=
  after_check env k (
    '(Kxz, wn) <- quadrature_Kxz env k Z Xmu Xcov ;;
    Kw <- scale_axis0 mscale Kxz wn ;;
    Ok (sum_axis0_mat (nrows Xmu) (nrows Z) Kw)).

(** [tf.expand_dims(Kxz, 3) * tf.expand_dims(Kxz, 2)] on one row of [Kxz]. *)
Definition outer (u v : vector) : matrix := map (fun a => map (Rmult a) v) u.

(** [Kern.eKzxKxz(self, Z, Xmu, Xcov)]. *)
Definition eKzxKxz (env : environment) (k : kern)
  (Z : matrix) (Xmu : matrix) (Xcov : covariances) : warned tensor3 :=
  after_check env k (
    '(Kxz, wn) <- quadrature_Kxz env k Z Xmu Xcov ;;
    let KzxKxz := map (map (fun row => outer row row)) Kxz in
    Kw <- scale_axis0 t3scale KzxKxz wn ;;
    Ok (sum_axis0_t3 (nrows Xmu) (nrows Z) (nrows Z) Kw)).

(** [T[i]] on the first axis. *)
Definition getitem0 {A : Type} (T : list A) (i : nat) : result A :=
  match nth_error T i with
  | Some a => Ok a
  | None => Raise InvalidArgumentError
  end.

(** [Kern.exKxz(self, Z, Xmu, Xcov)]; [Xcov] is 2 x (T+1) x D x D. *)
Definition exKxz (env : environment) (k : kern)
  (Z : matrix) (Xmu : matrix) (Xcov : tensor4) : warned tensor3 :=
  after_check env k (
    let H := num_gauss_hermite_points (base k) in
    let N := (Z.of_nat (nrows Xmu) - 1)%Z in
    let M := Z.of_nat (nrows Z) in
    let D := match input_size (base k) with
             | Some s => s
             | None => input_dim (base k)
             end in
    let Hpow2D := (H ^ (2 * D))%Z in
    _ <- assert_cols D Xmu ;;
    let fXmu := map2 (@app R) (removelast Xmu) (tl Xmu) in
    Xcov0 <- getitem0 Xcov 0 ;;
    Xcov1 <- getitem0 Xcov 1 ;;
    let fXcovt := map2 (map2 (@app R)) (removelast Xcov0) (removelast Xcov1) in
    let fXcovb := map2 (map2 (@app R)) (transpose_021 (removelast Xcov1)) (tl Xcov0) in
    let fXcov := map2 (@app vector) fXcovt fXcovb in
    '(X, wn) <- mvhermgauss env fXmu fXcov H (D * 2) ;;
    Xhead <- getitem_cols None (Some D) None X ;;
    Kxz <- K k Xhead (Some Z) None ;;
    Kxz <- reshape3 Hpow2D N M (flatten2 Kxz) ;;
    Xtail <- getitem_cols (Some D) None None X ;;
    Xtail <- reshape3 Hpow2D N D (flatten2 Xtail) ;;
    P <- (if Nat.eqb (length Xtail) (length Kxz) then
            Ok (map2 (map2 (fun x kz => map (fun c => map (Rmult c) x) kz)) Xtail Kxz)
          else Raise InvalidArgumentError) ;;
    Pw <- scale_axis0 t3scale P wn ;;
    Ok (sum_axis0_t3 (Z.to_nat N) (nrows Z) (Z.to_nat D) Pw)).

(** ** The children of a combination: names and dimensions *)

(** [str.lower] on a class name, which is made of ASCII characters. *)
Definition lower_char (c : Ascii.ascii) : Ascii.ascii :=
  let n := Ascii.nat_of_ascii c in
  if ((65 <=? n) && (n <=? 90))%nat then Ascii.ascii_of_nat (n + 32) else c.

Fixpoint lower (s : string) : string :=
  match s with
  | EmptyString => EmptyString
  | String c s' => String (lower_char c) (lower s')
  end.

(** [str(n)] for a count [n]. *)
Definition str (n : nat) : string :=
  DecimalString.NilEmpty.string_of_uint (Nat.to_uint n).

(** [k.__class__.__name__.lower()]. *)
Definition raw_name (k : kern) : string := lower (class_name k).

(** [counting_dict]: a dictionary from names to counts, as the list of its
    items; [key in d], [d[key]] and [d[key] = v]. *)
Fixpoint dict_get (d : list (string * nat)) (key : string) : option nat :=
  match d with
  | [] => None
  | (k, v) :: d' => if String.eqb k key then Some v else dict_get d' key
  end.

Fixpoint dict_set (d : list (string * nat)) (key : string) (v : nat)
  : list (string * nat) :=
  match d with
  | [] => [(key, v)]
  | (k, x) :: d' =>
      if String.eqb k key then (k, v) :: d' else (k, x) :: dict_set d' key v
  end.

(** [names[names.index(x)] = v]: the first occurrence of [x] is replaced, and
    [index] raises [ValueError] when there is none. *)
Fixpoint replace_first (x v : string) (names : list string) : result (list string) :=
  match names with
  | [] => Raise ValueError
  | y :: names' =>
      if String.eqb y x then Ok (v :: names')
      else rest <- replace_first x v names' ;; Ok (y :: rest)
  end.

(** One turn of the loop of [make_kernel_names]. *)
Definition name_kernel (state : list string * list (string * nat)) (k : kern)
  : result (list string * list (string * nat)) :=
  let '(names, counting_dict) := state in
  let raw_name := raw_name k in
  match dict_get counting_dict raw_name with
  | Some count =>
      names <- (if Nat.eqb count 1
                then replace_first raw_name (raw_name ++ "_1")%string names
                else Ok names) ;;
      let count := S count in
      Ok (names ++ [(raw_name ++ "_" ++ str count)%string],
          dict_set counting_dict raw_name count)
  | None => Ok (names ++ [raw_name], dict_set counting_dict raw_name 1%nat)
  end.

(** [make_kernel_names(kern_list)]. *)
Definition make_kernel_names (kern_list : list kern) : result (list string) :=
  state <- fold_left (fun acc k => state <- acc ;; name_kernel state k)
                     kern_list (Ok ([], [])) ;;
  Ok (fst state).

(** [np.any(dims_i.reshape(-1, 1) == dims_j.reshape(1, -1))]. *)
Definition any_equal (dims_i dims_j : list Z) : bool :=
  existsb (fun a => existsb (fun b => (a =? b)%Z) dims_j) dims_i.

(** The loops of [on_separate_dimensions] over [dimlist], from the current
    value of the flag [overlapping]. *)
Fixpoint overlapping_pairs (dimlist : list (list Z)) (overlapping : bool) : bool :=
  match dimlist with
  | [] => overlapping
  | dims_i :: rest =>
      overlapping_pairs rest
        (fold_left (fun overlapping dims_j =>
                      if any_equal dims_i dims_j then true else overlapping)
                   rest overlapping)
  end.

(** [Combination.on_separate_dimensions], for the combination whose
    [kern_list] is given. *)
Definition on_separate_dimensions (kern_list : list kern) : bool :=
  if existsb (fun k => match active_dims (base k) with
                       | ADslice _ _ _ => true
                       | ADarray _ => false
                       end) kern_list
  then false
  else negb (overlapping_pairs
               (flat_map (fun k => match active_dims (base k) with
                                   | ADslice _ _ _ => []
                                   | ADarray l => [l]
                                   end) kern_list)
               false).

(** ** Vocabulary of the statements *)

(** A computation that does not end in [RuntimeError]. *)
Definition no_runtime_error {A : Type} (r : result A) : Prop := r <> Raise RuntimeError.

(** The condition under which quadrature may not be used. *)
Definition quadrature_forbidden (env : environment) (k : kern) : Prop :=
  ekern_quadrature env = "error"%string \/ num_gauss_hermite_points (base k) = 0%Z.

(** The warnings a quadrature method issues. *)
Definition quadrature_warnings (env : environment) (k : kern) : list warning :=
  if String.eqb (ekern_quadrature env) "warn"
  then [QuadratureWarning (class_name k)] else [].

(** The [input_dim] that [Combination.__init__] computes from a list. *)
Definition max_child_dim (l : list kern) : result Z :=
  dims <- mapM child_dim l ;; np_max dims.

(** What holds of a combination once its constructor has run: no child is of
    the combination's own class, [input_dim] is the maximum over the children
    and [active_dims] is the default slice.  Other kernels satisfy it vacuously. *)
Definition combination_invariant (k : kern) : Prop :=
  match k with
  | Combination c b l =>
      Forall (fun child => isinstance_combination child c = false) l
      /\ max_child_dim l = Ok (input_dim b)
      /\ active_dims b = ADslice None (Some (input_dim b)) None
  | _ => True
  end.

(** The entry of a parameter that meets dimension [d]: the single one, or the
    [d]-th one of a parameter with an entry per dimension. *)
Definition param_entry (p : vector) (d : nat) : R :=
  match p with
  | [c] => c
  | _ => nth d p 0
  end.

(** The lengthscale of dimension [d]: the single one of an isotropic kernel,
    the [d]-th one under ARD. *)
Definition lengthscale (lengthscales : vector) (d : nat) : R := param_entry lengthscales d.

(** The closed form of the squared distance, as the specification words it:
    the sum over the dimensions of the squared scaled differences. *)
Definition square_dist_naive (lengthscales : vector) (X X2 : matrix) : matrix :=
  map (fun x =>
    map (fun y =>
      reduce_sum (tabulate (length x) (fun d =>
        square ((nth d x 0 - nth d y 0) / lengthscale lengthscales d)))) X2) X.

(** Every row of the matrix has [m] entries. *)
Definition has_cols (m : nat) (A : matrix) : Prop := Forall (fun r => length r = m) A.

(** Two inputs that agree on the columns [ad] selects: they have the same
    number of rows and the same selection. *)
Definition same_selection (ad : active_dims_t) (X X' : matrix) : Prop :=
  nrows X = nrows X' /\ select_cols ad X = select_cols ad X'.

Definition same_selection_opt (ad : active_dims_t) (X2 X2' : option matrix) : Prop :=
  match X2, X2' with
  | None, None => True
  | Some a, Some a' => same_selection ad a a'
  | _, _ => False
  end.

(** Two inputs that agree on what the kernel reads: the columns its own
    [active_dims] selects, and for a combination the columns its children read. *)
Fixpoint agree_on (k : kern) (X X' : matrix) {struct k} : Prop :=
  match k with
  | Combination _ _ l =>
      (fix all (l : list kern) : Prop :=
         match l with
         | [] => True
         | k' :: l' => agree_on k' X X' /\ all l'
         end) l
  | _ => same_selection (active_dims (base k)) X X'
  end.

Definition agree_on_opt (k : kern) (X2 X2' : option matrix) : Prop :=
  match X2, X2' with
  | None, None => True
  | Some a, Some a' => agree_on k a a'
  | _, _ => False
  end.

(** The inputs at which the quadrature evaluates the kernel for the grid point
    [x]: row [n] is [means[n] + sqrt(2) * Ls[n] x], with [Ls[n]] the Cholesky
    factor of the [n]-th covariance. *)
Definition quadrature_location (means : matrix) (Ls : tensor3) (x : vector) : matrix :=
  map2 (fun L mu => map2 (fun l m => sqrt 2 * dot l x + m) L mu) Ls means.

(** The weights of the grid: the products of the one-dimensional weights,
    times [pi^(-D/2)]. *)
Definition quadrature_weights (gh_w : vector) (D : nat) : vector :=
  map (fun w => w * Rpower PI (- IZR (Z.of_nat D) * 0.5))
      (row_products (cartesian_power gh_w D)).

(** Finite sums. *)
Definition sum_over {A : Type} (l : list A) (f : A -> R) : R := reduce_sum (map f l).

(** The entry [A[i, j]]. *)
Definition entry (A : matrix) (i j : nat) : R := nth j (nth i A []) 0.

(** [v^T a v] for an [n x n] matrix given by its entries. *)
Definition quadratic_form (n : nat) (a : nat -> nat -> R) (v : nat -> R) : R :=
  sum_over (seq 0 n) (fun i => sum_over (seq 0 n) (fun j => v i * a i j * v j)).

(** A symmetric matrix whose quadratic form is nowhere negative. *)
Definition positive_semidefinite (A : matrix) : Prop :=
  (forall i j, (i < length A)%nat -> (j < length A)%nat -> entry A i j = entry A j i)
  /\ (forall v : nat -> R, 0 <= quadratic_form (length A) (entry A) v).

(** The sum of the rank-one matrices [f f^T], [f] in [Fs]. *)
Definition gram_of (Fs : list (nat -> R)) (i j : nat) : R :=
  sum_over Fs (fun f => f i * f j).

(** An [n x n] matrix that is such a sum, and one that is the entrywise limit
    of such sums. *)
Definition is_gram (n : nat) (a : nat -> nat -> R) : Prop :=
  exists Fs, forall i j, (i < n)%nat -> (j < n)%nat -> a i j = gram_of Fs i j.

Definition gram_limit (n : nat) (a : nat -> nat -> R) : Prop :=
  exists s : nat -> nat -> nat -> R,
    (forall N, is_gram n (s N))
    /\ (forall i j, (i < n)%nat -> (j < n)%nat -> Un_cv (fun N => s N i j) (a i j)).

(** A parameter with one entry, or with one entry per input dimension. *)
Definition param_shape (b : kern_base) (p : vector) : Prop :=
  length p = 1%nat \/ length p = Z.to_nat (input_dim b).

(** The kernels whose [K(X, X)] is shown positive semi-definite: static, RBF,
    linear, polynomial, periodic and coregionalisation kernels whose
    parameters under the positive transform are non-negative, and the sums and
    products of such kernels. *)
Fixpoint psd_supported (k : kern) : Prop :=
  match k with
  | Static _ _ variance => 0 <= variance
  | Stationary RBF _ variance _ _ => 0 <= variance
  | Stationary _ _ _ _ _ => False
  | Linear b variance _ => Forall (Rle 0) variance /\ param_shape b variance
  | Polynomial b variance _ _ offset =>
      Forall (Rle 0) variance /\ param_shape b variance /\ 0 <= offset
  | PeriodicKernel _ variance _ _ => 0 <= variance
  | Coregion _ _ _ W kappa => Forall (Rle 0) kappa /\ length kappa = length W
  | Combination _ _ l =>
      (fix all (l : list kern) : Prop :=
         match l with
         | [] => True
         | k' :: l' => psd_supported k' /\ all l'
         end) l
  end.

(** A square matrix of size [n] that is a limit of Gram matrices. *)
Definition gram_limit_matrix (n : nat) (A : matrix) : Prop :=
  length A = n /\ has_cols n A /\ gram_limit n (entry A).

(** Active dimensions that select among the first [D] columns only: the
    slice up to some [d <= D], or an array of indices below [D]. *)
Definition dims_within (D : Z) (ad : active_dims_t) : Prop :=
  match ad with
  | ADslice None (Some d) None => (0 <= d <= D)%Z
  | ADslice _ _ _ => False
  | ADarray l => Forall (fun j => (0 <= j < D)%Z) l
  end.

(** A kernel that reads among the first [D] columns only. *)
Fixpoint reads_first (D : Z) (k : kern) {struct k} : Prop :=
  match k with
  | Combination _ _ l =>
      (fix all (l : list kern) : Prop :=
         match l with
         | [] => True
         | k' :: l' => reads_first D k' /\ all l'
         end) l
  | _ => dims_within D (active_dims (base k))
  end.

(** Kernels as the constructors make them from the default [active_dims] or
    from arrays of non-negative indices, and combinations of such kernels. *)
Fixpoint default_dims (k : kern) {struct k} : Prop :=
  match k with
  | Combination c b l =>
      combination_invariant (Combination c b l)
      /\ (fix all (l : list kern) : Prop :=
            match l with
            | [] => True
            | k' :: l' => default_dims k' /\ all l'
            end) l
  | _ =>
      match active_dims (base k) with
      | ADslice None (Some d) None => d = input_dim (base k) /\ (0 <= d)%Z
      | ADslice _ _ _ => False
      | ADarray l => Forall (fun j => (0 <= j)%Z) l
      end
  end.

(** The number of times the name [r] occurs in [l]. *)
Definition occurrences (r : string) (l : list string) : nat := count_occ string_dec l r.

(** The names the docstring of [make_kernel_names] describes, from the
    lower-case class names [raws]: a class name that occurs once is kept, and
    the [n]-th occurrence of one that occurs several times gets the trailing
    number [n]. *)
Definition numbered_name (raws : list string) (i : nat) : string :=
  let r := nth i raws ""%string in
  if Nat.eqb (occurrences r raws) 1 then r
  else (r ++ "_" ++ str (occurrences r (firstn (S i) raws)))%string.

Definition numbered_names (raws : list string) : list string :=
  tabulate (length raws) (numbered_name raws).

(** A name without the character [_]. *)
Fixpoint plain (s : string) : bool :=
  match s with
  | EmptyString => true
  | String c s' =>
      negb (Ascii.eqb c (Ascii.Ascii true true true true true false true false))
      && plain s'
  end.

(** A kernel whose [active_dims] is an array of indices, and two kernels whose
    arrays of indices have no entry in common. *)
Definition array_dims (k : kern) : Prop :=
  exists l, active_dims (base k) = ADarray l.

Definition dims_disjoint (k k' : kern) : Prop :=
  match active_dims (base k), active_dims (base k') with
  | ADarray l, ADarray l' => forall x, In x l -> ~ In x l'
  | _, _ => False
  end.

(** A kernel that is not the white kernel and has none among its children. *)
Fixpoint white_free (k : kern) : Prop :=
  match k with
  | Static White _ _ => False
  | Combination _ _ l =>
      (fix all (l : list kern) : Prop :=
         match l with
         | [] => True
         | k' :: l' => white_free k' /\ all l'
         end) l
  | _ => True
  end.

(** The state of the loop of [make_kernel_names] once the kernels with the
    lower-case class names [p] are named. *)
Definition named (p : list string) (state : list string * list (string * nat)) : Prop :=
  fst state = numbered_names p
  /\ forall r, dict_get (snd state) r
               = if Nat.eqb (occurrences r p) 0 then None else Some (occurrences r p).

(** The diagonal of a square matrix ([tf.diag_part]). *)
Definition diag_part (A : matrix) : vector :=
  tabulate (length A) (fun i => entry A i i).

(** A kernel whose coregionalisation kernels have a [kappa] with an entry per
    row of [W], as [Coregion.__init__] makes them. *)
Fixpoint coregion_shaped (k : kern) : Prop :=
  match k with
  | Coregion _ _ _ W kappa => length kappa = length W
  | Combination _ _ l =>
      (fix all (l : list kern) : Prop :=
         match l with
         | [] => True
         | k' :: l' => coregion_shaped k' /\ all l'
         end) l
  | _ => True
  end.

(** A kernel that involves no stationary kernel computed from
    [euclid_dist], which adds [1e-12] to the squared distance: among the
    stationary classes only [RBF]. *)
Fixpoint jitter_free (k : kern) : Prop :=
  match k with
  | Stationary RBF _ _ _ _ => True
  | Stationary _ _ _ _ _ => False
  | Combination _ _ l =>
      (fix all (l : list kern) : Prop :=
         match l with
         | [] => True
         | k' :: l' => jitter_free k' /\ all l'
         end) l
  | _ => True
  end.

(** What a stationary class makes of a squared distance [d]: the formula
    of its [K], with [euclid_dist]'s square root and its [1e-12] written
    out. *)
Definition stationary_profile (c : stationary_class) (variance d : R) : R :=
  match c with
  | RBF => variance * exp (- d / 2)
  | Exponential => variance * exp (- 0.5 * sqrt (d + 1e-12))
  | Matern12 => variance * exp (- sqrt (d + 1e-12))
  | Matern32 =>
      variance * (1 + sqrt 3 * sqrt (d + 1e-12)) * exp (- sqrt 3 * sqrt (d + 1e-12))
  | Matern52 =>
      variance * (1 + sqrt 5 * sqrt (d + 1e-12) + 5 / 3 * square (sqrt (d + 1e-12)))
      * exp (- sqrt 5 * sqrt (d + 1e-12))
  | Cosine => variance * cos (sqrt (d + 1e-12))
  end.

(** The linear kernel in closed form: for the rows [x] and [y], the sum over
    the dimensions of [variance_d * x_d * y_d] (one variance for all
    dimensions, or one each under ARD). *)
Definition linear_naive (variance : vector) (X X2 : matrix) : matrix :=
  map (fun x =>
    map (fun y =>
      reduce_sum (tabulate (length x) (fun d =>
        param_entry variance d * nth d x 0 * nth d y 0))) X2) X.

(** The entry of [B = W W^T + diag(kappa)] for the outputs [o] and [p]. *)
Definition coregion_entry (W : matrix) (kappa : vector) (o p : Z) : R :=
  dot (nth (Z.to_nat o) W []) (nth (Z.to_nat p) W [])
  + (if (o =? p)%Z then nth (Z.to_nat o) kappa 0 else 0).

(** The default active dimensions, [slice(input_dim)], on inputs of [n]
    columns. *)
Definition slices_default (n : nat) (b : kern_base) : Prop :=
  active_dims b = ADslice None (Some (input_dim b)) None
  /\ (0 <= input_dim b <= Z.of_nat n)%Z.

(** A parameter with one entry, or with one entry per input dimension. *)
Definition sized (b : kern_base) (p : vector) : Prop :=
  length p = 1%nat \/ Z.of_nat (length p) = input_dim b.

(** Kernels that can be evaluated on inputs of [n] columns: default active
    dimensions and parameters of the sizes the constructors give them, no
    [Coregion] kernel (it reads labels), no combination without children. *)
Fixpoint regular (n : nat) (k : kern) : Prop :=
  match k with
  | Static _ _ _ => True
  | Stationary _ b _ lengthscales _ => slices_default n b /\ sized b lengthscales
  | Linear b variance _ => slices_default n b /\ sized b variance
  | Polynomial b variance _ _ _ => slices_default n b /\ sized b variance
  | PeriodicKernel b _ _ _ => slices_default n b
  | Coregion _ _ _ _ _ => False
  | Combination _ _ l =>
      l <> []
      /\ (fix all (l : list kern) : Prop :=
            match l with
            | [] => True
            | k' :: l' => regular n k' /\ all l'
            end) l
  end.

(** The second input of [K], when there is one, has [n] columns. *)
Definition has_cols_if (n : nat) (X2 : option matrix) : Prop :=
  match X2 with
  | None => True
  | Some x2 => has_cols n x2
  end.

(** The means and the covariances of the pairs of consecutive inputs, as
    [exKxz] puts them together: [fXmu] and [fXcov]. *)
Definition pair_means (Xmu : matrix) : matrix :=
  map2 (@app R) (removelast Xmu) (tl Xmu).

Definition pair_covariances (Xcov0 Xcov1 : tensor3) : tensor3 :=
  map2 (@app vector)
       (map2 (map2 (@app R)) (removelast Xcov0) (removelast Xcov1))
       (map2 (map2 (@app R)) (transpose_021 (removelast Xcov1)) (tl Xcov0)).

(** [tf.expand_dims(x, 2) * tf.expand_dims(Kxz, 3)] for one grid point: for
    each pair, the products of the entries of its row of [Kxz] with the
    entries of its row of [x]. *)
Definition pair_products (X : matrix) (Kxz : matrix) : tensor3 :=
  map2 (fun x kz => map (fun c => map (Rmult c) x) kz) X Kxz.

(** The rows and the columns of [C] at the positions [idx]. *)
Definition submatrix (idx : list Z) (C : matrix) : matrix :=
  map (fun i => map (fun j => entry C (Z.to_nat i) (Z.to_nat j)) idx) idx.

(** What a kernel brings to a combination of class [cls]: its own children
    when it is itself a combination of that class, else the kernel. *)
Definition parts (cls : combination_class) (k : kern) : list kern :=
  match k, cls with
  | Combination Add _ l, Add => l
  | Combination Prod _ l, Prod => l
  | _, _ => [k]
  end.

(** The number of columns a child reaches: its [input_dim] when its
    [active_dims] is a slice, the largest index plus one when it is an
    array. *)
Definition extent (k : kern) (d : Z) : Prop :=
  match active_dims (base k) with
  | ADslice _ _ _ => d = input_dim (base k)
  | ADarray l => In (d - 1)%Z l /\ Forall (fun j => (j < d)%Z) l
  end.

(** [d] is the greatest of the extents of the kernels of [l]. *)
Definition greatest_extent (l : list kern) (d : Z) : Prop :=
  (exists k, In k l /\ extent k d)
  /\ (forall k e, In k l -> extent k e -> (e <= d)%Z).

(** The operation on entries that a combination applies: the sum for [Add],
    the product for [Prod]. *)
Definition combine_entries (c : combination_class) : R -> R -> R :=
  match c with
  | Add => Rplus
  | Prod => Rmult
  end.

(** The input whose rows index the columns of [K(X, X2)]. *)
Definition column_input (X : matrix) (X2 : option matrix) : matrix :=
  match X2 with
  | Some Z => Z
  | None => X
  end.

(** The sum [f 0 + (f 1 + (... + (f (n-1) + 0)))]. *)
Definition big_sum (n : nat) (f : nat -> R) : R := fold_right Rplus 0 (map f (seq 0 n)).


(** The product [f 0 * (f 1 * (... * (f (n-1) * 1)))]. *)
Definition big_prod (n : nat) (f : nat -> R) : R := fold_right Rmult 1 (map f (seq 0 n)).

(** Digit [d], counted from the left, of [t] written with [D] digits in base
    [H]: the position along axis [d] of the [t]-th point of the grid, whose
    last axis varies fastest. *)
Definition digit (H D t d : nat) : nat := ((t / H ^ (D - 1 - d)) mod H)%nat.

(** Coordinate [d] of the [t]-th point of the grid made of [D] copies of the
    one-dimensional rule [gh]. *)
Definition grid_coordinate (gh : vector) (D t d : nat) : R :=
  nth (digit (length gh) D t d) gh 0.

(** The weight of the [t]-th grid point: the product of the one-dimensional
    weights, times [pi^(-D/2)]. *)
Definition grid_weight (gh_w : vector) (D t : nat) : R :=
  big_prod D (grid_coordinate gh_w D t) * Rpower PI (- IZR (Z.of_nat D) * 0.5).

(** The inputs at which the quadrature evaluates the kernel for the [t]-th
    grid point: entry [d] of row [n] is
    [sqrt(2) * sum_e Ls[n][d][e] * x_t[e] + means[n][d]]. *)
Definition grid_location (means : matrix) (Ls : tensor3) (gh_x : vector) (D t : nat)
  : matrix :=
  map (fun n =>
    map (fun d =>
      sqrt 2 * big_sum D (fun e => nth e (nth d (nth n Ls []) []) 0
                                   * grid_coordinate gh_x D t e)
      + nth d (nth n means []) 0) (seq 0 D)) (seq 0 (length means)).



(** Static kernels, periodic kernels with a non-zero lengthscale and period,
    and the sums and products of such kernels. *)
Fixpoint static_or_periodic (k : kern) : Prop :=
  match k with
  | Static _ _ _ => True
  | PeriodicKernel _ _ lengthscales period => lengthscales <> 0 /\ period <> 0
  | Combination _ _ l =>
      (fix all (l : list kern) : Prop :=
         match l with
         | [] => True
         | k' :: l' => static_or_periodic k' /\ all l'
         end) l
  | _ => False
  end.

(** ** Sample objects *)

(** [Kern.__init__(self, 1)]'s attributes. *)
Definition base1 : kern_base := mk_base 1 (ADslice None (Some 1%Z) None) 20 None.

(** [White(1)], [Constant(1, variance=2.0)] and their sum and product. *)
Definition white1 : kern := Static White base1 1.
Definition constant1 : kern := Static Constant base1 2.
Definition white_plus_constant : kern := Combination Add base1 [white1; constant1].
Definition white_times_constant : kern := Combination Prod base1 [white1; constant1].

(** [Linear(1, active_dims=slice(1, 2))], which reads the second column, and
    the sum of two such kernels. *)
Definition linear_second_column : kern :=
  Linear (mk_base 1 (ADslice (Some 1%Z) (Some 2%Z) None) 20 None) [1] false.
Definition sum_second_column : kern :=
  Combination Add base1 [linear_second_column; linear_second_column].

(** An environment with the setting "warn", the one-point Gauss-Hermite rule
    (node 0, weight [sqrt pi]) and the Cholesky factor of a 1 x 1 matrix. *)
Definition one_point_env : environment :=
  mk_environment "warn"
    (fun n => if (n =? 1)%Z then Some ([0], [sqrt PI]) else None)
    (fun A => match A with
              | [[a]] => Some [[sqrt a]]
              | _ => None
              end).

(** [Coregion(1, output_dim=2, rank=1)] with [num_gauss_hermite_points] set
    to 1. *)
Definition base1_one_point : kern_base := mk_base 1 (ADslice None (Some 1%Z) None) 1 None.
Definition coregion_one_point : kern :=
  Coregion base1_one_point 2 1 (fill2 2 1 0) (fill1 2 1).


(** [RBF(1)], [Linear(1)], [Polynomial(1)] of degree 3, [PeriodicKernel(1)] and
    [Coregion(1, output_dim=2, rank=1)], with their initial parameters. *)
Definition rbf1 : kern := Stationary RBF base1 1 [1] false.
Definition linear1 : kern := Linear base1 [1] false.
Definition polynomial1 : kern := Polynomial base1 [1] false 3 1.
Definition periodic1 : kern := PeriodicKernel base1 1 1 1.
Definition coregion1 : kern := Coregion base1 2 1 (fill2 2 1 0) (fill1 2 1).

(** [Kern.__init__(self, 2, active_dims=[1, 0])]'s attributes. *)
Definition base_swapped : kern_base := mk_base 2 (ADarray [1; 0]%Z) 20 None.


(** [Linear(2, active_dims=[2, 0])], which reads the columns 2 and 0. *)
Definition linear_columns_2_0 : kern :=
  Linear (mk_base 2 (ADarray [2; 0]%Z) 20 None) [1] false.

(** An environment with the setting "warn", the two-point Gauss-Hermite rule
    (nodes [-1/sqrt 2] and [1/sqrt 2], weights [sqrt pi / 2]) and the Cholesky
    factor of a diagonal matrix. *)
Definition two_point_env : environment :=
  mk_environment "warn"
    (fun n => if (n =? 2)%Z then Some ([- / sqrt 2; / sqrt 2], [sqrt PI / 2; sqrt PI / 2])
              else None)
    (fun A => Some (mmap sqrt A)).

(** [Linear(2)] and [Linear(1)], each with [num_gauss_hermite_points] set to 2. *)
Definition linear2_two_point : kern :=
  Linear (mk_base 2 (ADslice None (Some 2%Z) None) 2 None) [1] false.
Definition linear1_two_point : kern :=
  Linear (mk_base 1 (ADslice None (Some 1%Z) None) 2 None) [1] false.

(** ** The arithmetic of [float64] *)

(** The same methods on tensors of IEEE 754 binary64 numbers, the default
    [float_type]: every arithmetic operation rounds to nearest, ties to even.
    What the module takes from the platform's mathematical library is a
    parameter of the model.  [tf.reduce_sum] and [tf.matmul] add the terms
    from the last to the first, starting from zero; their order of summation
    is not fixed by the source, and the examples below use inputs of one
    column, whose sums have one term. *)
Module Binary64.

Import PrimFloat.
Local Open Scope float_scope.

Abbreviation vector := (list float) (only parsing).
Abbreviation matrix := (list (list float)) (only parsing).

(** [tf.exp], [tf.sin], [tf.cos] and [tf.pow] on [float64]. *)
Record libm : Type := mk_libm {
  exp : float -> float;
  sin : float -> float;
  cos : float -> float;
  pow : float -> float -> float
}.

(** *** Tensor primitives *)

Definition reduce_sum (v : vector) : float := fold_right PrimFloat.add 0 v.
Definition square (x : float) : float := x * x.
Definition dot (a b : vector) : float := reduce_sum (map2 PrimFloat.mul a b).

Definition nrows (A : matrix) : nat := length A.
Definition ncols (A : matrix) : nat :=
  match A with
  | [] => 0%nat
  | r :: _ => length r
  end.

Definition fill1 (n : nat) (c : float) : vector := repeat c n.
Definition fill2 (n m : nat) (c : float) : matrix := repeat (repeat c m) n.

Definition diag (d : vector) : matrix :=
  tabulate (length d) (fun i =>
    tabulate (length d) (fun j => if Nat.eqb i j then nth i d 0 else 0)).

Definition transpose_n (c : nat) (A : matrix) : matrix :=
  tabulate c (fun j => map (fun row => nth j row 0) A).

Definition vmap (f : float -> float) (v : vector) : vector := map f v.
Definition mmap (f : float -> float) (A : matrix) : matrix := map (map f) A.

Definition vadd (a b : vector) : vector := map2 PrimFloat.add a b.
Definition vmul (a b : vector) : vector := map2 PrimFloat.mul a b.
Definition madd (A B : matrix) : matrix := map2 vadd A B.
Definition mmul (A B : matrix) : matrix := map2 vmul A B.

Definition bcast_vec (f : float -> float -> float) (a b : vector) : result vector :=
  if Nat.eqb (length a) (length b) then Ok (map2 f a b)
  else if Nat.eqb (length a) 1 then Ok (map (f (hd 0 a)) b)
  else if Nat.eqb (length b) 1 then Ok (map (fun x => f x (hd 0 b)) a)
  else Raise InvalidArgumentError.

Definition bcast_mat (f : float -> float -> float) (A B : matrix) : result matrix :=
  if Nat.eqb (length A) (length B) then
    mapM (fun p => bcast_vec f (fst p) (snd p)) (combine A B)
  else if Nat.eqb (length A) 1 then mapM (bcast_vec f (hd [] A)) B
  else if Nat.eqb (length B) 1 then mapM (fun a => bcast_vec f a (hd [] B)) A
  else Raise InvalidArgumentError.

Definition bcast_rows (f : float -> float -> float) (A : matrix) (p : vector)
  : result matrix :=
  mapM (fun a => bcast_vec f a p) A.

Definition matmul_nt (A B : matrix) : result matrix :=
  mapM (fun a =>
    mapM (fun b =>
      if Nat.eqb (length a) (length b) then Ok (dot a b)
      else Raise InvalidArgumentError) B) A.

(** [tf.cast(x, tf.int32)]: the integer part of a finite number. *)
Definition cast_int32 (x : float) : Z :=
  match Prim2SF x with
  | S754_finite s m e =>
      let z := if (0 <=? e)%Z then (Zpos m * 2 ^ e)%Z else (Zpos m / 2 ^ (- e))%Z in
      if s then (- z)%Z else z
  | _ => 0%Z
  end.

Definition column0_int32 (X : matrix) : result (list Z) :=
  mapM (fun row =>
    match row with
    | [] => Raise InvalidArgumentError
    | x :: _ => Ok (cast_int32 x)
    end) X.

(** *** The kernel classes *)

(** A kernel object: [degree] of [Polynomial] is the float the source raises
    to. *)
#[warnings="-register-all"] Inductive kern : Type :=
| Static (c : static_class) (b : kern_base) (variance : float)
| Stationary (c : stationary_class) (b : kern_base)
    (variance : float) (lengthscales : vector) (ARD : bool)
| Linear (b : kern_base) (variance : vector) (ARD : bool)
| Polynomial (b : kern_base) (variance : vector) (ARD : bool) (degree : float)
    (offset : float)
| PeriodicKernel (b : kern_base) (variance lengthscales period : float)
| Coregion (b : kern_base) (output_dim rank : nat) (W : matrix) (kappa : vector)
| Combination (c : combination_class) (b : kern_base) (kern_list : list kern).

Definition base (k : kern) : kern_base :=
  match k with
  | Static _ b _ => b
  | Stationary _ b _ _ _ => b
  | Linear b _ _ => b
  | Polynomial b _ _ _ _ => b
  | PeriodicKernel b _ _ _ => b
  | Coregion b _ _ _ _ => b
  | Combination _ b _ => b
  end.

Definition isinstance_combination (k : kern) (cls : combination_class) : bool :=
  match k with
  | Combination c _ _ => combination_class_eqb c cls
  | _ => false
  end.

Definition kern_list_of (k : kern) : list kern :=
  match k with
  | Combination _ _ l => l
  | _ => []
  end.

(** *** Construction *)

Definition Static_init (c : static_class) (input_dim : Z) (variance : float)
  (active_dims : option active_dims_t) : result kern :=
  b <- Kern_init input_dim active_dims ;;
  Ok (Static c b variance).

Definition child_dim (k : kern) : result Z :=
  match active_dims (base k) with
  | ADslice _ _ _ => Ok (input_dim (base k))
  | ADarray l => m <- np_max l ;; Ok (m + 1)%Z
  end.

Definition flatten_kern_list (cls : combination_class) (kern_list : list kern) : list kern :=
  flat_map (fun k => if isinstance_combination k cls then kern_list_of k else [k])
           kern_list.

Definition Combination_init (cls : combination_class) (kern_list : list kern)
  : result kern :=
  dims <- mapM child_dim kern_list ;;
  d <- np_max dims ;;
  b <- Kern_init d None ;;
  Ok (Combination cls b (flatten_kern_list cls kern_list)).

Definition kern_add (self other : kern) : result kern := Combination_init Add [self; other].
Definition kern_mul (self other : kern) : result kern := Combination_init Prod [self; other].

(** *** Slicing *)

Definition getitem_cols (start stop step : option Z) (X : matrix) : result matrix :=
  mapM (fun row =>
    idx <- slice_indices start stop step (Z.of_nat (length row)) ;;
    Ok (map (fun j => nth (Z.to_nat j) row 0) idx)) X.

Definition gather_cols (indices : list Z) (X : matrix) : result matrix :=
  mapM (fun row => gather row indices) X.

Definition select_cols (ad : active_dims_t) (X : matrix) : result matrix :=
  match ad with
  | ADslice start stop step => getitem_cols start stop step X
  | ADarray l => gather_cols l X
  end.

Definition assert_cols (d : Z) (X : matrix) : result unit :=
  if forallb (fun row => (Z.of_nat (length row) =? d)%Z) X
  then Ok tt else Raise InvalidArgumentError.

Definition _slice (b : kern_base) (X : matrix) (X2 : option matrix)
  : result (matrix * option matrix) :=
  Xs <- select_cols (active_dims b) X ;;
  X2s <- match X2 with
         | None => Ok None
         | Some x2 => x2s <- select_cols (active_dims b) x2 ;; Ok (Some x2s)
         end ;;
  _ <- assert_cols (input_dim b) Xs ;;
  Ok (Xs, X2s).

Definition slice_unless (presliced : bool) (b : kern_base) (X : matrix) (X2 : option matrix)
  : result (matrix * option matrix) :=
  if presliced then Ok (X, X2) else _slice b X X2.

(** *** Static kernels *)

Definition Static_Kdiag (variance : float) (X : matrix) : vector :=
  fill1 (nrows X) variance.

Definition White_K (variance : float) (X : matrix) (X2 : option matrix) : matrix :=
  match X2 with
  | None => diag (fill1 (nrows X) variance)
  | Some x2 => fill2 (nrows X) (nrows x2) 0
  end.

Definition Constant_K (variance : float) (X : matrix) (X2 : option matrix) : matrix :=
  match X2 with
  | None => fill2 (nrows X) (nrows X) variance
  | Some x2 => fill2 (nrows X) (nrows x2) variance
  end.

(** *** Stationary kernels *)

Definition row_sumsq (X : matrix) : vector := map (fun row => reduce_sum (map square row)) X.
Definition as_column (v : vector) : matrix := map (fun x => [x]) v.
Definition as_row (v : vector) : matrix := [v].

(** [Stationary.square_dist(self, X, X2)]. *)
Definition square_dist (lengthscales : vector) (X : matrix) (X2 : option matrix)
  : result matrix :=
  X <- bcast_rows PrimFloat.div X lengthscales ;;
  let Xs := row_sumsq X in
  match X2 with
  | None =>
      P <- matmul_nt X X ;;
      S <- bcast_mat PrimFloat.add (mmap (PrimFloat.mul (-2)) P) (as_column Xs) ;;
      bcast_mat PrimFloat.add S (as_row Xs)
  | Some X2 =>
      X2 <- bcast_rows PrimFloat.div X2 lengthscales ;;
      let X2s := row_sumsq X2 in
      P <- matmul_nt X X2 ;;
      S <- bcast_mat PrimFloat.add (mmap (PrimFloat.mul (-2)) P) (as_column Xs) ;;
      bcast_mat PrimFloat.add S (as_row X2s)
  end.

(** [Stationary.euclid_dist(self, X, X2)]. *)
Definition euclid_dist (lengthscales : vector) (X : matrix) (X2 : option matrix)
  : result matrix :=
  r2 <- square_dist lengthscales X X2 ;;
  Ok (mmap (fun x => sqrt (x + 1e-12)) r2).

Definition Stationary_Kdiag (variance : float) (X : matrix) : vector :=
  fill1 (nrows X) variance.

(** The [K] methods of the subclasses of [Stationary]. *)
Definition Stationary_K (m : libm) (c : stationary_class) (b : kern_base) (variance : float)
  (lengthscales : vector) (X : matrix) (X2 : option matrix) (presliced : bool)
  : result matrix :=
  '(X, X2) <- slice_unless presliced b X X2 ;;
  match c with
  | RBF =>
      r2 <- square_dist lengthscales X X2 ;;
      Ok (mmap (fun d => variance * exp m (- d / 2)) r2)
  | Exponential =>
      r <- euclid_dist lengthscales X X2 ;;
      Ok (mmap (fun r => variance * exp m (- 0.5 * r)) r)
  | Matern12 =>
      r <- euclid_dist lengthscales X X2 ;;
      Ok (mmap (fun r => variance * exp m (- r)) r)
  | Matern32 =>
      r <- euclid_dist lengthscales X X2 ;;
      Ok (mmap (fun r => variance * (1 + sqrt 3 * r) * exp m (- sqrt 3 * r)) r)
  | Matern52 =>
      r <- euclid_dist lengthscales X X2 ;;
      Ok (mmap (fun r => variance * (1 + sqrt 5 * r + 5 / 3 * square r)
                         * exp m (- sqrt 5 * r)) r)
  | Cosine =>
      r <- euclid_dist lengthscales X X2 ;;
      Ok (mmap (fun r => variance * cos m r) r)
  end.

(** *** Linear and polynomial kernels *)

Definition Linear_K (b : kern_base) (variance : vector)
  (X : matrix) (X2 : option matrix) (presliced : bool) : result matrix :=
  '(X, X2) <- slice_unless presliced b X X2 ;;
  Xv <- bcast_rows PrimFloat.mul X variance ;;
  match X2 with
  | None => matmul_nt Xv X
  | Some X2 => matmul_nt Xv X2
  end.

Definition Linear_Kdiag (b : kern_base) (variance : vector)
  (X : matrix) (presliced : bool) : result vector :=
  '(X, _) <- slice_unless presliced b X None ;;
  Xv <- bcast_rows PrimFloat.mul (mmap square X) variance ;;
  Ok (map reduce_sum Xv).

Definition Polynomial_K (m : libm) (b : kern_base) (variance : vector)
  (degree offset : float)
  (X : matrix) (X2 : option matrix) (presliced : bool) : result matrix :=
  L <- Linear_K b variance X X2 presliced ;;
  Ok (mmap (fun x => pow m (x + offset) degree) L).

Definition Polynomial_Kdiag (m : libm) (b : kern_base) (variance : vector)
  (degree offset : float) (X : matrix) (presliced : bool) : result vector :=
  L <- Linear_Kdiag b variance X presliced ;;
  Ok (vmap (fun x => pow m (x + offset) degree) L).

(** *** The periodic kernel *)

(** [np.pi]. *)
Definition pi : float := 0x1.921fb54442d18p+1.

Definition PeriodicKernel_Kdiag (variance : float) (X : matrix) : vector :=
  fill1 (nrows X) variance.

Definition periodic_entry (m : libm) (variance lengthscales period : float) (x y : vector)
  : result float :=
  d <- bcast_vec PrimFloat.sub x y ;;
  let r := map (fun t => pi * t / period) d in
  let r := reduce_sum (map (fun t => square (sin m t / lengthscales)) r) in
  Ok (variance * exp m (- 0.5 * r)).

Definition PeriodicKernel_K (m : libm) (b : kern_base) (variance lengthscales period : float)
  (X : matrix) (X2 : option matrix) (presliced : bool) : result matrix :=
  '(X, X2) <- slice_unless presliced b X X2 ;;
  let X2 := match X2 with None => X | Some x2 => x2 end in
  mapM (fun x => mapM (fun y => periodic_entry m variance lengthscales period x y) X2) X.

(** *** The coregionalisation kernel *)

Definition coregion_B (W : matrix) (kappa : vector) : result matrix :=
  WWt <- matmul_nt W W ;;
  bcast_mat PrimFloat.add WWt (diag kappa).

Definition Coregion_K (b : kern_base) (W : matrix) (kappa : vector)
  (X : matrix) (X2 : option matrix) : result matrix :=
  '(X, X2) <- _slice b X X2 ;;
  X <- column0_int32 X ;;
  X2 <- match X2 with
        | None => Ok X
        | Some x2 => column0_int32 x2
        end ;;
  B <- coregion_B W kappa ;;
  G <- gather B X2 ;;
  gather (transpose_n (ncols B) G) X.

Definition Coregion_Kdiag (b : kern_base) (W : matrix) (kappa : vector) (X : matrix)
  : result vector :=
  '(X, _) <- _slice b X None ;;
  X <- column0_int32 X ;;
  Bdiag <- bcast_vec PrimFloat.add (row_sumsq W) kappa ;;
  gather Bdiag X.

(** *** Method dispatch *)

Definition combine_K (c : combination_class) : matrix -> matrix -> matrix :=
  match c with
  | Add => madd
  | Prod => mmul
  end.

Definition combine_Kdiag (c : combination_class) : vector -> vector -> vector :=
  match c with
  | Add => vadd
  | Prod => vmul
  end.

Fixpoint K (m : libm) (k : kern) (X : matrix) (X2 : option matrix) (presliced : option bool)
  {struct k} : result matrix :=
  match k with
  | Static White _ variance => Ok (White_K variance X X2)
  | Static _ _ variance => Ok (Constant_K variance X X2)
  | Stationary c b variance lengthscales _ =>
      Stationary_K m c b variance lengthscales X X2 (presliced_arg presliced)
  | Linear b variance _ => Linear_K b variance X X2 (presliced_arg presliced)
  | Polynomial b variance _ degree offset =>
      Polynomial_K m b variance degree offset X X2 (presliced_arg presliced)
  | PeriodicKernel b variance lengthscales period =>
      PeriodicKernel_K m b variance lengthscales period X X2 (presliced_arg presliced)
  | Coregion b _ _ W kappa =>
      match presliced with
      | Some _ => Raise TypeError
      | None => Coregion_K b W kappa X X2
      end
  | Combination c _ kern_list =>
      Ks <- (fix each (l : list kern) : result (list matrix) :=
               match l with
               | [] => Ok []
               | k' :: l' => A <- K m k' X X2 None ;; As <- each l' ;; Ok (A :: As)
               end) kern_list ;;
      reduce (combine_K c) Ks
  end.

Fixpoint Kdiag (m : libm) (k : kern) (X : matrix) (presliced : option bool) {struct k}
  : result vector :=
  match k with
  | Static _ _ variance =>
      match presliced with
      | Some _ => Raise TypeError
      | None => Ok (Static_Kdiag variance X)
      end
  | Stationary _ _ variance _ _ => Ok (Stationary_Kdiag variance X)
  | Linear b variance _ => Linear_Kdiag b variance X (presliced_arg presliced)
  | Polynomial b variance _ degree offset =>
      Polynomial_Kdiag m b variance degree offset X (presliced_arg presliced)
  | PeriodicKernel _ variance _ _ => Ok (PeriodicKernel_Kdiag variance X)
  | Coregion b _ _ W kappa =>
      match presliced with
      | Some _ => Raise TypeError
      | None => Coregion_Kdiag b W kappa X
      end
  | Combination c _ kern_list =>
      Ks <- (fix each (l : list kern) : result (list vector) :=
               match l with
               | [] => Ok []
               | k' :: l' => a <- Kdiag m k' X None ;; As <- each l' ;; Ok (a :: As)
               end) kern_list ;;
      reduce (combine_Kdiag c) Ks
  end.

(** *** Vocabulary of the statements *)

(** The real number a float stands for (zero for infinities and NaN). *)
Definition to_R (x : float) : R :=
  match Prim2SF x with
  | S754_finite s m e =>
      (IZR (if s then Zneg m else Zpos m)
       * (if (0 <=? e)%Z then IZR (2 ^ e) else / IZR (2 ^ (- e))))%R
  | _ => 0%R
  end.


(** The lengthscale of dimension [d]. *)
Definition lengthscale (lengthscales : vector) (d : nat) : float :=
  match lengthscales with
  | [c] => c
  | _ => nth d lengthscales 0
  end.

(** The closed form of the squared distance, evaluated in [float64]. *)
Definition square_dist_naive (lengthscales : vector) (X X2 : matrix) : matrix :=
  map (fun x =>
    map (fun y =>
      reduce_sum (tabulate (length x) (fun d =>
        square ((nth d x 0 - nth d y 0) / lengthscale lengthscales d)))) X2) X.

(** *** Sample objects *)

(** Values of the correctly rounded elementary functions at the arguments the
    examples reach ([nan] stands for an argument outside the table). *)
Fixpoint lookup (table : list (float * float)) (x : float) : float :=
  match table with
  | [] => nan
  | (a, v) :: table' => if (a =? x) then v else lookup table' x
  end.

Definition sample_libm : libm :=
  mk_libm
    (lookup [(-0, 1);
             (-2, 0x1.152aaa3bf81ccp-3);
             (-0x1.0c6f7a0b5ed8dp-21, 0x1.ffffef3908a5bp-1);
             (-0x1.0000000000233p+0, 0x1.78b56362cebfbp-2);
             (-0x1.0c6f7a0b5ed8dp-20, 0x1.ffffde7211d81p-1);
             (-0x1.0000000000233p+1, 0x1.152aaa3bf7d09p-3);
             (-0x1.d0f1a00b8dd07p-20, 0x1.ffffc5e1cf4b0p-1);
             (-0x1.bb67ae8585079p+1, 0x1.006b3136e3e8ep-5);
             (-0x1.2c1eb5ef1f1f9p-19, 0x1.ffffb4f858039p-1);
             (-0x1.1e3779b97f71dp+2, 0x1.764e279f10562p-7);
             (-0x1.ccd838163a8bfp-56, 1);
             (-0x1.ccd838163a8bfp-54, 0x1.fffffffffffffp-1)])
    (lookup [(0, 0);
             (0x1.e5bfd5e256361p-28, 0x1.e5bfd5e256361p-28);
             (-0x1.e5bfd5e256361p-28, -0x1.e5bfd5e256361p-28);
             (0x1.e5bfd5e256361p-27, 0x1.e5bfd5e256361p-27);
             (-0x1.e5bfd5e256361p-27, -0x1.e5bfd5e256361p-27)])
    (lookup [(0x1.0c6f7a0b5ed8dp-20, 0x1.fffffffffee68p-1);
             (0x1.0000000000233p+1, -0x1.aa22657538204p-2)])
    (fun x y => if (y =? 1) then x else nan).

Definition constant_01 : kern := Static Constant base1 0.1.
Definition constant_02 : kern := Static Constant base1 0.2.
Definition constant_03 : kern := Static Constant base1 0.3.

Definition sum_02_03 : kern := Combination Add base1 [constant_02; constant_03].
Definition product_02_03 : kern := Combination Prod base1 [constant_02; constant_03].

Definition linear1 : kern := Linear base1 [1] false.
Definition polynomial1 : kern := Polynomial base1 [1] false 1 1.
Definition periodic1 : kern := PeriodicKernel base1 1 1 1.


End Binary64.

(** * Properties *)

(** ** The error monad and the list primitives *)

Lemma bind_Ok {A B : Type} (c : result A) (f : A -> result B) (b : B) :
  bind c f = Ok b -> exists a, c = Ok a /\ f a = Ok b.
Proof.
  destruct c as [a|e]; simpl; intros H; [exists a; auto | discriminate].
Qed.

Lemma mapM_Ok_map {A B : Type} (f : A -> result B) (g : A -> B) (l : list A) :
  (forall a, In a l -> f a = Ok (g a)) -> mapM f l = Ok (map g l).
Proof.
  induction l as [|a l IH]; intros H; simpl; [reflexivity|].
  rewrite (H a (or_introl eq_refl)); simpl.
  rewrite IH; [reflexivity|]. intros; apply H; right; assumption.
Qed.

Lemma mapM_ext {A B : Type} (f g : A -> result B) (l : list A) :
  (forall a, In a l -> f a = g a) -> mapM f l = mapM g l.
Proof.
  induction l as [|a l IH]; intros H; simpl; [reflexivity|].
  rewrite (H a (or_introl eq_refl)), IH; [reflexivity|].
  intros; apply H; right; assumption.
Qed.

Lemma mapM_app {A B : Type} (f : A -> result B) (l1 l2 : list A) :
  mapM f (l1 ++ l2) = (a <- mapM f l1 ;; b <- mapM f l2 ;; Ok (a ++ b)).
Proof.
  induction l1 as [|x l1 IH]; simpl.
  - destruct (mapM f l2); reflexivity.
  - destruct (f x); simpl; [|reflexivity].
    rewrite IH. destruct (mapM f l1); simpl; [|reflexivity].
    destruct (mapM f l2); reflexivity.
Qed.

Lemma mapM_length {A B : Type} (f : A -> result B) (l : list A) (r : list B) :
  mapM f l = Ok r -> length r = length l.
Proof.
  revert r; induction l as [|a l IH]; simpl; intros r H.
  - injection H as <-; reflexivity.
  - destruct (f a); simpl in H; [|discriminate].
    destruct (mapM f l) as [bs|]; simpl in H; [|discriminate].
    injection H as <-; simpl; f_equal; apply IH; reflexivity.
Qed.

(** Structural induction on kernels, through the children of a combination. *)
Lemma kern_induction (P : kern -> Prop) :
  (forall c b v, P (Static c b v)) ->
  (forall c b v ls ard, P (Stationary c b v ls ard)) ->
  (forall b v ard, P (Linear b v ard)) ->
  (forall b v ard d o, P (Polynomial b v ard d o)) ->
  (forall b v ls p, P (PeriodicKernel b v ls p)) ->
  (forall b o r W kappa, P (Coregion b o r W kappa)) ->
  (forall c b l, Forall P l -> P (Combination c b l)) ->
  forall k, P k.
Proof.
  intros H1 H2 H3 H4 H5 H6 H7.
  fix IH 1. intros [c b v|c b v ls ard|b v ard|b v ard d o|b v ls p|b o r W kappa|c b l].
  - apply H1.
  - apply H2.
  - apply H3.
  - apply H4.
  - apply H5.
  - apply H6.
  - apply H7. induction l as [|k l IHl]; constructor; [apply IH | apply IHl].
Qed.

(** The methods of a combination, with the list comprehension as [mapM]. *)
Lemma K_Combination c b l X X2 ps :
  K (Combination c b l) X X2 ps =
  (Ks <- mapM (fun k' => K k' X X2 None) l ;; reduce (combine_K c) Ks).
Proof.
  simpl. f_equal. induction l as [|k l IH]; simpl; [reflexivity|].
  rewrite IH; reflexivity.
Qed.

Lemma Kdiag_Combination c b l X ps :
  Kdiag (Combination c b l) X ps =
  (Ks <- mapM (fun k' => Kdiag k' X None) l ;; reduce (combine_Kdiag c) Ks).
Proof.
  simpl. f_equal. induction l as [|k l IH]; simpl; [reflexivity|].
  rewrite IH; reflexivity.
Qed.

(** ** Diagonals of stationary and static kernels *)

(** C9: for every static and every stationary kernel, [Kdiag(X)] is a vector
    with one entry per row of [X], each equal to the variance parameter,
    whatever the entries of [X] are. *)
Theorem Kdiag_static_stationary_is_variance :
  (forall c b variance X,
     exists d, Kdiag (Static c b variance) X None = Ok d
               /\ length d = nrows X /\ Forall (eq variance) d)
  /\ (forall c b variance lengthscales ARD X presliced,
        exists d, Kdiag (Stationary c b variance lengthscales ARD) X presliced = Ok d
                  /\ length d = nrows X /\ Forall (eq variance) d).
Proof.
  split; intros; eexists; (split; [reflexivity|]);
    unfold Static_Kdiag, Stationary_Kdiag, fill1;
    (split; [apply repeat_length|]);
    apply Forall_forall; intros x Hx; symmetry; eapply repeat_spec; eassumption.
Qed.

(** ** The white kernel *)

Lemma nth_tabulate {A : Type} (n : nat) (f : nat -> A) (i : nat) (d : A) :
  (i < n)%nat -> nth i (tabulate n f) d = f i.
Proof.
  intros Hi. unfold tabulate.
  rewrite (nth_indep _ d (f 0%nat)) by (rewrite length_map, length_seq; exact Hi).
  rewrite map_nth, seq_nth by exact Hi. reflexivity.
Qed.

Lemma length_tabulate {A : Type} (n : nat) (f : nat -> A) : length (tabulate n f) = n.
Proof. unfold tabulate. rewrite length_map, length_seq. reflexivity. Qed.

Lemma nth_repeat_lt {A : Type} (a d : A) (n i : nat) :
  (i < n)%nat -> nth i (repeat a n) d = a.
Proof.
  revert i; induction n as [|n IH]; intros [|i] Hi; simpl; try lia; auto.
  apply IH; lia.
Qed.

(** C10: the white kernel of two inputs is the zero matrix with a row per row
    of [X] and a column per row of [X2]; of one input it is the diagonal
    matrix with the variance on the diagonal. *)
Theorem White_K_zero_or_diagonal :
  forall b variance X presliced,
    (forall X2, exists Kxx2,
       K (Static White b variance) X (Some X2) presliced = Ok Kxx2
       /\ Kxx2 = repeat (repeat 0 (nrows X2)) (nrows X))
    /\ (exists Kxx,
          K (Static White b variance) X None presliced = Ok Kxx
          /\ length Kxx = nrows X
          /\ forall i, (i < nrows X)%nat ->
                length (nth i Kxx []) = nrows X
                /\ forall j, (j < nrows X)%nat ->
                     nth j (nth i Kxx []) 0 = if Nat.eqb i j then variance else 0).
Proof.
  intros b variance X presliced. split.
  - intros X2. eexists; split; reflexivity.
  - eexists; split; [reflexivity|].
    unfold White_K, diag, fill1. rewrite repeat_length, length_tabulate.
    split; [reflexivity|]. intros i Hi.
    rewrite nth_tabulate by exact Hi. rewrite length_tabulate.
    split; [reflexivity|]. intros j Hj.
    rewrite nth_tabulate by exact Hj.
    destruct (Nat.eqb i j); [apply nth_repeat_lt; exact Hi | reflexivity].
Qed.

(** ** The quadrature guard *)

Lemma nre_Ok {A : Type} (a : A) : no_runtime_error (Ok a).
Proof. discriminate. Qed.

Lemma nre_bind {A B : Type} (c : result A) (f : A -> result B) :
  no_runtime_error c -> (forall a, no_runtime_error (f a)) -> no_runtime_error (bind c f).
Proof.
  unfold no_runtime_error. destruct c as [a|e]; simpl; intros Hc Hf; [apply Hf|].
  intros H. apply Hc. injection H as ->. reflexivity.
Qed.

Lemma nre_mapM_Forall {A B : Type} (f : A -> result B) (l : list A) :
  Forall (fun a => no_runtime_error (f a)) l -> no_runtime_error (mapM f l).
Proof.
  induction 1 as [|a l Ha _ IH]; simpl; [apply nre_Ok|].
  apply nre_bind; [exact Ha|]. intros b. apply nre_bind; [exact IH|].
  intros bs. apply nre_Ok.
Qed.

Lemma nre_mapM {A B : Type} (f : A -> result B) (l : list A) :
  (forall a, no_runtime_error (f a)) -> no_runtime_error (mapM f l).
Proof.
  intros H. apply nre_mapM_Forall, Forall_forall. intros a _. apply H.
Qed.

Create HintDb kernel_defs.
#[local] Hint Unfold bcast_vec bcast_mat bcast_t3 bcast_rows matmul_nt gather
  column0_int32 slice_indices getitem_cols gather_cols select_cols assert_cols
  _slice slice_unless square_dist euclid_dist Stationary_K Linear_K Linear_Kdiag
  Polynomial_K Polynomial_Kdiag periodic_entry PeriodicKernel_K coregion_B
  Coregion_K Coregion_Kdiag reduce infer_shape reshape2 reshape3 scale_axis0
  np_hermgauss tf_cholesky mvhermgauss _slice_cov getitem0 quadrature_Kxz
  : kernel_defs.

(** Walks through a computation and shows that no step raises [RuntimeError]. *)
Ltac no_runtime :=
  repeat (intros; autounfold with kernel_defs;
          match goal with
          | |- no_runtime_error (Ok _) => apply nre_Ok
          | |- no_runtime_error (Raise _) => discriminate
          | |- no_runtime_error (bind _ _) => apply nre_bind
          | |- no_runtime_error (mapM _ _) => apply nre_mapM
          | |- no_runtime_error (let (_, _) := ?p in _) => destruct p
          | |- no_runtime_error (if ?c then _ else _) => destruct c
          | |- no_runtime_error (match ?x with _ => _ end) => destruct x
          end).

Lemma K_no_runtime_error k :
  forall X X2 ps, no_runtime_error (K k X X2 ps).
Proof.
  induction k as [c b v|c b v ls ard|b v ard|b v ard d o|b v ls p|b o r W kappa|c b l IH]
    using kern_induction; intros X X2 ps.
  - destruct c; simpl; apply nre_Ok.
  - simpl. no_runtime.
  - simpl. no_runtime.
  - simpl. no_runtime.
  - simpl. no_runtime.
  - simpl. no_runtime.
  - rewrite K_Combination. apply nre_bind.
    + apply nre_mapM_Forall. eapply Forall_impl; [|exact IH]. intros a Ha; apply Ha.
    + no_runtime.
Qed.

Lemma Kdiag_no_runtime_error k :
  forall X ps, no_runtime_error (Kdiag k X ps).
Proof.
  induction k as [c b v|c b v ls ard|b v ard|b v ard d o|b v ls p|b o r W kappa|c b l IH]
    using kern_induction; intros X ps.
  - simpl. no_runtime.
  - simpl. apply nre_Ok.
  - simpl. no_runtime.
  - simpl. no_runtime.
  - simpl. apply nre_Ok.
  - simpl. no_runtime.
  - rewrite Kdiag_Combination. apply nre_bind.
    + apply nre_mapM_Forall. eapply Forall_impl; [|exact IH]. intros a Ha; apply Ha.
    + no_runtime.
Qed.

Lemma after_check_outcome {A : Type} env k (body : result A) :
  no_runtime_error body ->
  (snd (after_check env k body) = Raise RuntimeError <-> quadrature_forbidden env k)
  /\ fst (after_check env k body) = quadrature_warnings env k.
Proof.
  intros Hbody.
  unfold after_check, _check_quadrature, quadrature_forbidden, quadrature_warnings.
  destruct (String.eqb (ekern_quadrature env) "error") eqn:He;
    destruct (num_gauss_hermite_points (base k) =? 0)%Z eqn:Hh; simpl;
    (split; [|reflexivity]).
  - split; [intros _|reflexivity]. left. apply String.eqb_eq; exact He.
  - split; [intros _|reflexivity]. left. apply String.eqb_eq; exact He.
  - split; [intros _|reflexivity]. right. apply Z.eqb_eq; exact Hh.
  - split; [intros H; elim (Hbody H)|].
    intros [H|H].
    + apply String.eqb_eq in H. congruence.
    + apply Z.eqb_eq in H. congruence.
Qed.

(** C8: each of [eKdiag], [eKxz], [exKxz] and [eKzxKxz] ends in [RuntimeError]
    exactly when the setting is "error" or the kernel has no Gauss-Hermite
    points; the guard is the first step, so that outcome does not depend on
    the inputs; and the warning is issued exactly when the setting is "warn". *)
Theorem quadrature_guard :
  forall env k Z Xmu Xcov Xcov4,
    ((snd (eKdiag env k Xmu Xcov) = Raise RuntimeError <-> quadrature_forbidden env k)
     /\ fst (eKdiag env k Xmu Xcov) = quadrature_warnings env k)
    /\ ((snd (eKxz env k Z Xmu Xcov) = Raise RuntimeError <-> quadrature_forbidden env k)
        /\ fst (eKxz env k Z Xmu Xcov) = quadrature_warnings env k)
    /\ ((snd (exKxz env k Z Xmu Xcov4) = Raise RuntimeError <-> quadrature_forbidden env k)
        /\ fst (exKxz env k Z Xmu Xcov4) = quadrature_warnings env k)
    /\ ((snd (eKzxKxz env k Z Xmu Xcov) = Raise RuntimeError <-> quadrature_forbidden env k)
        /\ fst (eKzxKxz env k Z Xmu Xcov) = quadrature_warnings env k).
Proof.
  intros env k Z Xmu Xcov Xcov4.
  pose proof (K_no_runtime_error k) as HK.
  pose proof (Kdiag_no_runtime_error k) as HKd.
  repeat split; try (apply after_check_outcome); try reflexivity.
  all: try (apply (proj1 (proj1 (after_check_outcome env k _ _))));
       try (apply (proj2 (proj1 (after_check_outcome env k _ _)))).
  all: no_runtime; try apply HK; try apply HKd.
Qed.

(** ** Combinations *)

Lemma np_max_spec (l : list Z) (d : Z) :
  np_max l = Ok d <-> In d l /\ Forall (fun x => (x <= d)%Z) l.
Proof.
  assert (Hfold : forall t a, (a <= fold_left Z.max t a)%Z
                  /\ Forall (fun x => (x <= fold_left Z.max t a)%Z) t
                  /\ (fold_left Z.max t a = a \/ In (fold_left Z.max t a) t)).
  { induction t as [|x t IH]; intros a; simpl.
    - split; [lia|]. split; [constructor | left; reflexivity].
    - destruct (IH (Z.max a x)) as (H1 & H2 & H3).
      split; [lia|]. split; [constructor; [lia | exact H2]|].
      destruct H3 as [H3|H3]; [|right; right; exact H3].
      rewrite H3. destruct (Z.max_spec a x) as [[_ ->]|[_ ->]]; auto. }
  destruct l as [|a t]; simpl.
  - split; [discriminate | intros [[] _]].
  - destruct (Hfold t a) as (H1 & H2 & H3). split.
    + intros H; injection H as <-. split; [|constructor; assumption].
      destruct H3 as [->|H3]; auto.
    + intros [Hin Hall]. f_equal.
      inversion Hall as [|? ? Ha Ht]; subst.
      assert (fold_left Z.max t a <= d)%Z.
      { destruct H3 as [->|H3]; [exact Ha|].
        rewrite Forall_forall in Ht. apply Ht, H3. }
      assert (d <= fold_left Z.max t a)%Z.
      { destruct Hin as [<-|Hin]; [exact H1|].
        rewrite Forall_forall in H2. apply H2, Hin. }
      lia.
Qed.

Lemma flatten_keeps_out cls (l : list kern) :
  Forall combination_invariant l ->
  Forall (fun child => isinstance_combination child cls = false) (flatten_kern_list cls l).
Proof.
  unfold flatten_kern_list.
  induction 1 as [|k l Hk _ IH]; simpl; [constructor|].
  apply Forall_app; split; [|exact IH].
  destruct (isinstance_combination k cls) eqn:Hi.
  - destruct k as [| | | | | |c b lk]; simpl in Hi; try discriminate.
    simpl. destruct Hk as (Hk & _).
    assert (c = cls) as -> by (destruct c, cls; simpl in Hi; congruence).
    exact Hk.
  - constructor; [exact Hi | constructor].
Qed.

Lemma flatten_dims cls (l : list kern) :
  Forall combination_invariant l ->
  forall dims, mapM child_dim l = Ok dims ->
  exists dims', mapM child_dim (flatten_kern_list cls l) = Ok dims'
    /\ (forall y, In y dims -> In y dims')
    /\ (forall x, In x dims' -> exists y, In y dims /\ (x <= y)%Z).
Proof.
  unfold flatten_kern_list.
  induction 1 as [|k l Hk _ IH]; simpl; intros dims Hd.
  - injection Hd as <-. exists []. split; [reflexivity|]. split; [auto|intros x []].
  - destruct (child_dim k) as [dk|] eqn:Hdk; simpl in Hd; [|discriminate].
    destruct (mapM child_dim l) as [dl|] eqn:Hdl; simpl in Hd; [|discriminate].
    injection Hd as <-.
    destruct (IH dl eq_refl) as (dl' & E & Hsub & Hdom).
    rewrite mapM_app, E.
    destruct (isinstance_combination k cls) eqn:Hi.
    + destruct k as [| | | | | |c b lk]; simpl in Hi; try discriminate.
      simpl in Hk. destruct Hk as (_ & Hmax & Had). simpl.
      unfold child_dim in Hdk; simpl in Hdk. rewrite Had in Hdk. injection Hdk as <-.
      unfold max_child_dim in Hmax. apply bind_Ok in Hmax.
      destruct Hmax as (dk & -> & Hmax). simpl.
      apply np_max_spec in Hmax. destruct Hmax as (Hin & Hall).
      eexists; split; [reflexivity|]. split.
      * intros y [<-|Hy]; apply in_or_app; [left; exact Hin | right; apply Hsub, Hy].
      * intros x Hx. apply in_app_or in Hx. destruct Hx as [Hx|Hx].
        -- exists (input_dim b). split; [left; reflexivity|].
           rewrite Forall_forall in Hall. apply Hall, Hx.
        -- destruct (Hdom x Hx) as (y & Hy & Hle). exists y; split; [right; exact Hy|exact Hle].
    + simpl. rewrite Hdk. simpl.
      eexists; split; [reflexivity|]. split.
      * intros y [<-|Hy]; [left; reflexivity | right; apply Hsub, Hy].
      * intros x [Hx|Hx].
        -- exists x. split; [left; exact Hx | lia].
        -- destruct (Hdom x Hx) as (y & Hy & Hle). exists y; split; [right; exact Hy|exact Hle].
Qed.

Lemma map2_assoc {A : Type} (f : A -> A -> A) :
  (forall x y z, f (f x y) z = f x (f y z)) ->
  forall a b c, map2 f (map2 f a b) c = map2 f a (map2 f b c).
Proof.
  intros Hf. unfold map2.
  induction a as [|x a IH]; intros [|y b] [|z c]; simpl; try reflexivity.
  rewrite Hf. f_equal. apply IH.
Qed.

Lemma combine_K_assoc c A B C :
  combine_K c (combine_K c A B) C = combine_K c A (combine_K c B C).
Proof.
  destruct c; simpl; unfold madd, mmul; apply map2_assoc; intros x y z;
    unfold vadd, vmul; apply map2_assoc; intros; ring.
Qed.

Lemma combine_Kdiag_assoc c A B C :
  combine_Kdiag c (combine_Kdiag c A B) C = combine_Kdiag c A (combine_Kdiag c B C).
Proof.
  destruct c; simpl; unfold vadd, vmul; apply map2_assoc; intros; ring.
Qed.

Lemma fold_left_assoc {A : Type} (f : A -> A -> A) :
  (forall x y z, f (f x y) z = f x (f y z)) ->
  forall t x a, fold_left f t (f x a) = f x (fold_left f t a).
Proof.
  intros Hf. induction t as [|y t IH]; intros x a; simpl; [reflexivity|].
  rewrite Hf. apply IH.
Qed.

(** Evaluating the children of two non-empty lists in one pass and reducing,
    against reducing each list and combining the two results. *)
Lemma reduce_mapM_app {A B : Type} (g : A -> result B) (f : B -> B -> B) :
  (forall x y z, f (f x y) z = f x (f y z)) ->
  forall l1 l2, l1 <> [] -> l2 <> [] ->
  (r <- mapM g (l1 ++ l2) ;; reduce f r) =
  (a <- (r <- mapM g l1 ;; reduce f r) ;;
   b <- (r <- mapM g l2 ;; reduce f r) ;; Ok (f a b)).
Proof.
  intros Hf l1 l2 H1 H2. rewrite mapM_app.
  destruct (mapM g l1) as [r1|e1] eqn:E1; simpl; [|reflexivity].
  assert (L1 := mapM_length _ _ _ E1).
  destruct r1 as [|a1 t1]; [destruct l1; [congruence | discriminate]|].
  destruct (mapM g l2) as [r2|e2] eqn:E2; simpl; [|reflexivity].
  assert (L2 := mapM_length _ _ _ E2).
  destruct r2 as [|a2 t2]; [destruct l2; [congruence | discriminate]|].
  simpl. f_equal. rewrite fold_left_app. simpl.
  apply fold_left_assoc, Hf.
Qed.

(** The list a kernel contributes to a combination of class [c]. *)
Lemma contribution_nonempty c k :
  combination_invariant k ->
  (if isinstance_combination k c then kern_list_of k else [k]) <> [].
Proof.
  intros Hk. destruct (isinstance_combination k c) eqn:Hi; [|discriminate].
  destruct k as [| | | | | |c' b l]; simpl in Hi; try discriminate.
  simpl in *. destruct Hk as (_ & Hmax & _). intros ->.
  unfold max_child_dim in Hmax. simpl in Hmax. discriminate.
Qed.

Lemma contribution_K c k X X2 :
  (r <- mapM (fun k' => K k' X X2 None)
         (if isinstance_combination k c then kern_list_of k else [k]) ;;
   reduce (combine_K c) r) = K k X X2 None.
Proof.
  destruct (isinstance_combination k c) eqn:Hi.
  - destruct k as [| | | | | |c' b l]; simpl in Hi; try discriminate.
    assert (c' = c) as -> by (destruct c, c'; simpl in Hi; congruence).
    rewrite K_Combination. reflexivity.
  - simpl. destruct (K k X X2 None); reflexivity.
Qed.

Lemma contribution_Kdiag c k X :
  (r <- mapM (fun k' => Kdiag k' X None)
         (if isinstance_combination k c then kern_list_of k else [k]) ;;
   reduce (combine_Kdiag c) r) = Kdiag k X None.
Proof.
  destruct (isinstance_combination k c) eqn:Hi.
  - destruct k as [| | | | | |c' b l]; simpl in Hi; try discriminate.
    assert (c' = c) as -> by (destruct c, c'; simpl in Hi; congruence).
    rewrite Kdiag_Combination. reflexivity.
  - simpl. destruct (Kdiag k X None); reflexivity.
Qed.

(** The combination of two kernels evaluates to the combination of their values. *)
Lemma combination_of_two c k1 k2 s :
  combination_invariant k1 -> combination_invariant k2 ->
  Combination_init c [k1; k2] = Ok s ->
  (exists b, s = Combination c b (flatten_kern_list c [k1; k2]))
  /\ (forall X X2 ps,
        K s X X2 ps =
        (A <- K k1 X X2 None ;; B <- K k2 X X2 None ;; Ok (combine_K c A B)))
  /\ (forall X ps,
        Kdiag s X ps =
        (a <- Kdiag k1 X None ;; b <- Kdiag k2 X None ;; Ok (combine_Kdiag c a b))).
Proof.
  intros H1 H2 Hs.
  unfold Combination_init in Hs.
  apply bind_Ok in Hs. destruct Hs as (dims & _ & Hs).
  apply bind_Ok in Hs. destruct Hs as (d & _ & Hs).
  simpl in Hs. injection Hs as <-.
  split; [eexists; reflexivity|].
  split.
  - intros X X2 ps. rewrite K_Combination.
    unfold flatten_kern_list. cbn [flat_map]. rewrite app_nil_r.
    rewrite reduce_mapM_app
      by (try apply contribution_nonempty; try assumption; apply combine_K_assoc).
    rewrite !contribution_K. reflexivity.
  - intros X ps. rewrite Kdiag_Combination.
    unfold flatten_kern_list. cbn [flat_map]. rewrite app_nil_r.
    rewrite reduce_mapM_app
      by (try apply contribution_nonempty; try assumption; apply combine_Kdiag_assoc).
    rewrite !contribution_Kdiag. reflexivity.
Qed.

(** ** Squared distances *)

Lemma bcast_vec_same f a b :
  length a = length b -> bcast_vec f a b = Ok (map2 f a b).
Proof.
  intros H. unfold bcast_vec. rewrite H, Nat.eqb_refl. reflexivity.
Qed.

Lemma bcast_vec_single_r f a s :
  bcast_vec f a [s] = Ok (map (fun x => f x s) a).
Proof.
  unfold bcast_vec. simpl.
  destruct a as [|x [|y a]]; simpl; reflexivity.
Qed.

Lemma map2_map_r {A B C D : Type} (f : A -> C -> D) (g : B -> C) (a : list A) (b : list B) :
  map2 f a (map g b) = map2 (fun x y => f x (g y)) a b.
Proof.
  unfold map2. revert b; induction a as [|x a IH]; intros [|y b]; simpl; try reflexivity.
  f_equal. apply IH.
Qed.

Lemma map2_map_l {A B C D : Type} (f : C -> B -> D) (g : A -> C) (a : list A) (b : list B) :
  map2 f (map g a) b = map2 (fun x y => f (g x) y) a b.
Proof.
  unfold map2. revert b; induction a as [|x a IH]; intros [|y b]; simpl; try reflexivity.
  f_equal. apply IH.
Qed.

Lemma map2_diag {A B : Type} (f : A -> A -> B) (a : list A) :
  map2 f a a = map (fun x => f x x) a.
Proof.
  unfold map2. induction a as [|x a IH]; simpl; [reflexivity|]. f_equal. apply IH.
Qed.

Lemma tabulate_ext {A : Type} (n : nat) (f g : nat -> A) :
  (forall i, (i < n)%nat -> f i = g i) -> tabulate n f = tabulate n g.
Proof.
  intros H. unfold tabulate. apply map_ext_in. intros i Hi.
  apply in_seq in Hi. apply H. lia.
Qed.

Lemma tabulate_nth {A : Type} (l : list A) (d : A) :
  tabulate (length l) (fun i => nth i l d) = l.
Proof.
  apply nth_ext with (d := d) (d' := d).
  - apply length_tabulate.
  - intros i Hi. rewrite length_tabulate in Hi.
    rewrite nth_tabulate by exact Hi. reflexivity.
Qed.

Lemma map_tabulate {A B : Type} (g : A -> B) (n : nat) (f : nat -> A) :
  map g (tabulate n f) = tabulate n (fun i => g (f i)).
Proof. unfold tabulate. apply map_map. Qed.

Lemma map2_tabulate {A B C : Type} (h : A -> B -> C) (n : nat) (f : nat -> A) (g : nat -> B) :
  map2 h (tabulate n f) (tabulate n g) = tabulate n (fun i => h (f i) (g i)).
Proof.
  unfold tabulate. rewrite map2_map_l, map2_map_r, map2_diag. reflexivity.
Qed.

(** [X / lengthscales] on one row. *)
Lemma scaled_row ls x D :
  length x = D -> (length ls = D \/ length ls = 1%nat) ->
  bcast_vec Rdiv x ls = Ok (tabulate D (fun d => nth d x 0 / lengthscale ls d)).
Proof.
  intros Hx [Hl|Hl].
  - rewrite bcast_vec_same by congruence. f_equal.
    rewrite <- (tabulate_nth x 0) at 1. rewrite <- (tabulate_nth ls 0) at 1.
    rewrite Hx, Hl, map2_tabulate. apply tabulate_ext. intros i Hi.
    unfold lengthscale, param_entry. destruct ls as [|l [|l' ls]]; try reflexivity.
    simpl in Hl. subst D. assert (i = 0%nat) as -> by lia. reflexivity.
  - destruct ls as [|l [|l' ls]]; try discriminate.
    rewrite bcast_vec_single_r. f_equal. simpl.
    rewrite <- (tabulate_nth x 0) at 1. rewrite Hx, map_tabulate. reflexivity.
Qed.

Lemma scaled_rows ls X D :
  has_cols D X -> (length ls = D \/ length ls = 1%nat) ->
  bcast_rows Rdiv X ls
  = Ok (map (fun x => tabulate D (fun d => nth d x 0 / lengthscale ls d)) X).
Proof.
  intros HX Hl. unfold bcast_rows. apply mapM_Ok_map.
  intros x Hx. apply scaled_row; [|exact Hl].
  unfold has_cols in HX. rewrite Forall_forall in HX. apply HX, Hx.
Qed.

Lemma matmul_nt_same D A B :
  has_cols D A -> has_cols D B ->
  matmul_nt A B = Ok (map (fun a => map (dot a) B) A).
Proof.
  unfold has_cols. rewrite !Forall_forall. intros HA HB. unfold matmul_nt.
  apply mapM_Ok_map. intros a Ha. apply mapM_Ok_map. intros b Hb.
  rewrite (HA a Ha), (HB b Hb), Nat.eqb_refl. reflexivity.
Qed.

(** [A + tf.reshape(v, (-1, 1))] for [v] with an entry per row of [A]. *)
Lemma bcast_mat_column f {T : Type} (g : T -> vector) (s : T -> R) (l : list T) :
  bcast_mat f (map g l) (as_column (map s l))
  = Ok (map (fun t => map (fun x => f x (s t)) (g t)) l).
Proof.
  unfold bcast_mat, as_column. rewrite !length_map, Nat.eqb_refl.
  induction l as [|t l IH]; simpl; [reflexivity|].
  rewrite bcast_vec_single_r. simpl. rewrite IH. reflexivity.
Qed.

(** [A + tf.reshape(v, (1, -1))] for [v] with an entry per column of [A]. *)
Lemma bcast_mat_row f (A : matrix) (v : vector) :
  has_cols (length v) A ->
  bcast_mat f A (as_row v) = Ok (map (fun a => map2 f a v) A).
Proof.
  unfold has_cols. intros HA.
  assert (Hmap : mapM (fun a => bcast_vec f a v) A = Ok (map (fun a => map2 f a v) A)).
  { apply mapM_Ok_map. intros a Ha. apply bcast_vec_same.
    rewrite Forall_forall in HA. apply HA, Ha. }
  unfold bcast_mat, as_row. simpl.
  destruct A as [|a [|a' A]]; simpl; try reflexivity.
  - inversion HA; subst. rewrite bcast_vec_same by assumption. reflexivity.
  - exact Hmap.
Qed.

(** The expansion of a square, summed over the dimensions. *)
Lemma sum_square_difference (f g : nat -> R) (n s : nat) :
  -2 * dot (map f (seq s n)) (map g (seq s n))
  + reduce_sum (map square (map f (seq s n)))
  + reduce_sum (map square (map g (seq s n)))
  = reduce_sum (map (fun d => square (f d - g d)) (seq s n)).
Proof.
  unfold dot, map2. revert s; induction n as [|n IH]; intros s; simpl.
  - ring.
  - rewrite <- IH. unfold square. ring.
Qed.

Lemma square_dist_entry ls D x y :
  length x = D -> length y = D ->
  -2 * dot (tabulate D (fun d => nth d x 0 / lengthscale ls d))
           (tabulate D (fun d => nth d y 0 / lengthscale ls d))
  + reduce_sum (map square (tabulate D (fun d => nth d x 0 / lengthscale ls d)))
  + reduce_sum (map square (tabulate D (fun d => nth d y 0 / lengthscale ls d)))
  = reduce_sum (tabulate (length x) (fun d =>
      square ((nth d x 0 - nth d y 0) / lengthscale ls d))).
Proof.
  intros Hx Hy. rewrite Hx. unfold tabulate. rewrite sum_square_difference.
  f_equal. apply map_ext. intros d. unfold square, Rdiv. ring.
Qed.

Lemma square_dist_closed_form ls D X X2 :
  has_cols D X -> has_cols D X2 -> (length ls = D \/ length ls = 1%nat) ->
  square_dist ls X (Some X2) = Ok (square_dist_naive ls X X2)
  /\ square_dist ls X None = Ok (square_dist_naive ls X X).
Proof.
  intros HX HX2 Hl.
  set (sc := fun x : vector => tabulate D (fun d => nth d x 0 / lengthscale ls d)).
  assert (Hsc : forall A, has_cols D (map sc A)).
  { intros A. unfold has_cols. apply Forall_forall. intros r Hr.
    apply in_map_iff in Hr. destruct Hr as (x & <- & _). apply length_tabulate. }
  assert (Hgen : forall Y, has_cols D Y ->
            (P <- matmul_nt (map sc X) (map sc Y) ;;
             S <- bcast_mat Rplus (mmap (Rmult (-2)) P) (as_column (row_sumsq (map sc X))) ;;
             bcast_mat Rplus S (as_row (row_sumsq (map sc Y))))
            = Ok (square_dist_naive ls X Y)).
  { intros Y HY.
    rewrite (matmul_nt_same D) by apply Hsc. simpl.
    unfold mmap, row_sumsq. rewrite !map_map.
    rewrite bcast_mat_column.
    simpl. rewrite bcast_mat_row.
    2:{ unfold has_cols. apply Forall_forall. intros r Hr.
        apply in_map_iff in Hr. destruct Hr as (x & <- & _).
        rewrite !length_map. reflexivity. }
    apply f_equal. unfold square_dist_naive. rewrite map_map.
    apply map_ext_in. intros x Hx.
    rewrite !map_map, map2_map_l, map2_map_r, map2_diag.
    apply map_ext_in. intros y Hy.
    unfold has_cols in HX, HY. rewrite Forall_forall in HX, HY.
    apply square_dist_entry; [apply HX, Hx | apply HY, Hy]. }
  unfold square_dist. rewrite (scaled_rows ls X D HX Hl). simpl. fold sc.
  split.
  - rewrite (scaled_rows ls X2 D HX2 Hl). simpl. fold sc. apply Hgen, HX2.
  - apply Hgen, HX.
Qed.

(** ** Shapes of the kernel matrices *)

(** Takes a successful computation apart, step by step. *)
Ltac inv_ok H :=
  repeat match type of H with
         | bind ?c _ = Ok _ =>
             let a := fresh "v" in
             let E := fresh "E" in
             apply bind_Ok in H; destruct H as (a & E & H)
         | (let (_, _) := ?p in _) = Ok _ => destruct p
         | Ok _ = Ok _ => injection H; clear H; intros; subst
         | Raise _ = Ok _ => discriminate H
         | (if ?c then _ else _) = Ok _ => destruct c eqn:?
         end.

Lemma mapM_Forall2 {A B : Type} (f : A -> result B) (l : list A) (r : list B) :
  mapM f l = Ok r <-> Forall2 (fun a b => f a = Ok b) l r.
Proof.
  revert r; induction l as [|a l IH]; intros r; simpl.
  - split; [intros H; injection H as <-; constructor | intros H; inversion H; reflexivity].
  - split.
    + intros H. inv_ok H. constructor; [assumption | apply IH; assumption].
    + intros H. inversion H as [|? b ? bs Hab Hl]; subst.
      rewrite Hab. simpl. apply IH in Hl. rewrite Hl. reflexivity.
Qed.

Lemma mapM_app_Ok {A B : Type} (f : A -> result B) (l1 l2 : list A) r1 r2 :
  mapM f l1 = Ok r1 -> mapM f l2 = Ok r2 -> mapM f (l1 ++ l2) = Ok (r1 ++ r2).
Proof.
  intros H1 H2. rewrite mapM_app, H1, H2. reflexivity.
Qed.

Lemma mapM_In {A B : Type} (f : A -> result B) (l : list A) (r : list B) :
  mapM f l = Ok r -> forall b, In b r -> exists a, In a l /\ f a = Ok b.
Proof.
  intros H. apply mapM_Forall2 in H.
  induction H as [|a b l r Hab _ IH]; intros y Hy; [destruct Hy|].
  destruct Hy as [<-|Hy].
  - exists a; split; [left; reflexivity | exact Hab].
  - destruct (IH y Hy) as (x & Hx & E). exists x; split; [right; exact Hx | exact E].
Qed.

Lemma length_map2 {A B C : Type} (f : A -> B -> C) (a : list A) (b : list B) :
  length a = length b -> length (map2 f a b) = length a.
Proof.
  intros H. unfold map2. rewrite length_map, length_combine. lia.
Qed.

Lemma map2_app {A B C : Type} (f : A -> B -> C) a1 a2 b1 b2 :
  length a1 = length b1 ->
  map2 f (a1 ++ a2) (b1 ++ b2) = map2 f a1 b1 ++ map2 f a2 b2.
Proof.
  unfold map2. revert b1; induction a1 as [|x a1 IH]; intros [|y b1] H;
    simpl in *; try discriminate; [reflexivity|].
  f_equal. apply IH. lia.
Qed.

Lemma In_map2 {A B C : Type} (f : A -> B -> C) a b c :
  In c (map2 f a b) -> exists x y, In x a /\ In y b /\ c = f x y.
Proof.
  unfold map2. intros H. apply in_map_iff in H. destruct H as ((x, y) & <- & H).
  exists x, y. split; [eapply in_combine_l; exact H|].
  split; [eapply in_combine_r; exact H | reflexivity].
Qed.

Lemma has_cols_In m A r : has_cols m A -> In r A -> length r = m.
Proof. unfold has_cols. rewrite Forall_forall. intros H; apply H. Qed.

Lemma has_cols_app m A B : has_cols m A -> has_cols m B -> has_cols m (A ++ B).
Proof. unfold has_cols. intros; apply Forall_app; split; assumption. Qed.

Lemma has_cols_intro m (A : matrix) : (forall r, In r A -> length r = m) -> has_cols m A.
Proof. unfold has_cols. intros; apply Forall_forall; assumption. Qed.

Lemma select_cols_nrows ad X Xs : select_cols ad X = Ok Xs -> nrows Xs = nrows X.
Proof.
  destruct ad; simpl; unfold getitem_cols, gather_cols, nrows; apply mapM_length.
Qed.

Lemma slice_shape b X X2 Xs X2s :
  _slice b X X2 = Ok (Xs, X2s) ->
  nrows Xs = nrows X
  /\ match X2, X2s with
     | Some a, Some a' => nrows a' = nrows a
     | None, None => True
     | _, _ => False
     end.
Proof.
  unfold _slice. intros H. inv_ok H.
  split; [eapply select_cols_nrows; eassumption|].
  destruct X2 as [a|]; simpl in E0.
  - inv_ok E0. eapply select_cols_nrows; eassumption.
  - injection E0 as <-. exact I.
Qed.

Lemma slice_unless_shape p b X X2 Xs X2s :
  slice_unless p b X X2 = Ok (Xs, X2s) ->
  nrows Xs = nrows X
  /\ match X2, X2s with
     | Some a, Some a' => nrows a' = nrows a
     | None, None => True
     | _, _ => False
     end.
Proof.
  unfold slice_unless. destruct p.
  - intros H; injection H as <- <-. split; [reflexivity|]. destruct X2; auto.
  - apply slice_shape.
Qed.

Lemma matmul_nt_shape A B P :
  matmul_nt A B = Ok P -> length P = length A /\ has_cols (length B) P.
Proof.
  unfold matmul_nt. intros H. split; [eapply mapM_length; exact H|].
  apply has_cols_intro. intros r Hr.
  destruct (mapM_In _ _ _ H r Hr) as (a & _ & E).
  eapply mapM_length; exact E.
Qed.

Lemma bcast_rows_nrows f A p R : bcast_rows f A p = Ok R -> length R = length A.
Proof. apply mapM_length. Qed.

Lemma bcast_mat_as_column f (A : matrix) (v : vector) :
  length A = length v ->
  bcast_mat f A (as_column v) = Ok (map2 (fun a s => map (fun x => f x s) a) A v).
Proof.
  intros H. unfold bcast_mat, as_column. rewrite length_map, H, Nat.eqb_refl.
  unfold map2. revert v H; induction A as [|a A IH]; intros [|s v] H; simpl;
    try reflexivity; try discriminate.
  rewrite bcast_vec_single_r. simpl. rewrite IH by (simpl in H; lia). reflexivity.
Qed.

Lemma bcast_mat_as_row f (A : matrix) (v : vector) :
  bcast_mat f A (as_row v) = mapM (fun a => bcast_vec f a v) A.
Proof.
  unfold bcast_mat, as_row. destruct A as [|a [|a' A]]; reflexivity.
Qed.

(** [square_dist] on two inputs, with the broadcasts resolved. *)
Lemma square_dist_some ls X X2 :
  square_dist ls X (Some X2) =
  (Xsc <- bcast_rows Rdiv X ls ;;
   X2sc <- bcast_rows Rdiv X2 ls ;;
   P <- matmul_nt Xsc X2sc ;;
   Ok (map2 (fun p xs =>
              map2 Rplus (map (fun t => -2 * t + reduce_sum (map square xs)) p)
                         (row_sumsq X2sc)) P Xsc)).
Proof.
  unfold square_dist.
  destruct (bcast_rows Rdiv X ls) as [Xsc|] eqn:E1; simpl; [|reflexivity].
  destruct (bcast_rows Rdiv X2 ls) as [X2sc|] eqn:E2; simpl; [|reflexivity].
  destruct (matmul_nt Xsc X2sc) as [P|] eqn:E3; simpl; [|reflexivity].
  destruct (matmul_nt_shape _ _ _ E3) as (HP & HPc).
  rewrite bcast_mat_as_column
    by (unfold mmap, row_sumsq; rewrite !length_map; exact HP).
  simpl. rewrite bcast_mat_as_row.
  unfold mmap, row_sumsq. rewrite map2_map_l, map2_map_r.
  erewrite mapM_Ok_map.
  2:{ intros a Ha. apply bcast_vec_same.
      apply In_map2 in Ha. destruct Ha as (p & xs & Hp & _ & ->).
      rewrite !length_map. apply (has_cols_In _ _ _ HPc Hp). }
  f_equal. unfold map2. rewrite map_map. apply map_ext. intros (p, xs). simpl.
  rewrite map_map. reflexivity.
Qed.

(** [square_dist] on one input, with the broadcasts resolved. *)
Lemma square_dist_none ls X :
  square_dist ls X None =
  (Xsc <- bcast_rows Rdiv X ls ;;
   P <- matmul_nt Xsc Xsc ;;
   Ok (map2 (fun p xs =>
              map2 Rplus (map (fun t => -2 * t + reduce_sum (map square xs)) p)
                         (row_sumsq Xsc)) P Xsc)).
Proof.
  unfold square_dist.
  destruct (bcast_rows Rdiv X ls) as [Xsc|] eqn:E1; simpl; [|reflexivity].
  destruct (matmul_nt Xsc Xsc) as [P|] eqn:E3; simpl; [|reflexivity].
  destruct (matmul_nt_shape _ _ _ E3) as (HP & HPc).
  rewrite bcast_mat_as_column
    by (unfold mmap, row_sumsq; rewrite !length_map; exact HP).
  simpl. rewrite bcast_mat_as_row.
  unfold mmap, row_sumsq. rewrite map2_map_l, map2_map_r.
  erewrite mapM_Ok_map.
  2:{ intros a Ha. apply bcast_vec_same.
      apply In_map2 in Ha. destruct Ha as (p & xs & Hp & _ & ->).
      rewrite !length_map. apply (has_cols_In _ _ _ HPc Hp). }
  f_equal. unfold map2. rewrite map_map. apply map_ext. intros (p, xs). simpl.
  rewrite map_map. reflexivity.
Qed.

Lemma square_dist_shape ls X X2 R :
  square_dist ls X (Some X2) = Ok R ->
  length R = nrows X /\ has_cols (nrows X2) R.
Proof.
  rewrite square_dist_some. intros H. inv_ok H.
  destruct (matmul_nt_shape _ _ _ E1) as (HP & HPc).
  apply bcast_rows_nrows in E, E0.
  split.
  - rewrite length_map2 by congruence. unfold nrows. congruence.
  - apply has_cols_intro. intros r Hr. apply In_map2 in Hr.
    destruct Hr as (p & xs & Hp & _ & ->).
    pose proof (has_cols_In _ _ _ HPc Hp) as Hlen.
    rewrite length_map2; unfold row_sumsq; rewrite !length_map; unfold nrows; congruence.
Qed.

Lemma mmap_shape f n m A :
  length A = n /\ has_cols m A -> length (mmap f A) = n /\ has_cols m (mmap f A).
Proof.
  intros [H1 H2]. unfold mmap. split; [rewrite length_map; exact H1|].
  apply has_cols_intro. intros r Hr. apply in_map_iff in Hr.
  destruct Hr as (a & <- & Ha). rewrite length_map. apply (has_cols_In _ _ _ H2 Ha).
Qed.

Lemma euclid_dist_shape ls X X2 R :
  euclid_dist ls X (Some X2) = Ok R ->
  length R = nrows X /\ has_cols (nrows X2) R.
Proof.
  unfold euclid_dist. intros H. inv_ok H.
  apply mmap_shape. eapply square_dist_shape; eassumption.
Qed.

Lemma slice_unless_some p b X Z Xs Z' :
  slice_unless p b X (Some Z) = Ok (Xs, Z') ->
  exists Zs, Z' = Some Zs /\ nrows Xs = nrows X /\ nrows Zs = nrows Z.
Proof.
  intros H. destruct (slice_unless_shape _ _ _ _ _ _ H) as (H1 & H2).
  destruct Z' as [Zs|]; [|contradiction]. exists Zs. auto.
Qed.

Lemma Stationary_K_shape c b v ls X Z p R :
  Stationary_K c b v ls X (Some Z) p = Ok R ->
  length R = nrows X /\ has_cols (nrows Z) R.
Proof.
  unfold Stationary_K. intros H.
  destruct (slice_unless p b X (Some Z)) as [[Xs Z']|] eqn:Es; simpl in H; [|discriminate].
  destruct (slice_unless_some _ _ _ _ _ _ Es) as (Zs & -> & <- & <-).
  destruct c; inv_ok H; apply mmap_shape;
    first [eapply square_dist_shape; eassumption | eapply euclid_dist_shape; eassumption].
Qed.

Lemma Linear_K_shape b v X Z p R :
  Linear_K b v X (Some Z) p = Ok R ->
  length R = nrows X /\ has_cols (nrows Z) R.
Proof.
  unfold Linear_K. intros H.
  destruct (slice_unless p b X (Some Z)) as [[Xs Z']|] eqn:Es; simpl in H; [|discriminate].
  destruct (slice_unless_some _ _ _ _ _ _ Es) as (Zs & -> & <- & <-).
  inv_ok H. apply bcast_rows_nrows in E.
  destruct (matmul_nt_shape _ _ _ H) as (H1 & H2). unfold nrows. split; congruence.
Qed.

Lemma PeriodicKernel_K_shape b v ls per X Z p R :
  PeriodicKernel_K b v ls per X (Some Z) p = Ok R ->
  length R = nrows X /\ has_cols (nrows Z) R.
Proof.
  unfold PeriodicKernel_K. intros H.
  destruct (slice_unless p b X (Some Z)) as [[Xs Z']|] eqn:Es; simpl in H; [|discriminate].
  destruct (slice_unless_some _ _ _ _ _ _ Es) as (Zs & -> & <- & <-).
  split; [eapply mapM_length; exact H|].
  apply has_cols_intro. intros r Hr.
  destruct (mapM_In _ _ _ H r Hr) as (x & _ & E).
  eapply mapM_length; exact E.
Qed.

Lemma gather_In {A : Type} (params : list A) idx r :
  gather params idx = Ok r -> forall a, In a r -> In a params.
Proof.
  unfold gather. intros H a Ha.
  destruct (mapM_In _ _ _ H a Ha) as (j & _ & E).
  destruct (nth_error params (Z.to_nat j)) as [a'|] eqn:En; [|discriminate].
  destruct (0 <=? j)%Z; [|discriminate]. injection E as ->.
  eapply nth_error_In; exact En.
Qed.

Lemma Coregion_K_shape b W kappa X Z R :
  Coregion_K b W kappa X (Some Z) = Ok R ->
  length R = nrows X /\ has_cols (nrows Z) R.
Proof.
  unfold Coregion_K. intros H.
  destruct (_slice b X (Some Z)) as [[Xs Z']|] eqn:Es; simpl in H; [|discriminate].
  destruct (slice_unless_some false _ _ _ _ _ Es) as (Zs & -> & <- & <-).
  inv_ok H. unfold column0_int32 in E, E0.
  apply mapM_length in E, E0.
  split.
  - unfold gather in H. apply mapM_length in H. unfold nrows. congruence.
  - apply has_cols_intro. intros r Hr.
    pose proof (gather_In _ _ _ H r Hr) as Hin.
    unfold transpose_n, tabulate in Hin. apply in_map_iff in Hin.
    destruct Hin as (j & <- & _). rewrite length_map.
    unfold gather in E2. apply mapM_length in E2. unfold nrows. congruence.
Qed.

Lemma combine_K_shape c n m A B :
  length A = n /\ has_cols m A -> length B = n /\ has_cols m B ->
  length (combine_K c A B) = n /\ has_cols m (combine_K c A B).
Proof.
  intros [HA HAc] [HB HBc].
  assert (forall f, length (map2 (map2 f) A B) = n /\ has_cols m (map2 (map2 f) A B)).
  { intros f. split; [rewrite length_map2; congruence|].
    apply has_cols_intro. intros r Hr. apply In_map2 in Hr.
    destruct Hr as (a & a' & Ha & Ha' & ->).
    pose proof (has_cols_In _ _ _ HAc Ha). pose proof (has_cols_In _ _ _ HBc Ha').
    rewrite length_map2; congruence. }
  destruct c; simpl; unfold madd, mmul, vadd, vmul; auto.
Qed.

Lemma reduce_shape c n m Ks R :
  Forall (fun A => length A = n /\ has_cols m A) Ks ->
  reduce (combine_K c) Ks = Ok R ->
  length R = n /\ has_cols m R.
Proof.
  intros HKs H. destruct Ks as [|A Ks]; simpl in H; [discriminate|].
  injection H as <-. inversion HKs as [|? ? HA Hrest]; subst. clear HKs.
  revert A HA. induction Hrest as [|B Ks HB _ IH]; intros A HA; simpl; [exact HA|].
  apply IH. apply combine_K_shape; assumption.
Qed.

(** On two inputs, [K] has a row per row of [X] and a column per row of [X2]. *)
Lemma K_shape k :
  forall X Z ps R,
    K k X (Some Z) ps = Ok R -> length R = nrows X /\ has_cols (nrows Z) R.
Proof.
  induction k as [c b v|c b v ls ard|b v ard|b v ard d o|b v ls p|b o r W kappa|c b l IH]
    using kern_induction; intros X Z ps R H.
  - assert (forall a, length (fill2 (nrows X) (nrows Z) a) = nrows X
                      /\ has_cols (nrows Z) (fill2 (nrows X) (nrows Z) a)).
    { intros a. unfold fill2. split; [apply repeat_length|].
      apply has_cols_intro. intros r0 Hr. apply repeat_spec in Hr. subst.
      apply repeat_length. }
    destruct c; simpl in H; injection H as <-; simpl; auto.
  - simpl in H. eapply Stationary_K_shape; exact H.
  - simpl in H. eapply Linear_K_shape; exact H.
  - simpl in H. unfold Polynomial_K in H. inv_ok H.
    apply mmap_shape. eapply Linear_K_shape; eassumption.
  - simpl in H. eapply PeriodicKernel_K_shape; exact H.
  - simpl in H. destruct ps; [discriminate|]. eapply Coregion_K_shape; exact H.
  - rewrite K_Combination in H. inv_ok H.
    eapply reduce_shape; [|exact H].
    apply Forall_forall. intros A HA.
    destruct (mapM_In _ _ _ E A HA) as (k' & Hk' & EK).
    rewrite Forall_forall in IH. eapply IH; eassumption.
Qed.

(** ** Stacking inputs *)

Lemma select_cols_app ad A B As Bs :
  select_cols ad A = Ok As -> select_cols ad B = Ok Bs ->
  select_cols ad (A ++ B) = Ok (As ++ Bs).
Proof.
  destruct ad; simpl; unfold getitem_cols, gather_cols; apply mapM_app_Ok.
Qed.

Lemma assert_cols_app d A B u1 u2 :
  assert_cols d A = Ok u1 -> assert_cols d B = Ok u2 -> assert_cols d (A ++ B) = Ok tt.
Proof.
  unfold assert_cols. rewrite forallb_app.
  destruct (forallb _ A); [|discriminate]. destruct (forallb _ B); [|discriminate].
  reflexivity.
Qed.

Lemma slice_stack b A B Z As Bs Zs Zs' :
  _slice b A (Some Z) = Ok (As, Zs) -> _slice b B (Some Z) = Ok (Bs, Zs') ->
  Zs' = Zs /\ _slice b (A ++ B) (Some Z) = Ok (As ++ Bs, Zs).
Proof.
  unfold _slice. intros HA HB.
  destruct (select_cols (active_dims b) A) as [As'|] eqn:EA; simpl in HA; [|discriminate].
  destruct (select_cols (active_dims b) B) as [Bs'|] eqn:EB; simpl in HB; [|discriminate].
  rewrite (select_cols_app _ _ _ _ _ EA EB). simpl.
  destruct (select_cols (active_dims b) Z) as [Z'|]; simpl in *; [|discriminate].
  destruct (assert_cols (input_dim b) As') eqn:E1; simpl in HA; [|discriminate].
  destruct (assert_cols (input_dim b) Bs') eqn:E2; simpl in HB; [|discriminate].
  rewrite (assert_cols_app _ _ _ _ _ E1 E2). simpl.
  injection HA as <- <-. injection HB as <- <-. split; reflexivity.
Qed.

Lemma slice_unless_stack p b A B Z As Bs Zs Zs' :
  slice_unless p b A (Some Z) = Ok (As, Zs) ->
  slice_unless p b B (Some Z) = Ok (Bs, Zs') ->
  Zs' = Zs /\ slice_unless p b (A ++ B) (Some Z) = Ok (As ++ Bs, Zs).
Proof.
  unfold slice_unless. destruct p; [|apply slice_stack].
  intros HA HB. injection HA as <- <-. injection HB as <- <-. split; reflexivity.
Qed.

Lemma matmul_nt_app A B Z PA PB :
  matmul_nt A Z = Ok PA -> matmul_nt B Z = Ok PB ->
  matmul_nt (A ++ B) Z = Ok (PA ++ PB).
Proof. unfold matmul_nt. apply mapM_app_Ok. Qed.

Lemma square_dist_stack ls A B Z a b :
  square_dist ls A (Some Z) = Ok a -> square_dist ls B (Some Z) = Ok b ->
  square_dist ls (A ++ B) (Some Z) = Ok (a ++ b).
Proof.
  rewrite !square_dist_some. intros HA HB.
  destruct (bcast_rows Rdiv A ls) as [Asc|] eqn:EA; simpl in HA; [|discriminate].
  destruct (bcast_rows Rdiv B ls) as [Bsc|] eqn:EB; simpl in HB; [|discriminate].
  unfold bcast_rows in EA, EB |- *.
  rewrite (mapM_app_Ok _ _ _ _ _ EA EB). simpl.
  fold (bcast_rows Rdiv Z ls) in *.
  destruct (bcast_rows Rdiv Z ls) as [Zsc|]; simpl in *; [|discriminate].
  destruct (matmul_nt Asc Zsc) as [PA|] eqn:E1; simpl in HA; [|discriminate].
  destruct (matmul_nt Bsc Zsc) as [PB|] eqn:E2; simpl in HB; [|discriminate].
  rewrite (matmul_nt_app _ _ _ _ _ E1 E2). simpl.
  injection HA as <-. injection HB as <-. f_equal.
  apply map2_app. apply mapM_length in E1. exact E1.
Qed.

Lemma euclid_dist_stack ls A B Z a b :
  euclid_dist ls A (Some Z) = Ok a -> euclid_dist ls B (Some Z) = Ok b ->
  euclid_dist ls (A ++ B) (Some Z) = Ok (a ++ b).
Proof.
  unfold euclid_dist. intros HA HB.
  destruct (square_dist ls A (Some Z)) as [ra|] eqn:EA; simpl in HA; [|discriminate].
  destruct (square_dist ls B (Some Z)) as [rb|] eqn:EB; simpl in HB; [|discriminate].
  rewrite (square_dist_stack _ _ _ _ _ _ EA EB). simpl.
  injection HA as <-. injection HB as <-. unfold mmap. rewrite map_app. reflexivity.
Qed.

Lemma Stationary_K_stack c b v ls A B Z p a a' :
  Stationary_K c b v ls A (Some Z) p = Ok a ->
  Stationary_K c b v ls B (Some Z) p = Ok a' ->
  Stationary_K c b v ls (A ++ B) (Some Z) p = Ok (a ++ a').
Proof.
  unfold Stationary_K. intros HA HB.
  destruct (slice_unless p b A (Some Z)) as [[As Zs]|] eqn:EA; simpl in HA; [|discriminate].
  destruct (slice_unless p b B (Some Z)) as [[Bs Zs']|] eqn:EB; simpl in HB; [|discriminate].
  destruct (slice_unless_stack _ _ _ _ _ _ _ _ _ EA EB) as (-> & ->). simpl.
  destruct (slice_unless_some _ _ _ _ _ _ EA) as (Z1 & -> & _).
  destruct c.
  - destruct (square_dist ls As (Some Z1)) as [ra|] eqn:E1; simpl in HA; [|discriminate].
    destruct (square_dist ls Bs (Some Z1)) as [rb|] eqn:E2; simpl in HB; [|discriminate].
    rewrite (square_dist_stack _ _ _ _ _ _ E1 E2). simpl.
    injection HA as <-. injection HB as <-. unfold mmap. rewrite map_app. reflexivity.
  - destruct (euclid_dist ls As (Some Z1)) as [ra|] eqn:E1; simpl in HA; [|discriminate].
    destruct (euclid_dist ls Bs (Some Z1)) as [rb|] eqn:E2; simpl in HB; [|discriminate].
    rewrite (euclid_dist_stack _ _ _ _ _ _ E1 E2). simpl.
    injection HA as <-. injection HB as <-. unfold mmap. rewrite map_app. reflexivity.
  - destruct (euclid_dist ls As (Some Z1)) as [ra|] eqn:E1; simpl in HA; [|discriminate].
    destruct (euclid_dist ls Bs (Some Z1)) as [rb|] eqn:E2; simpl in HB; [|discriminate].
    rewrite (euclid_dist_stack _ _ _ _ _ _ E1 E2). simpl.
    injection HA as <-. injection HB as <-. unfold mmap. rewrite map_app. reflexivity.
  - destruct (euclid_dist ls As (Some Z1)) as [ra|] eqn:E1; simpl in HA; [|discriminate].
    destruct (euclid_dist ls Bs (Some Z1)) as [rb|] eqn:E2; simpl in HB; [|discriminate].
    rewrite (euclid_dist_stack _ _ _ _ _ _ E1 E2). simpl.
    injection HA as <-. injection HB as <-. unfold mmap. rewrite map_app. reflexivity.
  - destruct (euclid_dist ls As (Some Z1)) as [ra|] eqn:E1; simpl in HA; [|discriminate].
    destruct (euclid_dist ls Bs (Some Z1)) as [rb|] eqn:E2; simpl in HB; [|discriminate].
    rewrite (euclid_dist_stack _ _ _ _ _ _ E1 E2). simpl.
    injection HA as <-. injection HB as <-. unfold mmap. rewrite map_app. reflexivity.
  - destruct (euclid_dist ls As (Some Z1)) as [ra|] eqn:E1; simpl in HA; [|discriminate].
    destruct (euclid_dist ls Bs (Some Z1)) as [rb|] eqn:E2; simpl in HB; [|discriminate].
    rewrite (euclid_dist_stack _ _ _ _ _ _ E1 E2). simpl.
    injection HA as <-. injection HB as <-. unfold mmap. rewrite map_app. reflexivity.
Qed.

Lemma Linear_K_stack b v A B Z p a a' :
  Linear_K b v A (Some Z) p = Ok a ->
  Linear_K b v B (Some Z) p = Ok a' ->
  Linear_K b v (A ++ B) (Some Z) p = Ok (a ++ a').
Proof.
  unfold Linear_K. intros HA HB.
  destruct (slice_unless p b A (Some Z)) as [[As Zs]|] eqn:EA; simpl in HA; [|discriminate].
  destruct (slice_unless p b B (Some Z)) as [[Bs Zs']|] eqn:EB; simpl in HB; [|discriminate].
  destruct (slice_unless_stack _ _ _ _ _ _ _ _ _ EA EB) as (-> & ->). simpl.
  destruct (slice_unless_some _ _ _ _ _ _ EA) as (Z1 & -> & _).
  destruct (bcast_rows Rmult As v) as [Av|] eqn:E1; simpl in HA; [|discriminate].
  destruct (bcast_rows Rmult Bs v) as [Bv|] eqn:E2; simpl in HB; [|discriminate].
  unfold bcast_rows in E1, E2 |- *. rewrite (mapM_app_Ok _ _ _ _ _ E1 E2). simpl.
  apply matmul_nt_app; assumption.
Qed.

Lemma PeriodicKernel_K_stack b v ls per A B Z p a a' :
  PeriodicKernel_K b v ls per A (Some Z) p = Ok a ->
  PeriodicKernel_K b v ls per B (Some Z) p = Ok a' ->
  PeriodicKernel_K b v ls per (A ++ B) (Some Z) p = Ok (a ++ a').
Proof.
  unfold PeriodicKernel_K. intros HA HB.
  destruct (slice_unless p b A (Some Z)) as [[As Zs]|] eqn:EA; simpl in HA; [|discriminate].
  destruct (slice_unless p b B (Some Z)) as [[Bs Zs']|] eqn:EB; simpl in HB; [|discriminate].
  destruct (slice_unless_stack _ _ _ _ _ _ _ _ _ EA EB) as (-> & ->). simpl.
  destruct (slice_unless_some _ _ _ _ _ _ EA) as (Z1 & -> & _).
  apply mapM_app_Ok; assumption.
Qed.

Lemma Coregion_K_stack b W kappa A B Z a a' :
  Coregion_K b W kappa A (Some Z) = Ok a ->
  Coregion_K b W kappa B (Some Z) = Ok a' ->
  Coregion_K b W kappa (A ++ B) (Some Z) = Ok (a ++ a').
Proof.
  unfold Coregion_K. intros HA HB.
  destruct (_slice b A (Some Z)) as [[As Zs]|] eqn:EA; simpl in HA; [|discriminate].
  destruct (_slice b B (Some Z)) as [[Bs Zs']|] eqn:EB; simpl in HB; [|discriminate].
  destruct (slice_stack _ _ _ _ _ _ _ _ EA EB) as (-> & ->). simpl.
  destruct (slice_unless_some false _ _ _ _ _ EA) as (Z1 & -> & _).
  destruct (column0_int32 As) as [ia|] eqn:E1; simpl in HA; [|discriminate].
  destruct (column0_int32 Bs) as [ib|] eqn:E2; simpl in HB; [|discriminate].
  unfold column0_int32 in E1, E2 |- *. rewrite (mapM_app_Ok _ _ _ _ _ E1 E2). simpl.
  fold (column0_int32 Z1) in *.
  destruct (column0_int32 Z1) as [iz|]; simpl in *; [|discriminate].
  destruct (coregion_B W kappa) as [Bm|]; simpl in *; [|discriminate].
  destruct (gather Bm iz) as [G|]; simpl in *; [|discriminate].
  unfold gather in HA, HB |- *. apply mapM_app_Ok; assumption.
Qed.

Lemma fold_left_combine_K_app c n (As Bs : list (list (list R))) :
  length As = length Bs ->
  Forall (fun A => length A = n) As ->
  forall A B, length A = n ->
    fold_left (combine_K c) (map2 (@app (list R)) As Bs) (A ++ B)
    = fold_left (combine_K c) As A ++ fold_left (combine_K c) Bs B.
Proof.
  intros Hlen HAs. revert Bs Hlen.
  induction HAs as [|A1 As HA1 _ IH]; intros [|B1 Bs] Hlen A B HA;
    simpl in Hlen; try discriminate; [reflexivity|].
  unfold map2. simpl. fold (map2 (@app (list R)) As Bs).
  assert (E : combine_K c (A ++ B) (A1 ++ B1) = combine_K c A A1 ++ combine_K c B B1).
  { destruct c; simpl; unfold madd, mmul; apply map2_app; congruence. }
  rewrite E. apply IH; [lia|].
  destruct c; simpl; unfold madd, mmul; rewrite length_map2; congruence.
Qed.

(** With a second input given, the rows of [K] are computed one by one: the
    matrix for stacked inputs is the stack of the matrices. *)
Lemma K_stack k :
  forall A B Z ps a b,
    K k A (Some Z) ps = Ok a -> K k B (Some Z) ps = Ok b ->
    K k (A ++ B) (Some Z) ps = Ok (a ++ b).
Proof.
  induction k as [c b v|c b v ls ard|b v ard|b v ard d o|b v ls p|b o r W kappa|c b l IH]
    using kern_induction; intros A B Z ps a a' HA HB.
  - destruct c; simpl in *; injection HA as <-; injection HB as <-;
      unfold fill2, nrows; rewrite length_app, repeat_app; reflexivity.
  - simpl in *. apply Stationary_K_stack; assumption.
  - simpl in *. apply Linear_K_stack; assumption.
  - simpl in *. unfold Polynomial_K in *.
    destruct (Linear_K b v A (Some Z) _) as [la|] eqn:E1; simpl in HA; [|discriminate].
    destruct (Linear_K b v B (Some Z) _) as [lb|] eqn:E2; simpl in HB; [|discriminate].
    rewrite (Linear_K_stack _ _ _ _ _ _ _ _ E1 E2). simpl.
    injection HA as <-. injection HB as <-. unfold mmap. rewrite map_app. reflexivity.
  - simpl in *. apply PeriodicKernel_K_stack; assumption.
  - simpl in *. destruct ps; [discriminate|]. apply Coregion_K_stack; assumption.
  - rewrite K_Combination in *.
    destruct (mapM (fun k' => K k' A (Some Z) None) l) as [As|] eqn:EA;
      simpl in HA; [|discriminate].
    destruct (mapM (fun k' => K k' B (Some Z) None) l) as [Bs|] eqn:EB;
      simpl in HB; [|discriminate].
    assert (HAB : mapM (fun k' => K k' (A ++ B) (Some Z) None) l
                  = Ok (map2 (@app (list R)) As Bs)).
    { clear HA HB. revert As Bs EA EB.
      induction IH as [|k l Hk _ IHl]; intros As Bs EA EB; simpl in *.
      - injection EA as <-. reflexivity.
      - destruct (K k A (Some Z) None) as [ka|] eqn:E1; simpl in EA; [|discriminate].
        destruct (mapM _ l) as [As'|] eqn:E1'; simpl in EA; [|discriminate].
        destruct (K k B (Some Z) None) as [kb|] eqn:E2; simpl in EB; [|discriminate].
        destruct (mapM (fun k' => K k' B (Some Z) None) l) as [Bs'|] eqn:E2';
          simpl in EB; [|discriminate].
        injection EA as <-. injection EB as <-.
        rewrite (Hk _ _ _ _ _ _ E1 E2). simpl.
        rewrite (IHl As' Bs' eq_refl eq_refl). reflexivity. }
    rewrite HAB. simpl.
    assert (HlenA : Forall (fun M => length M = nrows A) As).
    { apply Forall_forall. intros M HM.
      destruct (mapM_In _ _ _ EA M HM) as (k' & _ & EK).
      apply (K_shape k' _ _ _ _ EK). }
    assert (Hlen : length As = length Bs).
    { apply mapM_length in EA, EB. congruence. }
    destruct As as [|A1 As]; [discriminate|].
    destruct Bs as [|B1 Bs]; [discriminate|].
    simpl in HA, HB. injection HA as <-. injection HB as <-.
    unfold map2. simpl. fold (map2 (@app (list R)) As Bs). f_equal.
    inversion HlenA; subst.
    apply (fold_left_combine_K_app c (nrows A)); [simpl in Hlen; lia | assumption | assumption].
Qed.

Lemma K_concat k Z ps :
  forall (Xs : list (list (list R))) Ks,
    Xs <> [] ->
    mapM (fun X => K k X (Some Z) ps) Xs = Ok Ks ->
    K k (concat Xs) (Some Z) ps = Ok (concat Ks).
Proof.
  induction Xs as [|X Xs IH]; intros Ks Hne H; [congruence|].
  simpl in H.
  destruct (K k X (Some Z) ps) as [KX|] eqn:E1; simpl in H; [|discriminate].
  destruct (mapM _ Xs) as [Ks'|] eqn:E2; simpl in H; [|discriminate].
  injection H as <-. simpl.
  destruct Xs as [|X' Xs].
  - simpl in E2. injection E2 as <-. simpl. rewrite !app_nil_r. exact E1.
  - apply K_stack; [exact E1|]. apply IH; [discriminate | reflexivity].
Qed.

(** ** Reshaping *)

Lemma length_concat_uniform {A : Type} (n : nat) (l : list (list A)) :
  Forall (fun r => length r = n) l -> length (concat l) = (length l * n)%nat.
Proof.
  induction 1 as [|r l Hr _ IH]; simpl; [reflexivity|].
  rewrite length_app, IH, Hr. reflexivity.
Qed.

Lemma nth_concat_uniform {A : Type} (n : nat) (l : list (list A)) (d : A) :
  Forall (fun r => length r = n) l ->
  forall i j, (j < n)%nat -> nth (i * n + j) (concat l) d = nth j (nth i l []) d.
Proof.
  induction 1 as [|r l Hr _ IH]; intros i j Hj; simpl.
  - destruct i, j; destruct (_ + _)%nat; reflexivity.
  - destruct i as [|i]; simpl.
    + apply app_nth1. lia.
    + rewrite app_nth2 by lia. rewrite <- (IH i j Hj). f_equal. lia.
Qed.

Lemma concat_concat_map {A : Type} (l : list (list (list A))) :
  concat (map (@concat A) l) = concat (concat l).
Proof.
  induction l as [|x l IH]; simpl; [reflexivity|].
  rewrite concat_app, IH. reflexivity.
Qed.

Lemma infer_shape_rows (D n : nat) :
  (0 < D)%nat -> infer_shape [(-1)%Z; Z.of_nat D] (n * D) = Ok [n; D].
Proof.
  intros HD. unfold infer_shape.
  assert (E1 : (Z.of_nat D <? -1)%Z = false) by (apply Z.ltb_ge; lia).
  assert (E2 : (Z.of_nat D =? -1)%Z = false) by (apply Z.eqb_neq; lia).
  assert (E3 : (Z.of_nat D * 1 =? 0)%Z = false) by (apply Z.eqb_neq; lia).
  cbn -[Z.ltb Z.eqb Z.mul Z.modulo Z.div Z.of_nat Z.to_nat].
  rewrite E1, Z.ltb_irrefl, Z.eqb_refl, E2.
  cbn -[Z.ltb Z.eqb Z.mul Z.modulo Z.div Z.of_nat Z.to_nat].
  rewrite E3, Z.mul_1_r.
  rewrite Nat2Z.inj_mul, Z.mod_mul by lia. rewrite Z.eqb_refl.
  rewrite Z.div_mul by lia. rewrite !Nat2Z.id. reflexivity.
Qed.

Lemma reshape2_rows (D : nat) (A : list (list R)) :
  (0 < D)%nat -> has_cols D A ->
  reshape2 (-1) (Z.of_nat D) (concat A) = Ok A.
Proof.
  intros HD HA. unfold reshape2.
  rewrite (length_concat_uniform D A HA), infer_shape_rows by exact HD. simpl.
  f_equal. apply nth_ext with (d := []) (d' := []); [apply length_tabulate|].
  intros i Hi. rewrite length_tabulate in Hi. rewrite nth_tabulate by exact Hi.
  apply nth_ext with (d := 0) (d' := 0).
  - rewrite length_tabulate. symmetry. apply (has_cols_In _ _ _ HA). apply nth_In, Hi.
  - intros j Hj. rewrite length_tabulate in Hj. rewrite nth_tabulate by exact Hj.
    apply nth_concat_uniform; assumption.
Qed.

Lemma infer_shape_static (P N M : nat) :
  infer_shape [Z.of_nat P; Z.of_nat N; Z.of_nat M] (P * N * M) = Ok [P; N; M].
Proof.
  unfold infer_shape.
  assert (L : forall n, (Z.of_nat n <? -1)%Z = false) by (intros; apply Z.ltb_ge; lia).
  assert (E : forall n, (Z.of_nat n =? -1)%Z = false) by (intros; apply Z.eqb_neq; lia).
  cbn -[Z.ltb Z.eqb Z.mul Z.modulo Z.div Z.of_nat Z.to_nat].
  rewrite !L, !E.
  cbn -[Z.ltb Z.eqb Z.mul Z.modulo Z.div Z.of_nat Z.to_nat].
  rewrite !Nat2Z.id.
  replace (Z.of_nat P * (Z.of_nat N * (Z.of_nat M * 1)))%Z with (Z.of_nat (P * N * M)) by lia.
  rewrite Z.eqb_refl. reflexivity.
Qed.

Lemma reshape3_concat (P N M : nat) (Ks : list (list (list R))) :
  length Ks = P ->
  Forall (fun A => length A = N /\ has_cols M A) Ks ->
  reshape3 (Z.of_nat P) (Z.of_nat N) (Z.of_nat M) (flatten2 (concat Ks)) = Ok Ks.
Proof.
  intros HP HKs. unfold reshape3, flatten2.
  assert (HN : Forall (fun A : list (list R) => length A = N) Ks)
    by (eapply Forall_impl; [|exact HKs]; intros A HA; apply HA).
  assert (HM : has_cols M (concat Ks)).
  { apply has_cols_intro. intros r Hr. apply in_concat in Hr.
    destruct Hr as (A & HA & Hr). rewrite Forall_forall in HKs.
    apply (has_cols_In _ _ _ (proj2 (HKs A HA)) Hr). }
  rewrite (length_concat_uniform M _ HM), (length_concat_uniform N _ HN), HP.
  rewrite infer_shape_static. simpl. f_equal.
  apply nth_ext with (d := []) (d' := []); [rewrite length_tabulate; congruence|].
  intros i Hi. rewrite length_tabulate in Hi. rewrite nth_tabulate by exact Hi.
  assert (HAi : length (nth i Ks []) = N /\ has_cols M (nth i Ks [])).
  { rewrite Forall_forall in HKs. apply HKs, nth_In. lia. }
  apply nth_ext with (d := []) (d' := []); [rewrite length_tabulate; symmetry; apply HAi|].
  intros j Hj. rewrite length_tabulate in Hj. rewrite nth_tabulate by exact Hj.
  apply nth_ext with (d := 0) (d' := 0).
  - rewrite length_tabulate. symmetry. apply (has_cols_In _ _ _ (proj2 HAi)).
    apply nth_In. lia.
  - intros l Hl. rewrite length_tabulate in Hl. rewrite nth_tabulate by exact Hl.
    rewrite (nth_concat_uniform M _ 0 HM) by exact Hl.
    rewrite (nth_concat_uniform N _ [] HN) by exact Hj. reflexivity.
Qed.

Lemma cartesian_power_cols (l : list R) (D : nat) :
  has_cols D (cartesian_power l D).
Proof.
  induction D as [|D IH]; simpl.
  - repeat constructor.
  - apply has_cols_intro. intros r Hr. apply in_flat_map in Hr.
    destruct Hr as (x & _ & Hr). apply in_map_iff in Hr.
    destruct Hr as (t & <- & Ht). simpl. f_equal. apply (has_cols_In _ _ _ IH Ht).
Qed.

Lemma cartesian_power_length (l : list R) (D : nat) :
  length (cartesian_power l D) = (length l ^ D)%nat.
Proof.
  induction D as [|D IH]; simpl; [reflexivity|].
  rewrite <- IH.
  assert (E : forall (c : list (list R)) (t : list R),
            length (flat_map (fun x => map (cons x) c) t) = (length t * length c)%nat).
  { intros c t. induction t as [|x t IHt]; simpl; [reflexivity|].
    rewrite length_app, length_map, IHt. reflexivity. }
  apply E.
Qed.

(** ** Gauss-Hermite quadrature *)

Lemma mapM_map {A B C : Type} (f : B -> result C) (g : A -> B) (l : list A) :
  mapM f (map g l) = mapM (fun a => f (g a)) l.
Proof.
  induction l as [|a l IH]; simpl; [reflexivity|]. rewrite IH. reflexivity.
Qed.

Lemma combine_repeat {A B : Type} (l : list A) (b : B) :
  combine l (repeat b (length l)) = map (fun a => (a, b)) l.
Proof.
  induction l as [|a l IH]; simpl; [reflexivity|]. rewrite IH. reflexivity.
Qed.

Lemma combine_maps {A B C D : Type} (f : A -> C) (g : B -> D) (a : list A) (b : list B) :
  combine (map f a) (map g b) = map (fun p => (f (fst p), g (snd p))) (combine a b).
Proof.
  revert b; induction a as [|x a IH]; intros [|y b]; simpl; try reflexivity.
  rewrite IH. reflexivity.
Qed.

Lemma nth_map_lt {A B : Type} (f : A -> B) (l : list A) (i : nat) (d : A) (d' : B) :
  (i < length l)%nat -> nth i (map f l) d' = f (nth i l d).
Proof.
  intros Hi. rewrite (nth_indep _ d' (f d)) by (rewrite length_map; exact Hi).
  apply map_nth.
Qed.

Lemma concat_map_nil {A B : Type} (l : list A) :
  concat (map (fun _ => @nil B) l) = [].
Proof. induction l; simpl; auto. Qed.

(** [tf.transpose(X, [2, 0, 1])] of a tensor whose innermost axis runs over [xs]. *)
Lemma transpose_201_maps {A B C : Type} (c0 : C) (Nl : list A) (Dl : A -> list B)
      (F : A -> B -> C -> R) (xs : list C) (D : nat) :
  Nl <> [] -> (0 < D)%nat -> (forall n, In n Nl -> length (Dl n) = D) ->
  transpose_201 (map (fun n => map (fun d => map (F n d) xs) (Dl n)) Nl)
  = map (fun x => map (fun n => map (fun d => F n d x) (Dl n)) Nl) xs.
Proof.
  intros Hne HD HDl. unfold transpose_201.
  destruct Nl as [|a0 Nl]; [congruence|].
  assert (Ha0 : length (Dl a0) = D) by (apply HDl; left; reflexivity).
  destruct (Dl a0) as [|b0 Dl0] eqn:EDl; [simpl in Ha0; lia|].
  set (X := map (fun n => map (fun d => map (F n d) xs) (Dl n)) (a0 :: Nl)).
  assert (E2 : length (hd [] X) = D).
  { unfold X. simpl. rewrite length_map, EDl. exact Ha0. }
  assert (E3 : length (hd [] (hd [] X)) = length xs).
  { unfold X. simpl. rewrite EDl. simpl. apply length_map. }
  rewrite E2, E3.
  apply nth_ext with (d := []) (d' := []);
    [rewrite length_tabulate, length_map; reflexivity|].
  intros i Hi. rewrite length_tabulate in Hi. rewrite nth_tabulate by exact Hi.
  rewrite (nth_map_lt _ _ _ c0) by exact Hi.
  apply nth_ext with (d := []) (d' := []);
    [unfold X; rewrite length_tabulate, !length_map; reflexivity|].
  intros n Hn. rewrite length_tabulate in Hn. unfold X in Hn. rewrite length_map in Hn.
  rewrite nth_tabulate by (unfold X; rewrite length_map; exact Hn).
  rewrite (nth_map_lt _ _ _ a0) by exact Hn.
  assert (HDn : length (Dl (nth n (a0 :: Nl) a0)) = D) by (apply HDl, nth_In, Hn).
  apply nth_ext with (d := 0) (d' := 0);
    [rewrite length_tabulate, length_map; symmetry; exact HDn|].
  intros d Hd. rewrite length_tabulate in Hd.
  rewrite nth_tabulate by exact Hd.
  unfold X. rewrite (nth_map_lt _ _ _ a0) by exact Hn.
  rewrite (nth_map_lt _ _ _ b0) by (rewrite HDn; exact Hd).
  rewrite (nth_map_lt _ _ _ b0) by (rewrite HDn; exact Hd).
  apply (nth_map_lt _ _ _ c0). exact Hi.
Qed.

Lemma quadrature_location_shape means Ls D x :
  length Ls = nrows means ->
  Forall (fun L => length L = D /\ has_cols D L) Ls -> has_cols D means ->
  length (quadrature_location means Ls x) = nrows means
  /\ has_cols D (quadrature_location means Ls x).
Proof.
  intros HL HLs Hm. unfold quadrature_location. split.
  - rewrite length_map2; [exact HL | exact HL].
  - apply has_cols_intro. intros r Hr. apply In_map2 in Hr.
    destruct Hr as (L & mu & HLin & Hmu & ->).
    rewrite Forall_forall in HLs. destruct (HLs L HLin) as (HL1 & _).
    pose proof (has_cols_In _ _ _ Hm Hmu). rewrite length_map2; congruence.
Qed.

(** [mvhermgauss] returns the quadrature locations, one block of rows per grid
    point, and the weights. *)
Lemma mvhermgauss_locations env means covs H D gh_x gh_w Ls :
  (0 < D)%nat ->
  hermgauss env H = Some (gh_x, gh_w) ->
  mapM (tf_cholesky env) covs = Ok Ls ->
  length Ls = nrows means ->
  Forall (fun L => length L = D /\ has_cols D L) Ls ->
  has_cols D means ->
  mvhermgauss env means covs H (Z.of_nat D)
  = Ok (concat (map (quadrature_location means Ls) (cartesian_power gh_x D)),
        quadrature_weights gh_w D).
Proof.
  intros HD Hh Hc HL HLs Hm.
  unfold mvhermgauss, np_hermgauss. rewrite Hh. simpl. rewrite Nat2Z.id, Hc. simpl.
  set (xs := cartesian_power gh_x D).
  assert (Hxs : has_cols D xs) by apply cartesian_power_cols.
  rewrite <- HL at 1. rewrite combine_repeat, mapM_map.
  rewrite (mapM_Ok_map _ (fun L => map (fun l => map (dot l) xs) L)).
  2:{ intros L HLin. simpl. rewrite Forall_forall in HLs.
      apply (matmul_nt_same D); [apply HLs, HLin | exact Hxs]. }
  simpl. rewrite HL, Nat.eqb_refl. simpl.
  unfold bcast_t3. rewrite !length_map, HL. unfold nrows. rewrite Nat.eqb_refl.
  rewrite map_map, combine_maps, mapM_map.
  rewrite (mapM_Ok_map _ (fun p : list (list R) * list R =>
             map (fun q => map (fun x => sqrt 2 * dot (fst q) x + snd q) xs)
                 (combine (fst p) (snd p)))).
  2:{ intros (L, mu) Hin. simpl.
      assert (length L = length mu).
      { rewrite Forall_forall in HLs.
        rewrite (proj1 (HLs L (in_combine_l _ _ _ _ Hin))).
        symmetry. apply (has_cols_In _ _ _ Hm (in_combine_r _ _ _ _ Hin)). }
      change (map (fun m : R => [m]) mu) with (as_column mu).
      rewrite bcast_mat_as_column by (unfold mmap; rewrite !length_map; assumption).
      f_equal. unfold mmap. rewrite map_map, map2_map_l. unfold map2.
      apply map_ext. intros (l, m). simpl. rewrite !map_map. reflexivity. }
  simpl.
  assert (Hloc : forall x, quadrature_location means Ls x
                 = map (fun p : list (list R) * list R =>
                          map (fun q => sqrt 2 * dot (fst q) x + snd q)
                              (combine (fst p) (snd p))) (combine Ls means))
    by reflexivity.
  assert (Hflat : flatten3 (transpose_201
            (map (fun p : list (list R) * list R =>
                    map (fun q => map (fun x => sqrt 2 * dot (fst q) x + snd q) xs)
                        (combine (fst p) (snd p))) (combine Ls means)))
          = concat (concat (map (quadrature_location means Ls) xs))).
  { destruct (combine Ls means) as [|p0 rest] eqn:Ec.
    - rewrite (map_ext (quadrature_location means Ls) (fun _ => @nil (list R)))
        by (intros x; unfold quadrature_location, map2; rewrite Ec; reflexivity).
      rewrite concat_map_nil. reflexivity.
    - rewrite <- Ec.
      rewrite (transpose_201_maps [] (combine Ls means)
                 (fun p => combine (fst p) (snd p))
                 (fun p q x => sqrt 2 * dot (fst q) x + snd q) xs D).
      + unfold flatten3, flatten2. rewrite concat_concat_map.
        first [reflexivity
              | do 2 f_equal; apply map_ext; intros x; rewrite Hloc; reflexivity].
      + rewrite Ec. discriminate.
      + exact HD.
      + intros (L, mu) Hin. simpl. rewrite length_combine.
        rewrite Forall_forall in HLs.
        rewrite (proj1 (HLs L (in_combine_l _ _ _ _ Hin))).
        rewrite (has_cols_In _ _ _ Hm (in_combine_r _ _ _ _ Hin)). lia. }
  rewrite Hflat, reshape2_rows; [reflexivity | exact HD |].
  apply has_cols_intro. intros r Hr. apply in_concat in Hr.
  destruct Hr as (A & HA & Hr). apply in_map_iff in HA. destruct HA as (x & <- & _).
  apply (has_cols_In _ _ _ (proj2 (quadrature_location_shape means Ls D x HL HLs Hm)) Hr).
Qed.

Lemma check_allowed env k :
  ~ quadrature_forbidden env k ->
  _check_quadrature env k = (quadrature_warnings env k, Ok tt).
Proof.
  intros Hn. unfold _check_quadrature, quadrature_warnings.
  destruct (String.eqb (ekern_quadrature env) "error") eqn:He.
  - exfalso. apply Hn. left. apply String.eqb_eq, He.
  - destruct (num_gauss_hermite_points (base k) =? 0)%Z eqn:Hh; [|reflexivity].
    exfalso. apply Hn. right. apply Z.eqb_eq, Hh.
Qed.

Lemma slice_has_cols b X X2 Xs X2s D :
  input_dim b = Z.of_nat D -> _slice b X X2 = Ok (Xs, X2s) -> has_cols D Xs.
Proof.
  intros HD H. unfold _slice in H. inv_ok H.
  unfold assert_cols in E1.
  destruct (forallb _ Xs) eqn:Ef; [|discriminate].
  rewrite forallb_forall in Ef. apply has_cols_intro. intros r Hr.
  specialize (Ef r Hr). rewrite HD in Ef. apply Z.eqb_eq in Ef. lia.
Qed.

(** On a [Coregion] kernel, with quadrature allowed and inputs that slice,
    [eKxz] ends in [TypeError]: [Coregion.K] takes no keyword [presliced]. *)
Lemma eKxz_Coregion_raises :
  ~ quadrature_forbidden one_point_env coregion_one_point
  /\ _slice (base coregion_one_point) [[1]] (Some [[0]]) = Ok ([[1]], Some [[0]])
  /\ eKxz one_point_env coregion_one_point [[0]] [[1]] (DiagCov [[4]])
     = ([QuadratureWarning "Coregion"], Raise TypeError).
Proof.
  split; [intros [H|H]; discriminate H|]. split; reflexivity.
Qed.

(** ** Active dimensions *)

Lemma agree_on_Combination c b l X X' :
  agree_on (Combination c b l) X X' <-> Forall (fun k' => agree_on k' X X') l.
Proof.
  simpl. induction l as [|k l IH].
  - split; [constructor | exact (fun _ => I)].
  - split.
    + intros [H1 H2]. constructor; [exact H1 | apply IH, H2].
    + intros H. inversion H; subst. split; [assumption | apply IH; assumption].
Qed.

Lemma agree_on_opt_Combination c b l X2 X2' :
  agree_on_opt (Combination c b l) X2 X2' ->
  Forall (fun k' => agree_on_opt k' X2 X2') l.
Proof.
  destruct X2 as [a|], X2' as [a'|]; simpl; intros H; try contradiction.
  - apply (agree_on_Combination c b), H.
  - apply Forall_forall. intros; exact I.
Qed.

Lemma slice_agree b X X' X2 X2' :
  same_selection (active_dims b) X X' ->
  same_selection_opt (active_dims b) X2 X2' ->
  _slice b X X2 = _slice b X' X2'.
Proof.
  intros [_ H] H2. unfold _slice. rewrite H.
  destruct X2 as [a|], X2' as [a'|]; simpl in H2; try contradiction; [|reflexivity].
  destruct H2 as [_ H2]. rewrite H2. reflexivity.
Qed.

Lemma nrows_agree_opt ad (X2 X2' : option matrix) :
  same_selection_opt ad X2 X2' ->
  match X2, X2' with
  | Some a, Some a' => nrows a = nrows a'
  | None, None => True
  | _, _ => False
  end.
Proof.
  destruct X2, X2'; simpl; auto. intros [H _]; exact H.
Qed.

(** The amended noninterference, for every kernel at once. *)
Lemma K_Kdiag_agree k :
  forall X X' X2 X2' ps,
    presliced_arg ps = false ->
    agree_on k X X' -> agree_on_opt k X2 X2' ->
    K k X X2 ps = K k X' X2' ps /\ Kdiag k X ps = Kdiag k X' ps.
Proof.
  induction k as [c b v|c b v ls ard|b v ard|b v ard d o|b v ls p|b o r W kappa|c b l IH]
    using kern_induction; intros X X' X2 X2' ps Hps HX HX2.
  1-6: assert (HX2s : same_selection_opt (active_dims b) X2 X2')
         by (destruct X2, X2'; exact HX2);
       simpl in HX;
       assert (HXn : nrows X = nrows X') by (apply HX);
       assert (HXnone : same_selection_opt (active_dims b) None None) by exact I;
       pose proof (slice_agree b X X' X2 X2' HX HX2s) as Hs;
       pose proof (slice_agree b X X' None None HX HXnone) as Hs1;
       pose proof (nrows_agree_opt _ _ _ HX2s) as Hn2.
  - simpl. unfold Static_Kdiag, White_K, Constant_K. rewrite HXn.
    destruct X2 as [a|], X2' as [a'|]; try contradiction;
      try rewrite Hn2; split; reflexivity.
  - simpl. unfold Stationary_Kdiag, Stationary_K, slice_unless.
    rewrite Hps, Hs, HXn. split; reflexivity.
  - simpl. unfold Linear_K, Linear_Kdiag, slice_unless.
    rewrite Hps, Hs, Hs1. split; reflexivity.
  - simpl. unfold Polynomial_K, Polynomial_Kdiag, Linear_K, Linear_Kdiag, slice_unless.
    rewrite Hps, Hs, Hs1. split; reflexivity.
  - simpl. unfold PeriodicKernel_Kdiag, PeriodicKernel_K, slice_unless.
    rewrite Hps, Hs, HXn. split; reflexivity.
  - simpl. unfold Coregion_K, Coregion_Kdiag.
    rewrite Hs, Hs1. split; reflexivity.
  - rewrite !K_Combination, !Kdiag_Combination.
    apply agree_on_Combination in HX. apply agree_on_opt_Combination in HX2.
    rewrite Forall_forall in IH, HX, HX2.
    split; f_equal; apply mapM_ext; intros k' Hk';
      apply (IH k' Hk' X X' X2 X2' None eq_refl (HX k' Hk') (HX2 k' Hk')).
Qed.

Lemma slice_indices_prefix (D : Z) (len : nat) :
  (0 <= D)%Z ->
  slice_indices None (Some D) None (Z.of_nat len)
  = Ok (map Z.of_nat (seq 0 (Nat.min (Z.to_nat D) len))).
Proof.
  intros HD. unfold slice_indices.
  change ((1 =? 0)%Z) with false. change ((1 <? 0)%Z) with false. cbv iota.
  assert (E : (D <? 0)%Z = false) by (apply Z.ltb_ge; exact HD). rewrite E.
  set (b := Z.min D (Z.of_nat len)).
  assert (Hb : (0 <= b)%Z) by (unfold b; lia).
  assert (Hcount : (if (0 <? b)%Z then ((b - 0 - 1) / 1 + 1)%Z else 0%Z) = b).
  { destruct (0 <? b)%Z eqn:E0.
    - rewrite Z.div_1_r. lia.
    - apply Z.ltb_ge in E0. lia. }
  rewrite Hcount. f_equal.
  replace (Z.to_nat b) with (Nat.min (Z.to_nat D) len) by (unfold b; lia).
  apply map_ext. intros i. lia.
Qed.

Lemma getitem_firstn (D : Z) (X : list (list R)) :
  (0 <= D)%Z ->
  getitem_cols None (Some D) None X = Ok (map (firstn (Z.to_nat D)) X).
Proof.
  intros HD. unfold getitem_cols. apply mapM_Ok_map. intros row _.
  rewrite slice_indices_prefix by exact HD. simpl. f_equal.
  rewrite map_map.
  apply nth_ext with (d := 0) (d' := 0).
  - rewrite length_map, length_seq, length_firstn. reflexivity.
  - intros i Hi. rewrite length_map, length_seq in Hi.
    rewrite (nth_map_lt _ _ _ 0%nat) by (rewrite length_seq; exact Hi).
    rewrite seq_nth by exact Hi. simpl. rewrite Nat2Z.id.
    rewrite nth_firstn.
    destruct (Nat.ltb i (Z.to_nat D)) eqn:E; [reflexivity|].
    apply Nat.ltb_ge in E. lia.
Qed.

Lemma gather_firstn (D : Z) (l : list Z) (row : list R) :
  Forall (fun j => (0 <= j < D)%Z) l ->
  gather row l = gather (firstn (Z.to_nat D) row) l.
Proof.
  intros Hl. unfold gather. apply mapM_ext. intros j Hj.
  rewrite Forall_forall in Hl. specialize (Hl j Hj).
  rewrite nth_error_firstn.
  assert (E : Nat.ltb (Z.to_nat j) (Z.to_nat D) = true) by (apply Nat.ltb_lt; lia).
  rewrite E. reflexivity.
Qed.

(** Inputs with equal prefixes of [D] columns agree on active dimensions that
    select within those columns. *)
Lemma dims_within_agree (D : Z) (ad : active_dims_t) (X X' : list (list R)) :
  dims_within D ad ->
  nrows X = nrows X' ->
  map (firstn (Z.to_nat D)) X = map (firstn (Z.to_nat D)) X' ->
  same_selection ad X X'.
Proof.
  intros Hd Hn Hp. split; [exact Hn|].
  destruct ad as [[?|] [d|] [?|]|l]; simpl in Hd; try contradiction; simpl.
  - rewrite !getitem_firstn by lia.
    assert (E : forall Y : list (list R),
              map (firstn (Z.to_nat d)) Y
              = map (firstn (Z.to_nat d)) (map (firstn (Z.to_nat D)) Y)).
    { intros Y. rewrite map_map. apply map_ext. intros row.
      rewrite firstn_firstn. f_equal. lia. }
    rewrite (E X), (E X'), Hp. reflexivity.
  - unfold gather_cols.
    assert (E : forall Y : list (list R),
              mapM (fun row => gather row l) Y
              = mapM (fun row => gather row l) (map (firstn (Z.to_nat D)) Y)).
    { intros Y. rewrite mapM_map. apply mapM_ext. intros row _.
      apply gather_firstn, Hd. }
    rewrite (E X), (E X'), Hp. reflexivity.
Qed.

Lemma reads_first_Combination D c b l :
  reads_first D (Combination c b l) <-> Forall (reads_first D) l.
Proof.
  simpl. induction l as [|k l IH].
  - split; [constructor | exact (fun _ => I)].
  - split.
    + intros [H1 H2]. constructor; [exact H1 | apply IH, H2].
    + intros H. inversion H; subst. split; [assumption | apply IH; assumption].
Qed.

Lemma reads_first_agree k :
  forall D X X',
    reads_first D k ->
    nrows X = nrows X' ->
    map (firstn (Z.to_nat D)) X = map (firstn (Z.to_nat D)) X' ->
    agree_on k X X'.
Proof.
  induction k as [c b v|c b v ls ard|b v ard|b v ard d o|b v ls p|b o r W kappa|c b l IH]
    using kern_induction; intros D X X' Hr Hn Hp.
  1-6: simpl in *; eapply dims_within_agree; eassumption.
  apply agree_on_Combination. apply reads_first_Combination in Hr.
  rewrite Forall_forall in IH, Hr |- *. intros k' Hk'.
  apply (IH k' Hk' D); auto.
Qed.

Lemma dims_within_mono D D' ad : (D <= D')%Z -> dims_within D ad -> dims_within D' ad.
Proof.
  intros Hle. destruct ad as [[?|] [d|] [?|]|l]; simpl; try tauto; [lia|].
  intros H. eapply Forall_impl; [|exact H]. simpl. intros; lia.
Qed.

Lemma default_dims_Combination c b l :
  default_dims (Combination c b l)
  <-> combination_invariant (Combination c b l) /\ Forall default_dims l.
Proof.
  cbn [default_dims]. apply and_iff_compat_l.
  induction l as [|k l IH].
  - split; [constructor | exact (fun _ => I)].
  - split.
    + intros [H1 H2]. constructor; [exact H1 | apply IH, H2].
    + intros H. inversion H; subst. split; [assumption | apply IH; assumption].
Qed.

(** A kernel with default dimensions reads within its own extent. *)
Lemma default_dims_reads k :
  default_dims k ->
  forall d, child_dim k = Ok d ->
    (0 <= d)%Z /\ forall D, (d <= D)%Z -> reads_first D k.
Proof.
  induction k as [c b v|c b v ls ard|b v ard|b v ard d0 o|b v ls p|b o r W kappa|c b l IH]
    using kern_induction; intros Hd d Hc.
  1-6: unfold child_dim in Hc; simpl in Hd, Hc |- *;
       destruct (active_dims b) as [[?|] [e|] [?|]|idx]; simpl in *; try contradiction;
       [ injection Hc as <-; destruct Hd as [-> Hd]; split; [exact Hd | intros; lia]
       | apply bind_Ok in Hc; destruct Hc as (m & Hm & Hc); injection Hc as <-;
         apply np_max_spec in Hm; destruct Hm as (Hin & Hall);
         rewrite Forall_forall in Hd, Hall;
         split; [specialize (Hd m Hin); lia|];
         intros D HD; apply Forall_forall; intros j Hj;
         specialize (Hd j Hj); specialize (Hall j Hj); lia ].
  apply default_dims_Combination in Hd. destruct Hd as ((_ & Hmax & Had) & Hl).
  unfold child_dim in Hc. simpl in Hc. rewrite Had in Hc. injection Hc as <-.
  unfold max_child_dim in Hmax. apply bind_Ok in Hmax.
  destruct Hmax as (dims & Hdims & Hmax). apply np_max_spec in Hmax.
  destruct Hmax as (Hin & Hall).
  apply mapM_Forall2 in Hdims.
  assert (Hch : forall k', In k' l -> exists dk, child_dim k' = Ok dk /\ In dk dims).
  { clear -Hdims. induction Hdims as [|k0 d0 l dims H0 _ IHd]; intros k' Hk'; [destruct Hk'|].
    destruct Hk' as [<-|Hk']; [exists d0; split; [exact H0 | left; reflexivity]|].
    destruct (IHd k' Hk') as (dk & E & Hi). exists dk; split; [exact E | right; exact Hi]. }
  assert (Hdim_in : exists k', In k' l /\ child_dim k' = Ok (input_dim b)).
  { clear -Hdims Hin. induction Hdims as [|k0 d0 l dims H0 _ IHd]; [destruct Hin|].
    destruct Hin as [->|Hin]; [exists k0; split; [left; reflexivity | exact H0]|].
    destruct (IHd Hin) as (k' & Hk' & E). exists k'; split; [right; exact Hk' | exact E]. }
  rewrite Forall_forall in IH, Hl, Hall.
  split.
  - destruct Hdim_in as (k' & Hk' & E). apply (IH k' Hk' (Hl k' Hk') _ E).
  - intros D HD. apply reads_first_Combination. apply Forall_forall. intros k' Hk'.
    destruct (Hch k' Hk') as (dk & E & Hi).
    apply (IH k' Hk' (Hl k' Hk') dk E). specialize (Hall dk Hi). lia.
Qed.

Lemma same_selection_prefix D X X' :
  (0 <= D)%Z ->
  same_selection (ADslice None (Some D) None) X X' ->
  nrows X = nrows X' /\ map (firstn (Z.to_nat D)) X = map (firstn (Z.to_nat D)) X'.
Proof.
  intros HD [Hn Hs]. split; [exact Hn|].
  simpl in Hs. rewrite !getitem_firstn in Hs by exact HD. injection Hs as Hs. exact Hs.
Qed.

(** A kernel with default dimensions: inputs that agree on the columns its own
    [active_dims] selects agree on what it reads. *)
Lemma default_dims_agree k X X' :
  default_dims k ->
  same_selection (active_dims (base k)) X X' ->
  agree_on k X X'.
Proof.
  intros Hd Hs.
  destruct k as [c b v|c b v ls ard|b v ard|b v ard d o|b v ls p|b o r W kappa|c b l];
    try exact Hs.
  pose proof Hd as Hd'. apply default_dims_Combination in Hd'.
  destruct Hd' as ((_ & _ & Had) & _).
  assert (Hc : child_dim (Combination c b l) = Ok (input_dim b)).
  { unfold child_dim. simpl. rewrite Had. reflexivity. }
  destruct (default_dims_reads _ Hd _ Hc) as (H0 & Hr).
  simpl in Hs. rewrite Had in Hs.
  destruct (same_selection_prefix _ _ _ H0 Hs) as (Hn & Hp).
  apply (reads_first_agree _ (input_dim b)); [apply Hr; lia | exact Hn | exact Hp].
Qed.

(** C5, as amended: [K(X, X2)] and [Kdiag(X)] of a kernel that is not a
    combination depend on the inputs only through their number of rows and the
    columns the kernel's [active_dims] selects; a combination does not slice by
    its own [active_dims], and its outputs depend on the inputs only through
    what its children read.  For kernels made with the default [active_dims]
    or with arrays of non-negative indices, and for the combinations of such
    kernels, that is within the columns the kernel's own [active_dims] selects. *)
Theorem outputs_depend_on_selected_columns :
  forall k X X' X2 X2',
    (agree_on k X X' -> agree_on_opt k X2 X2' ->
     K k X X2 None = K k X' X2' None /\ Kdiag k X None = Kdiag k X' None)
    /\ (default_dims k ->
        same_selection (active_dims (base k)) X X' ->
        same_selection_opt (active_dims (base k)) X2 X2' ->
        K k X X2 None = K k X' X2' None /\ Kdiag k X None = Kdiag k X' None).
Proof.
  intros k X X' X2 X2'. split.
  - intros HX HX2. apply (K_Kdiag_agree k X X' X2 X2' None eq_refl HX HX2).
  - intros Hd HX HX2.
    apply (K_Kdiag_agree k X X' X2 X2' None eq_refl).
    + apply default_dims_agree; assumption.
    + destruct X2 as [a|], X2' as [a'|]; simpl in *; try contradiction; [|exact I].
      apply default_dims_agree; assumption.
Qed.

(** The sum of two [Linear(1, active_dims=slice(1, 2))] has [input_dim = 1] and
    the default [active_dims], yet reads the second column: two inputs that
    agree on the first column give different [K] and [Kdiag]. *)
Lemma selected_columns_counterexample :
  Linear_init 1 [1] (Some (ADslice (Some 1%Z) (Some 2%Z) None)) false
  = Ok linear_second_column
  /\ kern_add linear_second_column linear_second_column = Ok sum_second_column
  /\ same_selection (active_dims (base sum_second_column)) [[0; 1]] [[0; 2]]
  /\ K sum_second_column [[0; 1]] None None <> K sum_second_column [[0; 2]] None None
  /\ Kdiag sum_second_column [[0; 1]] None <> Kdiag sum_second_column [[0; 2]] None.
Proof.
  split; [reflexivity|]. split; [reflexivity|].
  split; [split; reflexivity|].
  split; vm_compute; intros H; injection H as H; lra.
Qed.

(** The same sum on inputs that agree on the second column, and
    [White(1) + Constant(1)] on inputs that agree on the first. *)
Lemma outputs_depend_on_selected_columns_witness :
  (agree_on sum_second_column [[0; 1]] [[5; 1]]
   /\ agree_on_opt sum_second_column (Some [[3; 4]]) (Some [[7; 4]])
   /\ K sum_second_column [[0; 1]] (Some [[3; 4]]) None
      = K sum_second_column [[5; 1]] (Some [[7; 4]]) None
   /\ Kdiag sum_second_column [[0; 1]] None = Kdiag sum_second_column [[5; 1]] None)
  /\ (default_dims white_plus_constant
      /\ same_selection (active_dims (base white_plus_constant)) [[0; 1]] [[0; 2]]
      /\ same_selection_opt (active_dims (base white_plus_constant))
           (Some [[3; 4]]) (Some [[3; 5]])
      /\ K white_plus_constant [[0; 1]] (Some [[3; 4]]) None
         = K white_plus_constant [[0; 2]] (Some [[3; 5]]) None
      /\ Kdiag white_plus_constant [[0; 1]] None = Kdiag white_plus_constant [[0; 2]] None).
Proof.
  assert (H1 : agree_on sum_second_column [[0; 1]] [[5; 1]])
    by (simpl; repeat split; reflexivity).
  assert (H2 : agree_on_opt sum_second_column (Some [[3; 4]]) (Some [[7; 4]]))
    by (simpl; repeat split; reflexivity).
  assert (H3 : default_dims white_plus_constant).
  { simpl. repeat split; try reflexivity; try lia. repeat constructor. }
  assert (H4 : same_selection (active_dims (base white_plus_constant)) [[0; 1]] [[0; 2]])
    by (split; reflexivity).
  assert (H5 : same_selection_opt (active_dims (base white_plus_constant))
                 (Some [[3; 4]]) (Some [[3; 5]]))
    by (split; reflexivity).
  split.
  - split; [exact H1|]. split; [exact H2|].
    apply (proj1 (outputs_depend_on_selected_columns sum_second_column _ _ _ _) H1 H2).
  - split; [exact H3|]. split; [exact H4|]. split; [exact H5|].
    apply (proj2 (outputs_depend_on_selected_columns white_plus_constant _ _ _ _) H3 H4 H5).
Defined.

(** ** Finite sums and Gram matrices *)

Lemma sum_over_ext {A : Type} (l : list A) (f g : A -> R) :
  (forall a, In a l -> f a = g a) -> sum_over l f = sum_over l g.
Proof.
  intros H. unfold sum_over. f_equal. apply map_ext_in, H.
Qed.

Lemma sum_over_cons {A : Type} (a : A) (l : list A) (f : A -> R) :
  sum_over (a :: l) f = f a + sum_over l f.
Proof. reflexivity. Qed.

Lemma sum_over_plus {A : Type} (l : list A) (f g : A -> R) :
  sum_over l (fun a => f a + g a) = sum_over l f + sum_over l g.
Proof.
  induction l as [|a l IH]; [unfold sum_over; simpl; ring|].
  rewrite !sum_over_cons, IH. ring.
Qed.

Lemma sum_over_scal {A : Type} (l : list A) (c : R) (f : A -> R) :
  sum_over l (fun a => c * f a) = c * sum_over l f.
Proof.
  induction l as [|a l IH]; [unfold sum_over; simpl; ring|].
  rewrite !sum_over_cons, IH. ring.
Qed.

Lemma sum_over_zero {A : Type} (l : list A) : sum_over l (fun _ => 0) = 0.
Proof.
  induction l as [|a l IH]; [reflexivity|]. rewrite sum_over_cons, IH. ring.
Qed.

Lemma sum_over_swap {A B : Type} (l : list A) (l' : list B) (h : A -> B -> R) :
  sum_over l (fun a => sum_over l' (fun b => h a b))
  = sum_over l' (fun b => sum_over l (fun a => h a b)).
Proof.
  induction l as [|a l IH].
  - unfold sum_over at 1. simpl. symmetry. apply sum_over_zero.
  - rewrite sum_over_cons, IH, <- sum_over_plus. reflexivity.
Qed.

Lemma sum_over_nonneg {A : Type} (l : list A) (f : A -> R) :
  (forall a, 0 <= f a) -> 0 <= sum_over l f.
Proof.
  intros H. induction l as [|a l IH]; [unfold sum_over; simpl; lra|].
  rewrite sum_over_cons. specialize (H a). lra.
Qed.

Lemma sum_over_app {A : Type} (l1 l2 : list A) (f : A -> R) :
  sum_over (l1 ++ l2) f = sum_over l1 f + sum_over l2 f.
Proof.
  induction l1 as [|a l1 IH]; simpl; [unfold sum_over at 2; simpl; ring|].
  rewrite !sum_over_cons, IH. ring.
Qed.

Lemma sum_over_map {A B : Type} (g : A -> B) (l : list A) (f : B -> R) :
  sum_over (map g l) f = sum_over l (fun a => f (g a)).
Proof. unfold sum_over. rewrite map_map. reflexivity. Qed.

Lemma sum_over_flat_map {A B : Type} (g : A -> list B) (l : list A) (f : B -> R) :
  sum_over (flat_map g l) f = sum_over l (fun a => sum_over (g a) f).
Proof.
  induction l as [|a l IH]; [reflexivity|].
  simpl. rewrite sum_over_app, sum_over_cons, IH. reflexivity.
Qed.

Lemma sum_over_mult {A B : Type} (l : list A) (l' : list B) (f : A -> R) (g : B -> R) :
  sum_over l f * sum_over l' g = sum_over l (fun a => sum_over l' (fun b => f a * g b)).
Proof.
  induction l as [|a l IH]; [unfold sum_over; simpl; ring|].
  rewrite !sum_over_cons, <- IH, sum_over_scal. ring.
Qed.

Lemma sum_over_indicator (n i : nat) (g : nat -> R) :
  (i < n)%nat ->
  sum_over (seq 0 n) (fun t => if Nat.eqb i t then g t else 0) = g i.
Proof.
  intros Hi. induction n as [|n IH]; [lia|].
  rewrite seq_S, sum_over_app. simpl. unfold sum_over at 2. simpl.
  destruct (Nat.eq_dec i n) as [->|Hne].
  - rewrite Nat.eqb_refl.
    rewrite (sum_over_ext _ _ (fun _ => 0)), sum_over_zero; [ring|].
    intros t Ht. apply in_seq in Ht.
    destruct (Nat.eqb n t) eqn:E; [apply Nat.eqb_eq in E; lia | reflexivity].
  - rewrite IH by lia.
    destruct (Nat.eqb i n) eqn:E; [apply Nat.eqb_eq in E; lia | ring].
Qed.

Lemma Un_cv_ext (u w : nat -> R) (l : R) :
  (forall N, u N = w N) -> Un_cv u l -> Un_cv w l.
Proof.
  intros H Hu eps Heps. destruct (Hu eps Heps) as (N0 & HN0).
  exists N0. intros n Hn. rewrite <- H. apply HN0, Hn.
Qed.

Lemma Un_cv_const (c : R) : Un_cv (fun _ => c) c.
Proof.
  intros eps Heps. exists 0%nat. intros n _.
  unfold Rdist. rewrite Rminus_diag, Rabs_R0. exact Heps.
Qed.

Lemma sum_over_cv {A : Type} (l : list A) (F : nat -> A -> R) (f : A -> R) :
  (forall a, In a l -> Un_cv (fun N => F N a) (f a)) ->
  Un_cv (fun N => sum_over l (F N)) (sum_over l f).
Proof.
  induction l as [|a l IH]; intros H.
  - unfold sum_over. simpl. apply Un_cv_const.
  - apply (Un_cv_ext (fun N => F N a + sum_over l (F N))); [reflexivity|].
    rewrite sum_over_cons. apply CV_plus.
    + apply H. left; reflexivity.
    + apply IH. intros b Hb. apply H. right; exact Hb.
Qed.

(** The quadratic form of a sum of rank-one matrices is a sum of squares. *)
Lemma quadratic_form_gram (n : nat) (Fs : list (nat -> R)) (v : nat -> R) :
  quadratic_form n (gram_of Fs) v
  = sum_over Fs (fun f => square (sum_over (seq 0 n) (fun i => v i * f i))).
Proof.
  unfold quadratic_form, gram_of.
  rewrite (sum_over_ext _ _ (fun i => sum_over Fs (fun f =>
             sum_over (seq 0 n) (fun j => (v i * f i) * (v j * f j))))).
  2:{ intros i _. rewrite sum_over_swap. apply sum_over_ext. intros j _.
      rewrite <- sum_over_scal. rewrite Rmult_comm, <- sum_over_scal.
      apply sum_over_ext. intros f _. ring. }
  rewrite sum_over_swap. apply sum_over_ext. intros f _.
  unfold square. rewrite sum_over_mult. reflexivity.
Qed.

Lemma quadratic_form_ext (n : nat) (a b : nat -> nat -> R) (v : nat -> R) :
  (forall i j, (i < n)%nat -> (j < n)%nat -> a i j = b i j) ->
  quadratic_form n a v = quadratic_form n b v.
Proof.
  intros H. unfold quadratic_form.
  apply sum_over_ext. intros i Hi. apply sum_over_ext. intros j Hj.
  apply in_seq in Hi, Hj. rewrite H by lia. reflexivity.
Qed.

Lemma is_gram_nonneg (n : nat) (a : nat -> nat -> R) (v : nat -> R) :
  is_gram n a -> 0 <= quadratic_form n a v.
Proof.
  intros (Fs & H). rewrite (quadratic_form_ext n a (gram_of Fs) v H).
  rewrite quadratic_form_gram. apply sum_over_nonneg. intros f.
  unfold square. nra.
Qed.

Lemma gram_of_sym (Fs : list (nat -> R)) (i j : nat) : gram_of Fs i j = gram_of Fs j i.
Proof. unfold gram_of. apply sum_over_ext. intros; ring. Qed.

(** A limit of Gram matrices is symmetric and its quadratic form is nowhere negative. *)
Lemma gram_limit_psd (n : nat) (a : nat -> nat -> R) :
  gram_limit n a ->
  (forall i j, (i < n)%nat -> (j < n)%nat -> a i j = a j i)
  /\ (forall v, 0 <= quadratic_form n a v).
Proof.
  intros (s & Hg & Hcv). split.
  - intros i j Hi Hj. apply (UL_sequence (fun N => s N i j)); [apply Hcv; assumption|].
    apply (Un_cv_ext (fun N => s N j i)); [|apply Hcv; assumption].
    intros N. destruct (Hg N) as (Fs & HF).
    rewrite (HF i j Hi Hj), (HF j i Hj Hi). apply gram_of_sym.
  - intros v.
    apply (Rle_cv_lim (Un := fun _ => 0) (Vn := fun N => quadratic_form n (s N) v)).
    + intros N. apply is_gram_nonneg, Hg.
    + apply Un_cv_const.
    + unfold quadratic_form. apply sum_over_cv. intros i Hi.
      apply sum_over_cv. intros j Hj. apply in_seq in Hi, Hj.
      apply CV_mult; [apply CV_mult; [apply Un_cv_const|apply Hcv; lia]|apply Un_cv_const].
Qed.

Lemma is_gram_ext n a b :
  (forall i j, (i < n)%nat -> (j < n)%nat -> a i j = b i j) -> is_gram n a -> is_gram n b.
Proof.
  intros H (Fs & HF). exists Fs. intros i j Hi Hj. rewrite <- H by assumption.
  apply HF; assumption.
Qed.

Lemma is_gram_plus n a b :
  is_gram n a -> is_gram n b -> is_gram n (fun i j => a i j + b i j).
Proof.
  intros (Fs & HF) (Gs & HG). exists (Fs ++ Gs). intros i j Hi Hj.
  unfold gram_of. rewrite sum_over_app. rewrite HF, HG by assumption. reflexivity.
Qed.

Lemma is_gram_mult n a b :
  is_gram n a -> is_gram n b -> is_gram n (fun i j => a i j * b i j).
Proof.
  intros (Fs & HF) (Gs & HG).
  exists (flat_map (fun f => map (fun g i => f i * g i) Gs) Fs).
  intros i j Hi Hj. rewrite HF, HG by assumption. unfold gram_of.
  rewrite sum_over_flat_map, sum_over_mult.
  apply sum_over_ext. intros f _. rewrite sum_over_map.
  apply sum_over_ext. intros g _. ring.
Qed.

(** The congruence [d_i a_ij d_j]. *)
Lemma is_gram_congr n (d : nat -> R) a :
  is_gram n a -> is_gram n (fun i j => d i * a i j * d j).
Proof.
  intros (Fs & HF). exists (map (fun f i => d i * f i) Fs).
  intros i j Hi Hj. rewrite HF by assumption. unfold gram_of.
  rewrite sum_over_map.
  replace (d i * sum_over Fs (fun f => f i * f j) * d j)
    with ((d i * d j) * sum_over Fs (fun f => f i * f j)) by ring.
  rewrite <- sum_over_scal. apply sum_over_ext. intros f _. ring.
Qed.

Lemma is_gram_const n c : 0 <= c -> is_gram n (fun _ _ => c).
Proof.
  intros Hc. exists [fun _ => sqrt c]. intros i j _ _.
  unfold gram_of, sum_over. simpl. rewrite sqrt_sqrt by exact Hc. ring.
Qed.

Lemma is_gram_scale n c a :
  0 <= c -> is_gram n a -> is_gram n (fun i j => c * a i j).
Proof.
  intros Hc Ha.
  apply (is_gram_ext n (fun i j => sqrt c * a i j * sqrt c)).
  - intros i j _ _. rewrite <- (sqrt_sqrt c Hc) at 3. ring.
  - apply (is_gram_congr n (fun _ => sqrt c)), Ha.
Qed.

Lemma is_gram_pow n a k :
  is_gram n a -> is_gram n (fun i j => a i j ^ k).
Proof.
  intros Ha. induction k as [|k IH]; simpl.
  - apply is_gram_const. lra.
  - apply (is_gram_mult n a _ Ha IH).
Qed.

(** The diagonal matrix with the non-negative [c i] on the diagonal. *)
Lemma is_gram_diagonal n (c : nat -> R) :
  (forall i, 0 <= c i) ->
  is_gram n (fun i j => if Nat.eqb i j then c i else 0).
Proof.
  intros Hc.
  exists (map (fun t i => if Nat.eqb i t then sqrt (c t) else 0) (seq 0 n)).
  intros i j Hi Hj. unfold gram_of. rewrite sum_over_map.
  rewrite (sum_over_ext _ _ (fun t => if Nat.eqb i t
                                     then (if Nat.eqb j t then c t else 0) else 0)).
  2:{ intros t _. destruct (Nat.eqb i t), (Nat.eqb j t); try ring.
      apply sqrt_sqrt, Hc. }
  rewrite sum_over_indicator by exact Hi. rewrite (Nat.eqb_sym j i). reflexivity.
Qed.

(** The matrix of the inner products of the rows [x i], read up to position [D]. *)
Lemma is_gram_inner n D (x : nat -> nat -> R) :
  is_gram n (fun i j => sum_over (seq 0 D) (fun d => x i d * x j d)).
Proof.
  exists (map (fun d i => x i d) (seq 0 D)). intros i j _ _.
  unfold gram_of. rewrite sum_over_map. reflexivity.
Qed.

Lemma gram_limit_of_gram n a : is_gram n a -> gram_limit n a.
Proof.
  intros Ha. exists (fun _ => a). split; [intros _; exact Ha|].
  intros i j _ _. apply Un_cv_const.
Qed.

Lemma gram_limit_ext n a b :
  (forall i j, (i < n)%nat -> (j < n)%nat -> a i j = b i j) ->
  gram_limit n a -> gram_limit n b.
Proof.
  intros H (s & Hg & Hcv). exists s. split; [exact Hg|].
  intros i j Hi Hj. rewrite <- H by assumption. apply Hcv; assumption.
Qed.

Lemma gram_limit_plus n a b :
  gram_limit n a -> gram_limit n b -> gram_limit n (fun i j => a i j + b i j).
Proof.
  intros (s & Hs & Hcs) (t & Ht & Hct).
  exists (fun N i j => s N i j + t N i j). split.
  - intros N. apply is_gram_plus; [apply Hs | apply Ht].
  - intros i j Hi Hj. apply CV_plus; [apply Hcs | apply Hct]; assumption.
Qed.

Lemma gram_limit_mult n a b :
  gram_limit n a -> gram_limit n b -> gram_limit n (fun i j => a i j * b i j).
Proof.
  intros (s & Hs & Hcs) (t & Ht & Hct).
  exists (fun N i j => s N i j * t N i j). split.
  - intros N. apply is_gram_mult; [apply Hs | apply Ht].
  - intros i j Hi Hj. apply CV_mult; [apply Hcs | apply Hct]; assumption.
Qed.

Lemma gram_limit_congr n (d : nat -> R) a :
  gram_limit n a -> gram_limit n (fun i j => d i * a i j * d j).
Proof.
  intros (s & Hs & Hcs).
  exists (fun N i j => d i * s N i j * d j). split.
  - intros N. apply is_gram_congr, Hs.
  - intros i j Hi Hj.
    apply CV_mult; [apply CV_mult; [apply Un_cv_const | apply Hcs; assumption]
                   | apply Un_cv_const].
Qed.

Lemma gram_limit_scale n c a :
  0 <= c -> gram_limit n a -> gram_limit n (fun i j => c * a i j).
Proof.
  intros Hc Ha.
  apply (gram_limit_ext n (fun i j => sqrt c * a i j * sqrt c)).
  - intros i j _ _. rewrite <- (sqrt_sqrt c Hc) at 3. ring.
  - apply (gram_limit_congr n (fun _ => sqrt c)), Ha.
Qed.

Lemma gram_limit_pow n a k :
  gram_limit n a -> gram_limit n (fun i j => a i j ^ k).
Proof.
  intros Ha. induction k as [|k IH]; simpl.
  - apply gram_limit_of_gram, is_gram_const. lra.
  - apply (gram_limit_mult n a _ Ha IH).
Qed.

(** The entrywise exponential of a Gram matrix, through the partial sums of
    the exponential series. *)
Lemma gram_limit_exp n g :
  is_gram n g -> gram_limit n (fun i j => exp (g i j)).
Proof.
  intros Hg.
  exists (fun N i j => sum_f_R0 (fun k => / INR (fact k) * g i j ^ k) N). split.
  - assert (Hterm : forall k, is_gram n (fun i j => / INR (fact k) * g i j ^ k)).
    { intros k. apply is_gram_scale; [|apply (is_gram_pow n g k Hg)].
      left. apply Rinv_0_lt_compat, INR_fact_lt_0. }
    intros N. induction N as [|N IH].
    + apply (is_gram_ext n (fun i j => / INR (fact 0) * g i j ^ 0));
        [intros; reflexivity | apply Hterm].
    + apply (is_gram_ext n (fun i j =>
               sum_f_R0 (fun k => / INR (fact k) * g i j ^ k) N
               + / INR (fact (S N)) * g i j ^ S N)); [intros; reflexivity|].
      apply (is_gram_plus n _ _ IH), Hterm.
  - intros i j _ _. unfold exp. destruct (exist_exp (g i j)) as (l & Hl). simpl.
    exact Hl.
Qed.

(** ** Positive semi-definiteness of the kernel matrices *)

Lemma nth_map2 {A B C : Type} (f : A -> B -> C) (a : list A) (b : list B)
      (i : nat) (da : A) (db : B) (d : C) :
  (i < length a)%nat -> length a = length b ->
  nth i (map2 f a b) d = f (nth i a da) (nth i b db).
Proof.
  intros Hi Hl. unfold map2.
  rewrite (nth_map_lt _ _ _ (da, db)) by (rewrite length_combine; lia).
  rewrite combine_nth by exact Hl. reflexivity.
Qed.

Lemma entry_kernel_matrix {A : Type} (kappa : A -> A -> R) (Xs : list A) (d : A) i j :
  (i < length Xs)%nat -> (j < length Xs)%nat ->
  entry (map (fun x => map (fun y => kappa x y) Xs) Xs) i j
  = kappa (nth i Xs d) (nth j Xs d).
Proof.
  intros Hi Hj. unfold entry.
  rewrite (nth_map_lt _ _ _ d) by exact Hi.
  apply (nth_map_lt _ _ _ d). exact Hj.
Qed.

(** A matrix of kernel values is a limit of Gram matrices when the values are. *)
Lemma gram_limit_kernel_matrix {A : Type} (kappa : A -> A -> R) (Xs : list A) (d : A) :
  gram_limit (length Xs) (fun i j => kappa (nth i Xs d) (nth j Xs d)) ->
  gram_limit_matrix (length Xs) (map (fun x => map (fun y => kappa x y) Xs) Xs).
Proof.
  intros H. split; [apply length_map|]. split.
  - apply has_cols_intro. intros r Hr. apply in_map_iff in Hr.
    destruct Hr as (x & <- & _). apply length_map.
  - eapply gram_limit_ext; [|exact H]. intros i j Hi Hj.
    symmetry. apply entry_kernel_matrix; assumption.
Qed.

Lemma gram_limit_matrix_psd n A :
  gram_limit_matrix n A -> positive_semidefinite A.
Proof.
  intros (Hn & _ & Hg). unfold positive_semidefinite. rewrite Hn.
  apply gram_limit_psd, Hg.
Qed.

Lemma mapM_Ok_inv {A B : Type} (f : A -> result B) (g : A -> B) (l : list A) r :
  (forall a b, In a l -> f a = Ok b -> b = g a) ->
  mapM f l = Ok r -> r = map g l.
Proof.
  revert r. induction l as [|a l IH]; intros r Hf H; simpl in *.
  - injection H as <-. reflexivity.
  - destruct (f a) as [b|] eqn:Ea; simpl in H; [|discriminate].
    destruct (mapM f l) as [bs|] eqn:El; simpl in H; [|discriminate].
    injection H as <-. f_equal; [apply Hf; auto|].
    apply IH; [|reflexivity]. intros; eapply Hf; eauto.
Qed.

Lemma matmul_nt_Ok A B P :
  matmul_nt A B = Ok P -> P = map (fun a => map (dot a) B) A.
Proof.
  unfold matmul_nt. apply mapM_Ok_inv. intros a r _.
  apply mapM_Ok_inv. intros b t _ H.
  destruct (Nat.eqb (length a) (length b)); [|discriminate]. injection H as <-. reflexivity.
Qed.

(** The inner product as a sum over positions. *)
Lemma dot_sum (a b : list R) (D : nat) :
  (length a <= D)%nat ->
  dot a b = sum_over (seq 0 D) (fun d => nth d a 0 * nth d b 0).
Proof.
  unfold dot, map2. revert b D. induction a as [|x a IH]; intros b D HD.
  - simpl. rewrite (sum_over_ext _ _ (fun _ => 0)), sum_over_zero; [reflexivity|].
    intros d _. destruct d; simpl; ring.
  - destruct D as [|D]; [simpl in HD; lia|].
    rewrite <- cons_seq, sum_over_cons, <- seq_shift, sum_over_map.
    destruct b as [|y b]; simpl.
    + rewrite (sum_over_ext _ _ (fun _ => 0)), sum_over_zero; [ring|].
      intros d _. destruct d; ring.
    + rewrite (IH b D) by (simpl in HD; lia). reflexivity.
Qed.

Lemma length_le_concat {A : Type} (l : list (list A)) (r : list A) :
  In r l -> (length r <= length (concat l))%nat.
Proof.
  induction l as [|x l IH]; intros H; [destruct H|].
  simpl. rewrite length_app. destruct H as [->|H]; [lia|]. specialize (IH H). lia.
Qed.

Lemma gram_limit_dot (Xs : list (list R)) :
  is_gram (length Xs) (fun i j => dot (nth i Xs []) (nth j Xs [])).
Proof.
  eapply is_gram_ext; [|apply (is_gram_inner _ (length (concat Xs))
                                 (fun i d => nth d (nth i Xs []) 0))].
  intros i j Hi Hj. simpl. symmetry. apply dot_sum.
  apply length_le_concat, nth_In, Hi.
Qed.

(** The RBF kernel matrix. *)
Lemma RBF_gram_limit b variance ls X R0 :
  0 <= variance ->
  Stationary_K RBF b variance ls X None false = Ok R0 ->
  gram_limit_matrix (nrows X) R0.
Proof.
  intros Hv H. unfold Stationary_K in H.
  destruct (slice_unless false b X None) as [[Xs X2s]|] eqn:Es; simpl in H; [|discriminate].
  destruct (slice_unless_shape _ _ _ _ _ _ Es) as (Hn & HX2).
  destruct X2s; [contradiction|].
  rewrite square_dist_none in H.
  apply bind_Ok in H. destruct H as (r2 & Er2 & H). injection H as <-.
  apply bind_Ok in Er2. destruct Er2 as (Xsc & E & Er2).
  apply bind_Ok in Er2. destruct Er2 as (P & E0 & Er2). injection Er2 as <-.
  apply bcast_rows_nrows in E. apply matmul_nt_Ok in E0. subst P.
  rewrite <- Hn. unfold nrows. rewrite <- E.
  set (kappa := fun a c : list R =>
         variance * exp (- (-2 * dot a c + reduce_sum (map square a)
                            + reduce_sum (map square c)) / 2)).
  assert (Hform : mmap (fun d => variance * exp (- d / 2))
            (map2 (fun p xs => map2 Rplus
                      (map (fun t => -2 * t + reduce_sum (map square xs)) p)
                      (row_sumsq Xsc))
                  (map (fun a => map (dot a) Xsc) Xsc) Xsc)
          = map (fun a => map (fun c => kappa a c) Xsc) Xsc).
  { unfold mmap, row_sumsq. rewrite map2_map_l, map2_diag, map_map.
    apply map_ext. intros a. rewrite !map_map, map2_map_l, map2_map_r, map2_diag, map_map.
    reflexivity. }
  rewrite Hform. apply (gram_limit_kernel_matrix kappa Xsc []).
  apply (gram_limit_ext _ (fun i j =>
           (sqrt variance * exp (- reduce_sum (map square (nth i Xsc [])) / 2))
           * exp (dot (nth i Xsc []) (nth j Xsc []))
           * (sqrt variance * exp (- reduce_sum (map square (nth j Xsc [])) / 2)))).
  - intros i j _ _. unfold kappa.
    set (g := dot _ _). set (si := reduce_sum _). set (sj := reduce_sum _).
    replace (- (-2 * g + si + sj) / 2) with (- si / 2 + (g + - sj / 2)) by field.
    rewrite !exp_plus. rewrite <- (sqrt_sqrt variance Hv) at 3. ring.
  - apply (gram_limit_congr _ (fun i => sqrt variance
                                 * exp (- reduce_sum (map square (nth i Xsc [])) / 2))).
    apply gram_limit_exp, gram_limit_dot.
Qed.

(** The static kernel matrices. *)
Lemma Static_gram_limit c variance X :
  0 <= variance ->
  gram_limit_matrix (nrows X)
    (match c with
     | White => White_K variance X None
     | _ => Constant_K variance X None
     end).
Proof.
  intros Hv. set (n := nrows X).
  assert (HC : gram_limit_matrix n (fill2 n n variance)).
  { unfold fill2. split; [apply repeat_length|]. split.
    - apply has_cols_intro. intros r Hr. apply repeat_spec in Hr. subst.
      apply repeat_length.
    - apply gram_limit_of_gram.
      apply (is_gram_ext n (fun _ _ => variance)); [|apply is_gram_const, Hv].
      intros i j Hi Hj. unfold entry. rewrite !nth_repeat_lt by assumption. reflexivity. }
  destruct c; simpl; try exact HC.
  unfold diag, fill1. rewrite repeat_length. fold n.
  split; [apply length_tabulate|]. split.
  - apply has_cols_intro. intros r Hr. unfold tabulate in Hr. apply in_map_iff in Hr.
    destruct Hr as (i & <- & _). apply length_tabulate.
  - apply gram_limit_of_gram.
    apply (is_gram_ext n (fun i j => if Nat.eqb i j then variance else 0));
      [|apply (is_gram_diagonal n (fun _ => variance)); intros; exact Hv].
    intros i j Hi Hj. unfold entry. rewrite !nth_tabulate by assumption.
    rewrite nth_repeat_lt by assumption. reflexivity.
Qed.

(** A row combined with a parameter, entry by entry. *)
Lemma bcast_vec_param f p x D :
  length x = D -> (length p = 1%nat \/ length p = D) ->
  bcast_vec f x p = Ok (tabulate D (fun d => f (nth d x 0) (param_entry p d))).
Proof.
  intros Hx [Hl|Hl].
  - destruct p as [|l [|l' p]]; try discriminate.
    rewrite bcast_vec_single_r. f_equal. simpl.
    rewrite <- (tabulate_nth x 0) at 1. rewrite Hx, map_tabulate. reflexivity.
  - rewrite bcast_vec_same by congruence. f_equal.
    rewrite <- (tabulate_nth x 0) at 1. rewrite <- (tabulate_nth p 0) at 1.
    rewrite Hx, Hl, map2_tabulate. apply tabulate_ext. intros i Hi.
    unfold param_entry. destruct p as [|l [|l' p]]; try reflexivity.
    simpl in Hl. subst D. assert (i = 0%nat) as -> by lia. reflexivity.
Qed.

Lemma slice_cols b X X2 Xs X2s :
  _slice b X X2 = Ok (Xs, X2s) -> has_cols (Z.to_nat (input_dim b)) Xs.
Proof.
  intros H. unfold _slice in H. inv_ok H.
  unfold assert_cols in E1.
  destruct (forallb _ Xs) eqn:Ef; [|discriminate].
  rewrite forallb_forall in Ef. apply has_cols_intro. intros r Hr.
  specialize (Ef r Hr). apply Z.eqb_eq in Ef. lia.
Qed.

Lemma param_entry_nonneg p d : Forall (Rle 0) p -> 0 <= param_entry p d.
Proof.
  intros H. unfold param_entry.
  assert (E : 0 <= nth d p 0).
  { destruct (Nat.lt_ge_cases d (length p)) as [Hd|Hd].
    - rewrite Forall_forall in H. apply H, nth_In, Hd.
    - rewrite nth_overflow by exact Hd. lra. }
  destruct p as [|c [|c' p]]; try exact E.
  inversion H; assumption.
Qed.

(** The linear kernel matrix in closed form, over the sliced rows. *)
Lemma Linear_closed_form b variance X R0 :
  Forall (Rle 0) variance -> param_shape b variance ->
  Linear_K b variance X None false = Ok R0 ->
  exists (Xs : list (list R)) (kappa : list R -> list R -> R),
    length Xs = nrows X
    /\ R0 = map (fun x => map (fun y => kappa x y) Xs) Xs
    /\ is_gram (length Xs) (fun i j => kappa (nth i Xs []) (nth j Xs [])).
Proof.
  intros Hv Hp H. unfold Linear_K in H. simpl in H.
  destruct (_slice b X None) as [[Xs X2s]|] eqn:Es; simpl in H; [|discriminate].
  destruct (slice_shape _ _ _ _ _ Es) as (Hn & HX2).
  destruct X2s; [contradiction|].
  pose proof (slice_cols _ _ _ _ _ Es) as Hc.
  set (D := Z.to_nat (input_dim b)) in *.
  set (w := param_entry variance).
  assert (EXv : bcast_rows Rmult Xs variance
                = Ok (map (fun x => tabulate D (fun d => nth d x 0 * w d)) Xs)).
  { unfold bcast_rows. apply mapM_Ok_map. intros x Hx.
    apply bcast_vec_param; [apply (has_cols_In _ _ _ Hc Hx) | exact Hp]. }
  rewrite EXv in H. simpl in H. apply matmul_nt_Ok in H. rewrite map_map in H.
  exists Xs, (fun x y => dot (tabulate D (fun d => nth d x 0 * w d)) y).
  split; [exact Hn|]. split; [exact H|].
  eapply is_gram_ext;
    [|apply (is_gram_inner _ D (fun i d => sqrt (w d) * nth d (nth i Xs []) 0))].
  intros i j Hi Hj. simpl.
  rewrite (dot_sum _ _ D) by (rewrite length_tabulate; lia).
  apply sum_over_ext. intros d Hd. apply in_seq in Hd.
  rewrite nth_tabulate by lia.
  rewrite <- (sqrt_sqrt (w d)) at 3 by (apply param_entry_nonneg, Hv). ring.
Qed.

Lemma Linear_gram_limit b variance X R0 :
  Forall (Rle 0) variance -> param_shape b variance ->
  Linear_K b variance X None false = Ok R0 ->
  gram_limit_matrix (nrows X) R0.
Proof.
  intros Hv Hp H.
  destruct (Linear_closed_form _ _ _ _ Hv Hp H) as (Xs & kappa & Hn & -> & Hg).
  rewrite <- Hn. apply (gram_limit_kernel_matrix kappa Xs []).
  apply gram_limit_of_gram, Hg.
Qed.

Lemma Polynomial_gram_limit b variance degree offset X R0 :
  Forall (Rle 0) variance -> param_shape b variance -> 0 <= offset ->
  Polynomial_K b variance degree offset X None false = Ok R0 ->
  gram_limit_matrix (nrows X) R0.
Proof.
  intros Hv Hp Ho H. unfold Polynomial_K in H.
  apply bind_Ok in H. destruct H as (L & EL & H). injection H as <-.
  destruct (Linear_closed_form _ _ _ _ Hv Hp EL) as (Xs & kappa & Hn & -> & Hg).
  rewrite <- Hn. unfold mmap. rewrite map_map.
  rewrite (map_ext _ (fun x => map (fun y => (kappa x y + offset) ^ degree) Xs))
    by (intros x; apply map_map).
  apply (gram_limit_kernel_matrix (fun x y => (kappa x y + offset) ^ degree) Xs []).
  apply gram_limit_of_gram.
  apply (is_gram_pow _ (fun i j => kappa (nth i Xs []) (nth j Xs []) + offset)).
  apply (is_gram_plus _ _ (fun _ _ => offset) Hg). apply is_gram_const, Ho.
Qed.

Lemma sin_square_difference (a b : R) :
  square (sin (a - b))
  = 1 / 2 - (cos (2 * a) * cos (2 * b) + sin (2 * a) * sin (2 * b)) / 2.
Proof.
  rewrite <- cos_minus.
  replace (2 * a - 2 * b) with (2 * (a - b)) by ring.
  rewrite cos_2a_sin. unfold square. field.
Qed.

Lemma reduce_sum_map2 (h : R -> R) (f : R -> R -> R) (x y : list R) (D : nat) :
  length x = D -> length y = D ->
  reduce_sum (map h (map2 f x y))
  = sum_over (seq 0 D) (fun d => h (f (nth d x 0) (nth d y 0))).
Proof.
  intros Hx Hy.
  rewrite <- (tabulate_nth x 0) at 1. rewrite <- (tabulate_nth y 0) at 1.
  rewrite Hx, Hy, map2_tabulate, map_tabulate. reflexivity.
Qed.

(** The periodic kernel matrix. *)
Lemma PeriodicKernel_gram_limit b variance ls per X R0 :
  0 <= variance ->
  PeriodicKernel_K b variance ls per X None false = Ok R0 ->
  gram_limit_matrix (nrows X) R0.
Proof.
  intros Hv H. unfold PeriodicKernel_K in H. simpl in H.
  destruct (_slice b X None) as [[Xs X2s]|] eqn:Es; simpl in H; [|discriminate].
  destruct (slice_shape _ _ _ _ _ Es) as (Hn & HX2).
  destruct X2s; [contradiction|].
  pose proof (slice_cols _ _ _ _ _ Es) as Hc.
  set (D := Z.to_nat (input_dim b)) in *.
  set (kappa := fun x y : list R =>
         variance * exp (- 0.5 * reduce_sum
           (map (fun t => square (sin t / ls))
                (map (fun t => PI * t / per) (map2 Rminus x y))))).
  assert (HR : R0 = map (fun x => map (fun y => kappa x y) Xs) Xs).
  { revert H. apply mapM_Ok_inv. intros x r Hx.
    apply mapM_Ok_inv. intros y t Hy Ht.
    unfold periodic_entry in Ht.
    rewrite bcast_vec_same in Ht
      by (rewrite (has_cols_In _ _ _ Hc Hx), (has_cols_In _ _ _ Hc Hy); reflexivity).
    simpl in Ht. injection Ht as <-. reflexivity. }
  subst R0. rewrite <- Hn. apply (gram_limit_kernel_matrix kappa Xs []).
  set (c := / ls * / ls).
  set (C := fun i d => / ls / 2 * cos (2 * (PI * nth d (nth i Xs []) 0 / per))).
  set (S := fun i d => / ls / 2 * sin (2 * (PI * nth d (nth i Xs []) 0 / per))).
  set (c0 := sum_over (seq 0 D) (fun _ => - c / 4)).
  apply (gram_limit_ext _ (fun i j =>
           (variance * exp c0)
           * exp (sum_over (seq 0 D) (fun d => C i d * C j d)
                  + sum_over (seq 0 D) (fun d => S i d * S j d)))).
  - intros i j Hi Hj. unfold kappa.
    rewrite map_map.
    rewrite (reduce_sum_map2 _ Rminus _ _ D)
      by (apply (has_cols_In _ _ _ Hc); apply nth_In; assumption).
    rewrite Rmult_assoc, <- exp_plus. do 2 f_equal.
    unfold c0. rewrite <- !sum_over_plus, <- sum_over_scal.
    apply sum_over_ext. intros d _.
    set (xi := nth d (nth i Xs []) 0). set (xj := nth d (nth j Xs []) 0).
    replace (PI * (xi - xj) / per) with (PI * xi / per - PI * xj / per)
      by (unfold Rdiv; ring).
    replace (square (sin (PI * xi / per - PI * xj / per) / ls))
      with (c * square (sin (PI * xi / per - PI * xj / per)))
      by (unfold c, square, Rdiv; ring).
    rewrite sin_square_difference. unfold C, S, c. fold xi xj. unfold Rdiv. lra.
  - apply gram_limit_scale.
    + apply Rmult_le_pos; [exact Hv | left; apply exp_pos].
    + apply gram_limit_exp. apply is_gram_plus; apply is_gram_inner.
Qed.

(** The indicator of equal labels, weighted by the label. *)
Lemma is_gram_labels n O (lab : nat -> nat) (c : nat -> R) :
  (forall o, 0 <= c o) ->
  (forall i, (i < n)%nat -> (lab i < O)%nat) ->
  is_gram n (fun i j => if Nat.eqb (lab i) (lab j) then c (lab i) else 0).
Proof.
  intros Hc Hlab.
  exists (map (fun o i => if Nat.eqb (lab i) o then sqrt (c o) else 0) (seq 0 O)).
  intros i j Hi Hj. unfold gram_of. rewrite sum_over_map.
  rewrite (sum_over_ext _ _ (fun o => if Nat.eqb (lab i) o
                                     then (if Nat.eqb (lab j) o then c o else 0) else 0)).
  2:{ intros o _. destruct (Nat.eqb (lab i) o), (Nat.eqb (lab j) o); try ring.
      apply sqrt_sqrt, Hc. }
  rewrite sum_over_indicator by (apply Hlab, Hi).
  rewrite (Nat.eqb_sym (lab j) (lab i)). reflexivity.
Qed.

Lemma gather_Ok {A : Type} (params : list A) (idx : list Z) (r : list A) (d : A) :
  gather params idx = Ok r ->
  r = map (fun j => nth (Z.to_nat j) params d) idx
  /\ Forall (fun j => (Z.to_nat j < length params)%nat) idx.
Proof.
  unfold gather. revert r. induction idx as [|j idx IH]; intros r H; simpl in H.
  - injection H as <-. split; [reflexivity | constructor].
  - destruct (nth_error params (Z.to_nat j)) as [a|] eqn:En; [|discriminate].
    destruct (0 <=? j)%Z; simpl in H; [|discriminate].
    destruct (mapM _ idx) as [rs|] eqn:Er; simpl in H; [|discriminate].
    injection H as <-. destruct (IH rs eq_refl) as (-> & Hall).
    split.
    + simpl. f_equal. symmetry. apply nth_error_nth, En.
    + constructor; [|exact Hall]. apply nth_error_Some. congruence.
Qed.

Lemma coregion_B_entries W kappa B :
  length kappa = length W ->
  coregion_B W kappa = Ok B ->
  length B = length W /\ has_cols (length W) B
  /\ forall o p, (o < length W)%nat -> (p < length W)%nat ->
       entry B o p = dot (nth o W []) (nth p W [])
                     + (if Nat.eqb o p then nth o kappa 0 else 0).
Proof.
  intros Hk H. unfold coregion_B in H.
  apply bind_Ok in H. destruct H as (WWt & EW & H).
  apply matmul_nt_Ok in EW. subst WWt.
  unfold bcast_mat in H. unfold diag in H.
  rewrite length_map, length_tabulate, Hk, Nat.eqb_refl in H.
  assert (HB : B = map2 (map2 Rplus) (map (fun a => map (dot a) W) W)
                 (tabulate (length W) (fun i => tabulate (length W)
                    (fun j => if Nat.eqb i j then nth i kappa 0 else 0)))).
  { unfold map2 at 1. revert H. apply mapM_Ok_inv. intros (r1, r2) r Hin Hr.
    simpl in Hr. rewrite bcast_vec_same in Hr; [injection Hr as <-; reflexivity|].
    pose proof (in_combine_l _ _ _ _ Hin) as H1.
    pose proof (in_combine_r _ _ _ _ Hin) as H2.
    apply in_map_iff in H1. destruct H1 as (a & <- & _).
    unfold tabulate in H2. apply in_map_iff in H2. destruct H2 as (i & <- & _).
    rewrite !length_map, length_seq. reflexivity. }
  subst B.
  assert (Hlen : length (map (fun a => map (dot a) W) W)
                 = length (tabulate (length W) (fun i => tabulate (length W)
                     (fun j => if Nat.eqb i j then nth i kappa 0 else 0))))
    by (rewrite length_map, length_tabulate; reflexivity).
  split; [rewrite length_map2 by exact Hlen; apply length_map|].
  split.
  - apply has_cols_intro. intros r Hr. apply In_map2 in Hr.
    destruct Hr as (r1 & r2 & H1 & H2 & ->).
    apply in_map_iff in H1. destruct H1 as (a & <- & _).
    unfold tabulate in H2. apply in_map_iff in H2. destruct H2 as (i & <- & _).
    rewrite length_map2; rewrite !length_map; [reflexivity|].
    rewrite length_seq. reflexivity.
  - intros o p Ho Hp. unfold entry.
    rewrite (nth_map2 _ _ _ _ [] [])
      by (try exact Hlen; rewrite ?length_map; assumption).
    rewrite (nth_map_lt _ _ _ []) by exact Ho.
    rewrite nth_tabulate by exact Ho.
    rewrite (nth_map2 _ _ _ _ 0 0)
      by (rewrite ?length_map, ?length_tabulate; auto).
    rewrite (nth_map_lt _ _ _ []) by exact Hp.
    rewrite nth_tabulate by exact Hp. reflexivity.
Qed.


(** The coregionalisation kernel matrix. *)
Lemma Coregion_gram_limit b W kappa X R0 :
  Forall (Rle 0) kappa -> length kappa = length W ->
  Coregion_K b W kappa X None = Ok R0 ->
  gram_limit_matrix (nrows X) R0.
Proof.
  intros Hk Hlen H. unfold Coregion_K in H.
  destruct (_slice b X None) as [[Xs X2s]|] eqn:Es; simpl in H; [|discriminate].
  destruct (slice_shape _ _ _ _ _ Es) as (Hn & HX2).
  destruct X2s; [contradiction|].
  apply bind_Ok in H. destruct H as (xi & Exi & H). simpl in H.
  apply bind_Ok in H. destruct H as (B & EB & H).
  apply bind_Ok in H. destruct H as (G & EG & H).
  unfold column0_int32 in Exi. apply mapM_length in Exi.
  destruct (coregion_B_entries W kappa B Hlen EB) as (HBlen & HBcols & HBent).
  destruct (gather_Ok _ _ _ [] EG) as (-> & HinB).
  destruct (gather_Ok _ _ _ [] H) as (-> & HinT).
  unfold transpose_n in HinT. rewrite length_tabulate in HinT.
  set (kap := fun z z' : Z => entry B (Z.to_nat z') (Z.to_nat z)).
  assert (HR : map (fun j => nth (Z.to_nat j)
                     (transpose_n (ncols B)
                        (map (fun j0 => nth (Z.to_nat j0) B []) xi)) []) xi
               = map (fun z => map (fun z' => kap z z') xi) xi).
  { apply map_ext_in. intros z Hz. rewrite Forall_forall in HinT.
    unfold transpose_n. rewrite nth_tabulate by (apply HinT, Hz).
    rewrite map_map. reflexivity. }
  rewrite HR. rewrite <- Hn. unfold nrows. rewrite <- Exi.
  apply (gram_limit_kernel_matrix kap xi 0%Z).
  apply gram_limit_of_gram.
  set (lab := fun i => Z.to_nat (nth i xi 0%Z)).
  assert (Hlab : forall i, (i < length xi)%nat -> (lab i < length W)%nat).
  { intros i Hi. unfold lab. rewrite <- HBlen. rewrite Forall_forall in HinB.
    apply HinB, nth_In, Hi. }
  apply (is_gram_ext _ (fun i j =>
           sum_over (seq 0 (length (concat W)))
             (fun d => nth d (nth (lab i) W []) 0 * nth d (nth (lab j) W []) 0)
           + (if Nat.eqb (lab i) (lab j) then nth (lab i) kappa 0 else 0))).
  - intros i j Hi Hj. unfold kap. fold (lab i) (lab j).
    rewrite HBent by (apply Hlab; assumption).
    rewrite (dot_sum _ _ (length (concat W)))
      by (apply length_le_concat, nth_In, Hlab, Hj).
    f_equal.
    + apply sum_over_ext. intros; ring.
    + rewrite (Nat.eqb_sym (lab j) (lab i)).
      destruct (Nat.eqb (lab i) (lab j)) eqn:E; [|reflexivity].
      apply Nat.eqb_eq in E. rewrite E. reflexivity.
  - apply is_gram_plus; [apply is_gram_inner|].
    apply (is_gram_labels _ (length W) lab (fun o => nth o kappa 0)); [|exact Hlab].
    intros o. destruct (Nat.lt_ge_cases o (length kappa)) as [Ho|Ho].
    + rewrite Forall_forall in Hk. apply Hk, nth_In, Ho.
    + rewrite nth_overflow by exact Ho. lra.
Qed.

Lemma entry_combine_K c n A B i j :
  length A = n -> has_cols n A -> length B = n -> has_cols n B ->
  (i < n)%nat -> (j < n)%nat ->
  entry (combine_K c A B) i j
  = match c with
    | Add => entry A i j + entry B i j
    | Prod => entry A i j * entry B i j
    end.
Proof.
  intros HA HAc HB HBc Hi Hj.
  assert (HAi : length (nth i A []) = n) by (apply (has_cols_In _ _ _ HAc), nth_In; lia).
  assert (HBi : length (nth i B []) = n) by (apply (has_cols_In _ _ _ HBc), nth_In; lia).
  destruct c; simpl; unfold entry, madd, mmul, vadd, vmul;
    rewrite (nth_map2 _ _ _ _ [] []) by lia;
    rewrite (nth_map2 _ _ _ _ 0 0) by lia; reflexivity.
Qed.

Lemma combine_K_gram_limit c n A B :
  gram_limit_matrix n A -> gram_limit_matrix n B ->
  gram_limit_matrix n (combine_K c A B).
Proof.
  intros (HA & HAc & HAg) (HB & HBc & HBg).
  destruct (combine_K_shape c n n A B (conj HA HAc) (conj HB HBc)) as (H1 & H2).
  split; [exact H1|]. split; [exact H2|].
  destruct c.
  - eapply gram_limit_ext; [|apply (gram_limit_plus n _ _ HAg HBg)].
    intros i j Hi Hj. symmetry. apply (entry_combine_K Add n); assumption.
  - eapply gram_limit_ext; [|apply (gram_limit_mult n _ _ HAg HBg)].
    intros i j Hi Hj. symmetry. apply (entry_combine_K Prod n); assumption.
Qed.

Lemma reduce_gram_limit c n Ks R0 :
  Forall (gram_limit_matrix n) Ks ->
  reduce (combine_K c) Ks = Ok R0 ->
  gram_limit_matrix n R0.
Proof.
  intros HKs H. destruct Ks as [|A Ks]; simpl in H; [discriminate|].
  injection H as <-. inversion HKs as [|? ? HA Hrest]; subst. clear HKs.
  revert A HA. induction Hrest as [|B Ks HB _ IH]; intros A HA; simpl; [exact HA|].
  apply IH. apply combine_K_gram_limit; assumption.
Qed.

Lemma psd_supported_Combination c b l :
  psd_supported (Combination c b l) <-> Forall psd_supported l.
Proof.
  simpl. induction l as [|k l IH].
  - split; [constructor | exact (fun _ => I)].
  - split.
    + intros [H1 H2]. constructor; [exact H1 | apply IH, H2].
    + intros H. inversion H; subst. split; [assumption | apply IH; assumption].
Qed.

(** Every supported kernel's [K(X, X)] is a limit of Gram matrices. *)
Lemma K_gram_limit k :
  psd_supported k ->
  forall X R0, K k X None None = Ok R0 -> gram_limit_matrix (nrows X) R0.
Proof.
  induction k as [c b v|c b v ls ard|b v ard|b v ard d o|b v ls p|b o r W kappa|c b l IH]
    using kern_induction; intros Hs X R0 H.
  - simpl in Hs. pose proof (Static_gram_limit c v X Hs) as HG.
    destruct c; simpl in H; injection H as <-; exact HG.
  - destruct c; simpl in Hs; try contradiction.
    simpl in H. eapply RBF_gram_limit; eassumption.
  - simpl in Hs, H. destruct Hs. eapply Linear_gram_limit; eassumption.
  - simpl in Hs, H. destruct Hs as (? & ? & ?). eapply Polynomial_gram_limit; eassumption.
  - simpl in Hs, H. eapply PeriodicKernel_gram_limit; eassumption.
  - simpl in Hs, H. destruct Hs. eapply Coregion_gram_limit; eassumption.
  - apply psd_supported_Combination in Hs. rewrite K_Combination in H.
    apply bind_Ok in H. destruct H as (Ks & EKs & H).
    eapply reduce_gram_limit; [|exact H].
    apply Forall_forall. intros A HA.
    destruct (mapM_In _ _ _ EKs A HA) as (k' & Hk' & EK).
    rewrite Forall_forall in IH, Hs. apply (IH k' Hk' (Hs k' Hk') X A EK).
Qed.

(** In exact arithmetic: for a static, RBF, linear, polynomial, periodic or
    coregionalisation kernel with non-negative parameters, and for every sum
    and product of such kernels, the matrix [K(X, X)] that [K] returns is
    square of the size of [X], symmetric, and [v^T K(X, X) v >= 0] for every
    vector [v]. *)
Lemma supported_kernels_positive_semidefinite :
  forall k X R0,
    psd_supported k ->
    K k X None None = Ok R0 ->
    length R0 = nrows X /\ has_cols (nrows X) R0 /\ positive_semidefinite R0.
Proof.
  intros k X R0 Hs H.
  pose proof (K_gram_limit k Hs X R0 H) as HG.
  split; [apply HG|]. split; [apply HG|].
  eapply gram_limit_matrix_psd; exact HG.
Qed.


Lemma cast_int32_IZR (z : Z) : (0 <= z)%Z -> cast_int32 (IZR z) = z.
Proof.
  intros Hz. unfold cast_int32.
  destruct (Rle_dec 0 (IZR z)) as [_|Hn].
  - symmetry. apply Int_part_spec. lra.
  - exfalso. apply Hn. apply IZR_le. exact Hz.
Qed.

(** The sample kernels of the supported classes are made by the constructors,
    meet the conditions on the parameters, and return a matrix on a
    two-point input. *)
Lemma supported_samples_return :
  (Stationary_init RBF 1 1 None None false = Ok rbf1 /\ psd_supported rbf1
   /\ exists R0, K rbf1 [[0]; [1]] None None = Ok R0)
  /\ (Linear_init 1 [1] None false = Ok linear1 /\ psd_supported linear1
      /\ exists R0, K linear1 [[0]; [1]] None None = Ok R0)
  /\ (Polynomial_init 1 3 [1] 1 None false = Ok polynomial1 /\ psd_supported polynomial1
      /\ exists R0, K polynomial1 [[0]; [1]] None None = Ok R0)
  /\ (PeriodicKernel_init 1 1 1 1 None = Ok periodic1 /\ psd_supported periodic1
      /\ exists R0, K periodic1 [[0]; [1]] None None = Ok R0)
  /\ (Coregion_init 1 2 1 None = Ok coregion1 /\ psd_supported coregion1
      /\ exists R0, K coregion1 [[0]; [1]] None None = Ok R0).
Proof.
  repeat split; try reflexivity; try (simpl; lra);
    try (repeat constructor; lra); try (left; reflexivity);
    try (eexists; reflexivity).
  eexists. unfold coregion1. simpl K. unfold Coregion_K.
  assert (Es : _slice base1 [[0]; [1]] None = Ok ([[0]; [1]], None)) by reflexivity.
  rewrite Es. cbn [bind]. unfold column0_int32. cbn [mapM bind].
  rewrite (cast_int32_IZR 0), (cast_int32_IZR 1) by lia. reflexivity.
Qed.

(** ** The names of the combined kernels *)

Lemma dict_get_set d key v key' :
  dict_get (dict_set d key v) key'
  = if String.eqb key key' then Some v else dict_get d key'.
Proof.
  induction d as [|[k x] d IH]; simpl.
  - destruct (String.eqb key key'); reflexivity.
  - destruct (String.eqb k key) eqn:E; simpl.
    + apply String.eqb_eq in E; subst k.
      destruct (String.eqb key key'); reflexivity.
    + destruct (String.eqb k key') eqn:E'.
      * apply String.eqb_eq in E'; subst k. rewrite String.eqb_sym, E. reflexivity.
      * exact IH.
Qed.

Lemma replace_first_nth x v : forall names j,
  (j < length names)%nat -> nth j names ""%string = x ->
  (forall i, (i < j)%nat -> nth i names ""%string <> x) ->
  exists names', replace_first x v names = Ok names'
    /\ length names' = length names
    /\ forall i, nth i names' ""%string = if Nat.eqb i j then v else nth i names ""%string.
Proof.
  induction names as [|y names IH]; intros j Hj Hx Hlt; simpl in Hj; [lia|].
  destruct j as [|j]; simpl in Hx.
  - subst y. simpl. rewrite String.eqb_refl. eexists; split; [reflexivity|].
    split; [reflexivity|]. intros [|i]; reflexivity.
  - simpl. destruct (String.eqb y x) eqn:E.
    + apply String.eqb_eq in E. elim (Hlt 0%nat); [lia | exact E].
    + destruct (IH j) as (names' & Hr & Hl & Hn); [lia | exact Hx | |].
      * intros i Hi. apply (Hlt (S i)). lia.
      * rewrite Hr. simpl. eexists; split; [reflexivity|].
        split; [simpl; congruence|]. intros [|i]; simpl; [reflexivity | apply Hn].
Qed.

Lemma plain_append_neq r s r' :
  plain r' = true -> (r ++ "_" ++ s)%string <> r'.
Proof.
  revert r'; induction r as [|c r IH]; intros [|c' r'] H; simpl; try discriminate.
  - simpl in H. intros E. injection E as <- _. discriminate.
  - simpl in H. apply andb_prop in H as [_ H]. intros E. injection E as _ E.
    exact (IH _ H E).
Qed.

Lemma plain_append_inj r r' s s' :
  plain r = true -> plain r' = true ->
  (r ++ "_" ++ s)%string = (r' ++ "_" ++ s')%string -> r = r' /\ s = s'.
Proof.
  revert r'; induction r as [|c r IH]; intros [|c' r'] H H' E; simpl in *.
  - injection E as ->. auto.
  - injection E as <- _. discriminate.
  - injection E as -> _. discriminate.
  - apply andb_prop in H as [_ H]. apply andb_prop in H' as [_ H'].
    injection E as -> E. destruct (IH _ H H' E) as [-> ->]. auto.
Qed.

Lemma str_inj n m : str n = str m -> n = m.
Proof.
  unfold str. intros E.
  apply DecimalNat.Unsigned.to_uint_inj.
  pose proof (DecimalString.NilEmpty.usu (Nat.to_uint n)) as Hn.
  pose proof (DecimalString.NilEmpty.usu (Nat.to_uint m)) as Hm.
  rewrite E in Hn. congruence.
Qed.

Lemma raw_name_plain k : plain (raw_name k) = true.
Proof.
  destruct k as [c b v|c b v ls ard|b v ard|b v ard d o|b v ls p|b o r W kappa|c b l];
    try destruct c; reflexivity.
Qed.

Lemma occurrences_app r a b :
  occurrences r (a ++ b) = (occurrences r a + occurrences r b)%nat.
Proof. unfold occurrences. apply count_occ_app. Qed.

Lemma occurrences_single r x :
  occurrences r [x] = if String.eqb x r then 1%nat else 0%nat.
Proof.
  unfold occurrences. simpl. destruct (string_dec x r) as [->|N].
  - rewrite String.eqb_refl. reflexivity.
  - apply String.eqb_neq in N. rewrite N. reflexivity.
Qed.

Lemma occurrences_nth p i :
  (i < length p)%nat -> (1 <= occurrences (nth i p ""%string) (firstn (S i) p))%nat.
Proof.
  intros Hi. unfold occurrences.
  apply count_occ_In.
  rewrite <- (firstn_skipn i p) at 2.
  rewrite (firstn_skipn i p).
  assert (H : firstn (S i) p = firstn i p ++ [nth i p ""%string]).
  { revert i Hi. induction p as [|x p IH]; intros [|i] Hi; simpl in *; try lia.
    - reflexivity.
    - rewrite IH by lia. reflexivity. }
  rewrite H. apply in_or_app. right. left. reflexivity.
Qed.

Lemma firstn_le_occurrences r n p :
  (occurrences r (firstn n p) <= occurrences r p)%nat.
Proof.
  rewrite <- (firstn_skipn n p) at 2. rewrite occurrences_app. lia.
Qed.


Lemma numbered_name_unique_first p i r :
  Forall (fun s => plain s = true) p -> plain r = true ->
  (i < length p)%nat -> nth i p ""%string <> r ->
  numbered_name p i <> r.
Proof.
  intros Hp Hr Hi Hne. unfold numbered_name.
  destruct (Nat.eqb _ 1); [exact Hne|].
  apply plain_append_neq. exact Hr.
Qed.

Lemma name_kernel_step p state k :
  Forall (fun s => plain s = true) p ->
  named p state ->
  exists state', name_kernel state k = Ok state' /\ named (p ++ [raw_name k]) state'.
Proof.
  intros Hp [Hnames Hdict]. destruct state as [names dict]. simpl in Hnames, Hdict.
  unfold name_kernel. set (r := raw_name k).
  assert (Hr : plain r = true) by apply raw_name_plain.
  rewrite Hdict.
  assert (Hocc : forall x, occurrences x (p ++ [r])
                 = (occurrences x p + if String.eqb r x then 1 else 0)%nat).
  { intros x. rewrite occurrences_app, occurrences_single. reflexivity. }
  assert (Hdict' : forall c, occurrences r p = c ->
            forall x, dict_get (dict_set dict r (S c)) x
                      = if Nat.eqb (occurrences x (p ++ [r])) 0 then None
                        else Some (occurrences x (p ++ [r]))).
  { intros c Hc x. rewrite dict_get_set, Hocc, Hdict.
    destruct (String.eqb r x) eqn:E.
    - apply String.eqb_eq in E. subst x. rewrite Hc.
      replace (c + 1)%nat with (S c) by lia. reflexivity.
    - rewrite Nat.add_0_r. reflexivity. }
  assert (Hfirst : forall i, (i < length p)%nat ->
            firstn (S i) (p ++ [r]) = firstn (S i) p).
  { intros i Hi. rewrite firstn_app.
    replace (S i - length p)%nat with 0%nat by lia. simpl. apply app_nil_r. }
  assert (Hlast : firstn (S (length p)) (p ++ [r]) = p ++ [r]).
  { apply firstn_all2. rewrite length_app. simpl. lia. }
  (* entries of the new list at the old positions whose raw name differs *)
  assert (Hkeep : forall i, (i < length p)%nat -> nth i p ""%string <> r ->
            numbered_name (p ++ [r]) i = numbered_name p i).
  { intros i Hi Hne. unfold numbered_name.
    rewrite app_nth1 by exact Hi. rewrite Hfirst by exact Hi.
    rewrite Hocc. apply not_eq_sym in Hne. apply String.eqb_neq in Hne.
    rewrite Hne, Nat.add_0_r. reflexivity. }
  assert (Hnew : forall c, occurrences r p = c -> c <> 0%nat ->
            numbered_name (p ++ [r]) (length p) = (r ++ "_" ++ str (S c))%string).
  { intros c Hc Hc0. unfold numbered_name.
    rewrite app_nth2, Nat.sub_diag by lia. simpl nth.
    rewrite Hlast, Hocc, String.eqb_refl, Hc.
    destruct (Nat.eqb (c + 1) 1) eqn:E; [apply Nat.eqb_eq in E; lia|].
    replace (c + 1)%nat with (S c) by lia. reflexivity. }
  destruct (Nat.eqb (occurrences r p) 0) eqn:E0.
  - (* a new raw name *)
    apply Nat.eqb_eq in E0. eexists; split; [reflexivity|]. split; simpl.
    + subst names. unfold numbered_names.
      apply (nth_ext _ _ ""%string ""%string).
      * rewrite length_app, !length_tabulate, length_app. reflexivity.
      * intros i Hi. rewrite length_app, length_tabulate in Hi. simpl in Hi.
        rewrite (nth_tabulate (length (p ++ [r]))) by (rewrite length_app; simpl; lia).
        destruct (Nat.lt_ge_cases i (length p)) as [Hlt|Hge].
        -- rewrite app_nth1 by (rewrite length_tabulate; exact Hlt).
           rewrite nth_tabulate by exact Hlt. symmetry. apply Hkeep; [exact Hlt|].
           intros Heq. unfold occurrences in E0.
           apply (count_occ_not_In string_dec) in E0. apply E0.
           rewrite <- Heq. apply nth_In. exact Hlt.
        -- assert (i = length p) by lia. subst i.
           rewrite app_nth2, length_tabulate, Nat.sub_diag by (rewrite length_tabulate; lia).
           simpl. unfold numbered_name.
           rewrite app_nth2, Nat.sub_diag by lia. simpl nth.
           rewrite Hocc, String.eqb_refl, E0. reflexivity.
    + intros x. rewrite (Hdict' 0%nat E0). reflexivity.
  - apply Nat.eqb_neq in E0.
    destruct (Nat.eqb (occurrences r p) 1) eqn:E1.
    + (* the second kernel of its class *)
      apply Nat.eqb_eq in E1.
      assert (Hin : In r p).
      { apply (count_occ_In string_dec). unfold occurrences in E1. lia. }
      destruct (in_split _ _ Hin) as (p1 & p2 & Hsplit).
      assert (Hc1 : occurrences r p1 = 0%nat /\ occurrences r p2 = 0%nat).
      { rewrite Hsplit in E1. rewrite occurrences_app in E1.
        change (r :: p2) with ([r] ++ p2) in E1.
        rewrite occurrences_app, occurrences_single, String.eqb_refl in E1. lia. }
      destruct Hc1 as [Hc1 Hc2].
      set (j := length p1).
      assert (Hj : (j < length p)%nat).
      { rewrite Hsplit, length_app. simpl. unfold j. lia. }
      assert (Hnj : nth j p ""%string = r).
      { rewrite Hsplit. unfold j. rewrite app_nth2, Nat.sub_diag by lia. reflexivity. }
      assert (Hother : forall i, (i < length p)%nat -> i <> j -> nth i p ""%string <> r).
      { intros i Hi Hij Heq. rewrite Hsplit in Heq, Hi. rewrite length_app in Hi. simpl in Hi.
        destruct (Nat.lt_ge_cases i (length p1)) as [Hlt|Hge].
        - rewrite app_nth1 in Heq by exact Hlt.
          apply (count_occ_not_In string_dec) in Hc1. apply Hc1.
          rewrite <- Heq. apply nth_In. exact Hlt.
        - rewrite app_nth2 in Heq by exact Hge.
          destruct (i - length p1)%nat as [|t] eqn:Et; [unfold j in Hij; lia|].
          simpl in Heq.
          apply (count_occ_not_In string_dec) in Hc2. apply Hc2.
          rewrite <- Heq. apply nth_In. lia. }
      destruct (replace_first_nth r (r ++ "_1")%string names j)
        as (names' & Hrep & Hlen & Hnth).
      * subst names. unfold numbered_names. rewrite length_tabulate. exact Hj.
      * subst names. unfold numbered_names. rewrite nth_tabulate by exact Hj.
        unfold numbered_name. rewrite Hnj, E1. reflexivity.
      * intros i Hi. subst names. unfold numbered_names.
        rewrite nth_tabulate by lia.
        apply numbered_name_unique_first; [exact Hp | exact Hr | lia |].
        apply Hother; lia.
      * rewrite Hrep. simpl. eexists; split; [reflexivity|]. split; simpl.
        -- unfold numbered_names.
           apply (nth_ext _ _ ""%string ""%string).
           ++ rewrite length_app, Hlen, length_tabulate, length_app.
              subst names. unfold numbered_names. rewrite length_tabulate. reflexivity.
           ++ intros i Hi. rewrite length_app, Hlen in Hi. subst names.
              unfold numbered_names in Hi, Hnth, Hlen. rewrite length_tabulate in Hi, Hlen.
              simpl in Hi.
              rewrite (nth_tabulate (length (p ++ [r]))) by (rewrite length_app; simpl; lia).
              destruct (Nat.lt_ge_cases i (length p)) as [Hlt|Hge].
              ** rewrite app_nth1 by (rewrite Hlen; exact Hlt).
                 rewrite Hnth. destruct (Nat.eqb i j) eqn:Eij.
                 --- apply Nat.eqb_eq in Eij. subst i. unfold numbered_name.
                     rewrite app_nth1 by exact Hj. rewrite Hnj, Hocc, String.eqb_refl, E1.
                     simpl Nat.eqb. cbv iota.
                     rewrite Hfirst by exact Hj.
                     assert (Hone : occurrences r (firstn (S j) p) = 1%nat).
                     { pose proof (occurrences_nth p j Hj) as H1. rewrite Hnj in H1.
                       pose proof (firstn_le_occurrences r (S j) p). lia. }
                     rewrite Hone. reflexivity.
                 --- apply Nat.eqb_neq in Eij. rewrite nth_tabulate by exact Hlt.
                     symmetry. apply Hkeep; [exact Hlt|]. apply Hother; assumption.
              ** assert (i = length p) by lia. subst i.
                 rewrite app_nth2, Hlen, Nat.sub_diag by (rewrite Hlen; lia).
                 simpl. rewrite E1. symmetry. apply (Hnew 1%nat E1). lia.
        -- intros x. rewrite E1. apply (Hdict' 1%nat E1).
    + (* a later kernel of its class *)
      apply Nat.eqb_neq in E1. simpl.
      eexists; split; [reflexivity|]. split; simpl.
      * subst names. unfold numbered_names.
        apply (nth_ext _ _ ""%string ""%string).
        -- rewrite length_app, !length_tabulate, length_app. reflexivity.
        -- intros i Hi. rewrite length_app, length_tabulate in Hi. simpl in Hi.
           rewrite (nth_tabulate (length (p ++ [r]))) by (rewrite length_app; simpl; lia).
           destruct (Nat.lt_ge_cases i (length p)) as [Hlt|Hge].
           ++ rewrite app_nth1 by (rewrite length_tabulate; exact Hlt).
              rewrite nth_tabulate by exact Hlt.
              destruct (string_dec (nth i p ""%string) r) as [Heq|Hne].
              ** unfold numbered_name. rewrite app_nth1 by exact Hlt.
                 rewrite Hfirst by exact Hlt. rewrite Heq, Hocc, String.eqb_refl.
                 destruct (Nat.eqb (occurrences r p) 1) eqn:Ea;
                   [apply Nat.eqb_eq in Ea; lia|].
                 destruct (Nat.eqb (occurrences r p + 1) 1) eqn:Eb;
                   [apply Nat.eqb_eq in Eb; lia|]. reflexivity.
              ** symmetry. apply Hkeep; assumption.
           ++ assert (i = length p) by lia. subst i.
              rewrite app_nth2, length_tabulate, Nat.sub_diag by (rewrite length_tabulate; lia).
              simpl. symmetry. apply (Hnew _ eq_refl). exact E0.
      * intros x. apply (Hdict' _ eq_refl).
Qed.

Lemma names_loop l : forall p state,
  Forall (fun s => plain s = true) p ->
  named p state ->
  exists state',
    fold_left (fun acc k => state <- acc ;; name_kernel state k) l (Ok state) = Ok state'
    /\ named (p ++ map raw_name l) state'.
Proof.
  induction l as [|k l IH]; intros p state Hp Hn; simpl.
  - exists state. rewrite app_nil_r. auto.
  - destruct (name_kernel_step p state k Hp Hn) as (state' & Hs & Hn').
    rewrite Hs. destruct (IH (p ++ [raw_name k]) state') as (state'' & Hf & Hn'').
    + apply Forall_app; split; [exact Hp|]. constructor; [apply raw_name_plain | constructor].
    + exact Hn'.
    + exists state''. split; [exact Hf|]. rewrite <- app_assoc in Hn''. exact Hn''.
Qed.

Lemma make_kernel_names_value kern_list :
  make_kernel_names kern_list = Ok (numbered_names (map raw_name kern_list)).
Proof.
  unfold make_kernel_names.
  destruct (names_loop kern_list [] ([], [])) as (state & Hf & Hnames & _).
  - constructor.
  - split; [reflexivity|]. intros r. reflexivity.
  - rewrite Hf. simpl. rewrite Hnames. reflexivity.
Qed.

Lemma firstn_S_nth (p : list string) i :
  (i < length p)%nat -> firstn (S i) p = firstn i p ++ [nth i p ""%string].
Proof.
  revert i. induction p as [|x p IH]; intros [|i] Hi; simpl in *; try lia.
  - reflexivity.
  - rewrite IH by lia. reflexivity.
Qed.

Lemma occurrences_grow p i j :
  (i < j)%nat -> (j < length p)%nat ->
  (occurrences (nth j p ""%string) (firstn (S i) p)
   < occurrences (nth j p ""%string) (firstn (S j) p))%nat.
Proof.
  intros Hij Hj. rewrite (firstn_S_nth p j Hj), occurrences_app, occurrences_single.
  rewrite String.eqb_refl.
  replace (firstn (S i) p) with (firstn (S i) (firstn j p)).
  - pose proof (firstn_le_occurrences (nth j p ""%string) (S i) (firstn j p)). lia.
  - rewrite firstn_firstn. f_equal. lia.
Qed.

Lemma numbered_name_inj p i j :
  Forall (fun s => plain s = true) p ->
  (i < j)%nat -> (j < length p)%nat ->
  numbered_name p i <> numbered_name p j.
Proof.
  intros Hp Hij Hj.
  assert (Hpi : plain (nth i p ""%string) = true).
  { rewrite Forall_forall in Hp. apply Hp, nth_In. lia. }
  assert (Hpj : plain (nth j p ""%string) = true).
  { rewrite Forall_forall in Hp. apply Hp, nth_In. lia. }
  pose proof (occurrences_grow p i j Hij Hj) as Hgrow.
  pose proof (firstn_le_occurrences (nth j p ""%string) (S j) p) as Hle.
  unfold numbered_name.
  destruct (Nat.eqb (occurrences (nth i p ""%string) p) 1) eqn:Ei;
    destruct (Nat.eqb (occurrences (nth j p ""%string) p) 1) eqn:Ej.
  - intros E. apply Nat.eqb_eq in Ej.
    assert (1 <= occurrences (nth j p ""%string) (firstn (S i) p))%nat.
    { rewrite <- E. apply occurrences_nth. lia. }
    lia.
  - intros E. symmetry in E. revert E. apply plain_append_neq. exact Hpi.
  - apply plain_append_neq. exact Hpj.
  - intros E. apply plain_append_inj in E; [|assumption..].
    destruct E as [E1 E2]. apply str_inj in E2. rewrite E1 in E2. lia.
Qed.

(** X1: [make_kernel_names] never raises, and names the kernels as its
    docstring says: the kernel of a class that occurs once in the list gets
    the lower-case class name, and the [n]-th kernel of a class that occurs
    several times gets that name followed by [_n]. *)
Theorem make_kernel_names_numbered :
  forall kern_list,
    make_kernel_names kern_list = Ok (numbered_names (map raw_name kern_list)).
Proof. exact make_kernel_names_value. Qed.

(** X2: [make_kernel_names] returns one name per kernel, and no name twice, so
    that [Combination.__init__] sets one attribute per child. *)
Theorem make_kernel_names_distinct :
  forall kern_list,
    exists names,
      make_kernel_names kern_list = Ok names
      /\ length names = length kern_list
      /\ NoDup names.
Proof.
  intros kern_list. exists (numbered_names (map raw_name kern_list)).
  split; [apply make_kernel_names_value|].
  unfold numbered_names. rewrite length_tabulate, length_map.
  split; [reflexivity|].
  assert (Hp : Forall (fun s => plain s = true) (map raw_name kern_list)).
  { apply Forall_forall. intros s Hs. apply in_map_iff in Hs as (k & <- & _).
    apply raw_name_plain. }
  apply (NoDup_nth _ ""%string). rewrite length_tabulate.
  intros i j Hi Hj E.
  rewrite !nth_tabulate in E by assumption.
  destruct (Nat.lt_trichotomy i j) as [H|[H|H]]; [|exact H|].
  - elim (numbered_name_inj _ i j Hp H); [rewrite length_map; exact Hj | exact E].
  - elim (numbered_name_inj _ j i Hp H); [rewrite length_map; exact Hi | symmetry; exact E].
Qed.

(** ** Children on separate dimensions *)

Lemma any_equal_false a b :
  any_equal a b = false <-> forall x, In x a -> ~ In x b.
Proof.
  unfold any_equal. split.
  - intros H x Ha Hb.
    assert (E : existsb (fun a0 => existsb (fun b0 => (a0 =? b0)%Z) b) a = true).
    { apply existsb_exists. exists x. split; [exact Ha|].
      apply existsb_exists. exists x. split; [exact Hb | apply Z.eqb_refl]. }
    congruence.
  - intros H. apply not_true_is_false. intros E.
    apply existsb_exists in E as (x & Ha & E).
    apply existsb_exists in E as (y & Hb & E).
    apply Z.eqb_eq in E. subst y. exact (H x Ha Hb).
Qed.

Lemma flag_loop di rest : forall ov,
  fold_left (fun overlapping dj => if any_equal di dj then true else overlapping) rest ov
  = ov || existsb (any_equal di) rest.
Proof.
  induction rest as [|dj rest IH]; intros ov; simpl.
  - rewrite orb_false_r. reflexivity.
  - rewrite IH. destruct (any_equal di dj), ov; reflexivity.
Qed.

Lemma overlapping_pairs_false dl : forall ov,
  overlapping_pairs dl ov = false
  <-> ov = false /\ ForallOrdPairs (fun a b => any_equal a b = false) dl.
Proof.
  induction dl as [|di rest IH]; intros ov; simpl.
  - split; [intros ->; split; [reflexivity | constructor] | intros [H _]; exact H].
  - rewrite IH, flag_loop. split.
    + intros [H1 H2]. apply orb_false_elim in H1 as [-> H1]. split; [reflexivity|].
      constructor; [|exact H2].
      apply Forall_forall. intros b Hb.
      apply not_true_is_false. intros E.
      assert (existsb (any_equal di) rest = true)
        by (apply existsb_exists; exists b; auto).
      congruence.
    + intros [-> H]. inversion H as [|? ? Hd Hr]; subst. split; [|exact Hr].
      simpl. apply not_true_is_false. intros E.
      apply existsb_exists in E as (b & Hb & E).
      rewrite Forall_forall in Hd. rewrite (Hd b Hb) in E. discriminate.
Qed.

(** X3: [on_separate_dimensions] is [True] exactly when every child has an
    array of indices for [active_dims] and no two children share an index; a
    single child with a slice, such as the default one, makes it [False]. *)
Theorem on_separate_dimensions_iff :
  forall kern_list,
    on_separate_dimensions kern_list = true
    <-> Forall array_dims kern_list /\ ForallOrdPairs dims_disjoint kern_list.
Proof.
  intros kern_list. unfold on_separate_dimensions.
  destruct (existsb _ kern_list) eqn:Es.
  - split; [discriminate|]. intros [Ha _].
    apply existsb_exists in Es as (k & Hk & Es).
    rewrite Forall_forall in Ha. destruct (Ha k Hk) as [l Hl].
    rewrite Hl in Es. discriminate.
  - assert (Ha : Forall array_dims kern_list).
    { apply Forall_forall. intros k Hk.
      destruct (active_dims (base k)) as [a b c|l] eqn:E; [|exists l; exact E].
      assert (existsb (fun k0 => match active_dims (base k0) with
                                 | ADslice _ _ _ => true
                                 | ADarray _ => false
                                 end) kern_list = true).
      { apply existsb_exists. exists k. rewrite E. auto. }
      congruence. }
    rewrite negb_true_iff, overlapping_pairs_false.
    split.
    + intros [_ H]. split; [exact Ha|]. clear Es.
      induction kern_list as [|k l IH]; [constructor|].
      inversion Ha as [|? ? [d Hd] Hal]; subst.
      simpl in H. rewrite Hd in H. simpl in H.
      inversion H as [|? ? H1 H2]; subst.
      constructor; [|apply IH; assumption].
      apply Forall_forall. intros k' Hk'.
      rewrite Forall_forall in Hal. destruct (Hal k' Hk') as [d' Hd'].
      unfold dims_disjoint. rewrite Hd, Hd'. apply any_equal_false.
      rewrite Forall_forall in H1. apply H1.
      apply in_flat_map. exists k'. rewrite Hd'. simpl. auto.
    + intros [_ H]. split; [reflexivity|]. clear Es.
      induction kern_list as [|k l IH]; [constructor|].
      inversion Ha as [|? ? [d Hd] Hal]; subst.
      inversion H as [|? ? H1 H2]; subst.
      simpl. rewrite Hd. simpl.
      constructor; [|apply IH; assumption].
      apply Forall_forall. intros d' Hd'.
      apply in_flat_map in Hd' as (k' & Hk' & Hin).
      rewrite Forall_forall in H1. specialize (H1 k' Hk').
      unfold dims_disjoint in H1. rewrite Hd in H1.
      destruct (active_dims (base k')) as [a b c|l']; [contradiction|].
      simpl in Hin. destruct Hin as [<-|[]]. apply any_equal_false. exact H1.
Qed.

(** ** Associativity of the sum and the product of kernels *)

Lemma child_dim_error k e : child_dim k = Raise e -> e = ValueError.
Proof.
  unfold child_dim. destruct (active_dims (base k)) as [a b c|l]; [discriminate|].
  destruct l; simpl; intros H; [injection H as <-; reflexivity | discriminate].
Qed.

Lemma Combination_init_assoc c k1 k2 k3 :
  (s <- Combination_init c [k1; k2] ;; Combination_init c [s; k3])
  = (s <- Combination_init c [k2; k3] ;; Combination_init c [k1; s]).
Proof.
  unfold Combination_init. simpl mapM.
  destruct (child_dim k1) as [d1|e1] eqn:E1;
    destruct (child_dim k2) as [d2|e2] eqn:E2;
    destruct (child_dim k3) as [d3|e3] eqn:E3; simpl;
    repeat match goal with
           | H : child_dim _ = Raise _ |- _ => apply child_dim_error in H; subst
           end; try reflexivity.
  replace (combination_class_eqb c c) with true by (destruct c; reflexivity).
  rewrite !app_nil_r, <- !app_assoc, Z.max_assoc. reflexivity.
Qed.

(** X4: [(k1 + k2) + k3] and [k1 + (k2 + k3)] are the same combination, with
    the same [input_dim] and the same flat [kern_list], and fail on the same
    operands; likewise for [*]. *)
Theorem kern_add_mul_associative :
  forall k1 k2 k3,
    (s <- kern_add k1 k2 ;; kern_add s k3) = (s <- kern_add k2 k3 ;; kern_add k1 s)
    /\ (s <- kern_mul k1 k2 ;; kern_mul s k3) = (s <- kern_mul k2 k3 ;; kern_mul k1 s).
Proof.
  intros k1 k2 k3. split; apply Combination_init_assoc.
Qed.

(** ** Shapes, and calls with one input *)

Lemma white_free_Combination c b l :
  white_free (Combination c b l) <-> Forall white_free l.
Proof.
  simpl. induction l as [|k l IH]; simpl.
  - split; [constructor | trivial].
  - rewrite IH. split; [intros [H1 H2]; constructor; assumption|].
    intros H; inversion H; auto.
Qed.

Lemma slice_both b X :
  _slice b X (Some X)
  = ('(Xs, _) <- _slice b X None ;; Ok (Xs, Some Xs)).
Proof.
  unfold _slice. destruct (select_cols (active_dims b) X) as [Xs|e]; simpl; [|reflexivity].
  destruct (assert_cols (input_dim b) Xs); reflexivity.
Qed.

Lemma slice_none_snd b X Xs o : _slice b X None = Ok (Xs, o) -> o = None.
Proof.
  unfold _slice. intros H. inv_ok H. congruence.
Qed.

Lemma slice_unless_both p b X :
  slice_unless p b X (Some X)
  = ('(Xs, _) <- slice_unless p b X None ;; Ok (Xs, Some Xs)).
Proof.
  unfold slice_unless. destruct p; [reflexivity | apply slice_both].
Qed.

Lemma square_dist_both ls X : square_dist ls X None = square_dist ls X (Some X).
Proof.
  unfold square_dist. destruct (bcast_rows Rdiv X ls); reflexivity.
Qed.

Lemma euclid_dist_both ls X : euclid_dist ls X None = euclid_dist ls X (Some X).
Proof. unfold euclid_dist. rewrite square_dist_both. reflexivity. Qed.

Lemma slice_unless_none_snd p b X Xs o :
  slice_unless p b X None = Ok (Xs, o) -> o = None.
Proof.
  unfold slice_unless. destruct p; [intros H; injection H as _ <-; reflexivity|].
  apply slice_none_snd.
Qed.

Lemma K_both k :
  white_free k -> forall X ps, K k X None ps = K k X (Some X) ps.
Proof.
  induction k as [c b v|c b v ls ard|b v ard|b v ard d o|b v ls p|b o r W kappa|c b l IH]
    using kern_induction; intros Hw X ps.
  - destruct c; simpl in *; [contradiction| |]; reflexivity.
  - simpl. unfold Stationary_K. rewrite slice_unless_both.
    destruct (slice_unless _ b X None) as [[Xs o']|e] eqn:E; simpl; [|reflexivity].
    rewrite (slice_unless_none_snd _ _ _ _ _ E).
    rewrite square_dist_both, euclid_dist_both. reflexivity.
  - simpl. unfold Linear_K. rewrite slice_unless_both.
    destruct (slice_unless _ b X None) as [[Xs o']|e] eqn:E; simpl; [|reflexivity].
    rewrite (slice_unless_none_snd _ _ _ _ _ E). reflexivity.
  - simpl. unfold Polynomial_K, Linear_K. rewrite slice_unless_both.
    destruct (slice_unless _ b X None) as [[Xs o']|e] eqn:E; simpl; [|reflexivity].
    rewrite (slice_unless_none_snd _ _ _ _ _ E). reflexivity.
  - simpl. unfold PeriodicKernel_K. rewrite slice_unless_both.
    destruct (slice_unless _ b X None) as [[Xs o']|e] eqn:E; simpl; [|reflexivity].
    rewrite (slice_unless_none_snd _ _ _ _ _ E). reflexivity.
  - simpl. destruct ps; [reflexivity|]. unfold Coregion_K. rewrite slice_both.
    destruct (_slice b X None) as [[Xs o']|e] eqn:E; simpl; [|reflexivity].
    rewrite (slice_none_snd _ _ _ _ E).
    destruct (column0_int32 Xs); reflexivity.
  - rewrite !K_Combination. apply white_free_Combination in Hw.
    f_equal. apply mapM_ext. intros k' Hk'.
    rewrite Forall_forall in IH, Hw. apply IH; [exact Hk' | apply Hw; exact Hk'].
Qed.

Lemma White_K_shape v X :
  length (White_K v X None) = nrows X /\ has_cols (nrows X) (White_K v X None).
Proof.
  unfold White_K, diag, fill1. rewrite repeat_length, length_tabulate.
  split; [reflexivity|]. apply has_cols_intro. intros r Hr.
  unfold tabulate in Hr. apply in_map_iff in Hr as (i & <- & _).
  apply length_tabulate.
Qed.

Lemma K_shape_none k :
  forall X ps R, K k X None ps = Ok R -> length R = nrows X /\ has_cols (nrows X) R.
Proof.
  induction k as [c b v|c b v ls ard|b v ard|b v ard d o|b v ls p|b o r W kappa|c b l IH]
    using kern_induction; intros X ps R H.
  - destruct c.
    + simpl in H. injection H as <-. apply White_K_shape.
    + rewrite (K_both (Static Constant b v) I) in H. eapply K_shape; exact H.
    + rewrite (K_both (Static Bias b v) I) in H. eapply K_shape; exact H.
  - rewrite (K_both (Stationary c b v ls ard) I) in H.
    destruct (K_shape _ _ _ _ _ H). auto.
  - rewrite (K_both (Linear b v ard) I) in H. eapply K_shape; exact H.
  - rewrite (K_both (Polynomial b v ard d o) I) in H. eapply K_shape; exact H.
  - rewrite (K_both (PeriodicKernel b v ls p) I) in H. eapply K_shape; exact H.
  - rewrite (K_both (Coregion b o r W kappa) I) in H. eapply K_shape; exact H.
  - rewrite K_Combination in H. inv_ok H.
    eapply reduce_shape; [|exact H].
    apply Forall_forall. intros A HA.
    destruct (mapM_In _ _ _ E A HA) as (k' & Hk' & EK).
    rewrite Forall_forall in IH. eapply IH; eassumption.
Qed.

Lemma combine_Kdiag_length c n a b :
  length a = n -> length b = n -> length (combine_Kdiag c a b) = n.
Proof.
  intros Ha Hb. destruct c; simpl; unfold vadd, vmul; rewrite length_map2; congruence.
Qed.

Lemma reduce_Kdiag_length c n ds d :
  Forall (fun a => length a = n) ds ->
  reduce (combine_Kdiag c) ds = Ok d -> length d = n.
Proof.
  intros Hds H. destruct ds as [|a ds]; simpl in H; [discriminate|].
  injection H as <-. apply Forall_cons_iff in Hds as [Ha Hrest].
  revert a Ha. induction Hrest as [|b ds Hb _ IH]; intros a Ha; simpl; [exact Ha|].
  apply IH. apply combine_Kdiag_length; assumption.
Qed.

Lemma slice_unless_nrows p b X Xs o :
  slice_unless p b X None = Ok (Xs, o) -> nrows Xs = nrows X.
Proof.
  intros H. apply (slice_unless_shape _ _ _ _ _ _ H).
Qed.

Lemma Linear_Kdiag_length b v X p d :
  Linear_Kdiag b v X p = Ok d -> length d = nrows X.
Proof.
  unfold Linear_Kdiag. intros H.
  destruct (slice_unless p b X None) as [[Xs o]|] eqn:Es; simpl in H; [|discriminate].
  apply slice_unless_nrows in Es. inv_ok H.
  apply bcast_rows_nrows in E. unfold mmap in E. rewrite length_map in E.
  rewrite length_map. unfold nrows in *. congruence.
Qed.

Lemma Kdiag_length k :
  forall X ps d, Kdiag k X ps = Ok d -> length d = nrows X.
Proof.
  induction k as [c b v|c b v ls ard|b v ard|b v ard d0 o|b v ls p|b o r W kappa|c b l IH]
    using kern_induction; intros X ps d H.
  - simpl in H. destruct ps; [discriminate|]. injection H as <-. apply repeat_length.
  - simpl in H. injection H as <-. apply repeat_length.
  - simpl in H. eapply Linear_Kdiag_length; exact H.
  - simpl in H. unfold Polynomial_Kdiag in H. inv_ok H.
    unfold vmap. rewrite length_map. eapply Linear_Kdiag_length; eassumption.
  - simpl in H. injection H as <-. apply repeat_length.
  - simpl in H. destruct ps; [discriminate|]. unfold Coregion_Kdiag in H.
    destruct (_slice b X None) as [[Xs o']|] eqn:Es; simpl in H; [|discriminate].
    apply (slice_unless_nrows false) in Es. inv_ok H.
    unfold gather in H. apply mapM_length in H.
    unfold column0_int32 in E. apply mapM_length in E. unfold nrows in *. congruence.
  - rewrite Kdiag_Combination in H. inv_ok H.
    eapply reduce_Kdiag_length; [|exact H].
    apply Forall_forall. intros a Ha.
    destruct (mapM_In _ _ _ E a Ha) as (k' & Hk' & EK).
    rewrite Forall_forall in IH. eapply IH; eassumption.
Qed.

(** X5: whenever they return, [K(X, X2)] has a row per row of [X] and a column
    per row of [X2], [K(X)] is square with a row per row of [X], and
    [Kdiag(X)] has an entry per row of [X]; this holds for every kernel. *)
Theorem K_Kdiag_shapes :
  forall k X ps,
    (forall X2 R, K k X (Some X2) ps = Ok R ->
       length R = nrows X /\ has_cols (nrows X2) R)
    /\ (forall R, K k X None ps = Ok R -> length R = nrows X /\ has_cols (nrows X) R)
    /\ (forall d, Kdiag k X ps = Ok d -> length d = nrows X).
Proof.
  intros k X ps. split; [|split].
  - intros X2 R. apply K_shape.
  - apply K_shape_none.
  - apply Kdiag_length.
Qed.

(** A constant kernel on two inputs and one, and the linear kernel's diagonal. *)
Lemma K_Kdiag_shapes_witness :
  (K linear1 [[1]; [2]] (Some [[3]]) None = Ok [[1 * 1 * 3 + 0]; [2 * 1 * 3 + 0]]
   /\ length [[1 * 1 * 3 + 0]; [2 * 1 * 3 + 0]] = nrows [[1]; [2]]
   /\ has_cols (nrows [[3]]) [[1 * 1 * 3 + 0]; [2 * 1 * 3 + 0]])
  /\ (K constant1 [[1]; [2]] None None = Ok [[2; 2]; [2; 2]]
      /\ length [[2; 2]; [2; 2]] = nrows [[1]; [2]]
      /\ has_cols (nrows [[1]; [2]]) [[2; 2]; [2; 2]])
  /\ (Kdiag linear1 [[1]; [2]] None = Ok [1 * 1 * 1 + 0; 2 * 2 * 1 + 0]
      /\ length [1 * 1 * 1 + 0; 2 * 2 * 1 + 0] = nrows [[1]; [2]]).
Proof.
  split; [|split]; (split; [reflexivity|]).
  - apply (proj1 (K_Kdiag_shapes linear1 [[1]; [2]] None) [[3]]). reflexivity.
  - apply (proj1 (proj2 (K_Kdiag_shapes constant1 [[1]; [2]] None))). reflexivity.
  - apply (proj2 (proj2 (K_Kdiag_shapes linear1 [[1]; [2]] None))). reflexivity.
Defined.

(** X6: for a kernel that involves no white kernel, [K(X)] is [K(X, X)], with
    the same failures; the white kernel on a non-empty input, with a non-zero
    variance, tells the two calls apart. *)
Theorem K_of_one_input :
  forall k X,
    (white_free k -> K k X None None = K k X (Some X) None)
    /\ (forall b variance, X <> [] -> variance <> 0 ->
        K (Static White b variance) X None None
        <> K (Static White b variance) X (Some X) None).
Proof.
  intros k X. split.
  - intros Hw. apply K_both. exact Hw.
  - intros b variance HX Hv. simpl. intros E. injection E as E.
    destruct X as [|x X]; [congruence|].
    unfold White_K, diag, fill1, fill2, nrows in E. simpl in E.
    injection E as E _. lra.
Qed.

(** The sum of a linear and a constant kernel, and a white kernel. *)
Lemma K_of_one_input_witness :
  (white_free (Combination Add base1 [linear1; constant1])
   /\ K (Combination Add base1 [linear1; constant1]) [[1]] None None
      = K (Combination Add base1 [linear1; constant1]) [[1]] (Some [[1]]) None)
  /\ ([[1]] <> @nil (list R) /\ 1 <> 0
      /\ K white1 [[1]] None None <> K white1 [[1]] (Some [[1]]) None).
Proof.
  assert (Hw : white_free (Combination Add base1 [linear1; constant1]))
    by (simpl; auto).
  assert (Hx : [[1]] <> @nil (list R)) by discriminate.
  assert (H1 : 1 <> 0) by lra.
  split.
  - split; [exact Hw|].
    apply (proj1 (K_of_one_input (Combination Add base1 [linear1; constant1]) [[1]]) Hw).
  - split; [exact Hx|]. split; [exact H1|].
    apply (proj2 (K_of_one_input white1 [[1]]) base1 1 Hx H1).
Defined.

(** ** Stacked inputs *)

Lemma slice_stack_none b A B As Bs o o' :
  _slice b A None = Ok (As, o) -> _slice b B None = Ok (Bs, o') ->
  _slice b (A ++ B) None = Ok (As ++ Bs, None).
Proof.
  unfold _slice. intros HA HB.
  destruct (select_cols (active_dims b) A) as [As'|] eqn:EA; simpl in HA; [|discriminate].
  destruct (select_cols (active_dims b) B) as [Bs'|] eqn:EB; simpl in HB; [|discriminate].
  rewrite (select_cols_app _ _ _ _ _ EA EB). simpl.
  destruct (assert_cols (input_dim b) As') eqn:E1; simpl in HA; [|discriminate].
  destruct (assert_cols (input_dim b) Bs') eqn:E2; simpl in HB; [|discriminate].
  rewrite (assert_cols_app _ _ _ _ _ E1 E2). simpl.
  injection HA as <- _. injection HB as <- _. reflexivity.
Qed.

Lemma slice_unless_stack_none p b A B As Bs o o' :
  slice_unless p b A None = Ok (As, o) -> slice_unless p b B None = Ok (Bs, o') ->
  slice_unless p b (A ++ B) None = Ok (As ++ Bs, None).
Proof.
  unfold slice_unless. destruct p; [|apply slice_stack_none].
  intros HA HB. injection HA as <- _. injection HB as <- _. reflexivity.
Qed.

Lemma Linear_Kdiag_stack b v A B p a a' :
  Linear_Kdiag b v A p = Ok a -> Linear_Kdiag b v B p = Ok a' ->
  Linear_Kdiag b v (A ++ B) p = Ok (a ++ a').
Proof.
  unfold Linear_Kdiag. intros HA HB.
  destruct (slice_unless p b A None) as [[As o]|] eqn:EA; simpl in HA; [|discriminate].
  destruct (slice_unless p b B None) as [[Bs o']|] eqn:EB; simpl in HB; [|discriminate].
  rewrite (slice_unless_stack_none _ _ _ _ _ _ _ _ EA EB). simpl.
  destruct (bcast_rows Rmult (mmap square As) v) as [Av|] eqn:E1; simpl in HA; [|discriminate].
  destruct (bcast_rows Rmult (mmap square Bs) v) as [Bv|] eqn:E2; simpl in HB; [|discriminate].
  unfold bcast_rows, mmap in E1, E2 |- *. rewrite map_app.
  rewrite (mapM_app_Ok _ _ _ _ _ E1 E2). simpl.
  injection HA as <-. injection HB as <-. rewrite map_app. reflexivity.
Qed.

Lemma fold_left_combine_Kdiag_app c n (As Bs : list (list R)) :
  length As = length Bs ->
  Forall (fun a => length a = n) As ->
  forall a b, length a = n ->
    fold_left (combine_Kdiag c) (map2 (@app R) As Bs) (a ++ b)
    = fold_left (combine_Kdiag c) As a ++ fold_left (combine_Kdiag c) Bs b.
Proof.
  intros Hlen HAs. revert Bs Hlen.
  induction HAs as [|a1 As Ha1 _ IH]; intros [|b1 Bs] Hlen a b Ha;
    simpl in Hlen; try discriminate; [reflexivity|].
  unfold map2. simpl. fold (map2 (@app R) As Bs).
  assert (E : combine_Kdiag c (a ++ b) (a1 ++ b1)
              = combine_Kdiag c a a1 ++ combine_Kdiag c b b1).
  { destruct c; simpl; unfold vadd, vmul; apply map2_app; congruence. }
  rewrite E. apply IH; [lia|].
  destruct c; simpl; unfold vadd, vmul; rewrite length_map2; congruence.
Qed.


Lemma Kdiag_stack k :
  forall A B ps a b,
    Kdiag k A ps = Ok a -> Kdiag k B ps = Ok b ->
    Kdiag k (A ++ B) ps = Ok (a ++ b).
Proof.
  induction k as [c b v|c b v ls ard|b v ard|b v ard d o|b v ls p|b o r W kappa|c b l IH]
    using kern_induction; intros A B ps a a' HA HB.
  - simpl in *. destruct ps; [discriminate|]. injection HA as <-. injection HB as <-.
    unfold Static_Kdiag, fill1, nrows. rewrite length_app, repeat_app. reflexivity.
  - simpl in *. injection HA as <-. injection HB as <-.
    unfold Stationary_Kdiag, fill1, nrows. rewrite length_app, repeat_app. reflexivity.
  - simpl in *. apply Linear_Kdiag_stack; assumption.
  - simpl in *. unfold Polynomial_Kdiag in *.
    destruct (Linear_Kdiag b v A _) as [la|] eqn:E1; simpl in HA; [|discriminate].
    destruct (Linear_Kdiag b v B _) as [lb|] eqn:E2; simpl in HB; [|discriminate].
    rewrite (Linear_Kdiag_stack _ _ _ _ _ _ _ E1 E2). simpl.
    injection HA as <-. injection HB as <-. unfold vmap. rewrite map_app. reflexivity.
  - simpl in *. injection HA as <-. injection HB as <-.
    unfold PeriodicKernel_Kdiag, fill1, nrows. rewrite length_app, repeat_app. reflexivity.
  - simpl in *. destruct ps; [discriminate|]. unfold Coregion_Kdiag in *.
    destruct (_slice b A None) as [[As oa]|] eqn:EA; simpl in HA; [|discriminate].
    destruct (_slice b B None) as [[Bs ob]|] eqn:EB; simpl in HB; [|discriminate].
    rewrite (slice_stack_none _ _ _ _ _ _ _ EA EB). simpl.
    destruct (column0_int32 As) as [ia|] eqn:E1; simpl in HA; [|discriminate].
    destruct (column0_int32 Bs) as [ib|] eqn:E2; simpl in HB; [|discriminate].
    unfold column0_int32 in E1, E2 |- *. rewrite (mapM_app_Ok _ _ _ _ _ E1 E2). simpl.
    destruct (bcast_vec Rplus (row_sumsq W) kappa) as [Bd|]; simpl in *; [|discriminate].
    unfold gather in HA, HB |- *. apply mapM_app_Ok; assumption.
  - rewrite Kdiag_Combination in *.
    destruct (mapM (fun k' => Kdiag k' A None) l) as [As|] eqn:EA;
      simpl in HA; [|discriminate].
    destruct (mapM (fun k' => Kdiag k' B None) l) as [Bs|] eqn:EB;
      simpl in HB; [|discriminate].
    assert (HAB : mapM (fun k' => Kdiag k' (A ++ B) None) l
                  = Ok (map2 (@app R) As Bs)).
    { clear HA HB. revert As Bs EA EB.
      induction IH as [|k l Hk _ IHl]; intros As Bs EA EB; simpl in *.
      - injection EA as <-. reflexivity.
      - destruct (Kdiag k A None) as [ka|] eqn:E1; simpl in EA; [|discriminate].
        destruct (mapM _ l) as [As'|] eqn:E1'; simpl in EA; [|discriminate].
        destruct (Kdiag k B None) as [kb|] eqn:E2; simpl in EB; [|discriminate].
        destruct (mapM (fun k' => Kdiag k' B None) l) as [Bs'|] eqn:E2';
          simpl in EB; [|discriminate].
        injection EA as <-. injection EB as <-.
        rewrite (Hk _ _ _ _ _ E1 E2). simpl.
        rewrite (IHl As' Bs' eq_refl eq_refl). reflexivity. }
    rewrite HAB. simpl.
    assert (HlenA : Forall (fun M => length M = nrows A) As).
    { apply Forall_forall. intros M HM.
      destruct (mapM_In _ _ _ EA M HM) as (k' & _ & EK).
      apply (Kdiag_length k' _ _ _ EK). }
    assert (Hlen : length As = length Bs).
    { apply mapM_length in EA, EB. congruence. }
    destruct As as [|A1 As]; [discriminate|].
    destruct Bs as [|B1 Bs]; [discriminate|].
    simpl in HA, HB. injection HA as <-. injection HB as <-.
    unfold map2. simpl. fold (map2 (@app R) As Bs). f_equal.
    apply Forall_cons_iff in HlenA as [H1 H2].
    apply (fold_left_combine_Kdiag_app c (nrows A)); [simpl in Hlen; lia | assumption | assumption].
Qed.

Lemma Kdiag_concat k ps :
  forall (Xs : list (list (list R))) Ks,
    Xs <> [] ->
    mapM (fun X => Kdiag k X ps) Xs = Ok Ks ->
    Kdiag k (concat Xs) ps = Ok (concat Ks).
Proof.
  induction Xs as [|X Xs IH]; intros Ks Hne H; [congruence|].
  simpl in H.
  destruct (Kdiag k X ps) as [KX|] eqn:E1; simpl in H; [|discriminate].
  destruct (mapM _ Xs) as [Ks'|] eqn:E2; simpl in H; [|discriminate].
  injection H as <-. simpl.
  destruct Xs as [|X' Xs].
  - simpl in E2. injection E2 as <-. simpl. rewrite !app_nil_r. exact E1.
  - apply Kdiag_stack; [exact E1|]. apply IH; [discriminate | reflexivity].
Qed.

(** X7: with the second input fixed, [K] works row by row, and so does
    [Kdiag]: on stacked inputs they return the stacked results. *)
Theorem K_of_stacked_inputs :
  forall k A B ps,
    (forall Z a b,
       K k A (Some Z) ps = Ok a -> K k B (Some Z) ps = Ok b ->
       K k (A ++ B) (Some Z) ps = Ok (a ++ b))
    /\ (forall a b,
          Kdiag k A ps = Ok a -> Kdiag k B ps = Ok b ->
          Kdiag k (A ++ B) ps = Ok (a ++ b)).
Proof.
  intros k A B ps. split.
  - intros Z a b. apply K_stack.
  - intros a b. apply Kdiag_stack.
Qed.

(** The linear kernel on two stacked one-row inputs. *)
Lemma K_of_stacked_inputs_witness :
  (K linear1 [[1]] (Some [[3]]) None = Ok [[1 * 1 * 3 + 0]]
   /\ K linear1 [[2]] (Some [[3]]) None = Ok [[2 * 1 * 3 + 0]]
   /\ K linear1 ([[1]] ++ [[2]]) (Some [[3]]) None
      = Ok ([[1 * 1 * 3 + 0]] ++ [[2 * 1 * 3 + 0]]))
  /\ (Kdiag linear1 [[1]] None = Ok [1 * 1 * 1 + 0]
      /\ Kdiag linear1 [[2]] None = Ok [2 * 2 * 1 + 0]
      /\ Kdiag linear1 ([[1]] ++ [[2]]) None = Ok ([1 * 1 * 1 + 0] ++ [2 * 2 * 1 + 0])).
Proof.
  split; (split; [reflexivity|]); (split; [reflexivity|]).
  - apply (proj1 (K_of_stacked_inputs linear1 [[1]] [[2]] None) [[3]]); reflexivity.
  - apply (proj2 (K_of_stacked_inputs linear1 [[1]] [[2]] None)); reflexivity.
Defined.

(** ** Slicing by the default slice and by an array of indices *)

Lemma mapM_raise {A B : Type} (f : A -> result B) (e : exn) (l : list A) :
  (forall a e', In a l -> f a = Raise e' -> e' = e) ->
  Exists (fun a => exists e', f a = Raise e') l ->
  mapM f l = Raise e.
Proof.
  intros Hall Hex. induction Hex as [a l (e' & Ha)|a l _ IH]; simpl.
  - rewrite Ha. simpl. f_equal. apply (Hall a); [left; reflexivity | exact Ha].
  - destruct (f a) as [b|e'] eqn:Ea; simpl.
    + rewrite IH; [reflexivity|]. intros a0 e0 Hin. apply Hall. right. exact Hin.
    + f_equal. apply (Hall a); [left; reflexivity | exact Ea].
Qed.

Lemma gather_in_range {A : Type} (params : list A) (l : list Z) (d : A) :
  Forall (fun j => (0 <= j < Z.of_nat (length params))%Z) l ->
  gather params l = Ok (map (fun j => nth (Z.to_nat j) params d) l).
Proof.
  intros Hl. unfold gather. apply mapM_Ok_map. intros j Hj.
  rewrite Forall_forall in Hl. specialize (Hl j Hj).
  destruct (nth_error params (Z.to_nat j)) as [a|] eqn:En.
  - assert (E : (0 <=? j)%Z = true) by (apply Z.leb_le; lia). rewrite E.
    f_equal. symmetry. apply nth_error_nth. exact En.
  - apply nth_error_None in En. lia.
Qed.

Lemma gather_out_of_range {A : Type} (params : list A) (l : list Z) :
  Exists (fun j => ~ (0 <= j < Z.of_nat (length params))%Z) l ->
  gather params l = Raise InvalidArgumentError.
Proof.
  intros Hex. unfold gather. apply mapM_raise.
  - intros j e' _. destruct (nth_error params (Z.to_nat j)); [|congruence].
    destruct (0 <=? j)%Z; congruence.
  - eapply Exists_impl; [|exact Hex]. intros j Hj. simpl.
    destruct (nth_error params (Z.to_nat j)) as [a|] eqn:En.
    + destruct (0 <=? j)%Z eqn:E; [|eexists; reflexivity].
      exfalso. apply Hj. apply Z.leb_le in E.
      assert (Z.to_nat j < length params)%nat by (apply nth_error_Some; congruence).
      lia.
    + eexists; reflexivity.
Qed.

(** X8: for a kernel made with the default [active_dims], [_slice] keeps the
    first [input_dim] columns of [X] and of [X2] when every row of [X] has at
    least that many, and ends in [InvalidArgumentError] when a row of [X] has
    fewer; the width of [X2] is not checked. *)
Theorem slice_default_dims :
  forall D b X X2,
    (0 <= D)%Z -> Kern_init D None = Ok b ->
    (Forall (fun row => (Z.to_nat D <= length row)%nat) X ->
     _slice b X X2
     = Ok (map (firstn (Z.to_nat D)) X, option_map (map (firstn (Z.to_nat D))) X2))
    /\ (Exists (fun row => (length row < Z.to_nat D)%nat) X ->
        _slice b X X2 = Raise InvalidArgumentError).
Proof.
  intros D b X X2 HD Hb. simpl in Hb. injection Hb as <-.
  unfold _slice. simpl. rewrite getitem_firstn by exact HD. simpl.
  assert (HX2 : match X2 with
                | None => Ok None
                | Some x2 => x2s <- getitem_cols None (Some D) None x2 ;; Ok (Some x2s)
                end = Ok (option_map (map (firstn (Z.to_nat D))) X2)).
  { destruct X2 as [x2|]; [|reflexivity]. rewrite getitem_firstn by exact HD. reflexivity. }
  rewrite HX2. simpl. unfold assert_cols. split.
  - intros Hall.
    assert (E : forallb (fun row => (Z.of_nat (length row) =? D)%Z)
                        (map (firstn (Z.to_nat D)) X) = true).
    { apply forallb_forall. intros r Hr. apply in_map_iff in Hr as (row & <- & Hrow).
      rewrite Forall_forall in Hall. specialize (Hall row Hrow).
      apply Z.eqb_eq. rewrite length_firstn. lia. }
    rewrite E. reflexivity.
  - intros Hex.
    assert (E : forallb (fun row => (Z.of_nat (length row) =? D)%Z)
                        (map (firstn (Z.to_nat D)) X) = false).
    { apply not_true_is_false. intros E. rewrite forallb_forall in E.
      apply Exists_exists in Hex as (row & Hrow & Hlen).
      specialize (E (firstn (Z.to_nat D) row) (in_map _ _ _ Hrow)).
      apply Z.eqb_eq in E. rewrite length_firstn in E. lia. }
    rewrite E. reflexivity.
Qed.

(** Two columns of which the first is kept, and a row that is too short. *)
Lemma slice_default_dims_witness :
  (0 <= 1)%Z /\ Kern_init 1 None = Ok base1
  /\ (Forall (fun row : list R => (Z.to_nat 1 <= length row)%nat) [[1; 2]; [3; 4]]
      /\ _slice base1 [[1; 2]; [3; 4]] (Some [[5; 6]])
         = Ok (map (firstn (Z.to_nat 1)) [[1; 2]; [3; 4]],
               option_map (map (firstn (Z.to_nat 1))) (Some [[5; 6]])))
  /\ (Exists (fun row : list R => (length row < Z.to_nat 1)%nat) [[]]
      /\ _slice base1 [[]] None = Raise InvalidArgumentError).
Proof.
  assert (H0 : (0 <= 1)%Z) by lia.
  assert (Hb : Kern_init 1 None = Ok base1) by reflexivity.
  assert (H1 : Forall (fun row : list R => (Z.to_nat 1 <= length row)%nat)
                      [[1; 2]; [3; 4]]) by (repeat constructor).
  assert (H2 : Exists (fun row : list R => (length row < Z.to_nat 1)%nat) [[]])
    by (left; simpl; lia).
  split; [exact H0|]. split; [exact Hb|]. split.
  - split; [exact H1|].
    apply (proj1 (slice_default_dims 1 base1 [[1; 2]; [3; 4]] (Some [[5; 6]]) H0 Hb) H1).
  - split; [exact H2|].
    apply (proj2 (slice_default_dims 1 base1 [[]] None H0 Hb) H2).
Defined.

(** X9: for a kernel made with an array of indices for [active_dims], [_slice]
    returns the columns of [X] at those indices, in their order, when every
    index is a position of every row, and ends in [InvalidArgumentError] when
    some index is negative or past the end of a row. *)
Theorem slice_index_array :
  forall D l b X,
    Kern_init D (Some (ADarray l)) = Ok b ->
    (Forall (fun row => Forall (fun j => (0 <= j < Z.of_nat (length row))%Z) l) X ->
     _slice b X None
     = Ok (map (fun row => map (fun j => nth (Z.to_nat j) row 0) l) X, None))
    /\ (Exists (fun row => Exists (fun j => ~ (0 <= j < Z.of_nat (length row))%Z) l) X ->
        _slice b X None = Raise InvalidArgumentError).
Proof.
  intros D l b X Hb. simpl in Hb.
  destruct (Z.of_nat (length l) =? D)%Z eqn:El; [|discriminate].
  injection Hb as <-. apply Z.eqb_eq in El.
  unfold _slice. simpl. unfold gather_cols. split.
  - intros Hall.
    rewrite (mapM_Ok_map _ (fun row => map (fun j => nth (Z.to_nat j) row 0) l)).
    2:{ intros row Hrow. apply gather_in_range.
        rewrite Forall_forall in Hall. apply Hall, Hrow. }
    simpl. unfold assert_cols.
    assert (E : forallb (fun row => (Z.of_nat (length row) =? D)%Z)
                  (map (fun row => map (fun j => nth (Z.to_nat j) row 0) l) X) = true).
    { apply forallb_forall. intros r Hr. apply in_map_iff in Hr as (row & <- & _).
      apply Z.eqb_eq. rewrite length_map. exact El. }
    rewrite E. reflexivity.
  - intros Hex.
    rewrite (mapM_raise _ InvalidArgumentError); [reflexivity| |].
    + intros row e' _ H. unfold gather in H.
      destruct (mapM _ l) as [r|e''] eqn:Em; [discriminate|].
      injection H as <-.
      clear -Em. induction l as [|j l IH]; simpl in Em; [discriminate|].
      destruct (nth_error row (Z.to_nat j)); [|simpl in Em; congruence].
      destruct (0 <=? j)%Z; simpl in Em; [|congruence].
      destruct (mapM _ l) as [r'|e3]; simpl in Em; [discriminate|].
      apply IH. congruence.
    + eapply Exists_impl; [|exact Hex]. intros row Hrow. simpl.
      exists InvalidArgumentError. apply gather_out_of_range. exact Hrow.
Qed.

(** The two columns swapped, and an index past the end of a one-column row. *)
Lemma slice_index_array_witness :
  Kern_init 2 (Some (ADarray [1; 0]%Z)) = Ok base_swapped
  /\ (Forall (fun row : list R =>
                Forall (fun j => (0 <= j < Z.of_nat (length row))%Z) [1; 0]%Z) [[1; 2]]
      /\ _slice base_swapped [[1; 2]] None
         = Ok (map (fun row => map (fun j => nth (Z.to_nat j) row 0) [1; 0]%Z) [[1; 2]],
               None))
  /\ (Exists (fun row : list R =>
                Exists (fun j => ~ (0 <= j < Z.of_nat (length row))%Z) [1; 0]%Z) [[1]]
      /\ _slice base_swapped [[1]] None = Raise InvalidArgumentError).
Proof.
  assert (Hb : Kern_init 2 (Some (ADarray [1; 0]%Z)) = Ok base_swapped) by reflexivity.
  assert (H1 : Forall (fun row : list R =>
                         Forall (fun j => (0 <= j < Z.of_nat (length row))%Z) [1; 0]%Z)
                      [[1; 2]]) by (repeat constructor; simpl; lia).
  assert (H2 : Exists (fun row : list R =>
                         Exists (fun j => ~ (0 <= j < Z.of_nat (length row))%Z) [1; 0]%Z)
                      [[1]]) by (left; left; simpl; lia).
  split; [exact Hb|]. split.
  - split; [exact H1|].
    apply (proj1 (slice_index_array 2 [1; 0]%Z base_swapped [[1; 2]] Hb) H1).
  - split; [exact H2|].
    apply (proj2 (slice_index_array 2 [1; 0]%Z base_swapped [[1]] Hb) H2).
Defined.

(** ** Slicing covariances given by their diagonals *)

Lemma NoDup_map_injective {A B : Type} (f : A -> B) (l : list A) :
  (forall x y, f x = f y -> x = y) -> NoDup l -> NoDup (map f l).
Proof.
  intros Hinj Hl. induction Hl as [|a l Ha _ IH]; simpl; constructor; [|exact IH].
  intros Hin. apply in_map_iff in Hin as (x & E & Hx). apply Hinj in E. subst x.
  exact (Ha Hx).
Qed.

Lemma clip_backward (len v : Z) :
  (0 <= len)%Z ->
  (-1 <= (if (v <? 0)%Z then Z.max (v + len) (-1) else Z.min v (len - 1)) <= len - 1)%Z.
Proof.
  intros Hlen. destruct (v <? 0)%Z eqn:Ev.
  - apply Z.ltb_lt in Ev. lia.
  - apply Z.ltb_ge in Ev. lia.
Qed.

Lemma clip_forward (len v : Z) :
  (0 <= len)%Z ->
  (0 <= (if (v <? 0)%Z then Z.max (v + len) 0 else Z.min v len) <= len)%Z.
Proof.
  intros Hlen. destruct (v <? 0)%Z eqn:Ev.
  - apply Z.ltb_lt in Ev. lia.
  - apply Z.ltb_ge in Ev. lia.
Qed.

Lemma slice_indices_range start stop step len idx :
  (0 <= len)%Z ->
  slice_indices start stop step len = Ok idx ->
  Forall (fun j => (0 <= j < len)%Z) idx /\ NoDup idx.
Proof.
  intros Hlen. unfold slice_indices. cbv zeta.
  set (st := match step with None => 1%Z | Some s => s end).
  destruct (st =? 0)%Z eqn:E0; [discriminate|]. apply Z.eqb_neq in E0.
  destruct (st <? 0)%Z eqn:Es; cbv beta iota.
  - apply Z.ltb_lt in Es.
    set (a := match start with
              | Some v => if (v <? 0)%Z then Z.max (v + len) (-1) else Z.min v (len - 1)
              | None => (len - 1)%Z
              end).
    set (b := match stop with
              | Some v => if (v <? 0)%Z then Z.max (v + len) (-1) else Z.min v (len - 1)
              | None => (-1)%Z
              end).
    assert (Ha : (-1 <= a <= len - 1)%Z)
      by (unfold a; destruct start; [apply clip_backward; exact Hlen | lia]).
    assert (Hb : (-1 <= b <= len - 1)%Z)
      by (unfold b; destruct stop; [apply clip_backward; exact Hlen | lia]).
    clearbody a b st.
    intros H. injection H as <-. split.
    + apply Forall_forall. intros j Hj. apply in_map_iff in Hj as (i & <- & Hi).
      apply in_seq in Hi. destruct Hi as [_ Hi]. rewrite Nat.add_0_l in Hi. revert Hi.
      destruct (b <? a)%Z eqn:Eab; intros Hi; [|lia]. apply Z.ltb_lt in Eab.
      assert (Hq : (0 <= (a - b - 1) / (- st))%Z) by (apply Z.div_pos; lia).
      assert (Hi' : (Z.of_nat i <= (a - b - 1) / (- st))%Z) by lia.
      pose proof (Z.mul_div_le (a - b - 1) (- st) ltac:(lia)) as Hm.
      assert ((Z.of_nat i * (- st) <= (- st) * ((a - b - 1) / (- st)))%Z) by nia.
      nia.
    + apply NoDup_map_injective; [|apply seq_NoDup].
      intros i i' E. nia.
  - apply Z.ltb_ge in Es.
    set (a := match start with
              | Some v => if (v <? 0)%Z then Z.max (v + len) 0 else Z.min v len
              | None => 0%Z
              end).
    set (b := match stop with
              | Some v => if (v <? 0)%Z then Z.max (v + len) 0 else Z.min v len
              | None => len
              end).
    assert (Ha : (0 <= a <= len)%Z)
      by (unfold a; destruct start; [apply clip_forward; exact Hlen | lia]).
    assert (Hb : (0 <= b <= len)%Z)
      by (unfold b; destruct stop; [apply clip_forward; exact Hlen | lia]).
    clearbody a b st.
    intros H. injection H as <-. split.
    + apply Forall_forall. intros j Hj. apply in_map_iff in Hj as (i & <- & Hi).
      apply in_seq in Hi. destruct Hi as [_ Hi]. rewrite Nat.add_0_l in Hi. revert Hi.
      destruct (a <? b)%Z eqn:Eab; intros Hi; [|lia]. apply Z.ltb_lt in Eab.
      assert (Hq : (0 <= (b - a - 1) / st)%Z) by (apply Z.div_pos; lia).
      assert (Hi' : (Z.of_nat i <= (b - a - 1) / st)%Z) by lia.
      pose proof (Z.mul_div_le (b - a - 1) st ltac:(lia)) as Hm.
      assert ((Z.of_nat i * st <= st * ((b - a - 1) / st))%Z) by nia.
      nia.
    + apply NoDup_map_injective; [|apply seq_NoDup].
      intros i i' E. nia.
Qed.

Lemma diag_entry v i j :
  (i < length v)%nat -> (j < length v)%nat ->
  nth j (nth i (diag v) []) 0 = if Nat.eqb i j then nth i v 0 else 0.
Proof.
  intros Hi Hj. unfold diag. rewrite nth_tabulate by exact Hi.
  rewrite nth_tabulate by exact Hj. reflexivity.
Qed.

Lemma diag_length v : length (diag v) = length v.
Proof. unfold diag. apply length_tabulate. Qed.

Lemma diag_row_length v i : (i < length v)%nat -> length (nth i (diag v) []) = length v.
Proof.
  intros Hi. unfold diag. rewrite nth_tabulate by exact Hi. apply length_tabulate.
Qed.

Lemma diag_rows v r : In r (diag v) -> length r = length v.
Proof.
  unfold diag, tabulate. intros H. apply in_map_iff in H as (i & <- & _).
  apply length_tabulate.
Qed.

(** The principal submatrix of a diagonal matrix on distinct indices is the
    diagonal matrix of the selected entries. *)
Lemma diag_submatrix v (idx : list Z) :
  Forall (fun j => (0 <= j < Z.of_nat (length v))%Z) idx -> NoDup idx ->
  map (fun i => map (fun j => nth (Z.to_nat j) (nth (Z.to_nat i) (diag v) []) 0) idx) idx
  = diag (map (fun j => nth (Z.to_nat j) v 0) idx).
Proof.
  intros Hr Hn. rewrite Forall_forall in Hr.
  unfold diag at 2. rewrite length_map.
  apply nth_ext with (d := []) (d' := []).
  - rewrite length_map, length_tabulate. reflexivity.
  - intros a Ha. rewrite length_map in Ha.
    rewrite (nth_map_lt _ _ _ 0%Z) by exact Ha.
    rewrite nth_tabulate by exact Ha.
    apply nth_ext with (d := 0) (d' := 0).
    + rewrite length_map, length_tabulate. reflexivity.
    + intros c Hc. rewrite length_map in Hc.
      rewrite (nth_map_lt _ _ _ 0%Z) by exact Hc.
      rewrite nth_tabulate by exact Hc.
      pose proof (Hr _ (nth_In idx 0%Z Ha)) as Hia.
      pose proof (Hr _ (nth_In idx 0%Z Hc)) as Hic.
      rewrite diag_entry by lia.
      rewrite (nth_map_lt _ _ _ 0%Z) by exact Ha.
      destruct (Nat.eqb a c) eqn:E.
      * apply Nat.eqb_eq in E. subst c. rewrite Nat.eqb_refl. reflexivity.
      * apply Nat.eqb_neq in E.
        destruct (Nat.eqb (Z.to_nat (nth a idx 0%Z)) (Z.to_nat (nth c idx 0%Z))) eqn:E';
          [|reflexivity].
        apply Nat.eqb_eq in E'. exfalso. apply E.
        apply (proj1 (NoDup_nth idx 0%Z) Hn); [exact Ha | exact Hc | lia].
Qed.

Lemma slice_cov_diag_slice start stop step v :
  (idx <- slice_indices start stop step (Z.of_nat (length (diag v))) ;;
   getitem_cols start stop step (map (fun i => nth (Z.to_nat i) (diag v) []) idx))
  = (idx <- slice_indices start stop step (Z.of_nat (length v)) ;;
     Ok (diag (map (fun j => nth (Z.to_nat j) v 0) idx))).
Proof.
  rewrite diag_length.
  destruct (slice_indices start stop step (Z.of_nat (length v))) as [idx|e] eqn:Ei;
    [|reflexivity].
  simpl. destruct (slice_indices_range _ _ _ _ _ (Nat2Z.is_nonneg _) Ei) as [Hr Hn].
  unfold getitem_cols. rewrite mapM_map.
  rewrite (mapM_Ok_map _ (fun i => map (fun j => nth (Z.to_nat j)
                                         (nth (Z.to_nat i) (diag v) []) 0) idx)).
  - f_equal. apply diag_submatrix; assumption.
  - intros i Hi. rewrite Forall_forall in Hr. specialize (Hr i Hi).
    rewrite diag_row_length by lia. rewrite Ei. reflexivity.
Qed.

Lemma in_range_dec (n : nat) (j : Z) :
  {(0 <= j < Z.of_nat n)%Z} + {~ (0 <= j < Z.of_nat n)%Z}.
Proof.
  destruct (Z_le_dec 0 j); [|right; lia].
  destruct (Z_lt_dec j (Z.of_nat n)); [left; lia | right; lia].
Qed.

Lemma slice_cov_diag_array l v :
  NoDup l ->
  (cs <- gather_cols l (diag v) ;; gather cs l)
  = (w <- gather v l ;; Ok (diag w)).
Proof.
  intros Hn.
  destruct (Forall_Exists_dec (fun j => (0 <= j < Z.of_nat (length v))%Z)
              (in_range_dec (length v)) l) as [Hall|Hex].
  - rewrite (gather_in_range v l 0 Hall). simpl.
    unfold gather_cols.
    rewrite (mapM_Ok_map _ (fun row => map (fun j => nth (Z.to_nat j) row 0) l)).
    2:{ intros row Hrow. apply gather_in_range. rewrite (diag_rows _ _ Hrow). exact Hall. }
    simpl. rewrite (gather_in_range _ l []).
    2:{ rewrite length_map, diag_length. exact Hall. }
    f_equal. rewrite <- diag_submatrix by assumption.
    apply map_ext_in. intros i Hi.
    rewrite Forall_forall in Hall. specialize (Hall i Hi).
    rewrite (nth_map_lt _ _ _ []) by (rewrite diag_length; lia). reflexivity.
  - rewrite (gather_out_of_range v l Hex). simpl.
    destruct v as [|x v].
    + simpl. apply gather_out_of_range. exact Hex.
    + unfold gather_cols.
      rewrite (mapM_raise _ InvalidArgumentError); [reflexivity| |].
      * intros row e' _ H. unfold gather in H.
        destruct (mapM _ l) as [r|e''] eqn:Em; [discriminate|].
        injection H as <-.
        clear -Em. induction l as [|j l IH]; simpl in Em; [discriminate|].
        destruct (nth_error row (Z.to_nat j)); [|simpl in Em; congruence].
        destruct (0 <=? j)%Z; simpl in Em; [|congruence].
        destruct (mapM _ l) as [r'|e3]; simpl in Em; [discriminate|].
        apply IH. congruence.
      * destruct (diag (x :: v)) as [|row rest] eqn:Ed.
        -- apply (f_equal (@length _)) in Ed. rewrite diag_length in Ed. discriminate.
        -- left. exists InvalidArgumentError. apply gather_out_of_range.
           rewrite (diag_rows (x :: v) row) by (rewrite Ed; left; reflexivity).
           exact Hex.
Qed.

Lemma mapM_through {A B C : Type} (f : B -> result C) (g : A -> result A)
      (h : A -> B) (h' : A -> C) (l : list A) :
  (forall a, f (h a) = (w <- g a ;; Ok (h' w))) ->
  mapM f (map h l) = (ws <- mapM g l ;; Ok (map h' ws)).
Proof.
  intros H. induction l as [|a l IH]; simpl; [reflexivity|].
  rewrite H. destruct (g a) as [w|e]; simpl; [|reflexivity].
  rewrite IH. destruct (mapM g l); reflexivity.
Qed.

(** X10: [_slice_cov] on covariances given by their diagonals returns the
    diagonal matrices of the sliced diagonals, and fails where slicing the
    diagonals fails, for a slice and for an array of distinct indices. *)
Theorem slice_cov_of_diagonals :
  forall b c,
    match active_dims b with
    | ADslice _ _ _ => True
    | ADarray l => NoDup l
    end ->
    _slice_cov b (DiagCov c)
    = (cs <- select_cols (active_dims b) c ;; Ok (map diag cs)).
Proof.
  intros b c Hb. unfold _slice_cov.
  destruct (active_dims b) as [start stop step|l]; simpl.
  - unfold getitem_cols.
    apply (mapM_through _
             (fun v => idx <- slice_indices start stop step (Z.of_nat (length v)) ;;
                       Ok (map (fun j => nth (Z.to_nat j) v 0) idx))
             diag diag).
    intros v. rewrite slice_cov_diag_slice.
    destruct (slice_indices start stop step (Z.of_nat (length v))); reflexivity.
  - unfold gather_cols at 2.
    apply (mapM_through _ (fun v => gather v l) diag diag).
    intros v. apply slice_cov_diag_array. exact Hb.
Qed.

(** Two variances, swapped by the array of indices. *)
Lemma slice_cov_of_diagonals_witness :
  NoDup [1; 0]%Z
  /\ _slice_cov base_swapped (DiagCov [[1; 2]])
     = (cs <- select_cols (active_dims base_swapped) [[1; 2]] ;; Ok (map diag cs)).
Proof.
  assert (Hn : NoDup [1; 0]%Z).
  { constructor; [intros [H|[]]; discriminate H|].
    constructor; [intros []|constructor]. }
  split; [exact Hn|].
  apply (slice_cov_of_diagonals base_swapped [[1; 2]] Hn).
Defined.

(** ** The Gauss-Hermite grid and the other expectations *)

Lemma infer_shape_static2 (P N : nat) :
  infer_shape [Z.of_nat P; Z.of_nat N] (P * N) = Ok [P; N].
Proof.
  unfold infer_shape.
  assert (L : forall n, (Z.of_nat n <? -1)%Z = false) by (intros; apply Z.ltb_ge; lia).
  assert (E : forall n, (Z.of_nat n =? -1)%Z = false) by (intros; apply Z.eqb_neq; lia).
  cbn -[Z.ltb Z.eqb Z.mul Z.modulo Z.div Z.of_nat Z.to_nat].
  rewrite !L, !E.
  cbn -[Z.ltb Z.eqb Z.mul Z.modulo Z.div Z.of_nat Z.to_nat].
  rewrite !Nat2Z.id.
  replace (Z.of_nat P * (Z.of_nat N * 1))%Z with (Z.of_nat (P * N)) by lia.
  rewrite Z.eqb_refl. reflexivity.
Qed.

Lemma reshape2_concat (P N : nat) (Ks : list (list R)) :
  length Ks = P -> has_cols N Ks ->
  reshape2 (Z.of_nat P) (Z.of_nat N) (concat Ks) = Ok Ks.
Proof.
  intros HP HKs. unfold reshape2.
  rewrite (length_concat_uniform N Ks HKs), HP, infer_shape_static2. simpl.
  f_equal. apply nth_ext with (d := []) (d' := []); [rewrite length_tabulate; congruence|].
  intros i Hi. rewrite length_tabulate in Hi. rewrite nth_tabulate by exact Hi.
  apply nth_ext with (d := 0) (d' := 0).
  - rewrite length_tabulate. symmetry. apply (has_cols_In _ _ _ HKs). apply nth_In. lia.
  - intros j Hj. rewrite length_tabulate in Hj. rewrite nth_tabulate by exact Hj.
    apply nth_concat_uniform; assumption.
Qed.

Section QuadratureGrid.

Variables (env : environment) (k : kern).
Variables (D : nat) (gh_x gh_w : list R).
Variables (Xmus : list (list R)) (Xcovs Ls : list (list (list R))).

Hypothesis allowed : ~ quadrature_forbidden env k.
Hypothesis dimension : input_dim (base k) = Z.of_nat D.
Hypothesis positive_dimension : (0 < D)%nat.
Hypothesis rule :
  hermgauss env (num_gauss_hermite_points (base k)) = Some (gh_x, gh_w).
Hypothesis nodes : Z.of_nat (length gh_x) = num_gauss_hermite_points (base k).
Hypothesis weights : length gh_w = length gh_x.
Hypothesis factors : mapM (tf_cholesky env) Xcovs = Ok Ls.
Hypothesis factor_count : length Ls = nrows Xmus.
Hypothesis factor_shapes : Forall (fun L => length L = D /\ has_cols D L) Ls.
Hypothesis mean_columns : has_cols D Xmus.

Local Abbreviation grid := (cartesian_power gh_x D).

Lemma grid_length : length grid = (length gh_x ^ D)%nat.
Proof. apply cartesian_power_length. Qed.

Lemma grid_nonempty : map (quadrature_location Xmus Ls) grid <> [].
Proof.
  intros E. apply (f_equal (@length _)) in E. rewrite length_map, grid_length in E.
  simpl in E. apply Nat.pow_eq_0_iff in E. destruct E as (_ & E).
  apply allowed. right. rewrite <- nodes, E. reflexivity.
Qed.

Lemma weights_length :
  length (quadrature_weights gh_w D) = (length gh_x ^ D)%nat.
Proof.
  unfold quadrature_weights, row_products.
  rewrite !length_map, cartesian_power_length. congruence.
Qed.

Lemma grid_locations :
  mvhermgauss env Xmus Xcovs (num_gauss_hermite_points (base k)) (Z.of_nat D)
  = Ok (concat (map (quadrature_location Xmus Ls) grid), quadrature_weights gh_w D).
Proof.
  apply mvhermgauss_locations; assumption.
Qed.

Lemma grid_columns :
  has_cols D (concat (map (quadrature_location Xmus Ls) grid)).
Proof.
  apply has_cols_intro. intros r Hr. apply in_concat in Hr.
  destruct Hr as (A & HA & Hr). apply in_map_iff in HA. destruct HA as (x & <- & _).
  apply (has_cols_In _ _ _
           (proj2 (quadrature_location_shape Xmus Ls D x factor_count factor_shapes
                     mean_columns)) Hr).
Qed.

(** The kernel at the quadrature points, as [quadrature_Kxz] returns it. *)
Lemma quadrature_Kxz_value Z Xmu Xcov Zs Ks :
  _slice (base k) Xmu (Some Z) = Ok (Xmus, Some Zs) ->
  _slice_cov (base k) Xcov = Ok Xcovs ->
  mapM (fun x => K k (quadrature_location Xmus Ls x) (Some Zs) (Some true)) grid
  = Ok Ks ->
  quadrature_Kxz env k Z Xmu Xcov = Ok (Ks, quadrature_weights gh_w D)
  /\ length Ks = length (quadrature_weights gh_w D)
  /\ Forall (fun A => length A = nrows Xmu /\ has_cols (nrows Z) A) Ks.
Proof.
  intros Hslice Hcov HK.
  destruct (slice_shape _ _ _ _ _ Hslice) as (HN & HM).
  assert (HKs_len : length Ks = (length gh_x ^ D)%nat).
  { apply mapM_length in HK. rewrite HK. apply grid_length. }
  assert (HKs : Forall (fun A => length A = nrows Xmus /\ has_cols (nrows Zs) A) Ks).
  { apply Forall_forall. intros A HA.
    destruct (mapM_In _ _ _ HK A HA) as (x & _ & E).
    destruct (K_shape _ _ _ _ _ E) as (H1 & H2). split; [|exact H2].
    rewrite H1.
    apply (quadrature_location_shape Xmus Ls D x factor_count factor_shapes
             mean_columns). }
  split; [|split].
  - unfold quadrature_Kxz. rewrite Hslice. simpl. rewrite Hcov. simpl.
    rewrite dimension, grid_locations. simpl. unfold flatten2 at 1.
    rewrite reshape2_rows; [|exact positive_dimension | exact grid_columns].
    simpl.
    rewrite (K_concat k Zs (Some true) _ Ks grid_nonempty)
      by (rewrite mapM_map; exact HK).
    simpl. rewrite <- nodes, <- Nat2Z.inj_pow, <- HKs_len.
    rewrite reshape3_concat; [reflexivity | reflexivity | exact HKs].
  - rewrite weights_length. exact HKs_len.
  - rewrite <- HN, <- HM. exact HKs.
Qed.

Lemma eKzxKxz_value Z Xmu Xcov Zs Ks :
  _slice (base k) Xmu (Some Z) = Ok (Xmus, Some Zs) ->
  _slice_cov (base k) Xcov = Ok Xcovs ->
  mapM (fun x => K k (quadrature_location Xmus Ls x) (Some Zs) (Some true)) grid
  = Ok Ks ->
  eKzxKxz env k Z Xmu Xcov
  = (quadrature_warnings env k,
     Ok (sum_axis0_t3 (nrows Xmu) (nrows Z) (nrows Z)
           (map2 t3scale (quadrature_weights gh_w D)
                 (map (map (fun row => outer row row)) Ks)))).
Proof.
  intros Hslice Hcov HK.
  destruct (quadrature_Kxz_value Z Xmu Xcov Zs Ks Hslice Hcov HK) as (HQ & Hlen & _).
  unfold eKzxKxz, after_check. rewrite (check_allowed env k allowed), HQ. simpl.
  unfold scale_axis0. rewrite length_map, Hlen, Nat.eqb_refl. reflexivity.
Qed.

Lemma eKxz_value Z Xmu Xcov Zs Ks :
  _slice (base k) Xmu (Some Z) = Ok (Xmus, Some Zs) ->
  _slice_cov (base k) Xcov = Ok Xcovs ->
  mapM (fun x => K k (quadrature_location Xmus Ls x) (Some Zs) (Some true)) grid
  = Ok Ks ->
  eKxz env k Z Xmu Xcov
  = (quadrature_warnings env k,
     Ok (sum_axis0_mat (nrows Xmu) (nrows Z)
           (map2 mscale (quadrature_weights gh_w D) Ks))).
Proof.
  intros Hslice Hcov HK.
  destruct (quadrature_Kxz_value Z Xmu Xcov Zs Ks Hslice Hcov HK) as (HQ & Hlen & _).
  unfold eKxz, after_check. rewrite (check_allowed env k allowed), HQ. simpl.
  unfold scale_axis0. rewrite Hlen, Nat.eqb_refl. reflexivity.
Qed.

Lemma eKdiag_value Xmu Xcov Kds :
  _slice (base k) Xmu None = Ok (Xmus, None) ->
  _slice_cov (base k) Xcov = Ok Xcovs ->
  mapM (fun x => Kdiag k (quadrature_location Xmus Ls x) (Some true)) grid = Ok Kds ->
  eKdiag env k Xmu Xcov
  = (quadrature_warnings env k,
     Ok (sum_axis0_vec (nrows Xmu)
           (map2 vscale (quadrature_weights gh_w D) Kds))).
Proof.
  intros Hslice Hcov HK.
  destruct (slice_shape _ _ _ _ _ Hslice) as (HN & _).
  assert (HKs_len : length Kds = (length gh_x ^ D)%nat).
  { apply mapM_length in HK. rewrite HK. apply grid_length. }
  assert (HKs : has_cols (nrows Xmus) Kds).
  { apply has_cols_intro. intros a Ha.
    destruct (mapM_In _ _ _ HK a Ha) as (x & _ & E).
    rewrite (Kdiag_length _ _ _ _ E).
    apply (quadrature_location_shape Xmus Ls D x factor_count factor_shapes
             mean_columns). }
  unfold eKdiag, after_check. rewrite (check_allowed env k allowed).
  rewrite Hslice. simpl. rewrite Hcov. simpl.
  rewrite dimension, grid_locations. simpl.
  rewrite (Kdiag_concat k (Some true) _ Kds grid_nonempty)
    by (rewrite mapM_map; exact HK).
  simpl. rewrite <- nodes, <- Nat2Z.inj_pow, <- HKs_len.
  rewrite reshape2_concat; [|reflexivity | exact HKs]. simpl.
  unfold scale_axis0. rewrite weights_length, HKs_len, Nat.eqb_refl. simpl.
  rewrite HN. reflexivity.
Qed.

End QuadratureGrid.

Lemma reduce_sum_scaled (c : R) (l : list R) :
  reduce_sum (map (fun w => w * c) l) = reduce_sum l * c.
Proof.
  induction l as [|x l IH]; simpl; [ring|]. rewrite IH. ring.
Qed.

Lemma sum_row_products (l : list R) (n : nat) :
  reduce_sum (row_products (cartesian_power l n)) = reduce_sum l ^ n.
Proof.
  unfold row_products. fold (sum_over (cartesian_power l n) (fold_right Rmult 1)).
  induction n as [|n IH]; simpl.
  - unfold sum_over. simpl. ring.
  - rewrite sum_over_flat_map.
    rewrite (sum_over_ext l _ (fun x => x * reduce_sum l ^ n)).
    + unfold sum_over. rewrite reduce_sum_scaled. reflexivity.
    + intros x _. rewrite sum_over_map. simpl. rewrite sum_over_scal, IH. reflexivity.
Qed.

Lemma half_power_of_PI (D : nat) :
  sqrt PI ^ D * Rpower PI (- IZR (Z.of_nat D) * 0.5) = 1.
Proof.
  assert (HPI : 0 < PI) by apply PI_RGT_0.
  assert (Hs : 0 < sqrt PI) by (apply sqrt_lt_R0; exact HPI).
  rewrite <- (Rpower_pow D (sqrt PI) Hs).
  rewrite <- (Rpower_sqrt PI HPI), Rpower_mult, <- Rpower_plus.
  rewrite <- INR_IZR_INZ.
  replace (/ 2 * INR D + - INR D * 0.5) with 0 by lra.
  apply Rpower_O. exact HPI.
Qed.

Lemma quadrature_weights_normalised (gh_w : list R) (D : nat) :
  reduce_sum gh_w = sqrt PI -> reduce_sum (quadrature_weights gh_w D) = 1.
Proof.
  intros Hw. unfold quadrature_weights.
  rewrite reduce_sum_scaled, sum_row_products, Hw. apply half_power_of_PI.
Qed.

Lemma map2_const_r {A B C : Type} (f : A -> B -> C) (a : list A) (b : B) (n : nat) :
  length a = n -> map2 f a (repeat b n) = map (fun x => f x b) a.
Proof.
  intros <-. unfold map2. rewrite combine_repeat, map_map. reflexivity.
Qed.

Lemma map2_repeat {A B C : Type} (f : A -> B -> C) (a : A) (b : B) (n : nat) :
  map2 f (repeat a n) (repeat b n) = repeat (f a b) n.
Proof.
  unfold map2. induction n as [|n IH]; simpl; [reflexivity|]. rewrite IH. reflexivity.
Qed.

Lemma sum_of_scaled_fill1 (N : nat) (v : R) (ws : list R) :
  sum_axis0_vec N (map (fun w => vscale w (fill1 N v)) ws) = fill1 N (reduce_sum ws * v).
Proof.
  unfold sum_axis0_vec, fill1, vscale.
  induction ws as [|w ws IH]; simpl.
  - f_equal. ring.
  - rewrite IH, map_repeat. unfold vadd. rewrite map2_repeat. f_equal. ring.
Qed.

Lemma sum_of_scaled_fill2 (N M : nat) (v : R) (ws : list R) :
  sum_axis0_mat N M (map (fun w => mscale w (fill2 N M v)) ws)
  = fill2 N M (reduce_sum ws * v).
Proof.
  unfold sum_axis0_mat, fill2, mscale, vscale.
  induction ws as [|w ws IH]; simpl.
  - do 2 f_equal. ring.
  - rewrite IH, !map_repeat. unfold madd, vadd. rewrite !map2_repeat. do 2 f_equal. ring.
Qed.

Lemma eKdiag_constant_diagonal env k v Xmu Xcov D Xmus Xcovs gh_x gh_w Ls :
  (forall X, Kdiag k X (Some true) = Ok (fill1 (nrows X) v)) ->
  ~ quadrature_forbidden env k ->
  input_dim (base k) = Z.of_nat D -> (0 < D)%nat ->
  _slice (base k) Xmu None = Ok (Xmus, None) ->
  _slice_cov (base k) Xcov = Ok Xcovs ->
  hermgauss env (num_gauss_hermite_points (base k)) = Some (gh_x, gh_w) ->
  Z.of_nat (length gh_x) = num_gauss_hermite_points (base k) ->
  length gh_w = length gh_x ->
  mapM (tf_cholesky env) Xcovs = Ok Ls ->
  length Ls = nrows Xmus ->
  Forall (fun L => length L = D /\ has_cols D L) Ls ->
  reduce_sum gh_w = sqrt PI ->
  eKdiag env k Xmu Xcov = (quadrature_warnings env k, Ok (fill1 (nrows Xmu) v)).
Proof.
  intros Hk Hallowed Hdim HD Hslice Hcov Hh Hgx Hgw Hchol HL HLs Hsum.
  pose proof (slice_has_cols _ _ _ _ _ _ Hdim Hslice) as Hm.
  destruct (slice_shape _ _ _ _ _ Hslice) as (HN & _).
  rewrite (eKdiag_value env k D gh_x gh_w Xmus Xcovs Ls Hallowed Hdim HD Hh Hgx Hgw
             Hchol HL HLs Hm Xmu Xcov
             (map (fun _ => fill1 (nrows Xmu) v) (cartesian_power gh_x D))
             Hslice Hcov).
  - do 2 f_equal.
    rewrite map_const, map2_const_r.
    + rewrite sum_of_scaled_fill1, quadrature_weights_normalised by exact Hsum.
      f_equal. ring.
    + unfold quadrature_weights, row_products.
      rewrite !length_map, !cartesian_power_length. congruence.
  - apply mapM_Ok_map. intros x _. rewrite Hk. f_equal. f_equal.
    rewrite <- HN.
    apply (quadrature_location_shape Xmus Ls D x HL HLs Hm).
Qed.

Lemma after_check_raises {A : Type} env k (body : result A) :
  (forall r, body <> Ok r) -> exists e, snd (after_check env k body) = Raise e.
Proof.
  intros Hbody. unfold after_check.
  destruct (_check_quadrature env k) as [w [u|e]]; simpl.
  - destruct body as [r|e]; [elim (Hbody r); reflexivity | exists e; reflexivity].
  - exists e. reflexivity.
Qed.

Lemma quadrature_Kxz_Coregion env b o r W kappa Z Xmu Xcov res :
  quadrature_Kxz env (Coregion b o r W kappa) Z Xmu Xcov <> Ok res.
Proof.
  unfold quadrature_Kxz. intros H. inv_ok H. simpl in E3. discriminate.
Qed.

(** X16: [eKxz], [eKzxKxz] and [eKdiag] end in an exception on every
    coregionalisation kernel, and [eKdiag] on every static kernel, whatever
    the inputs and the settings: they call [K] and [Kdiag] with the keyword
    [presliced], which [Coregion.K], [Coregion.Kdiag] and [Static.Kdiag] do
    not take. *)
Theorem quadrature_needs_presliced :
  forall env b Z Xmu Xcov,
    (forall output_dim rank W kappa,
       (exists e, snd (eKxz env (Coregion b output_dim rank W kappa) Z Xmu Xcov) = Raise e)
       /\ (exists e,
             snd (eKzxKxz env (Coregion b output_dim rank W kappa) Z Xmu Xcov) = Raise e)
       /\ (exists e, snd (eKdiag env (Coregion b output_dim rank W kappa) Xmu Xcov) = Raise e))
    /\ (forall c variance,
          exists e, snd (eKdiag env (Static c b variance) Xmu Xcov) = Raise e).
Proof.
  intros env b Z Xmu Xcov. split.
  - intros o r W kappa. split; [|split].
    + unfold eKxz. apply after_check_raises. intros res H.
      destruct (quadrature_Kxz env _ Z Xmu Xcov) as [[Kxz wn]|e] eqn:E; [|discriminate].
      exact (quadrature_Kxz_Coregion _ _ _ _ _ _ _ _ _ _ E).
    + unfold eKzxKxz. apply after_check_raises. intros res H.
      destruct (quadrature_Kxz env _ Z Xmu Xcov) as [[Kxz wn]|e] eqn:E; [|discriminate].
      exact (quadrature_Kxz_Coregion _ _ _ _ _ _ _ _ _ _ E).
    + unfold eKdiag. apply after_check_raises. intros res H.
      inv_ok H. simpl in E1. discriminate.
  - intros c variance. unfold eKdiag. apply after_check_raises. intros res H.
    inv_ok H. simpl in E1. discriminate.
Qed.

(** ** The diagonal of the kernel matrix *)

Lemma coregion_shaped_Combination c b l :
  coregion_shaped (Combination c b l) <-> Forall coregion_shaped l.
Proof.
  simpl. induction l as [|k l IH]; simpl.
  - split; [constructor | trivial].
  - rewrite IH. split; [intros [H1 H2]; constructor; assumption|].
    intros H; inversion H; auto.
Qed.

Lemma jitter_free_Combination c b l :
  jitter_free (Combination c b l) <-> Forall jitter_free l.
Proof.
  simpl. induction l as [|k l IH]; simpl.
  - split; [constructor | trivial].
  - rewrite IH. split; [intros [H1 H2]; constructor; assumption|].
    intros H; inversion H; auto.
Qed.

Lemma dot_comm (a b : list R) : dot a b = dot b a.
Proof.
  unfold dot, map2. revert b. induction a as [|x a IH]; intros [|y b]; simpl; try reflexivity.
  rewrite IH. ring.
Qed.

Lemma dot_self (a : list R) : dot a a = reduce_sum (map square a).
Proof.
  unfold dot. rewrite map2_diag. reflexivity.
Qed.

Lemma entry_mmap f (A : list (list R)) i j :
  (i < length A)%nat -> (j < length (nth i A []))%nat ->
  entry (mmap f A) i j = f (entry A i j).
Proof.
  intros Hi Hj. unfold entry, mmap.
  rewrite (nth_map_lt _ _ _ []) by exact Hi.
  apply (nth_map_lt _ _ _ 0). exact Hj.
Qed.

Lemma matmul_nt_lengths A B P :
  matmul_nt A B = Ok P ->
  forall a b, In a A -> In b B -> length a = length b.
Proof.
  unfold matmul_nt. intros H a b Ha Hb.
  apply mapM_Forall2 in H.
  assert (Hrow : exists r, mapM (fun b0 => if Nat.eqb (length a) (length b0)
                                           then Ok (dot a b0)
                                           else Raise InvalidArgumentError) B = Ok r).
  { clear -H Ha. induction H as [|x r A P Hx _ IH]; [destruct Ha|].
    destruct Ha as [->|Ha]; [exists r; exact Hx | apply IH, Ha]. }
  destruct Hrow as (r & Hr). apply mapM_Forall2 in Hr.
  clear -Hr Hb. induction Hr as [|y t B r Hy _ IH]; [destruct Hb|].
  destruct Hb as [->|Hb]; [|apply IH, Hb].
  destruct (Nat.eqb (length a) (length b)) eqn:E; [|discriminate].
  apply Nat.eqb_eq. exact E.
Qed.

(** The entries of the squared distances, from the scaled inputs. *)
Lemma square_dist_entries ls X X2 R0 :
  square_dist ls X (Some X2) = Ok R0 ->
  exists Xsc X2sc,
    bcast_rows Rdiv X ls = Ok Xsc /\ bcast_rows Rdiv X2 ls = Ok X2sc
    /\ (forall a b, In a Xsc -> In b X2sc -> length a = length b)
    /\ forall i j, (i < nrows X)%nat -> (j < nrows X2)%nat ->
         entry R0 i j
         = -2 * dot (nth i Xsc []) (nth j X2sc [])
           + reduce_sum (map square (nth i Xsc []))
           + reduce_sum (map square (nth j X2sc [])).
Proof.
  rewrite square_dist_some. intros H.
  apply bind_Ok in H. destruct H as (Xsc & EX & H).
  apply bind_Ok in H. destruct H as (X2sc & EX2 & H).
  apply bind_Ok in H. destruct H as (P & EP & H).
  injection H as <-.
  exists Xsc, X2sc. split; [exact EX|]. split; [exact EX2|].
  split; [apply (matmul_nt_lengths _ _ _ EP)|].
  pose proof (bcast_rows_nrows _ _ _ _ EX) as HlX.
  pose proof (bcast_rows_nrows _ _ _ _ EX2) as HlX2.
  apply matmul_nt_Ok in EP. subst P.
  intros i j Hi Hj. unfold nrows in *. unfold entry.
  rewrite (nth_map2 _ _ _ _ [] []) by (rewrite ?length_map; lia).
  rewrite (nth_map_lt _ _ _ []) by lia.
  unfold row_sumsq.
  rewrite (nth_map2 _ _ _ _ 0 0) by (rewrite ?length_map; lia).
  rewrite (nth_map_lt _ _ _ 0) by (rewrite length_map; lia).
  rewrite (nth_map_lt _ _ _ []) by lia.
  rewrite (nth_map_lt _ _ _ []) by lia.
  reflexivity.
Qed.

Lemma square_dist_diagonal ls X R0 :
  square_dist ls X None = Ok R0 ->
  forall i, (i < nrows X)%nat -> entry R0 i i = 0.
Proof.
  rewrite square_dist_both. intros H i Hi.
  destruct (square_dist_entries _ _ _ _ H) as (Xsc & X2sc & E1 & E2 & _ & Hent).
  rewrite E1 in E2. injection E2 as <-.
  rewrite (Hent i i Hi Hi), dot_self. ring.
Qed.

Lemma tabulate_const {A : Type} (n : nat) (a : A) : tabulate n (fun _ => a) = repeat a n.
Proof.
  unfold tabulate. rewrite map_const, length_seq. reflexivity.
Qed.

Lemma diag_part_ext n (A : list (list R)) (f : nat -> R) :
  length A = n -> (forall i, (i < n)%nat -> entry A i i = f i) ->
  diag_part A = tabulate n f.
Proof.
  intros <- H. unfold diag_part. apply tabulate_ext. exact H.
Qed.

Lemma Stationary_K_diagonal c b v ls X p R0 :
  Stationary_K c b v ls X None p = Ok R0 ->
  exists r, length r = nrows X /\ has_cols (nrows X) r
    /\ (forall i, (i < nrows X)%nat -> entry r i i = 0)
    /\ R0 = match c with
            | RBF => mmap (fun d => v * exp (- d / 2)) r
            | Exponential => mmap (fun d => v * exp (- 0.5 * sqrt (d + 1e-12))) r
            | Matern12 => mmap (fun d => v * exp (- sqrt (d + 1e-12))) r
            | Matern32 =>
                mmap (fun d => v * (1 + sqrt 3 * sqrt (d + 1e-12))
                               * exp (- sqrt 3 * sqrt (d + 1e-12))) r
            | Matern52 =>
                mmap (fun d => v * (1 + sqrt 5 * sqrt (d + 1e-12)
                                    + 5 / 3 * square (sqrt (d + 1e-12)))
                               * exp (- sqrt 5 * sqrt (d + 1e-12))) r
            | Cosine => mmap (fun d => v * cos (sqrt (d + 1e-12))) r
            end.
Proof.
  unfold Stationary_K. intros H.
  destruct (slice_unless p b X None) as [[Xs o]|] eqn:Es; simpl in H; [|discriminate].
  pose proof (slice_unless_nrows _ _ _ _ _ Es) as Hn.
  rewrite (slice_unless_none_snd _ _ _ _ _ Es) in H.
  assert (Hsq : forall r, square_dist ls Xs None = Ok r ->
                  length r = nrows X /\ has_cols (nrows X) r
                  /\ (forall i, (i < nrows X)%nat -> entry r i i = 0)).
  { intros r Hr. rewrite <- Hn. split; [|split].
    - rewrite square_dist_both in Hr. apply (square_dist_shape _ _ _ _ Hr).
    - rewrite square_dist_both in Hr. apply (square_dist_shape _ _ _ _ Hr).
    - apply (square_dist_diagonal _ _ _ Hr). }
  destruct c; unfold euclid_dist in H;
    destruct (square_dist ls Xs None) as [r|] eqn:Er; simpl in H; try discriminate;
    injection H as <-; exists r; destruct (Hsq r eq_refl) as (H1 & H2 & H3);
    (split; [exact H1|]); (split; [exact H2|]); (split; [exact H3|]);
    unfold mmap; rewrite ?map_map; try reflexivity;
    apply map_ext; intros row; rewrite ?map_map; reflexivity.
Qed.

Lemma RBF_Kdiag_is_diagonal b v ls X p R0 :
  Stationary_K RBF b v ls X None p = Ok R0 ->
  diag_part R0 = fill1 (nrows X) v.
Proof.
  intros H. destruct (Stationary_K_diagonal _ _ _ _ _ _ _ H) as (r & H1 & H2 & H3 & ->).
  unfold fill1. rewrite <- tabulate_const.
  apply diag_part_ext; [unfold mmap; rewrite length_map; exact H1|].
  intros i Hi. rewrite entry_mmap.
  - rewrite (H3 i Hi). replace (- 0 / 2) with 0 by lra. rewrite exp_0. ring.
  - lia.
  - rewrite (has_cols_In _ _ _ H2) by (apply nth_In; lia). exact Hi.
Qed.

Lemma bcast_vec_kept_length f x p bx :
  bcast_vec f x p = Ok bx -> length bx = length x ->
  length p = 1%nat \/ length p = length x.
Proof.
  unfold bcast_vec. intros H Hl.
  destruct (Nat.eqb (length x) (length p)) eqn:E1.
  - apply Nat.eqb_eq in E1. right. congruence.
  - destruct (Nat.eqb (length x) 1) eqn:E2.
    + injection H as <-. rewrite length_map in Hl. apply Nat.eqb_eq in E2. left. congruence.
    + destruct (Nat.eqb (length p) 1) eqn:E3; [|discriminate].
      apply Nat.eqb_eq in E3. left. exact E3.
Qed.

Lemma reduce_sum_tabulate (n : nat) (f : nat -> R) :
  reduce_sum (tabulate n f) = sum_over (seq 0 n) f.
Proof. reflexivity. Qed.

Lemma dot_tabulate_l (D : nat) (f : nat -> R) (y : list R) :
  dot (tabulate D f) y = sum_over (seq 0 D) (fun d => f d * nth d y 0).
Proof.
  rewrite (dot_sum _ _ D) by (rewrite length_tabulate; lia).
  apply sum_over_ext. intros d Hd. apply in_seq in Hd.
  rewrite nth_tabulate by lia. reflexivity.
Qed.

(** One row of the linear kernel's diagonal. *)
Lemma Linear_diagonal_row v x xv :
  bcast_vec Rmult x v = Ok xv -> length xv = length x ->
  exists w, bcast_vec Rmult (map square x) v = Ok w /\ reduce_sum w = dot xv x.
Proof.
  intros H Hl. pose proof (bcast_vec_kept_length _ _ _ _ H Hl) as Hp.
  rewrite (bcast_vec_param Rmult v x (length x) eq_refl Hp) in H. injection H as <-.
  rewrite (bcast_vec_param Rmult v (map square x) (length x)) by (rewrite ?length_map; auto).
  eexists; split; [reflexivity|].
  rewrite reduce_sum_tabulate, dot_tabulate_l.
  apply sum_over_ext. intros d Hd. apply in_seq in Hd.
  rewrite (nth_map_lt _ _ _ 0) by lia. unfold square. ring.
Qed.

Lemma Linear_Kdiag_is_diagonal b v X p R0 :
  Linear_K b v X None p = Ok R0 ->
  Linear_Kdiag b v X p = Ok (diag_part R0).
Proof.
  unfold Linear_K, Linear_Kdiag. intros H.
  destruct (slice_unless p b X None) as [[Xs o]|] eqn:Es; simpl in H |- *; [|discriminate].
  rewrite (slice_unless_none_snd _ _ _ _ _ Es) in H.
  apply bind_Ok in H. destruct H as (Xv & EXv & H).
  pose proof (matmul_nt_lengths _ _ _ H) as Hlens.
  apply matmul_nt_Ok in H. subst R0.
  unfold bcast_rows in EXv. pose proof (mapM_length _ _ _ EXv) as HlXv.
  apply mapM_Forall2 in EXv.
  assert (Hrows : Forall2 (fun x xv => bcast_vec Rmult x v = Ok xv
                                      /\ length xv = length x) Xs Xv).
  { assert (Hin : forall xv x, In xv Xv -> In x Xs -> length xv = length x) by exact Hlens.
    clear -EXv Hin. induction EXv as [|x xv Xs Xv Hx _ IH]; constructor.
    - split; [exact Hx|]. apply Hin; left; reflexivity.
    - apply IH. intros a c Ha Hc. apply Hin; right; assumption. }
  assert (HW : exists W, mapM (fun a => bcast_vec Rmult a v) (mmap square Xs) = Ok W
                         /\ map reduce_sum W = map2 dot Xv Xs).
  { clear -Hrows. unfold mmap.
    induction Hrows as [|x xv Xs Xv [Hx Hl] _ (W & HW & HS)].
    - exists []. split; reflexivity.
    - destruct (Linear_diagonal_row _ _ _ Hx Hl) as (w & Hw & Hs).
      exists (w :: W). split.
      + cbn [map mapM]. rewrite Hw. cbn [bind]. rewrite HW. reflexivity.
      + unfold map2. simpl. fold (map2 dot Xv Xs). rewrite Hs, HS. reflexivity. }
  destruct HW as (W & HW & HS). unfold bcast_rows. rewrite HW. simpl. f_equal.
  rewrite HS. unfold diag_part. rewrite length_map.
  apply nth_ext with (d := 0) (d' := 0).
  - rewrite length_map2, length_tabulate by exact HlXv. reflexivity.
  - intros i Hi. rewrite length_map2 in Hi by exact HlXv.
    rewrite (nth_map2 _ _ _ _ [] []) by assumption.
    rewrite nth_tabulate by exact Hi. unfold entry.
    rewrite (nth_map_lt _ _ _ []) by exact Hi.
    rewrite (nth_map_lt _ _ _ []) by lia. reflexivity.
Qed.

Lemma diag_part_mmap f n (A : list (list R)) :
  length A = n -> has_cols n A ->
  diag_part (mmap f A) = vmap f (diag_part A).
Proof.
  intros HA HAc. unfold diag_part, vmap, mmap. rewrite length_map, map_tabulate.
  apply tabulate_ext. intros i Hi. apply entry_mmap; [exact Hi|].
  rewrite (has_cols_In _ _ _ HAc) by (apply nth_In; exact Hi). lia.
Qed.

Lemma periodic_entry_same v ls p x : periodic_entry v ls p x x = Ok v.
Proof.
  unfold periodic_entry. rewrite bcast_vec_same by reflexivity. simpl. f_equal.
  rewrite map2_diag, !map_map.
  rewrite (map_ext _ (fun _ => 0)).
  - assert (E : forall l : list R, reduce_sum (map (fun _ => 0) l) = 0).
    { induction l as [|a l IH]; simpl; [reflexivity|]. rewrite IH. ring. }
    rewrite E. replace (- 0.5 * 0) with 0 by lra. rewrite exp_0. ring.
  - intros a. unfold Rminus. rewrite Rplus_opp_r.
    replace (PI * 0 / p) with 0 by (unfold Rdiv; ring).
    rewrite sin_0. unfold square, Rdiv. ring.
Qed.

Lemma Forall2_nth_lt {A B : Type} (P : A -> B -> Prop) (l : list A) (r : list B)
      (da : A) (db : B) (i : nat) :
  Forall2 P l r -> (i < length l)%nat -> P (nth i l da) (nth i r db).
Proof.
  intros H. revert i. induction H as [|a b l r Hab _ IH]; intros i Hi; [simpl in Hi; lia|].
  destruct i as [|i]; [exact Hab|]. simpl. apply IH. simpl in Hi. lia.
Qed.

Lemma PeriodicKernel_Kdiag_is_diagonal b v ls per X p R0 :
  PeriodicKernel_K b v ls per X None p = Ok R0 ->
  diag_part R0 = fill1 (nrows X) v.
Proof.
  unfold PeriodicKernel_K. intros H.
  destruct (slice_unless p b X None) as [[Xs o]|] eqn:Es; simpl in H; [|discriminate].
  pose proof (slice_unless_nrows _ _ _ _ _ Es) as Hn.
  rewrite (slice_unless_none_snd _ _ _ _ _ Es) in H.
  pose proof (mapM_length _ _ _ H) as HlR.
  unfold fill1. rewrite <- tabulate_const.
  apply diag_part_ext; [unfold nrows in *; congruence|].
  intros i Hi. apply mapM_Forall2 in H.
  assert (Hi' : (i < length Xs)%nat) by (unfold nrows in *; lia).
  pose proof (Forall2_nth_lt _ _ _ [] [] i H Hi') as Hrow. simpl in Hrow.
  apply mapM_Forall2 in Hrow.
  pose proof (Forall2_nth_lt _ _ _ [] 0 i Hrow Hi') as Hent. simpl in Hent.
  rewrite periodic_entry_same in Hent. injection Hent as Hent.
  unfold entry. symmetry. exact Hent.
Qed.

Lemma gather_success_range {A : Type} (params : list A) (idx : list Z) (r : list A) :
  gather params idx = Ok r ->
  Forall (fun j => (0 <= j < Z.of_nat (length params))%Z) idx.
Proof.
  unfold gather. revert r. induction idx as [|j idx IH]; intros r H; [constructor|].
  simpl in H.
  destruct (nth_error params (Z.to_nat j)) as [a|] eqn:En; [|discriminate].
  destruct (0 <=? j)%Z eqn:E0; simpl in H; [|discriminate].
  destruct (mapM _ idx) as [rs|] eqn:Er; simpl in H; [|discriminate].
  constructor; [|apply (IH rs eq_refl)].
  apply Z.leb_le in E0.
  assert (Z.to_nat j < length params)%nat by (apply nth_error_Some; congruence).
  lia.
Qed.

(** The matrix [Coregion.K] returns on one input, from the integer labels. *)
Lemma Coregion_K_labels b W kappa X R0 :
  Coregion_K b W kappa X None = Ok R0 ->
  exists Xs xi B,
    _slice b X None = Ok (Xs, None) /\ column0_int32 Xs = Ok xi
    /\ coregion_B W kappa = Ok B
    /\ length xi = nrows X
    /\ Forall (fun j => (0 <= j < Z.of_nat (length B))%Z) xi
    /\ R0 = map (fun z => map (fun z' => entry B (Z.to_nat z') (Z.to_nat z)) xi) xi.
Proof.
  intros H. unfold Coregion_K in H.
  destruct (_slice b X None) as [[Xs X2s]|] eqn:Es; simpl in H; [|discriminate].
  destruct (slice_shape _ _ _ _ _ Es) as (Hn & HX2).
  destruct X2s; [contradiction|].
  apply bind_Ok in H. destruct H as (xi & Exi & H). simpl in H.
  apply bind_Ok in H. destruct H as (B & EB & H).
  apply bind_Ok in H. destruct H as (G & EG & H).
  exists Xs, xi, B. split; [reflexivity|]. split; [exact Exi|]. split; [exact EB|].
  split; [unfold column0_int32 in Exi; apply mapM_length in Exi; unfold nrows in *; congruence|].
  split; [apply (gather_success_range _ _ _ EG)|].
  destruct (gather_Ok _ _ _ [] EG) as (-> & HinB).
  destruct (gather_Ok _ _ _ [] H) as (-> & HinT).
  unfold transpose_n in HinT. rewrite length_tabulate in HinT.
  apply map_ext_in. intros z Hz. rewrite Forall_forall in HinT.
  unfold transpose_n. rewrite nth_tabulate by (apply HinT, Hz).
  rewrite map_map. reflexivity.
Qed.

Lemma Coregion_Kdiag_is_diagonal b W kappa X R0 :
  length kappa = length W ->
  Coregion_K b W kappa X None = Ok R0 ->
  Coregion_Kdiag b W kappa X = Ok (diag_part R0).
Proof.
  intros Hk H.
  destruct (Coregion_K_labels _ _ _ _ _ H) as (Xs & xi & B & Es & Exi & EB & Hlen & Hr & ->).
  destruct (coregion_B_entries W kappa B Hk EB) as (HBlen & HBcols & HBent).
  unfold Coregion_Kdiag. rewrite Es. simpl. rewrite Exi. simpl.
  rewrite bcast_vec_same by (unfold row_sumsq; rewrite length_map; congruence).
  simpl.
  rewrite (gather_in_range _ xi 0).
  2:{ rewrite length_map2 by (unfold row_sumsq; rewrite length_map; congruence).
      unfold row_sumsq. rewrite length_map, <- HBlen. exact Hr. }
  f_equal. unfold diag_part. rewrite length_map.
  apply nth_ext with (d := 0) (d' := 0);
    [rewrite length_map, length_tabulate; reflexivity|].
  intros i Hi. rewrite length_map in Hi.
  rewrite (nth_map_lt _ _ _ 0%Z) by exact Hi.
  rewrite nth_tabulate by exact Hi. unfold entry at 1.
  rewrite (nth_map_lt _ _ _ 0%Z) by exact Hi.
  rewrite (nth_map_lt _ _ _ 0%Z) by exact Hi.
  rewrite Forall_forall in Hr. pose proof (Hr _ (nth_In xi 0%Z Hi)) as Hz.
  set (o := Z.to_nat (nth i xi 0%Z)) in *.
  assert (Ho : (o < length W)%nat) by (unfold o; lia).
  rewrite (HBent o o Ho Ho), Nat.eqb_refl, dot_self.
  unfold row_sumsq.
  rewrite (nth_map2 _ _ _ _ 0 0) by (rewrite ?length_map; congruence).
  rewrite (nth_map_lt _ _ _ []) by exact Ho. reflexivity.
Qed.

Lemma diag_part_combine c n A B :
  length A = n -> has_cols n A -> length B = n -> has_cols n B ->
  diag_part (combine_K c A B) = combine_Kdiag c (diag_part A) (diag_part B).
Proof.
  intros HA HAc HB HBc.
  destruct (combine_K_shape c n n A B (conj HA HAc) (conj HB HBc)) as (HC & _).
  unfold diag_part. rewrite HC, HA, HB.
  assert (E : forall f : R -> R -> R, map2 f (tabulate n (fun i => entry A i i))
                               (tabulate n (fun i => entry B i i))
                        = tabulate n (fun i => f (entry A i i) (entry B i i)))
    by (intros f; apply map2_tabulate).
  destruct c; simpl; unfold vadd, vmul; rewrite E; apply tabulate_ext; intros i Hi.
  - apply (entry_combine_K Add n); assumption.
  - apply (entry_combine_K Prod n); assumption.
Qed.

Lemma diag_part_fold c n Ks : forall A,
  length A = n -> has_cols n A ->
  Forall (fun M => length M = n /\ has_cols n M) Ks ->
  diag_part (fold_left (combine_K c) Ks A)
  = fold_left (combine_Kdiag c) (map diag_part Ks) (diag_part A).
Proof.
  induction Ks as [|B Ks IH]; intros A HA HAc HKs; simpl; [reflexivity|].
  apply Forall_cons_iff in HKs as [[HB HBc] HKs].
  destruct (combine_K_shape c n n A B (conj HA HAc) (conj HB HBc)) as (HC & HCc).
  rewrite IH by assumption. rewrite (diag_part_combine c n) by assumption. reflexivity.
Qed.

Lemma Kdiag_diagonal k :
  jitter_free k -> coregion_shaped k ->
  forall X R0, K k X None None = Ok R0 -> Kdiag k X None = Ok (diag_part R0).
Proof.
  induction k as [c b v|c b v ls ard|b v ard|b v ard d o|b v ls p|b o r W kappa|c b l IH]
    using kern_induction; intros Hj Hc X R0 H.
  - simpl. unfold Static_Kdiag. f_equal. unfold fill1. rewrite <- tabulate_const.
    symmetry. destruct c; simpl in H; injection H as <-.
    + apply diag_part_ext; [apply White_K_shape|]. intros i Hi.
      unfold White_K, entry. rewrite diag_entry by (unfold fill1; rewrite repeat_length; exact Hi).
      rewrite Nat.eqb_refl. apply nth_repeat_lt. exact Hi.
    + apply diag_part_ext; [apply repeat_length|]. intros i Hi.
      unfold Constant_K, fill2, entry. rewrite !nth_repeat_lt by exact Hi. reflexivity.
    + apply diag_part_ext; [apply repeat_length|]. intros i Hi.
      unfold Constant_K, fill2, entry. rewrite !nth_repeat_lt by exact Hi. reflexivity.
  - destruct c; simpl in Hj; try contradiction. simpl in H |- *.
    unfold Stationary_Kdiag. f_equal. symmetry. eapply RBF_Kdiag_is_diagonal; exact H.
  - simpl in H |- *. apply Linear_Kdiag_is_diagonal. exact H.
  - simpl in H |- *. unfold Polynomial_K in H. unfold Polynomial_Kdiag.
    apply bind_Ok in H. destruct H as (L & EL & H). injection H as <-.
    rewrite (Linear_Kdiag_is_diagonal _ _ _ _ _ EL). simpl. f_equal.
    symmetry. apply (diag_part_mmap _ (nrows X)).
    + apply (K_shape_none (Linear b v ard) X None L EL).
    + apply (K_shape_none (Linear b v ard) X None L EL).
  - simpl in H |- *. unfold PeriodicKernel_Kdiag. f_equal. symmetry.
    eapply PeriodicKernel_Kdiag_is_diagonal; exact H.
  - simpl in H |- *. simpl in Hc. apply Coregion_Kdiag_is_diagonal; assumption.
  - rewrite K_Combination in H. rewrite Kdiag_Combination.
    apply jitter_free_Combination in Hj. apply coregion_shaped_Combination in Hc.
    apply bind_Ok in H. destruct H as (Ks & EKs & H).
    assert (Hd : mapM (fun k' => Kdiag k' X None) l = Ok (map diag_part Ks)).
    { clear H. revert Ks EKs.
      induction IH as [|k l Hk _ IHl]; intros Ks EKs; simpl in EKs |- *.
      - injection EKs as <-. reflexivity.
      - apply bind_Ok in EKs. destruct EKs as (A & EA & EKs).
        apply bind_Ok in EKs. destruct EKs as (Ks' & EKs' & EKs). injection EKs as <-.
        apply Forall_cons_iff in Hj as [Hj1 Hj2]. apply Forall_cons_iff in Hc as [Hc1 Hc2].
        rewrite (Hk Hj1 Hc1 X A EA). simpl.
        rewrite (IHl Hj2 Hc2 Ks' EKs'). reflexivity. }
    rewrite Hd. simpl.
    assert (Hshape : Forall (fun M => length M = nrows X /\ has_cols (nrows X) M) Ks).
    { apply Forall_forall. intros M HM.
      destruct (mapM_In _ _ _ EKs M HM) as (k' & _ & EK).
      apply (K_shape_none k' X None M EK). }
    destruct Ks as [|A Ks]; simpl in H |- *; [discriminate|].
    injection H as <-. f_equal.
    apply Forall_cons_iff in Hshape as [[HA HAc] Hshape].
    symmetry. apply (diag_part_fold c (nrows X)); assumption.
Qed.









(** ** The kernel matrix with its inputs exchanged *)

(** A stationary kernel is its profile applied to the squared distances of
    the sliced inputs. *)
Lemma Stationary_K_profile c b v ls X X2 p :
  Stationary_K c b v ls X X2 p
  = ('(Xs, X2s) <- slice_unless p b X X2 ;;
     r <- square_dist ls Xs X2s ;;
     Ok (mmap (stationary_profile c v) r)).
Proof.
  unfold Stationary_K. destruct (slice_unless p b X X2) as [[Xs X2s]|e]; simpl; [|reflexivity].
  destruct c; unfold euclid_dist; destruct (square_dist ls Xs X2s) as [r|e];
    simpl; try reflexivity; f_equal; unfold mmap; rewrite map_map;
    apply map_ext; intros row; rewrite map_map; reflexivity.
Qed.

Lemma slice_unless_swap p b X X2 Xs X2s Ys Zs :
  slice_unless p b X (Some X2) = Ok (Xs, Some X2s) ->
  slice_unless p b X2 (Some X) = Ok (Ys, Some Zs) ->
  Ys = X2s /\ Zs = Xs.
Proof.
  unfold slice_unless. destruct p.
  - intros H1 H2. injection H1 as <- <-. injection H2 as <- <-. auto.
  - unfold _slice. intros H1 H2.
    destruct (select_cols (active_dims b) X) as [a|]; simpl in *; [|discriminate].
    destruct (select_cols (active_dims b) X2) as [a2|]; simpl in *; [|discriminate].
    destruct (assert_cols (input_dim b) a); simpl in *; [|discriminate].
    destruct (assert_cols (input_dim b) a2); simpl in *; [|discriminate].
    injection H1 as <- <-. injection H2 as <- <-. auto.
Qed.

Lemma square_dist_transposed ls X X2 r r' :
  square_dist ls X (Some X2) = Ok r -> square_dist ls X2 (Some X) = Ok r' ->
  forall i j, (i < nrows X)%nat -> (j < nrows X2)%nat -> entry r' j i = entry r i j.
Proof.
  intros H H' i j Hi Hj.
  destruct (square_dist_entries _ _ _ _ H) as (Xsc & X2sc & E1 & E2 & _ & Hent).
  destruct (square_dist_entries _ _ _ _ H') as (Ysc & Y2sc & E1' & E2' & _ & Hent').
  rewrite E2 in E1'. injection E1' as <-. rewrite E1 in E2'. injection E2' as <-.
  rewrite (Hent i j Hi Hj), (Hent' j i Hj Hi), dot_comm. ring.
Qed.

Lemma Stationary_K_transposed c b v ls X X2 p A B :
  Stationary_K c b v ls X (Some X2) p = Ok A ->
  Stationary_K c b v ls X2 (Some X) p = Ok B ->
  forall i j, (i < nrows X)%nat -> (j < nrows X2)%nat -> entry B j i = entry A i j.
Proof.
  rewrite !Stationary_K_profile. intros HA HB i j Hi Hj.
  destruct (slice_unless p b X (Some X2)) as [[Xs o]|] eqn:E1; simpl in HA; [|discriminate].
  destruct (slice_unless_some _ _ _ _ _ _ E1) as (X2s & -> & Hn & Hm).
  destruct (slice_unless p b X2 (Some X)) as [[Ys o]|] eqn:E2; simpl in HB; [|discriminate].
  destruct (slice_unless_some _ _ _ _ _ _ E2) as (Zs & -> & _ & _).
  destruct (slice_unless_swap _ _ _ _ _ _ _ _ E1 E2) as (-> & ->).
  apply bind_Ok in HA. destruct HA as (r & Er & HA). injection HA as <-.
  apply bind_Ok in HB. destruct HB as (r' & Er' & HB). injection HB as <-.
  destruct (square_dist_shape _ _ _ _ Er) as (Hr1 & Hr2).
  destruct (square_dist_shape _ _ _ _ Er') as (Hr1' & Hr2').
  rewrite !entry_mmap.
  - f_equal. apply (square_dist_transposed _ _ _ _ _ Er Er'); lia.
  - lia.
  - rewrite (has_cols_In _ _ _ Hr2) by (apply nth_In; lia). lia.
  - lia.
  - rewrite (has_cols_In _ _ _ Hr2') by (apply nth_In; lia). lia.
Qed.

Lemma bcast_vec_lengths f x y v xv yv :
  bcast_vec f x v = Ok xv -> bcast_vec f y v = Ok yv ->
  length xv = length y -> length yv = length x -> length xv = length x.
Proof.
  unfold bcast_vec. intros Hx Hy.
  destruct (Nat.eqb (length x) (length v)) eqn:E1.
  - injection Hx as <-. apply Nat.eqb_eq in E1. intros _ _.
    apply length_map2. exact E1.
  - apply Nat.eqb_neq in E1. destruct (Nat.eqb (length x) 1) eqn:E2.
    + apply Nat.eqb_eq in E2. injection Hx as <-. rewrite length_map. intros Hv.
      destruct (Nat.eqb (length y) (length v)) eqn:E3;
        [|apply Nat.eqb_neq in E3; congruence].
      injection Hy as <-. apply Nat.eqb_eq in E3.
      rewrite length_map2 by exact E3. lia.
    + destruct (Nat.eqb (length v) 1); [|discriminate].
      injection Hx as <-. rewrite length_map. auto.
Qed.

Lemma Linear_entry_transposed v x y xv yv :
  bcast_vec Rmult x v = Ok xv -> bcast_vec Rmult y v = Ok yv ->
  length xv = length y -> length yv = length x ->
  dot yv x = dot xv y.
Proof.
  intros Hx Hy H1 H2.
  pose proof (bcast_vec_lengths _ _ _ _ _ _ Hx Hy H1 H2) as Hlx.
  assert (Hly : length yv = length y) by congruence.
  pose proof (bcast_vec_kept_length _ _ _ _ Hx Hlx) as Hpx.
  pose proof (bcast_vec_kept_length _ _ _ _ Hy Hly) as Hpy.
  rewrite (bcast_vec_param Rmult v x (length x) eq_refl Hpx) in Hx. injection Hx as <-.
  rewrite (bcast_vec_param Rmult v y (length y) eq_refl Hpy) in Hy. injection Hy as <-.
  rewrite !dot_tabulate_l.
  replace (length y) with (length x) by congruence.
  apply sum_over_ext. intros d _. ring.
Qed.

Lemma Linear_K_entries b v X X2 p A :
  Linear_K b v X (Some X2) p = Ok A ->
  exists Xs X2s Xv,
    slice_unless p b X (Some X2) = Ok (Xs, Some X2s)
    /\ Forall2 (fun x xv => bcast_vec Rmult x v = Ok xv) Xs Xv
    /\ (forall xv y, In xv Xv -> In y X2s -> length xv = length y)
    /\ A = map (fun a => map (dot a) X2s) Xv.
Proof.
  unfold Linear_K. intros H.
  destruct (slice_unless p b X (Some X2)) as [[Xs o]|] eqn:E1; simpl in H; [|discriminate].
  destruct (slice_unless_some _ _ _ _ _ _ E1) as (X2s & -> & Hn & Hm).
  apply bind_Ok in H. destruct H as (Xv & EXv & H).
  exists Xs, X2s, Xv. split; [reflexivity|].
  split; [apply mapM_Forall2; exact EXv|].
  split; [apply (matmul_nt_lengths _ _ _ H)|].
  apply matmul_nt_Ok. exact H.
Qed.

Lemma Linear_K_transposed b v X X2 p A B :
  Linear_K b v X (Some X2) p = Ok A ->
  Linear_K b v X2 (Some X) p = Ok B ->
  forall i j, (i < nrows X)%nat -> (j < nrows X2)%nat -> entry B j i = entry A i j.
Proof.
  intros HA HB i j Hi Hj.
  destruct (Linear_K_entries _ _ _ _ _ _ HA) as (Xs & X2s & Xv & E1 & F1 & L1 & ->).
  destruct (Linear_K_entries _ _ _ _ _ _ HB) as (Ys & Zs & Yv & E2 & F2 & L2 & ->).
  destruct (slice_unless_some _ _ _ _ _ _ E1) as (X2s' & EX & Hn & Hm).
  injection EX as <-.
  destruct (slice_unless_swap _ _ _ _ _ _ _ _ E1 E2) as (-> & ->).
  pose proof (Forall2_length F1) as Hl1. pose proof (Forall2_length F2) as Hl2.
  unfold nrows in *.
  assert (Hi' : (i < length Xs)%nat) by lia.
  assert (Hj' : (j < length X2s)%nat) by lia.
  unfold entry.
  rewrite (nth_map_lt _ _ _ []) by lia. rewrite (nth_map_lt _ _ _ []) by lia.
  rewrite (nth_map_lt _ _ _ []) by lia. rewrite (nth_map_lt _ _ _ []) by lia.
  pose proof (Forall2_nth_lt _ _ _ [] [] i F1 Hi') as Hx. simpl in Hx.
  pose proof (Forall2_nth_lt _ _ _ [] [] j F2 Hj') as Hy. simpl in Hy.
  apply (Linear_entry_transposed v _ _ _ _ Hx Hy).
  - apply L1; apply nth_In; lia.
  - apply L2; apply nth_In; lia.
Qed.

Lemma periodic_term_opp ls p t :
  square (sin (PI * (- t) / p) / ls) = square (sin (PI * t / p) / ls).
Proof.
  replace (PI * (- t) / p) with (- (PI * t / p)) by (unfold Rdiv; ring).
  rewrite sin_neg. unfold square, Rdiv. ring.
Qed.

Lemma periodic_sum_opp ls p (d d' : list R) :
  Forall2 (fun a a' => a' = - a) d d' ->
  reduce_sum (map (fun t => square (sin t / ls)) (map (fun t => PI * t / p) d'))
  = reduce_sum (map (fun t => square (sin t / ls)) (map (fun t => PI * t / p) d)).
Proof.
  induction 1 as [|a a' d d' Ha _ IH]; simpl; [reflexivity|].
  rewrite IH, Ha, periodic_term_opp. reflexivity.
Qed.

Lemma periodic_entry_comm v ls p x y :
  periodic_entry v ls p x y = periodic_entry v ls p y x.
Proof.
  unfold periodic_entry, bcast_vec.
  rewrite (Nat.eqb_sym (length y) (length x)).
  destruct (Nat.eqb (length x) (length y)) eqn:E1.
  - simpl. do 4 f_equal. apply periodic_sum_opp.
    apply Nat.eqb_eq in E1. clear -E1. unfold map2.
    revert y E1. induction x as [|a x IH]; intros [|c y] E; simpl in *; try discriminate.
    + constructor.
    + constructor; [ring | apply IH; lia].
  - apply Nat.eqb_neq in E1.
    destruct (Nat.eqb (length x) 1) eqn:E2; destruct (Nat.eqb (length y) 1) eqn:E3.
    + apply Nat.eqb_eq in E2, E3. congruence.
    + simpl. do 4 f_equal. apply periodic_sum_opp.
      clear. induction y as [|c y IH]; simpl; constructor; [ring | exact IH].
    + simpl. do 4 f_equal. symmetry. apply periodic_sum_opp.
      clear. induction x as [|c x IH]; simpl; constructor; [ring | exact IH].
    + reflexivity.
Qed.

Lemma PeriodicKernel_K_entries b v ls per X X2 p A :
  PeriodicKernel_K b v ls per X (Some X2) p = Ok A ->
  exists Xs X2s,
    slice_unless p b X (Some X2) = Ok (Xs, Some X2s)
    /\ forall i j, (i < nrows X)%nat -> (j < nrows X2)%nat ->
         periodic_entry v ls per (nth i Xs []) (nth j X2s []) = Ok (entry A i j).
Proof.
  unfold PeriodicKernel_K. intros H.
  destruct (slice_unless p b X (Some X2)) as [[Xs o]|] eqn:E1; simpl in H; [|discriminate].
  destruct (slice_unless_some _ _ _ _ _ _ E1) as (X2s & -> & Hn & Hm).
  exists Xs, X2s. split; [reflexivity|]. intros i j Hi Hj.
  apply mapM_Forall2 in H. unfold nrows in *.
  assert (Hi' : (i < length Xs)%nat) by lia.
  assert (Hj' : (j < length X2s)%nat) by lia.
  pose proof (Forall2_nth_lt _ _ _ [] [] i H Hi') as Hrow. simpl in Hrow.
  apply mapM_Forall2 in Hrow.
  exact (Forall2_nth_lt _ _ _ [] 0 j Hrow Hj').
Qed.

Lemma PeriodicKernel_K_transposed b v ls per X X2 p A B :
  PeriodicKernel_K b v ls per X (Some X2) p = Ok A ->
  PeriodicKernel_K b v ls per X2 (Some X) p = Ok B ->
  forall i j, (i < nrows X)%nat -> (j < nrows X2)%nat -> entry B j i = entry A i j.
Proof.
  intros HA HB i j Hi Hj.
  destruct (PeriodicKernel_K_entries _ _ _ _ _ _ _ _ HA) as (Xs & X2s & E1 & HentA).
  destruct (PeriodicKernel_K_entries _ _ _ _ _ _ _ _ HB) as (Ys & Zs & E2 & HentB).
  destruct (slice_unless_swap _ _ _ _ _ _ _ _ E1 E2) as (-> & ->).
  pose proof (HentA i j Hi Hj) as H1. pose proof (HentB j i Hj Hi) as H2.
  rewrite periodic_entry_comm in H2. congruence.
Qed.

(** The matrix [Coregion.K] returns on two inputs, from the integer labels. *)
Lemma Coregion_K_labels2 b W kappa X X2 R0 :
  Coregion_K b W kappa X (Some X2) = Ok R0 ->
  exists Xs X2s xi yj B,
    _slice b X (Some X2) = Ok (Xs, Some X2s)
    /\ column0_int32 Xs = Ok xi /\ column0_int32 X2s = Ok yj
    /\ coregion_B W kappa = Ok B
    /\ length xi = nrows X /\ length yj = nrows X2
    /\ Forall (fun j => (0 <= j < Z.of_nat (length B))%Z) yj
    /\ R0 = map (fun z => map (fun z' => entry B (Z.to_nat z') (Z.to_nat z)) yj) xi.
Proof.
  intros H. unfold Coregion_K in H.
  destruct (_slice b X (Some X2)) as [[Xs o]|] eqn:Es; simpl in H; [|discriminate].
  destruct (slice_unless_some false _ _ _ _ _ Es) as (X2s & -> & Hn & Hm).
  apply bind_Ok in H. destruct H as (xi & Exi & H).
  apply bind_Ok in H. destruct H as (yj & Eyj & H).
  apply bind_Ok in H. destruct H as (B & EB & H).
  apply bind_Ok in H. destruct H as (G & EG & H).
  exists Xs, X2s, xi, yj, B.
  split; [reflexivity|]. split; [exact Exi|]. split; [exact Eyj|]. split; [exact EB|].
  split; [unfold column0_int32 in Exi; apply mapM_length in Exi; unfold nrows in *; congruence|].
  split; [unfold column0_int32 in Eyj; apply mapM_length in Eyj; unfold nrows in *; congruence|].
  split; [apply (gather_success_range _ _ _ EG)|].
  destruct (gather_Ok _ _ _ [] EG) as (-> & HinB).
  destruct (gather_Ok _ _ _ [] H) as (-> & HinT).
  unfold transpose_n in HinT. rewrite length_tabulate in HinT.
  apply map_ext_in. intros z Hz. rewrite Forall_forall in HinT.
  unfold transpose_n. rewrite nth_tabulate by (apply HinT, Hz).
  rewrite map_map. reflexivity.
Qed.

Lemma coregion_B_symmetric W kappa B :
  length kappa = length W -> coregion_B W kappa = Ok B ->
  forall o p, (o < length W)%nat -> (p < length W)%nat -> entry B o p = entry B p o.
Proof.
  intros Hk HB o p Ho Hp.
  destruct (coregion_B_entries W kappa B Hk HB) as (_ & _ & Hent).
  rewrite (Hent o p Ho Hp), (Hent p o Hp Ho), dot_comm, (Nat.eqb_sym p o).
  destruct (Nat.eqb o p) eqn:E; [|reflexivity].
  apply Nat.eqb_eq in E. subst p. reflexivity.
Qed.

Lemma Coregion_K_transposed b W kappa X X2 A B :
  length kappa = length W ->
  Coregion_K b W kappa X (Some X2) = Ok A ->
  Coregion_K b W kappa X2 (Some X) = Ok B ->
  forall i j, (i < nrows X)%nat -> (j < nrows X2)%nat -> entry B j i = entry A i j.
Proof.
  intros Hk HA HB i j Hi Hj.
  destruct (Coregion_K_labels2 _ _ _ _ _ _ HA)
    as (Xs & X2s & xi & yj & Bm & E1 & Exi & Eyj & EB & Hlx & Hly & Hry & ->).
  destruct (Coregion_K_labels2 _ _ _ _ _ _ HB)
    as (Ys & Zs & yj' & xi' & Bm' & E2 & Eyj' & Exi' & EB' & Hly' & Hlx' & Hrx & ->).
  destruct (slice_unless_swap false _ _ _ _ _ _ _ E1 E2) as (-> & ->).
  rewrite Eyj in Eyj'. injection Eyj' as <-. rewrite Exi in Exi'. injection Exi' as <-.
  rewrite EB in EB'. injection EB' as <-.
  destruct (coregion_B_entries W kappa Bm Hk EB) as (HBlen & _ & _).
  unfold entry at 1 3.
  rewrite (nth_map_lt _ _ _ 0%Z) by lia. rewrite (nth_map_lt _ _ _ 0%Z) by lia.
  rewrite (nth_map_lt _ _ _ 0%Z) by lia. rewrite (nth_map_lt _ _ _ 0%Z) by lia.
  rewrite Forall_forall in Hry, Hrx.
  assert (Hj' : (j < length yj)%nat) by lia.
  assert (Hi' : (i < length xi)%nat) by lia.
  pose proof (Hry _ (nth_In yj 0%Z Hj')) as Hy.
  pose proof (Hrx _ (nth_In xi 0%Z Hi')) as Hx.
  apply (coregion_B_symmetric W kappa Bm Hk EB); lia.
Qed.

Lemma entry_combine_K_rect c n m A B i j :
  length A = n -> has_cols m A -> length B = n -> has_cols m B ->
  (i < n)%nat -> (j < m)%nat ->
  entry (combine_K c A B) i j
  = match c with
    | Add => entry A i j + entry B i j
    | Prod => entry A i j * entry B i j
    end.
Proof.
  intros HA HAc HB HBc Hi Hj.
  assert (HAi : length (nth i A []) = m) by (apply (has_cols_In _ _ _ HAc), nth_In; lia).
  assert (HBi : length (nth i B []) = m) by (apply (has_cols_In _ _ _ HBc), nth_In; lia).
  destruct c; simpl; unfold entry, madd, mmul, vadd, vmul;
    rewrite (nth_map2 _ _ _ _ [] []) by lia;
    rewrite (nth_map2 _ _ _ _ 0 0) by lia; reflexivity.
Qed.

Lemma fold_combine_transposed c n m : forall As Bs A B,
  length A = n -> has_cols m A -> length B = m -> has_cols n B ->
  (forall i j, (i < n)%nat -> (j < m)%nat -> entry B j i = entry A i j) ->
  Forall2 (fun A' B' =>
             (length A' = n /\ has_cols m A') /\ (length B' = m /\ has_cols n B')
             /\ forall i j, (i < n)%nat -> (j < m)%nat -> entry B' j i = entry A' i j)
          As Bs ->
  forall i j, (i < n)%nat -> (j < m)%nat ->
    entry (fold_left (combine_K c) Bs B) j i = entry (fold_left (combine_K c) As A) i j.
Proof.
  intros As Bs A B HA HAc HB HBc Hent HF. revert A B HA HAc HB HBc Hent.
  induction HF as [|A' B' As Bs ((HA' & HAc') & (HB' & HBc') & Hent') _ IH];
    intros A B HA HAc HB HBc Hent; simpl; [exact Hent|].
  destruct (combine_K_shape c n m A A' (conj HA HAc) (conj HA' HAc')) as (H1 & H2).
  destruct (combine_K_shape c m n B B' (conj HB HBc) (conj HB' HBc')) as (H3 & H4).
  apply IH; try assumption.
  intros i j Hi Hj.
  rewrite (entry_combine_K_rect c m n B B') by assumption.
  rewrite (entry_combine_K_rect c n m A A') by assumption.
  rewrite Hent, Hent' by assumption. reflexivity.
Qed.

Lemma K_transposed_entries k :
  coregion_shaped k ->
  forall X X2 ps A B,
    K k X (Some X2) ps = Ok A -> K k X2 (Some X) ps = Ok B ->
    forall i j, (i < nrows X)%nat -> (j < nrows X2)%nat -> entry B j i = entry A i j.
Proof.
  induction k as [c b v|c b v ls ard|b v ard|b v ard d o|b v ls p|b o r W kappa|c b l IH]
    using kern_induction; intros Hc X X2 ps A B HA HB i j Hi Hj.
  - destruct c; simpl in HA, HB; injection HA as <-; injection HB as <-;
      unfold Constant_K, fill2, entry; rewrite !nth_repeat_lt by assumption; reflexivity.
  - simpl in HA, HB. eapply Stationary_K_transposed; eassumption.
  - simpl in HA, HB. eapply Linear_K_transposed; eassumption.
  - simpl in HA, HB. unfold Polynomial_K in HA, HB.
    apply bind_Ok in HA. destruct HA as (LA & EA & HA). injection HA as <-.
    apply bind_Ok in HB. destruct HB as (LB & EB & HB). injection HB as <-.
    destruct (Linear_K_shape _ _ _ _ _ _ EA) as (H1 & H2).
    destruct (Linear_K_shape _ _ _ _ _ _ EB) as (H3 & H4).
    rewrite !entry_mmap.
    + rewrite (Linear_K_transposed _ _ _ _ _ _ _ EA EB i j Hi Hj). reflexivity.
    + lia.
    + rewrite (has_cols_In _ _ _ H2) by (apply nth_In; lia). exact Hj.
    + lia.
    + rewrite (has_cols_In _ _ _ H4) by (apply nth_In; lia). exact Hi.
  - simpl in HA, HB. eapply PeriodicKernel_K_transposed; eassumption.
  - simpl in HA, HB, Hc. destruct ps; [discriminate|].
    eapply Coregion_K_transposed; eassumption.
  - rewrite K_Combination in HA, HB. apply coregion_shaped_Combination in Hc.
    apply bind_Ok in HA. destruct HA as (As & EAs & HA).
    apply bind_Ok in HB. destruct HB as (Bs & EBs & HB).
    assert (HF : Forall2 (fun A' B' =>
                   (length A' = nrows X /\ has_cols (nrows X2) A')
                   /\ (length B' = nrows X2 /\ has_cols (nrows X) B')
                   /\ forall i j, (i < nrows X)%nat -> (j < nrows X2)%nat ->
                        entry B' j i = entry A' i j) As Bs).
    { clear HA HB. revert As Bs EAs EBs.
      induction IH as [|k l Hk _ IHl]; intros As Bs EAs EBs; simpl in EAs, EBs.
      - injection EAs as <-. injection EBs as <-. constructor.
      - apply bind_Ok in EAs. destruct EAs as (A1 & EA1 & EAs).
        apply bind_Ok in EAs. destruct EAs as (As' & EAs' & EAs). injection EAs as <-.
        apply bind_Ok in EBs. destruct EBs as (B1 & EB1 & EBs).
        apply bind_Ok in EBs. destruct EBs as (Bs' & EBs' & EBs). injection EBs as <-.
        apply Forall_cons_iff in Hc as [Hc1 Hc2].
        constructor; [|apply IHl; assumption].
        split; [apply (K_shape _ _ _ _ _ EA1)|].
        split; [apply (K_shape _ _ _ _ _ EB1)|].
        apply (Hk Hc1 X X2 None A1 B1 EA1 EB1). }
    destruct HF as [|A1 B1 As Bs ((HA1 & HAc1) & (HB1 & HBc1) & Hent1) HF];
      simpl in HA, HB; [discriminate|].
    injection HA as <-. injection HB as <-.
    apply (fold_combine_transposed c (nrows X) (nrows X2) As Bs A1 B1); assumption.
Qed.

Lemma Forall2_diag {A : Type} (P : A -> A -> Prop) (l : list A) :
  Forall (fun a => P a a) l -> Forall2 P l l.
Proof. induction 1; constructor; assumption. Qed.

Lemma K_symmetric_entries k :
  coregion_shaped k ->
  forall X ps A,
    K k X None ps = Ok A ->
    forall i j, (i < nrows X)%nat -> (j < nrows X)%nat -> entry A j i = entry A i j.
Proof.
  induction k as [c b v|c b v ls ard|b v ard|b v ard d o|b v ls p|b o r W kappa|c b l IH]
    using kern_induction; intros Hc X ps A HA i j Hi Hj.
  - destruct c.
    + simpl in HA. injection HA as <-. unfold White_K, entry.
      assert (Hl : length (fill1 (nrows X) v) = nrows X) by apply repeat_length.
      rewrite !diag_entry by lia. rewrite (Nat.eqb_sym j i).
      destruct (Nat.eqb i j) eqn:E; [|reflexivity].
      apply Nat.eqb_eq in E. subst j. reflexivity.
    + rewrite (K_both (Static Constant b v) I) in HA.
      apply (K_transposed_entries _ Hc X X ps A A HA HA i j Hi Hj).
    + rewrite (K_both (Static Bias b v) I) in HA.
      apply (K_transposed_entries _ Hc X X ps A A HA HA i j Hi Hj).
  - rewrite (K_both (Stationary c b v ls ard) I) in HA.
    apply (K_transposed_entries _ Hc X X ps A A HA HA i j Hi Hj).
  - rewrite (K_both (Linear b v ard) I) in HA.
    apply (K_transposed_entries _ Hc X X ps A A HA HA i j Hi Hj).
  - rewrite (K_both (Polynomial b v ard d o) I) in HA.
    apply (K_transposed_entries _ Hc X X ps A A HA HA i j Hi Hj).
  - rewrite (K_both (PeriodicKernel b v ls p) I) in HA.
    apply (K_transposed_entries _ Hc X X ps A A HA HA i j Hi Hj).
  - rewrite (K_both (Coregion b o r W kappa) I) in HA.
    apply (K_transposed_entries _ Hc X X ps A A HA HA i j Hi Hj).
  - rewrite K_Combination in HA. apply coregion_shaped_Combination in Hc.
    apply bind_Ok in HA. destruct HA as (As & EAs & HA).
    assert (HF : Forall (fun A' =>
                   (length A' = nrows X /\ has_cols (nrows X) A')
                   /\ (length A' = nrows X /\ has_cols (nrows X) A')
                   /\ forall i j, (i < nrows X)%nat -> (j < nrows X)%nat ->
                        entry A' j i = entry A' i j) As).
    { apply Forall_forall. intros M HM.
      destruct (mapM_In _ _ _ EAs M HM) as (k' & Hk' & EK).
      pose proof (K_shape_none k' X None M EK) as Hs.
      split; [exact Hs|]. split; [exact Hs|].
      rewrite Forall_forall in IH, Hc. apply (IH k' Hk' (Hc k' Hk') X None M EK). }
    apply (Forall2_diag (fun A' B' =>
             (length A' = nrows X /\ has_cols (nrows X) A')
             /\ (length B' = nrows X /\ has_cols (nrows X) B')
             /\ forall i j, (i < nrows X)%nat -> (j < nrows X)%nat ->
                  entry B' j i = entry A' i j)) in HF.
    destruct As as [|A1 As]; simpl in HA; [discriminate|]. injection HA as <-.
    inversion HF as [|? ? ? ? ((HA1 & HAc1) & _ & Hent1) HF']; subst.
    apply (fold_combine_transposed c (nrows X) (nrows X) As As A1 A1); assumption.
Qed.

(** ** The range of the entries *)



(** ** The linear kernel in closed form *)

Lemma Linear_K_naive b v D X X2 X0 o p :
  has_cols D X -> has_cols D X2 -> (length v = 1%nat \/ length v = D) ->
  slice_unless p b X0 o = Ok (X, option_map (fun _ => X2) o) ->
  (o = None -> X2 = X) ->
  Linear_K b v X0 o p = Ok (linear_naive v X X2).
Proof.
  intros HX HX2 Hl Hs Ho. unfold Linear_K. rewrite Hs. simpl.
  assert (E : bcast_rows Rmult X v
              = Ok (map (fun x => tabulate D (fun d => nth d x 0 * param_entry v d)) X)).
  { unfold bcast_rows. apply mapM_Ok_map. intros x Hx.
    apply bcast_vec_param; [apply (has_cols_In _ _ _ HX Hx) | exact Hl]. }
  rewrite E. simpl.
  assert (EM : matmul_nt (map (fun x => tabulate D (fun d => nth d x 0 * param_entry v d)) X) X2
               = Ok (linear_naive v X X2)).
  { rewrite (matmul_nt_same D); [|apply has_cols_intro; intros r Hr;
      apply in_map_iff in Hr as (x & <- & _); apply length_tabulate | exact HX2].
    f_equal. unfold linear_naive. rewrite map_map. apply map_ext_in. intros x Hx.
    apply map_ext. intros y. rewrite dot_tabulate_l, (has_cols_In _ _ _ HX Hx).
    unfold sum_over, tabulate. f_equal. apply map_ext. intros d. ring. }
  destruct o as [X02|]; simpl; [exact EM|]. rewrite <- (Ho eq_refl) at 2. exact EM.
Qed.

(** X23: on sliced inputs with one column per dimension, and a variance
    for all dimensions or one for each, [Linear.K] is the closed form: for
    the rows [x] and [y] the sum over the dimensions of
    [variance_d * x_d * y_d], with two inputs as with one. *)
Theorem Linear_K_refines_closed_form :
  forall variance D X X2 b ARD X0 presliced,
    has_cols D X -> has_cols D X2 ->
    (length variance = 1%nat \/ length variance = D) ->
    (forall X02,
       slice_unless (presliced_arg presliced) b X0 (Some X02) = Ok (X, Some X2) ->
       K (Linear b variance ARD) X0 (Some X02) presliced = Ok (linear_naive variance X X2))
    /\ (slice_unless (presliced_arg presliced) b X0 None = Ok (X, None) ->
        K (Linear b variance ARD) X0 None presliced = Ok (linear_naive variance X X)).
Proof.
  intros v D X X2 b ard X0 ps HX HX2 Hl. split.
  - intros X02 Hs. simpl.
    apply (Linear_K_naive b v D X X2 X0 (Some X02)); try assumption. discriminate.
  - intros Hs. simpl.
    apply (Linear_K_naive b v D X X X0 None); try assumption. reflexivity.
Qed.

(** [Linear(1)] on two points against one. *)
Lemma Linear_K_refines_closed_form_witness :
  has_cols 1 [[1]; [2]] /\ has_cols 1 [[3]]
  /\ (length [1] = 1%nat \/ length [1] = 1%nat)
  /\ K linear1 [[1]; [2]] (Some [[3]]) None = Ok (linear_naive [1] [[1]; [2]] [[3]]).
Proof.
  assert (H1 : has_cols 1 [[1]; [2]]) by (repeat constructor).
  assert (H2 : has_cols 1 [[3]]) by (repeat constructor).
  assert (H3 : length [1] = 1%nat \/ length [1] = 1%nat) by (left; reflexivity).
  split; [exact H1|]. split; [exact H2|]. split; [exact H3|].
  apply (proj1 (Linear_K_refines_closed_form [1] 1%nat [[1]; [2]] [[3]] base1 false
                  [[1]; [2]] None H1 H2 H3)).
  reflexivity.
Defined.

(** ** The coregionalisation kernel by labels *)

Lemma coregion_B_returns r W kappa :
  has_cols r W -> length kappa = length W -> exists B, coregion_B W kappa = Ok B.
Proof.
  intros HW Hk. unfold coregion_B. rewrite (matmul_nt_same r) by assumption. simpl.
  unfold bcast_mat, diag. rewrite length_map, length_tabulate, Hk, Nat.eqb_refl.
  exists (map (fun p => map2 Rplus (fst p) (snd p))
            (combine (map (fun a => map (dot a) W) W)
               (tabulate (length W) (fun i => tabulate (length W)
                  (fun j => if Nat.eqb i j then nth i kappa 0 else 0))))).
  apply mapM_Ok_map. intros (r1, r2) Hin. simpl.
  apply bcast_vec_same.
  pose proof (in_combine_l _ _ _ _ Hin) as H1.
  pose proof (in_combine_r _ _ _ _ Hin) as H2.
  apply in_map_iff in H1. destruct H1 as (a & <- & _).
  unfold tabulate in H2. apply in_map_iff in H2. destruct H2 as (i & <- & _).
  rewrite !length_map, length_seq. reflexivity.
Qed.

Lemma ncols_square n (B : list (list R)) : length B = n -> has_cols n B -> ncols B = n.
Proof.
  intros Hl Hc. destruct B as [|row B]; simpl in *; [exact Hl|].
  apply (has_cols_In _ _ _ Hc). left; reflexivity.
Qed.

Lemma Coregion_K_in_range b W kappa r X X2 Xs X2s xi yj :
  has_cols r W -> length kappa = length W ->
  _slice b X (Some X2) = Ok (Xs, Some X2s) ->
  column0_int32 Xs = Ok xi -> column0_int32 X2s = Ok yj ->
  Forall (fun o => (0 <= o < Z.of_nat (length W))%Z) xi ->
  Forall (fun o => (0 <= o < Z.of_nat (length W))%Z) yj ->
  Coregion_K b W kappa X (Some X2)
  = Ok (map (fun o => map (fun p => coregion_entry W kappa o p) yj) xi).
Proof.
  intros HW Hk Hs Exi Eyj Hxi Hyj. unfold Coregion_K. rewrite Hs. simpl.
  rewrite Exi. simpl. rewrite Eyj. simpl.
  destruct (coregion_B_returns r W kappa HW Hk) as (B & EB). rewrite EB. simpl.
  destruct (coregion_B_entries W kappa B Hk EB) as (HBlen & HBcols & HBent).
  rewrite (gather_in_range B yj []) by (rewrite HBlen; exact Hyj). simpl.
  rewrite (ncols_square _ _ HBlen HBcols).
  rewrite (gather_in_range _ xi []) by (unfold transpose_n; rewrite length_tabulate; exact Hxi).
  f_equal. apply map_ext_in. intros o Ho.
  rewrite Forall_forall in Hxi, Hyj. specialize (Hxi o Ho).
  unfold transpose_n. rewrite nth_tabulate by lia. rewrite map_map.
  apply map_ext_in. intros p Hp. specialize (Hyj p Hp).
  change (nth (Z.to_nat o) (nth (Z.to_nat p) B []) 0) with (entry B (Z.to_nat p) (Z.to_nat o)).
  rewrite (coregion_B_symmetric W kappa B Hk EB) by lia.
  rewrite HBent by lia. unfold coregion_entry. f_equal.
  destruct (Nat.eqb (Z.to_nat o) (Z.to_nat p)) eqn:E1; destruct (o =? p)%Z eqn:E2;
    try reflexivity.
  - apply Nat.eqb_eq in E1. apply Z.eqb_neq in E2. lia.
  - apply Nat.eqb_neq in E1. apply Z.eqb_eq in E2. subst. congruence.
Qed.

Lemma Coregion_K_out_of_range b W kappa r X X2 Xs X2s xi yj :
  has_cols r W -> length kappa = length W ->
  _slice b X (Some X2) = Ok (Xs, Some X2s) ->
  column0_int32 Xs = Ok xi -> column0_int32 X2s = Ok yj ->
  Exists (fun o => ~ (0 <= o < Z.of_nat (length W))%Z) (xi ++ yj) ->
  Coregion_K b W kappa X (Some X2) = Raise InvalidArgumentError.
Proof.
  intros HW Hk Hs Exi Eyj Hex. unfold Coregion_K. rewrite Hs. simpl.
  rewrite Exi. simpl. rewrite Eyj. simpl.
  destruct (coregion_B_returns r W kappa HW Hk) as (B & EB). rewrite EB. simpl.
  destruct (coregion_B_entries W kappa B Hk EB) as (HBlen & HBcols & HBent).
  destruct (gather B yj) as [G|e] eqn:EG; simpl.
  - pose proof (gather_success_range _ _ _ EG) as Hyj. rewrite HBlen in Hyj.
    apply Exists_app in Hex as [Hex|Hex].
    + apply gather_out_of_range. unfold transpose_n. rewrite length_tabulate.
      rewrite (ncols_square _ _ HBlen HBcols). exact Hex.
    + exfalso. apply Exists_exists in Hex as (o & Ho & Hno).
      rewrite Forall_forall in Hyj. apply Hno, Hyj, Ho.
  - f_equal.
    assert (Hexy : Exists (fun o => ~ (0 <= o < Z.of_nat (length B))%Z) yj).
    { destruct (Forall_Exists_dec (fun o => (0 <= o < Z.of_nat (length B))%Z)
                  (fun o => ltac:(destruct (Z_le_dec 0 o); destruct (Z_lt_dec o (Z.of_nat (length B)));
                                  [left; lia | right; lia | right; lia | right; lia])) yj)
        as [Hall|Hex']; [|exact Hex'].
      rewrite (gather_in_range B yj []) in EG by exact Hall. discriminate. }
    rewrite (gather_out_of_range B yj Hexy) in EG. congruence.
Qed.

(** X24: with [W] of one width and a [kappa] entry per row of [W],
    [Coregion.K] reads the labels from the first column of the sliced inputs
    and returns, for the labels [o] of [X] and [p] of [X2], the entry
    [W_o . W_p + (kappa_o if o = p)] of [B]; when a label is negative or not
    below the number of rows of [W] it ends in [InvalidArgumentError]. *)
Theorem Coregion_K_by_labels :
  forall b output_dim rank W kappa X X2 Xs X2s xi yj,
    has_cols rank W -> length kappa = length W ->
    _slice b X (Some X2) = Ok (Xs, Some X2s) ->
    column0_int32 Xs = Ok xi -> column0_int32 X2s = Ok yj ->
    (Forall (fun o => (0 <= o < Z.of_nat (length W))%Z) (xi ++ yj) ->
     K (Coregion b output_dim rank W kappa) X (Some X2) None
     = Ok (map (fun o => map (fun p => coregion_entry W kappa o p) yj) xi))
    /\ (Exists (fun o => ~ (0 <= o < Z.of_nat (length W))%Z) (xi ++ yj) ->
        K (Coregion b output_dim rank W kappa) X (Some X2) None
        = Raise InvalidArgumentError).
Proof.
  intros b o r W kappa X X2 Xs X2s xi yj HW Hk Hs Exi Eyj. split.
  - intros Hall. apply Forall_app in Hall as (Hxi & Hyj). simpl.
    apply (Coregion_K_in_range b W kappa r X X2 Xs X2s); assumption.
  - intros Hex. simpl.
    apply (Coregion_K_out_of_range b W kappa r X X2 Xs X2s xi yj); assumption.
Qed.

(** [Coregion(1, output_dim=2, rank=1)] on the label [1] against the label [0]. *)
Lemma Coregion_K_by_labels_witness :
  has_cols 1 (fill2 2 1 0) /\ length (fill1 2 1) = length (fill2 2 1 0)
  /\ Forall (fun o => (0 <= o < Z.of_nat (length (fill2 2 1 0)))%Z) ([1%Z] ++ [0%Z])
  /\ K coregion1 [[1]] (Some [[0]]) None
     = Ok [[coregion_entry (fill2 2 1 0) (fill1 2 1) 1 0]].
Proof.
  assert (H1 : has_cols 1 (fill2 2 1 0)) by (repeat constructor).
  assert (H2 : length (fill1 2 1) = length (fill2 2 1 0)) by reflexivity.
  assert (H3 : Forall (fun o => (0 <= o < Z.of_nat (length (fill2 2 1 0)))%Z)
                      ([1%Z] ++ [0%Z])) by (repeat constructor; simpl; lia).
  assert (Hx : column0_int32 [[1]] = Ok [1%Z]).
  { unfold column0_int32. simpl. rewrite (cast_int32_IZR 1) by lia. reflexivity. }
  assert (Hy : column0_int32 [[0]] = Ok [0%Z]).
  { unfold column0_int32. simpl. rewrite (cast_int32_IZR 0) by lia. reflexivity. }
  split; [exact H1|]. split; [exact H2|]. split; [exact H3|].
  apply (proj1 (Coregion_K_by_labels base1 2 1 (fill2 2 1 0) (fill1 2 1) [[1]] [[0]]
                  [[1]] [[0]] [1%Z] [0%Z] H1 H2 eq_refl Hx Hy) H3).
Defined.

(** ** Kernels that return *)

Lemma regular_Combination n c b l :
  regular n (Combination c b l) <-> l <> [] /\ Forall (regular n) l.
Proof.
  simpl. apply and_iff_compat_l. induction l as [|k l IH]; simpl.
  - split; [constructor | trivial].
  - rewrite IH. split; [intros [H1 H2]; constructor; assumption|].
    intros H; inversion H; auto.
Qed.

Lemma has_cols_firstn n d (X : list (list R)) :
  (d <= n)%nat -> has_cols n X -> has_cols d (map (firstn d) X).
Proof.
  intros Hd HX. apply has_cols_intro. intros r Hr.
  apply in_map_iff in Hr as (x & <- & Hx).
  rewrite length_firstn, (has_cols_In _ _ _ HX Hx). lia.
Qed.

(** Slicing by the default active dimensions, on inputs that are wide
    enough. *)
Lemma slice_unless_default n b X X2 :
  slices_default n b -> has_cols n X ->
  slice_unless false b X X2
  = Ok (map (firstn (Z.to_nat (input_dim b))) X,
        option_map (map (firstn (Z.to_nat (input_dim b)))) X2).
Proof.
  intros (Had & HD) HX. unfold slice_unless, _slice. rewrite Had. simpl.
  rewrite getitem_firstn by lia. simpl.
  assert (HX2 : match X2 with
                | None => Ok None
                | Some x2 => x2s <- getitem_cols None (Some (input_dim b)) None x2 ;;
                             Ok (Some x2s)
                end = Ok (option_map (map (firstn (Z.to_nat (input_dim b)))) X2)).
  { destruct X2 as [x2|]; [|reflexivity]. rewrite getitem_firstn by lia. reflexivity. }
  rewrite HX2. simpl. unfold assert_cols.
  assert (E : forallb (fun row => (Z.of_nat (length row) =? input_dim b)%Z)
                      (map (firstn (Z.to_nat (input_dim b))) X) = true).
  { apply forallb_forall. intros r Hr. apply in_map_iff in Hr as (row & <- & Hrow).
    apply Z.eqb_eq. rewrite length_firstn, (has_cols_In _ _ _ HX Hrow). lia. }
  rewrite E. reflexivity.
Qed.

Lemma sized_lengths b p n :
  slices_default n b -> sized b p ->
  length p = 1%nat \/ length p = Z.to_nat (input_dim b).
Proof. intros (_ & HD) [H|H]; [left; exact H | right; lia]. Qed.

Lemma Stationary_K_returns n c b v ls X X2 :
  slices_default n b -> sized b ls -> has_cols n X -> has_cols_if n X2 ->
  exists A, Stationary_K c b v ls X X2 false = Ok A.
Proof.
  intros Hb Hs HX HX2. rewrite Stationary_K_profile.
  rewrite (slice_unless_default n) by assumption. simpl.
  set (D := Z.to_nat (input_dim b)).
  assert (HDn : (D <= n)%nat) by (destruct Hb as (_ & HD); unfold D; lia).
  assert (Hl : length ls = D \/ length ls = 1%nat)
    by (destruct (sized_lengths _ _ _ Hb Hs); auto).
  destruct X2 as [X2|]; simpl in HX2 |- *.
  - destruct (square_dist_closed_form ls D _ _ (has_cols_firstn _ _ _ HDn HX)
                (has_cols_firstn _ _ _ HDn HX2) Hl) as (-> & _).
    eexists; reflexivity.
  - destruct (square_dist_closed_form ls D _ _ (has_cols_firstn _ _ _ HDn HX)
                (has_cols_firstn _ _ _ HDn HX) Hl) as (_ & ->).
    eexists; reflexivity.
Qed.

Lemma Linear_K_returns n b v X X2 :
  slices_default n b -> sized b v -> has_cols n X -> has_cols_if n X2 ->
  exists A, Linear_K b v X X2 false = Ok A.
Proof.
  intros Hb Hs HX HX2. unfold Linear_K.
  rewrite (slice_unless_default n) by assumption. simpl.
  set (D := Z.to_nat (input_dim b)).
  assert (HDn : (D <= n)%nat) by (destruct Hb as (_ & HD); unfold D; lia).
  pose proof (sized_lengths _ _ _ Hb Hs) as Hl. fold D in Hl.
  pose proof (has_cols_firstn _ _ _ HDn HX) as HXs.
  assert (E : bcast_rows Rmult (map (firstn D) X) v
              = Ok (map (fun x => tabulate D (fun d => nth d x 0 * param_entry v d))
                        (map (firstn D) X))).
  { unfold bcast_rows. apply mapM_Ok_map. intros x Hx.
    apply bcast_vec_param; [apply (has_cols_In _ _ _ HXs Hx) | exact Hl]. }
  rewrite E. simpl.
  assert (Hsc : has_cols D (map (fun x => tabulate D (fun d => nth d x 0 * param_entry v d))
                                (map (firstn D) X))).
  { apply has_cols_intro. intros r Hr. apply in_map_iff in Hr as (x & <- & _).
    apply length_tabulate. }
  destruct X2 as [X2|]; simpl in HX2 |- *.
  - rewrite (matmul_nt_same D) by (try exact Hsc; apply (has_cols_firstn n); assumption).
    eexists; reflexivity.
  - rewrite (matmul_nt_same D) by assumption. eexists; reflexivity.
Qed.

Lemma PeriodicKernel_K_returns n b v ls per X X2 :
  slices_default n b -> has_cols n X -> has_cols_if n X2 ->
  exists A, PeriodicKernel_K b v ls per X X2 false = Ok A.
Proof.
  intros Hb HX HX2. unfold PeriodicKernel_K.
  rewrite (slice_unless_default n) by assumption. simpl.
  set (D := Z.to_nat (input_dim b)).
  assert (HDn : (D <= n)%nat) by (destruct Hb as (_ & HD); unfold D; lia).
  pose proof (has_cols_firstn _ _ _ HDn HX) as HXs.
  assert (HY : has_cols D (match option_map (map (firstn D)) X2 with
                           | Some x2 => x2
                           | None => map (firstn D) X
                           end)).
  { destruct X2 as [X2|]; simpl in *; [apply (has_cols_firstn n); assumption | exact HXs]. }
  set (Y := match option_map (map (firstn D)) X2 with Some x2 => x2 | None => _ end) in *.
  exists (map (fun x => map (fun y =>
            v * exp (- 0.5 * reduce_sum (map (fun t => square (sin t / ls))
                                   (map (fun t => PI * t / per) (map2 Rminus x y))))) Y)
              (map (firstn D) X)).
  apply mapM_Ok_map. intros x Hx. apply mapM_Ok_map. intros y Hy.
  unfold periodic_entry. rewrite bcast_vec_same; [reflexivity|].
  rewrite (has_cols_In _ _ _ HXs Hx), (has_cols_In _ _ _ HY Hy). reflexivity.
Qed.

Lemma Linear_Kdiag_returns n b v X :
  slices_default n b -> sized b v -> has_cols n X ->
  exists d, Linear_Kdiag b v X false = Ok d.
Proof.
  intros Hb Hs HX. unfold Linear_Kdiag.
  rewrite (slice_unless_default n) by assumption. simpl.
  set (D := Z.to_nat (input_dim b)).
  assert (HDn : (D <= n)%nat) by (destruct Hb as (_ & HD); unfold D; lia).
  pose proof (sized_lengths _ _ _ Hb Hs) as Hl. fold D in Hl.
  pose proof (has_cols_firstn _ _ _ HDn HX) as HXs.
  assert (E : bcast_rows Rmult (mmap square (map (firstn D) X)) v
              = Ok (map (fun x => tabulate D (fun d => nth d x 0 * param_entry v d))
                        (mmap square (map (firstn D) X)))).
  { unfold bcast_rows. apply mapM_Ok_map. intros x Hx.
    apply bcast_vec_param; [|exact Hl].
    unfold mmap in Hx. apply in_map_iff in Hx as (x0 & <- & Hx0).
    rewrite length_map. apply (has_cols_In _ _ _ HXs Hx0). }
  rewrite E. simpl. eexists; reflexivity.
Qed.

Lemma mapM_returns {A B : Type} (f : A -> result B) (l : list A) :
  Forall (fun a => exists b, f a = Ok b) l -> exists r, mapM f l = Ok r /\ length r = length l.
Proof.
  induction 1 as [|a l (b & Hb) _ (r & Hr & Hlen)]; simpl.
  - exists []. split; reflexivity.
  - rewrite Hb, Hr. simpl. exists (b :: r). split; [reflexivity | simpl; congruence].
Qed.

Lemma reduce_returns {A : Type} (f : A -> A -> A) (l : list A) :
  l <> [] -> exists a, reduce f l = Ok a.
Proof. destruct l; [congruence|]. intros _. eexists; reflexivity. Qed.

Lemma K_returns n k :
  regular n k -> forall X X2, has_cols n X -> has_cols_if n X2 ->
  exists A, K k X X2 None = Ok A.
Proof.
  induction k as [c b v|c b v ls ard|b v ard|b v ard d o|b v ls p|b o r W kappa|c b l IH]
    using kern_induction; intros Hr X X2 HX HX2.
  - destruct c; simpl; eexists; reflexivity.
  - destruct Hr as (Hb & Hs). simpl. apply (Stationary_K_returns n); assumption.
  - destruct Hr as (Hb & Hs). simpl. apply (Linear_K_returns n); assumption.
  - destruct Hr as (Hb & Hs). simpl. unfold Polynomial_K.
    destruct (Linear_K_returns n b v X X2 Hb Hs HX HX2) as (L & ->). simpl.
    eexists; reflexivity.
  - simpl. apply (PeriodicKernel_K_returns n); assumption.
  - destruct Hr.
  - apply regular_Combination in Hr as (Hne & Hall). rewrite K_Combination.
    destruct (mapM_returns (fun k' => K k' X X2 None) l) as (Ks & -> & Hlen).
    { rewrite Forall_forall in IH, Hall |- *. intros k' Hk'.
      apply (IH k' Hk' (Hall k' Hk')); assumption. }
    simpl. apply reduce_returns. destruct l; [congruence|]. destruct Ks; discriminate.
Qed.

Lemma Kdiag_returns n k :
  regular n k -> forall X, has_cols n X -> exists d, Kdiag k X None = Ok d.
Proof.
  induction k as [c b v|c b v ls ard|b v ard|b v ard d o|b v ls p|b o r W kappa|c b l IH]
    using kern_induction; intros Hr X HX.
  - simpl; eexists; reflexivity.
  - simpl; eexists; reflexivity.
  - destruct Hr as (Hb & Hs). simpl. apply (Linear_Kdiag_returns n); assumption.
  - destruct Hr as (Hb & Hs). simpl. unfold Polynomial_Kdiag.
    destruct (Linear_Kdiag_returns n b v X Hb Hs HX) as (L & ->). simpl.
    eexists; reflexivity.
  - simpl; eexists; reflexivity.
  - destruct Hr.
  - apply regular_Combination in Hr as (Hne & Hall). rewrite Kdiag_Combination.
    destruct (mapM_returns (fun k' => Kdiag k' X None) l) as (Ks & -> & Hlen).
    { rewrite Forall_forall in IH, Hall |- *. intros k' Hk'.
      apply (IH k' Hk' (Hall k' Hk')); assumption. }
    simpl. apply reduce_returns. destruct l; [congruence|]. destruct Ks; discriminate.
Qed.

(** X25: a kernel whose parts slice with the default active dimensions and
    hold one parameter or one per dimension, a [Coregion] kernel and an empty
    combination apart, returns [K(X, X2)], [K(X)] and [Kdiag(X)] for all
    inputs of [n] columns, [n] at least every [input_dim]: no exception is
    raised. *)
Theorem K_Kdiag_return :
  forall n k X,
    regular n k -> has_cols n X ->
    (forall X2, has_cols n X2 -> exists A, K k X (Some X2) None = Ok A)
    /\ (exists A, K k X None None = Ok A)
    /\ (exists d, Kdiag k X None = Ok d).
Proof.
  intros n k X Hr HX. split; [|split].
  - intros X2 HX2. apply (K_returns n); assumption.
  - apply (K_returns n); [assumption | assumption | exact I].
  - apply (Kdiag_returns n); assumption.
Qed.

(** The sum of [RBF(1)] and [Linear(1)], as the constructors make them, on
    two points. *)
Lemma K_Kdiag_return_witness :
  Stationary_init RBF 1 1 None None false = Ok rbf1
  /\ Linear_init 1 [1] None false = Ok linear1
  /\ regular 1 (Combination Add base1 [rbf1; linear1]) /\ has_cols 1 [[0]; [1]]
  /\ exists A, K (Combination Add base1 [rbf1; linear1]) [[0]; [1]] None None = Ok A.
Proof.
  assert (Hr : regular 1 (Combination Add base1 [rbf1; linear1])).
  { simpl. unfold slices_default, sized. simpl.
    repeat split; try lia; try discriminate; auto. }
  assert (HX : has_cols 1 [[0]; [1]]) by (repeat constructor).
  split; [reflexivity|]. split; [reflexivity|]. split; [exact Hr|]. split; [exact HX|].
  apply (proj1 (proj2 (K_Kdiag_return 1%nat _ [[0]; [1]] Hr HX))).
Defined.

(** ** The expectation over pairs of consecutive inputs *)

Lemma slice_indices_suffix (D : Z) (len : nat) :
  (0 <= D)%Z ->
  slice_indices (Some D) None None (Z.of_nat len)
  = Ok (map Z.of_nat (seq (Nat.min (Z.to_nat D) len) (len - Z.to_nat D))).
Proof.
  intros HD. unfold slice_indices.
  change ((1 =? 0)%Z) with false. change ((1 <? 0)%Z) with false. cbv iota.
  assert (E : (D <? 0)%Z = false) by (apply Z.ltb_ge; exact HD). rewrite E.
  set (a := Z.min D (Z.of_nat len)).
  assert (Hcount : (if (a <? Z.of_nat len)%Z then ((Z.of_nat len - a - 1) / 1 + 1)%Z else 0%Z)
                   = (Z.of_nat len - a)%Z).
  { destruct (a <? Z.of_nat len)%Z eqn:E0.
    - rewrite Z.div_1_r. lia.
    - apply Z.ltb_ge in E0. unfold a in *. lia. }
  rewrite Hcount. f_equal.
  replace (Z.to_nat (Z.of_nat len - a)) with (len - Z.to_nat D)%nat by (unfold a; lia).
  replace a with (Z.of_nat (Nat.min (Z.to_nat D) len)) by (unfold a; lia).
  generalize (Nat.min (Z.to_nat D) len) as s. intros s.
  assert (H : forall n o, map (fun i => (Z.of_nat s + Z.of_nat i * 1)%Z) (seq o n)
                          = map Z.of_nat (seq (s + o) n)).
  { induction n as [|n IH]; intros o; simpl; [reflexivity|].
    f_equal; [lia|]. rewrite <- Nat.add_succ_r. apply IH. }
  rewrite H, Nat.add_0_r. reflexivity.
Qed.

Lemma map_nth_seq {A : Type} (row : list A) (d : A) (s n : nat) :
  (s + n = length row)%nat -> map (fun i => nth i row d) (seq s n) = skipn s row.
Proof.
  revert row. induction s as [|s IH]; intros row H; simpl in *.
  - subst n. apply (tabulate_nth row d).
  - destruct row as [|a row]; simpl in *; [discriminate|].
    rewrite <- seq_shift, map_map. apply IH. lia.
Qed.

Lemma getitem_skipn (D : nat) (X : list (list R)) :
  Forall (fun row => (D <= length row)%nat) X ->
  getitem_cols (Some (Z.of_nat D)) None None X = Ok (map (skipn D) X).
Proof.
  intros HX. unfold getitem_cols. apply mapM_Ok_map. intros row Hrow.
  rewrite Forall_forall in HX. specialize (HX row Hrow).
  rewrite slice_indices_suffix by lia. simpl. f_equal.
  rewrite map_map, Nat2Z.id, Nat.min_l by exact HX.
  rewrite (map_ext _ (fun i => nth i row 0)) by (intros i; rewrite Nat2Z.id; reflexivity).
  apply map_nth_seq. lia.
Qed.


Lemma has_cols_pair_means D (Xmu : list (list R)) :
  has_cols D Xmu ->
  has_cols (2 * D) (pair_means Xmu) /\ nrows (pair_means Xmu) = (nrows Xmu - 1)%nat.
Proof.
  intros H. unfold pair_means, nrows. split.
  - apply has_cols_intro. intros r Hr. apply In_map2 in Hr as (x & y & Hx & Hy & ->).
    rewrite length_app.
    assert (In x Xmu).
    { destruct Xmu as [|a l]; [destruct Hx|].
      rewrite (app_removelast_last a (l := a :: l)) by discriminate.
      apply in_or_app. left. exact Hx. }
    assert (In y Xmu) by (destruct Xmu; [destruct Hy | right; exact Hy]).
    rewrite (has_cols_In _ _ x H), (has_cols_In _ _ y H) by assumption. lia.
  - assert (Hr : forall l : list (list R), length (removelast l) = (length l - 1)%nat).
    { induction l as [|a [|b l] IH]; try reflexivity.
      change (removelast (a :: b :: l)) with (a :: removelast (b :: l)).
      simpl length in *. rewrite IH. lia. }
    assert (Hl : length (removelast Xmu) = length (tl Xmu)).
    { rewrite Hr. destruct Xmu; simpl; lia. }
    rewrite length_map2 by exact Hl. apply Hr.
Qed.

Lemma assert_cols_has_cols D (X : list (list R)) :
  has_cols D X -> assert_cols (Z.of_nat D) X = Ok tt.
Proof.
  intros H. unfold assert_cols.
  assert (E : forallb (fun row => (Z.of_nat (length row) =? Z.of_nat D)%Z) X = true).
  { apply forallb_forall. intros r Hr. rewrite (has_cols_In _ _ _ H Hr). apply Z.eqb_refl. }
  rewrite E. reflexivity.
Qed.

Lemma exKxz_value env k Z Xmu Xcov D Xcov0 Xcov1 gh_x gh_w Ls Ks :
  ~ quadrature_forbidden env k ->
  match input_size (base k) with
  | Some s => s
  | None => input_dim (base k)
  end = Z.of_nat D ->
  (0 < D)%nat -> has_cols D Xmu -> Xmu <> [] ->
  nth_error Xcov 0 = Some Xcov0 -> nth_error Xcov 1 = Some Xcov1 ->
  hermgauss env (num_gauss_hermite_points (base k)) = Some (gh_x, gh_w) ->
  Z.of_nat (length gh_x) = num_gauss_hermite_points (base k) ->
  length gh_w = length gh_x ->
  mapM (tf_cholesky env) (pair_covariances Xcov0 Xcov1) = Ok Ls ->
  length Ls = nrows (pair_means Xmu) ->
  Forall (fun L => length L = (2 * D)%nat /\ has_cols (2 * D) L) Ls ->
  mapM (fun x => K k (map (firstn D) (quadrature_location (pair_means Xmu) Ls x))
                   (Some Z) None)
       (cartesian_power gh_x (2 * D)) = Ok Ks ->
  exKxz env k Z Xmu Xcov
  = (quadrature_warnings env k,
     Ok (sum_axis0_t3 (nrows Xmu - 1) (nrows Z) D
           (map2 t3scale (quadrature_weights gh_w (2 * D))
              (map2 pair_products
                 (map (fun x => map (skipn D) (quadrature_location (pair_means Xmu) Ls x))
                      (cartesian_power gh_x (2 * D)))
                 Ks)))).
Proof.
  intros Hallowed HD Hpos HXmu Hne H0 H1 Hrule Hnodes Hweights Hfac Hcount Hshapes HK.
  destruct (has_cols_pair_means D Xmu HXmu) as (Hfm & HfN).
  set (grid := cartesian_power gh_x (2 * D)) in *.
  set (fXmu := pair_means Xmu) in *.
  assert (Hgrid : length grid = (length gh_x ^ (2 * D))%nat) by apply cartesian_power_length.
  assert (Hgne : grid <> []).
  { intros E. rewrite E in Hgrid. simpl in Hgrid. symmetry in Hgrid.
    apply Nat.pow_eq_0_iff in Hgrid. destruct Hgrid as (_ & E0).
    apply Hallowed. right. rewrite <- Hnodes, E0. reflexivity. }
  assert (Hloc : forall x, length (quadrature_location fXmu Ls x) = nrows fXmu
                           /\ has_cols (2 * D) (quadrature_location fXmu Ls x)).
  { intros x. apply quadrature_location_shape; assumption. }
  assert (Hwn : length (quadrature_weights gh_w (2 * D)) = length grid).
  { unfold quadrature_weights, row_products.
    rewrite !length_map, cartesian_power_length, Hgrid. congruence. }
  assert (HKs_len : length Ks = length grid) by (apply mapM_length in HK; exact HK).
  assert (HKs : Forall (fun A => length A = (nrows Xmu - 1)%nat /\ has_cols (nrows Z) A) Ks).
  { apply Forall_forall. intros A HA.
    destruct (mapM_In _ _ _ HK A HA) as (x & _ & E).
    destruct (K_shape _ _ _ _ _ E) as (E1 & E2). split; [|exact E2].
    rewrite E1. unfold nrows. rewrite length_map. rewrite (proj1 (Hloc x)). exact HfN. }
  assert (HP : (num_gauss_hermite_points (base k) ^ (2 * Z.of_nat D))%Z
               = Z.of_nat (length grid)).
  { rewrite Hgrid, <- Hnodes, Nat2Z.inj_pow.
    replace (Z.of_nat (2 * D)) with (2 * Z.of_nat D)%Z by lia. reflexivity. }
  assert (HN : (Z.of_nat (nrows Xmu) - 1)%Z = Z.of_nat (nrows Xmu - 1)).
  { destruct Xmu; [congruence|]. unfold nrows. simpl length. lia. }
  assert (Hcat : has_cols (2 * D) (concat (map (quadrature_location fXmu Ls) grid))).
  { apply has_cols_intro. intros r Hr. apply in_concat in Hr.
    destruct Hr as (A & HA & Hr). apply in_map_iff in HA. destruct HA as (x & <- & _).
    apply (has_cols_In _ _ _ (proj2 (Hloc x)) Hr). }
  unfold exKxz, after_check. rewrite (check_allowed env k Hallowed).
  cbv zeta. rewrite HD, HP, HN.
  rewrite (assert_cols_has_cols D Xmu HXmu). cbn [bind].
  unfold getitem0. rewrite H0, H1. cbn [bind].
  fold (pair_means Xmu). fold fXmu.
  change (map2 (@app vector)
            (map2 (map2 (@app R)) (removelast Xcov0) (removelast Xcov1))
            (map2 (map2 (@app R)) (transpose_021 (removelast Xcov1)) (tl Xcov0)))
    with (pair_covariances Xcov0 Xcov1).
  replace (Z.of_nat D * 2)%Z with (Z.of_nat (2 * D)) by lia.
  rewrite (mvhermgauss_locations env fXmu _ _ (2 * D) gh_x gh_w Ls) by (assumption || lia).
  cbn [bind]. fold grid.
  rewrite getitem_firstn by lia. cbn [bind]. rewrite Nat2Z.id.
  rewrite concat_map, map_map.
  rewrite (K_concat k Z None _ Ks).
  2:{ intros E. apply Hgne. destruct grid; [reflexivity | discriminate]. }
  2:{ rewrite mapM_map. exact HK. }
  cbn [bind]. rewrite <- HKs_len.
  rewrite reshape3_concat; [|reflexivity | exact HKs]. cbn [bind].
  rewrite getitem_skipn.
  2:{ apply Forall_forall. intros r Hr. rewrite (has_cols_In _ _ _ Hcat Hr). lia. }
  cbn [bind]. rewrite concat_map, map_map.
  rewrite HKs_len, <- (length_map (fun x => map (skipn D) (quadrature_location fXmu Ls x)) grid).
  rewrite reshape3_concat; [|reflexivity|].
  2:{ apply Forall_forall. intros A HA. apply in_map_iff in HA as (x & <- & _).
      split.
      - rewrite length_map, (proj1 (Hloc x)). exact HfN.
      - apply has_cols_intro. intros r Hr. apply in_map_iff in Hr as (row & <- & Hrow).
        rewrite length_skipn, (has_cols_In _ _ _ (proj2 (Hloc x)) Hrow). lia. }
  cbn [bind]. rewrite Nat.eqb_refl. cbn [bind].
  unfold scale_axis0.
  assert (HPl : length (map2
                 (map2 (fun x kz : list R => map (fun c : R => map (Rmult c) x) kz))
                 (map (fun x => map (skipn D) (quadrature_location fXmu Ls x)) grid) Ks)
                = length (quadrature_weights gh_w (2 * D))).
  { rewrite length_map2 by (rewrite length_map; congruence).
    rewrite length_map. congruence. }
  rewrite HPl, Nat.eqb_refl. cbn [bind]. rewrite !Nat2Z.id. reflexivity.
Qed.

Lemma assert_cols_fails D (X : list (list R)) :
  Exists (fun row => length row <> D) X ->
  assert_cols (Z.of_nat D) X = Raise InvalidArgumentError.
Proof.
  intros H. unfold assert_cols.
  assert (E : forallb (fun row => (Z.of_nat (length row) =? Z.of_nat D)%Z) X = false).
  { apply not_true_is_false. intros E. rewrite forallb_forall in E.
    apply Exists_exists in H as (r & Hr & Hn). specialize (E r Hr).
    apply Z.eqb_eq in E. lia. }
  rewrite E. reflexivity.
Qed.

(** ** Slicing full covariances *)

Lemma slice_cov_slice_matrix start stop step D idx (C : list (list R)) :
  length C = D -> has_cols D C ->
  slice_indices start stop step (Z.of_nat D) = Ok idx ->
  (idx <- slice_indices start stop step (Z.of_nat (length C)) ;;
   getitem_cols start stop step (map (fun i => nth (Z.to_nat i) C []) idx))
  = Ok (submatrix idx C).
Proof.
  intros HC Hc Hi. rewrite HC, Hi. simpl.
  destruct (slice_indices_range _ _ _ _ _ (Nat2Z.is_nonneg _) Hi) as [Hr _].
  unfold getitem_cols. rewrite mapM_map. apply mapM_Ok_map. intros i Hin.
  rewrite Forall_forall in Hr. specialize (Hr i Hin).
  rewrite (has_cols_In _ _ _ Hc) by (apply nth_In; lia).
  rewrite Hi. reflexivity.
Qed.

Lemma slice_cov_array_matrix l D (C : list (list R)) :
  length C = D -> has_cols D C ->
  Forall (fun j => (0 <= j < Z.of_nat D)%Z) l ->
  (cs <- gather_cols l C ;; gather cs l) = Ok (submatrix l C).
Proof.
  intros HC Hc Hl. unfold gather_cols.
  rewrite (mapM_Ok_map _ (fun row => map (fun j => nth (Z.to_nat j) row 0) l)).
  2:{ intros row Hrow. apply gather_in_range. rewrite (has_cols_In _ _ _ Hc Hrow). exact Hl. }
  simpl. rewrite (gather_in_range _ l []) by (rewrite length_map, HC; exact Hl).
  f_equal. unfold submatrix. apply map_ext_in. intros i Hi.
  rewrite Forall_forall in Hl. specialize (Hl i Hi).
  rewrite (nth_map_lt _ _ _ []) by lia. reflexivity.
Qed.

Lemma slice_cov_array_fails l D (C : list (list R)) :
  length C = D -> has_cols D C -> (0 < D)%nat ->
  Exists (fun j => ~ (0 <= j < Z.of_nat D)%Z) l ->
  (cs <- gather_cols l C ;; gather cs l) = Raise InvalidArgumentError.
Proof.
  intros HC Hc HD Hex. unfold gather_cols.
  destruct C as [|row C]; [simpl in HC; lia|].
  simpl. rewrite (gather_out_of_range row l); [reflexivity|].
  rewrite (has_cols_In _ _ _ Hc) by (left; reflexivity). exact Hex.
Qed.

(** X27: [_slice_cov] on full [D x D] covariances keeps, in every matrix, the
    rows and the columns at the same positions: those of the slice, or the
    indices of the array in their order; with an array, an index that is
    negative or not below [D] ends in [InvalidArgumentError]. *)
Theorem slice_cov_of_matrices :
  forall b c D,
    Forall (fun C => length C = D /\ has_cols D C) c ->
    (forall start stop step idx,
       active_dims b = ADslice start stop step ->
       slice_indices start stop step (Z.of_nat D) = Ok idx ->
       _slice_cov b (FullCov c) = Ok (map (submatrix idx) c))
    /\ (forall l,
          active_dims b = ADarray l ->
          (Forall (fun j => (0 <= j < Z.of_nat D)%Z) l ->
           _slice_cov b (FullCov c) = Ok (map (submatrix l) c))
          /\ (Exists (fun j => ~ (0 <= j < Z.of_nat D)%Z) l -> (0 < D)%nat -> c <> [] ->
              _slice_cov b (FullCov c) = Raise InvalidArgumentError)).
Proof.
  intros b c D Hc. unfold _slice_cov. rewrite Forall_forall in Hc. split.
  - intros start stop step idx -> Hi. apply mapM_Ok_map. intros C HC.
    destruct (Hc C HC) as (H1 & H2).
    apply (slice_cov_slice_matrix start stop step D); assumption.
  - intros l ->. split.
    + intros Hl. apply mapM_Ok_map. intros C HC. destruct (Hc C HC) as (H1 & H2).
      apply (slice_cov_array_matrix l D); assumption.
    + intros Hex HD Hne. destruct c as [|C c]; [congruence|].
      destruct (Hc C (or_introl eq_refl)) as (H1 & H2). simpl.
      rewrite (slice_cov_array_fails l D C H1 H2 HD Hex). reflexivity.
Qed.

(** A 2 x 2 covariance with its two dimensions swapped. *)
Lemma slice_cov_of_matrices_witness :
  Forall (fun C => length C = 2%nat /\ has_cols 2 C) [[[1; 2]; [3; 4]]]
  /\ _slice_cov base_swapped (FullCov [[[1; 2]; [3; 4]]]) = Ok [[[4; 3]; [2; 1]]].
Proof.
  assert (H : Forall (fun C => length C = 2%nat /\ has_cols 2 C) [[[1; 2]; [3; 4]]])
    by (repeat constructor).
  split; [exact H|].
  apply (proj1 (proj2 (slice_cov_of_matrices base_swapped [[[1; 2]; [3; 4]]] 2%nat H)
                  [1%Z; 0%Z] eq_refl)).
  repeat constructor; simpl; lia.
Defined.

(** ** The flattened list and the dimension of a combination *)

Lemma child_dim_extent k e : child_dim k = Ok e <-> extent k e.
Proof.
  unfold child_dim, extent. destruct (active_dims (base k)) as [a b c|l].
  - split; [intros H; injection H as <-; reflexivity | intros ->; reflexivity].
  - split.
    + intros H. apply bind_Ok in H. destruct H as (m & Hm & H). injection H as <-.
      apply np_max_spec in Hm. destruct Hm as (Hin & Hall).
      replace (m + 1 - 1)%Z with m by lia. split; [exact Hin|].
      eapply Forall_impl; [|exact Hall]. simpl. intros; lia.
    + intros (Hin & Hall).
      assert (Hm : np_max l = Ok (e - 1)%Z).
      { apply np_max_spec. split; [exact Hin|].
        eapply Forall_impl; [|exact Hall]. simpl. intros; lia. }
      rewrite Hm. simpl. f_equal. lia.
Qed.

Lemma mapM_In_Ok {A B : Type} (f : A -> result B) (l : list A) (r : list B) :
  mapM f l = Ok r -> forall a, In a l -> exists b, f a = Ok b /\ In b r.
Proof.
  intros H. apply mapM_Forall2 in H.
  induction H as [|a b l r Hab _ IH]; intros x Hx; [destruct Hx|].
  destruct Hx as [<-|Hx].
  - exists b. split; [exact Hab | left; reflexivity].
  - destruct (IH x Hx) as (y & Hy & Hin). exists y. split; [exact Hy | right; exact Hin].
Qed.

Lemma max_child_dim_greatest l d : max_child_dim l = Ok d -> greatest_extent l d.
Proof.
  unfold max_child_dim. intros H. apply bind_Ok in H. destruct H as (dims & Hdims & Hd).
  apply np_max_spec in Hd. destruct Hd as (Hin & Hall). split.
  - destruct (mapM_In _ _ _ Hdims d Hin) as (k & Hk & E).
    exists k. split; [exact Hk | apply child_dim_extent, E].
  - intros k e Hk He. apply child_dim_extent in He.
    destruct (mapM_In_Ok _ _ _ Hdims k Hk) as (e' & E & Hin').
    rewrite Forall_forall in Hall. specialize (Hall e' Hin'). congruence.
Qed.

Lemma flatten_parts cls l : flatten_kern_list cls l = concat (map (parts cls) l).
Proof.
  unfold flatten_kern_list. rewrite flat_map_concat_map. f_equal. apply map_ext.
  intros k. destruct k as [| | | | | |c b lk]; try reflexivity.
  destruct c, cls; reflexivity.
Qed.

Lemma not_instance child cls :
  isinstance_combination child cls = false ->
  forall b l, child <> Combination cls b l.
Proof.
  intros H b l ->. simpl in H. destruct cls; discriminate.
Qed.

(** C7: [Combination.__init__] on kernels that satisfy the invariant of
    combinations yields a combination of the class [cls] whose [kern_list]
    is the given list with every kernel of the class [cls] replaced by its
    own children; no element of it is of the class [cls]; and its
    [input_dim] is the greatest extent of the given kernels, and of the
    kernels of the flattened list: the [input_dim] of a kernel whose
    [active_dims] is a slice, the largest index plus one of a kernel whose
    [active_dims] is an array.  The result satisfies the invariant
    itself. *)
Theorem Combination_init_flattened :
  forall cls kern_list k,
    Forall combination_invariant kern_list ->
    Combination_init cls kern_list = Ok k ->
    exists b l,
      k = Combination cls b l
      /\ l = concat (map (parts cls) kern_list)
      /\ Forall (fun child => forall b' l', child <> Combination cls b' l') l
      /\ greatest_extent kern_list (input_dim b)
      /\ greatest_extent l (input_dim b)
      /\ combination_invariant k.
Proof.
  intros cls kern_list k Hinv Hk.
  unfold Combination_init in Hk.
  apply bind_Ok in Hk. destruct Hk as (dims & Hdims & Hk).
  apply bind_Ok in Hk. destruct Hk as (d & Hd & Hk).
  simpl in Hk. injection Hk as <-.
  assert (Hflat : max_child_dim (flatten_kern_list cls kern_list) = Ok d).
  { destruct (flatten_dims cls kern_list Hinv dims Hdims) as (dims' & E & Hsub & Hdom).
    unfold max_child_dim. rewrite E. simpl.
    apply np_max_spec in Hd. destruct Hd as (Hin & Hall).
    apply np_max_spec. split; [apply Hsub, Hin|].
    apply Forall_forall. intros x Hx.
    destruct (Hdom x Hx) as (y & Hy & Hle).
    rewrite Forall_forall in Hall. specialize (Hall y Hy). lia. }
  assert (Hout := flatten_keeps_out cls kern_list Hinv).
  assert (Hgiven : max_child_dim kern_list = Ok d)
    by (unfold max_child_dim; rewrite Hdims; exact Hd).
  exists (mk_base d (ADslice None (Some d) None) 20 None), (flatten_kern_list cls kern_list).
  split; [reflexivity|]. split; [apply flatten_parts|].
  split.
  { eapply Forall_impl; [|exact Hout]. intros child Hc. apply not_instance, Hc. }
  split; [apply max_child_dim_greatest, Hgiven|].
  split; [apply max_child_dim_greatest, Hflat|].
  split; [exact Hout|]. split; [exact Hflat | reflexivity].
Qed.

(** The sum of [White(1) + Constant(1)] and [Linear(2, active_dims=[2, 0])]:
    the nested sum is spliced, and [input_dim] is 3. *)
Lemma Combination_init_flattened_witness :
  Forall combination_invariant [white_plus_constant; linear_columns_2_0]
  /\ Combination_init Add [white_plus_constant; linear_columns_2_0]
     = Ok (Combination Add (mk_base 3 (ADslice None (Some 3%Z) None) 20 None)
             [white1; constant1; linear_columns_2_0])
  /\ exists b l,
       Combination Add (mk_base 3 (ADslice None (Some 3%Z) None) 20 None)
         [white1; constant1; linear_columns_2_0] = Combination Add b l
       /\ l = concat (map (parts Add) [white_plus_constant; linear_columns_2_0])
       /\ Forall (fun child => forall b' l', child <> Combination Add b' l') l
       /\ greatest_extent [white_plus_constant; linear_columns_2_0] (input_dim b)
       /\ greatest_extent l (input_dim b)
       /\ combination_invariant
            (Combination Add (mk_base 3 (ADslice None (Some 3%Z) None) 20 None)
               [white1; constant1; linear_columns_2_0]).
Proof.
  assert (H : Forall combination_invariant [white_plus_constant; linear_columns_2_0]).
  { constructor.
    - simpl. split; [repeat constructor | split; reflexivity].
    - constructor; [exact I | constructor]. }
  split; [exact H|]. split; [reflexivity|].
  apply (Combination_init_flattened Add [white_plus_constant; linear_columns_2_0] _ H).
  reflexivity.
Defined.


(** ** The value of a sum and of a product of kernels *)

Lemma parts_contribution c k :
  parts c k = (if isinstance_combination k c then kern_list_of k else [k]).
Proof.
  destruct k as [| | | | | |c' b l]; try reflexivity. destruct c', c; reflexivity.
Qed.

Lemma K_shape_option k X X2 R0 :
  K k X X2 None = Ok R0 ->
  length R0 = nrows X /\ has_cols (nrows (column_input X X2)) R0.
Proof.
  destruct X2 as [Z|]; simpl; [apply K_shape | apply K_shape_none].
Qed.

(** Reducing two lists of values in one pass: the values of the second list
    are combined, one after the other, onto the result for the first. *)
Lemma reduce_app {A : Type} (f : A -> A -> A) (r1 r2 : list A) (a : A) :
  reduce f r1 = Ok a -> reduce f (r1 ++ r2) = Ok (fold_left f r2 a).
Proof.
  destruct r1 as [|a1 t1]; simpl; [discriminate|].
  intros H. injection H as <-. rewrite fold_left_app. reflexivity.
Qed.

Lemma entry_fold_combine c n m (Bs : list (list (list R))) :
  Forall (fun B => length B = n /\ has_cols m B) Bs ->
  forall A, length A = n -> has_cols m A ->
    (length (fold_left (combine_K c) Bs A) = n
     /\ has_cols m (fold_left (combine_K c) Bs A))
    /\ forall i j, (i < n)%nat -> (j < m)%nat ->
         entry (fold_left (combine_K c) Bs A) i j
         = fold_left (combine_entries c) (map (fun B => entry B i j) Bs) (entry A i j).
Proof.
  induction 1 as [|B Bs (HB & HBc) _ IH]; intros A HA HAc; simpl.
  - split; [split; assumption | reflexivity].
  - destruct (combine_K_shape c n m A B (conj HA HAc) (conj HB HBc)) as (HC & HCc).
    destruct (IH _ HC HCc) as (Hs & He). split; [exact Hs|].
    intros i j Hi Hj. rewrite (He i j Hi Hj).
    rewrite (entry_combine_K_rect c n m A B i j) by assumption.
    destruct c; reflexivity.
Qed.

Lemma nth_fold_combine c n (bs : list (list R)) :
  Forall (fun b => length b = n) bs ->
  forall a, length a = n ->
    length (fold_left (combine_Kdiag c) bs a) = n
    /\ forall i, (i < n)%nat ->
         nth i (fold_left (combine_Kdiag c) bs a) 0
         = fold_left (combine_entries c) (map (fun b => nth i b 0) bs) (nth i a 0).
Proof.
  induction 1 as [|b bs Hb _ IH]; intros a Ha; simpl.
  - split; [assumption | reflexivity].
  - pose proof (combine_Kdiag_length c n a b Ha Hb) as Hc.
    destruct (IH _ Hc) as (Hs & He). split; [exact Hs|].
    intros i Hi. rewrite (He i Hi). f_equal.
    destruct c; simpl; unfold vadd, vmul; apply nth_map2; lia.
Qed.

(** The value of the combination of two kernels: the values of the parts of
    the second kernel are combined, left to right, onto the value of the
    first. *)
Lemma combination_K_fold c k1 k2 s :
  combination_invariant k1 -> combination_invariant k2 ->
  Combination_init c [k1; k2] = Ok s ->
  forall X X2 A Bs,
    K k1 X X2 None = Ok A ->
    mapM (fun k' => K k' X X2 None) (parts c k2) = Ok Bs ->
    K s X X2 None = Ok (fold_left (combine_K c) Bs A).
Proof.
  intros H1 H2 Hs X X2 A Bs HA HBs.
  unfold Combination_init in Hs.
  apply bind_Ok in Hs. destruct Hs as (dims & _ & Hs).
  apply bind_Ok in Hs. destruct Hs as (d & _ & Hs).
  simpl in Hs. injection Hs as <-.
  rewrite K_Combination. unfold flatten_kern_list. cbn [flat_map]. rewrite app_nil_r.
  rewrite <- !parts_contribution. rewrite mapM_app, HBs.
  pose proof (contribution_K c k1 X X2) as Hc. rewrite <- parts_contribution, HA in Hc.
  destruct (mapM (fun k' => K k' X X2 None) (parts c k1)) as [r1|] eqn:E1;
    simpl in Hc; [|discriminate].
  simpl. apply reduce_app, Hc.
Qed.

Lemma combination_Kdiag_fold c k1 k2 s :
  combination_invariant k1 -> combination_invariant k2 ->
  Combination_init c [k1; k2] = Ok s ->
  forall X a bs,
    Kdiag k1 X None = Ok a ->
    mapM (fun k' => Kdiag k' X None) (parts c k2) = Ok bs ->
    Kdiag s X None = Ok (fold_left (combine_Kdiag c) bs a).
Proof.
  intros H1 H2 Hs X a bs Ha Hbs.
  unfold Combination_init in Hs.
  apply bind_Ok in Hs. destruct Hs as (dims & _ & Hs).
  apply bind_Ok in Hs. destruct Hs as (d & _ & Hs).
  simpl in Hs. injection Hs as <-.
  rewrite Kdiag_Combination. unfold flatten_kern_list. cbn [flat_map]. rewrite app_nil_r.
  rewrite <- !parts_contribution. rewrite mapM_app, Hbs.
  pose proof (contribution_Kdiag c k1 X) as Hc. rewrite <- parts_contribution, Ha in Hc.
  destruct (mapM (fun k' => Kdiag k' X None) (parts c k1)) as [r1|] eqn:E1;
    simpl in Hc; [|discriminate].
  simpl. apply reduce_app, Hc.
Qed.

Lemma combination_entries c k1 k2 s :
  combination_invariant k1 -> combination_invariant k2 ->
  Combination_init c [k1; k2] = Ok s ->
  (exists b l, s = Combination c b l)
  /\ (forall X X2 A Bs,
        K k1 X X2 None = Ok A ->
        mapM (fun k' => K k' X X2 None) (parts c k2) = Ok Bs ->
        exists S,
          K s X X2 None = Ok S
          /\ forall i j, (i < nrows X)%nat -> (j < nrows (column_input X X2))%nat ->
               entry S i j
               = fold_left (combine_entries c) (map (fun B => entry B i j) Bs) (entry A i j))
  /\ (forall X a bs,
        Kdiag k1 X None = Ok a ->
        mapM (fun k' => Kdiag k' X None) (parts c k2) = Ok bs ->
        exists d,
          Kdiag s X None = Ok d
          /\ forall i, (i < nrows X)%nat ->
               nth i d 0
               = fold_left (combine_entries c) (map (fun b => nth i b 0) bs) (nth i a 0)).
Proof.
  intros H1 H2 Hs. split; [|split].
  - unfold Combination_init in Hs.
    apply bind_Ok in Hs. destruct Hs as (dims & _ & Hs).
    apply bind_Ok in Hs. destruct Hs as (d & _ & Hs).
    simpl in Hs. injection Hs as <-. eexists; eexists; reflexivity.
  - intros X X2 A Bs HA HBs. eexists. split.
    + apply (combination_K_fold c k1 k2 s H1 H2 Hs X X2 A Bs HA HBs).
    + destruct (K_shape_option _ _ _ _ HA) as (HAl & HAc).
      apply (entry_fold_combine c (nrows X) (nrows (column_input X X2)) Bs); try assumption.
      apply Forall_forall. intros B HB.
      destruct (mapM_In _ _ _ HBs B HB) as (k' & _ & E).
      apply (K_shape_option _ _ _ _ E).
  - intros X a bs Ha Hbs. eexists. split.
    + apply (combination_Kdiag_fold c k1 k2 s H1 H2 Hs X a bs Ha Hbs).
    + apply (nth_fold_combine c (nrows X) bs).
      * apply Forall_forall. intros b Hb.
        destruct (mapM_In _ _ _ Hbs b Hb) as (k' & _ & E).
        apply (Kdiag_length _ _ _ _ E).
      * apply (Kdiag_length _ _ _ _ Ha).
Qed.

(** C3, as amended: [k1 + k2] is an [Add].  Its [K] is [k1.K] to which the
    [K] of the parts of [k2] (its children when [k2] is itself an [Add],
    else [k2]) are added one after the other, entry by entry, and likewise
    for [Kdiag]; when [k2] is not an [Add] this is [k1.K + k2.K] and
    [k1.Kdiag + k2.Kdiag].  The operands satisfy the invariant of
    combinations. *)
Theorem Add_is_sum :
  forall k1 k2 s,
    combination_invariant k1 -> combination_invariant k2 ->
    kern_add k1 k2 = Ok s ->
    (exists b l, s = Combination Add b l)
    /\ (forall X X2 A Bs,
          K k1 X X2 None = Ok A ->
          mapM (fun k' => K k' X X2 None) (parts Add k2) = Ok Bs ->
          exists S,
            K s X X2 None = Ok S
            /\ forall i j, (i < nrows X)%nat -> (j < nrows (column_input X X2))%nat ->
                 entry S i j
                 = fold_left Rplus (map (fun B => entry B i j) Bs) (entry A i j))
    /\ (forall X a bs,
          Kdiag k1 X None = Ok a ->
          mapM (fun k' => Kdiag k' X None) (parts Add k2) = Ok bs ->
          exists d,
            Kdiag s X None = Ok d
            /\ forall i, (i < nrows X)%nat ->
                 nth i d 0 = fold_left Rplus (map (fun b => nth i b 0) bs) (nth i a 0))
    /\ ((forall b l, k2 <> Combination Add b l) ->
        (forall X X2 A B,
           K k1 X X2 None = Ok A -> K k2 X X2 None = Ok B ->
           exists S,
             K s X X2 None = Ok S
             /\ forall i j, (i < nrows X)%nat -> (j < nrows (column_input X X2))%nat ->
                  entry S i j = entry A i j + entry B i j)
        /\ (forall X a b,
              Kdiag k1 X None = Ok a -> Kdiag k2 X None = Ok b ->
              exists d,
                Kdiag s X None = Ok d
                /\ forall i, (i < nrows X)%nat -> nth i d 0 = nth i a 0 + nth i b 0)).
Proof.
  intros k1 k2 s H1 H2 Hs.
  destruct (combination_entries Add k1 k2 s H1 H2 Hs) as (Hc & HK & HKd).
  split; [exact Hc|]. split; [exact HK|]. split; [exact HKd|].
  intros Hn.
  assert (Hp : parts Add k2 = [k2]).
  { destruct k2 as [| | | | | |c b l]; try reflexivity.
    destruct c; [exfalso; apply (Hn b l); reflexivity | reflexivity]. }
  rewrite Hp in HK, HKd. split.
  - intros X X2 A B HA HB. apply (HK X X2 A [B] HA). simpl. rewrite HB. reflexivity.
  - intros X a b Ha Hb. apply (HKd X a [b] Ha). simpl. rewrite Hb. reflexivity.
Qed.

(** C4, as amended: [k1 * k2] is a [Prod].  Its [K] is [k1.K] multiplied by
    the [K] of the parts of [k2] (its children when [k2] is itself a [Prod],
    else [k2]) one after the other, entry by entry, and likewise for
    [Kdiag]; when [k2] is not a [Prod] this is the entrywise product of
    [k1.K] and [k2.K], and of [k1.Kdiag] and [k2.Kdiag]. *)
Theorem Prod_is_product :
  forall k1 k2 s,
    combination_invariant k1 -> combination_invariant k2 ->
    kern_mul k1 k2 = Ok s ->
    (exists b l, s = Combination Prod b l)
    /\ (forall X X2 A Bs,
          K k1 X X2 None = Ok A ->
          mapM (fun k' => K k' X X2 None) (parts Prod k2) = Ok Bs ->
          exists S,
            K s X X2 None = Ok S
            /\ forall i j, (i < nrows X)%nat -> (j < nrows (column_input X X2))%nat ->
                 entry S i j
                 = fold_left Rmult (map (fun B => entry B i j) Bs) (entry A i j))
    /\ (forall X a bs,
          Kdiag k1 X None = Ok a ->
          mapM (fun k' => Kdiag k' X None) (parts Prod k2) = Ok bs ->
          exists d,
            Kdiag s X None = Ok d
            /\ forall i, (i < nrows X)%nat ->
                 nth i d 0 = fold_left Rmult (map (fun b => nth i b 0) bs) (nth i a 0))
    /\ ((forall b l, k2 <> Combination Prod b l) ->
        (forall X X2 A B,
           K k1 X X2 None = Ok A -> K k2 X X2 None = Ok B ->
           exists S,
             K s X X2 None = Ok S
             /\ forall i j, (i < nrows X)%nat -> (j < nrows (column_input X X2))%nat ->
                  entry S i j = entry A i j * entry B i j)
        /\ (forall X a b,
              Kdiag k1 X None = Ok a -> Kdiag k2 X None = Ok b ->
              exists d,
                Kdiag s X None = Ok d
                /\ forall i, (i < nrows X)%nat -> nth i d 0 = nth i a 0 * nth i b 0)).
Proof.
  intros k1 k2 s H1 H2 Hs.
  destruct (combination_entries Prod k1 k2 s H1 H2 Hs) as (Hc & HK & HKd).
  split; [exact Hc|]. split; [exact HK|]. split; [exact HKd|].
  intros Hn.
  assert (Hp : parts Prod k2 = [k2]).
  { destruct k2 as [| | | | | |c b l]; try reflexivity.
    destruct c; [reflexivity | exfalso; apply (Hn b l); reflexivity]. }
  rewrite Hp in HK, HKd. split.
  - intros X X2 A B HA HB. apply (HK X X2 A [B] HA). simpl. rewrite HB. reflexivity.
  - intros X a b Ha Hb. apply (HKd X a [b] Ha). simpl. rewrite Hb. reflexivity.
Qed.

(** [Constant(2.0) + (White(1.0) + Constant(2.0))] on two points. *)
Lemma Add_is_sum_witness :
  combination_invariant constant1 /\ combination_invariant white_plus_constant
  /\ kern_add constant1 white_plus_constant
     = Ok (Combination Add base1 [constant1; white1; constant1])
  /\ exists S,
       K (Combination Add base1 [constant1; white1; constant1]) [[0]; [1]] None None = Ok S
       /\ forall i j, (i < 2)%nat -> (j < 2)%nat ->
            entry S i j
            = fold_left Rplus
                (map (fun B => entry B i j) [[[1; 0]; [0; 1]]; [[2; 2]; [2; 2]]])
                (entry [[2; 2]; [2; 2]] i j).
Proof.
  assert (H1 : combination_invariant constant1) by exact I.
  assert (H2 : combination_invariant white_plus_constant).
  { simpl. split; [repeat constructor | split; reflexivity]. }
  split; [exact H1|]. split; [exact H2|]. split; [reflexivity|].
  apply (proj1 (proj2 (Add_is_sum constant1 white_plus_constant _ H1 H2 eq_refl))
           [[0]; [1]] None [[2; 2]; [2; 2]] [[[1; 0]; [0; 1]]; [[2; 2]; [2; 2]]]);
    reflexivity.
Defined.

(** [Constant(2.0) * (White(1.0) * Constant(2.0))] on two points. *)
Lemma Prod_is_product_witness :
  combination_invariant constant1 /\ combination_invariant white_times_constant
  /\ kern_mul constant1 white_times_constant
     = Ok (Combination Prod base1 [constant1; white1; constant1])
  /\ exists S,
       K (Combination Prod base1 [constant1; white1; constant1]) [[0]; [1]] None None = Ok S
       /\ forall i j, (i < 2)%nat -> (j < 2)%nat ->
            entry S i j
            = fold_left Rmult
                (map (fun B => entry B i j) [[[1; 0]; [0; 1]]; [[2; 2]; [2; 2]]])
                (entry [[2; 2]; [2; 2]] i j).
Proof.
  assert (H1 : combination_invariant constant1) by exact I.
  assert (H2 : combination_invariant white_times_constant).
  { simpl. split; [repeat constructor | split; reflexivity]. }
  split; [exact H1|]. split; [exact H2|]. split; [reflexivity|].
  apply (proj1 (proj2 (Prod_is_product constant1 white_times_constant _ H1 H2 eq_refl))
           [[0]; [1]] None [[2; 2]; [2; 2]] [[[1; 0]; [0; 1]]; [[2; 2]; [2; 2]]]);
    reflexivity.
Defined.


(** ** The squared distance in the order of its operations *)








(** ** The quadrature grid, point by point *)

Lemma big_sum_S (n : nat) (f : nat -> R) :
  big_sum (S n) f = f 0%nat + big_sum n (fun e => f (S e)).
Proof.
  unfold big_sum. simpl. rewrite <- seq_shift, map_map. reflexivity.
Qed.

Lemma big_sum_ext (n : nat) (f g : nat -> R) :
  (forall e, (e < n)%nat -> f e = g e) -> big_sum n f = big_sum n g.
Proof.
  intros H. unfold big_sum. f_equal. apply map_ext_in. intros e He.
  apply in_seq in He. apply H. lia.
Qed.

Lemma dot_big_sum (n : nat) (a b : list R) :
  length a = n -> length b = n ->
  dot a b = big_sum n (fun e => nth e a 0 * nth e b 0).
Proof.
  revert a b. induction n as [|n IH]; intros [|x a] [|y b] Ha Hb; try discriminate.
  - reflexivity.
  - rewrite big_sum_S. simpl in Ha, Hb. cbn [nth].
    rewrite <- (IH a b) by lia. reflexivity.
Qed.

Lemma digit_head (H D t : nat) :
  (t < H * H ^ D)%nat -> digit H (S D) t 0 = (t / H ^ D)%nat.
Proof.
  intros Ht. unfold digit. replace (S D - 1 - 0)%nat with D by lia.
  apply Nat.mod_small. apply Nat.Div0.div_lt_upper_bound. lia.
Qed.

Lemma digit_tail (H D t d : nat) :
  (d < D)%nat -> digit H (S D) t (S d) = digit H D (t mod H ^ D) d.
Proof.
  intros Hd. unfold digit. replace (S D - 1 - S d)%nat with (D - 1 - d)%nat by lia.
  set (k := (D - 1 - d)%nat).
  destruct (Nat.eq_dec H 0) as [->|HH].
  - rewrite (Nat.pow_0_l D) by lia. rewrite (Nat.mod_0_r t). reflexivity.
  - assert (HD : (H ^ D = H ^ (D - k - 1) * H * H ^ k)%nat).
    { replace D with ((D - k - 1) + 1 + k)%nat at 1 by (unfold k; lia).
      rewrite !Nat.pow_add_r, Nat.pow_1_r. reflexivity. }
    assert (Hk : (H ^ k <> 0)%nat) by (apply Nat.pow_nonzero; exact HH).
    rewrite (Nat.div_mod_eq t (H ^ D)) at 1.
    rewrite HD at 1.
    replace (H ^ (D - k - 1) * H * H ^ k * (t / H ^ D) + t mod H ^ D)%nat
      with ((H ^ (D - k - 1) * H * (t / H ^ D)) * H ^ k + t mod H ^ D)%nat by lia.
    rewrite Nat.div_add_l by exact Hk.
    replace (H ^ (D - k - 1) * H * (t / H ^ D) + t mod H ^ D / H ^ k)%nat
      with (t mod H ^ D / H ^ k + (H ^ (D - k - 1) * (t / H ^ D)) * H)%nat by lia.
    apply Nat.Div0.mod_add.
Qed.

Lemma nth_cartesian_power (l : list R) (D t : nat) :
  (t < length l ^ D)%nat ->
  nth t (cartesian_power l D) [] = map (grid_coordinate l D t) (seq 0 D).
Proof.
  revert t. induction D as [|D IH]; intros t Ht.
  - simpl in Ht. replace t with 0%nat by lia. reflexivity.
  - set (H := length l) in *. set (B := (H ^ D)%nat).
    assert (HB : (0 < B)%nat).
    { unfold B. destruct (Nat.eq_dec H 0) as [E|E].
      - rewrite E in Ht. simpl in Ht. lia.
      - assert (H ^ D <> 0)%nat by (apply Nat.pow_nonzero; exact E). lia. }
    change (H ^ S D)%nat with (H * H ^ D)%nat in Ht. fold B in Ht.
    assert (Hq : (t / B < H)%nat) by (apply Nat.Div0.div_lt_upper_bound; lia).
    assert (Hr : (t mod B < B)%nat) by (apply Nat.mod_upper_bound; lia).
    simpl cartesian_power. rewrite flat_map_concat_map.
    rewrite (Nat.div_mod_eq t B) at 1.
    replace (B * (t / B) + t mod B)%nat with ((t / B) * B + t mod B)%nat by lia.
    rewrite (nth_concat_uniform B).
    + rewrite (nth_map_lt _ _ _ 0) by exact Hq.
      rewrite (nth_map_lt _ _ _ []) by (rewrite cartesian_power_length; exact Hr).
      rewrite (IH (t mod B)%nat) by exact Hr.
      simpl seq. simpl map. f_equal.
      * unfold grid_coordinate. fold H. rewrite digit_head by (fold B; lia). reflexivity.
      * rewrite <- seq_shift, map_map. apply map_ext_in. intros d Hd.
        apply in_seq in Hd. unfold grid_coordinate. fold H.
        rewrite digit_tail by lia. reflexivity.
    + apply Forall_forall. intros r Hr'. apply in_map_iff in Hr' as (x & <- & _).
      rewrite length_map. apply cartesian_power_length.
    + exact Hr.
Qed.

Lemma length_nth_cartesian_power (l : list R) (D t : nat) :
  (t < length l ^ D)%nat -> length (nth t (cartesian_power l D) []) = D.
Proof.
  intros Ht. rewrite nth_cartesian_power by exact Ht. rewrite length_map. apply length_seq.
Qed.

Lemma nth_quadrature_weights (gh_w : list R) (D t : nat) :
  (t < length gh_w ^ D)%nat ->
  nth t (quadrature_weights gh_w D) 0 = grid_weight gh_w D t.
Proof.
  intros Ht. unfold quadrature_weights, row_products.
  rewrite (nth_map_lt _ _ _ 0)
    by (rewrite length_map, cartesian_power_length; exact Ht).
  rewrite (nth_map_lt _ _ _ []) by (rewrite cartesian_power_length; exact Ht).
  rewrite nth_cartesian_power by exact Ht. reflexivity.
Qed.

Lemma quadrature_location_grid means Ls gh_x D t :
  length Ls = nrows means ->
  Forall (fun L => length L = D /\ has_cols D L) Ls -> has_cols D means ->
  (t < length gh_x ^ D)%nat ->
  quadrature_location means Ls (nth t (cartesian_power gh_x D) [])
  = grid_location means Ls gh_x D t.
Proof.
  intros HL HLs Hm Ht. unfold quadrature_location, grid_location.
  set (x := nth t (cartesian_power gh_x D) []).
  assert (Hx : length x = D) by (apply length_nth_cartesian_power; exact Ht).
  apply nth_ext with (d := []) (d' := []).
  - rewrite length_map2 by exact HL. rewrite length_map, length_seq. exact HL.
  - intros n Hn. rewrite length_map2 in Hn by exact HL.
    assert (Hn' : (n < length means)%nat) by (unfold nrows in HL; lia).
    rewrite (nth_map2 _ _ _ _ [] []) by assumption.
    rewrite (nth_map_lt _ _ _ 0%nat) by (rewrite length_seq; exact Hn').
    rewrite seq_nth by exact Hn'. simpl Nat.add.
    rewrite Forall_forall in HLs.
    destruct (HLs (nth n Ls []) (nth_In _ _ Hn)) as (HL1 & HL2).
    assert (Hmu : length (nth n means []) = D)
      by (apply (has_cols_In _ _ _ Hm), nth_In, Hn').
    apply nth_ext with (d := 0) (d' := 0).
    + rewrite length_map2 by congruence. rewrite length_map, length_seq. exact HL1.
    + intros d Hd. rewrite length_map2 in Hd by congruence.
      rewrite (nth_map2 _ _ _ _ [] 0) by congruence.
      rewrite (nth_map_lt _ _ _ 0%nat) by (rewrite length_seq; lia).
      rewrite seq_nth by lia. simpl Nat.add.
      rewrite (dot_big_sum D).
      * f_equal. f_equal. apply big_sum_ext. intros e He. f_equal.
        unfold x. rewrite nth_cartesian_power by exact Ht.
        rewrite (nth_map_lt _ _ _ 0%nat) by (rewrite length_seq; exact He).
        rewrite seq_nth by exact He. reflexivity.
      * apply (has_cols_In _ _ _ HL2), nth_In. lia.
      * exact Hx.
Qed.

(** A [mapM] over the grid, from its results point by point. *)
Lemma mapM_grid {A B : Type} (f : A -> result B) (l : list A) (d : A) (g : nat -> B) :
  (forall t, (t < length l)%nat -> f (nth t l d) = Ok (g t)) ->
  mapM f l = Ok (map g (seq 0 (length l))).
Proof.
  revert g. induction l as [|a l IH]; intros g H; [reflexivity|].
  pose proof (H 0%nat ltac:(simpl; lia)) as H0. simpl in H0.
  simpl. rewrite H0. simpl.
  rewrite (IH (fun t => g (S t))).
  - simpl. rewrite <- seq_shift, map_map. reflexivity.
  - intros t Ht. apply (H (S t)). simpl. lia.
Qed.

Lemma nth_vadd n (a b : list R) i :
  length a = n -> length b = n -> (i < n)%nat ->
  nth i (vadd a b) 0 = nth i a 0 + nth i b 0.
Proof.
  intros Ha Hb Hi. unfold vadd. apply (nth_map2 Rplus a b i 0 0 0); lia.
Qed.

Lemma nth_vscale w (a : list R) i :
  (i < length a)%nat -> nth i (vscale w a) 0 = w * nth i a 0.
Proof.
  intros Hi. unfold vscale. apply (nth_map_lt (Rmult w) a i 0 0 Hi).
Qed.

Lemma entry_mscale w (A : list (list R)) i j :
  (i < length A)%nat -> (j < length (nth i A []))%nat ->
  entry (mscale w A) i j = w * entry A i j.
Proof.
  intros Hi Hj. unfold entry, mscale.
  rewrite (nth_map_lt (vscale w) A i [] [] Hi). apply nth_vscale. exact Hj.
Qed.

Lemma mscale_shape w n m (A : list (list R)) :
  length A = n /\ has_cols m A -> length (mscale w A) = n /\ has_cols m (mscale w A).
Proof.
  intros (H1 & H2). unfold mscale. split; [rewrite length_map; exact H1|].
  apply has_cols_intro. intros r Hr. apply in_map_iff in Hr as (a & <- & Ha).
  unfold vscale. rewrite length_map. apply (has_cols_In _ _ _ H2 Ha).
Qed.

Lemma fill2_shape n m c : length (fill2 n m c) = n /\ has_cols m (fill2 n m c).
Proof.
  unfold fill2. split; [apply repeat_length|].
  apply has_cols_intro. intros r Hr. apply repeat_spec in Hr. subst r. apply repeat_length.
Qed.

(** The entries of a weighted sum of vectors over the first axis. *)
Lemma sum_axis0_vec_entries n (ws : list R) (Ks : list (list R)) :
  length ws = length Ks -> has_cols n Ks ->
  length (sum_axis0_vec n (map2 vscale ws Ks)) = n
  /\ forall i, (i < n)%nat ->
       nth i (sum_axis0_vec n (map2 vscale ws Ks)) 0
       = big_sum (length Ks) (fun t => nth t ws 0 * nth i (nth t Ks []) 0).
Proof.
  revert ws. induction Ks as [|a Ks IH]; intros [|w ws] Hlen HKs; try discriminate.
  - split; [apply repeat_length|]. intros i Hi. unfold sum_axis0_vec, fill1. simpl.
    apply nth_repeat_lt. exact Hi.
  - unfold has_cols in HKs. apply Forall_cons_iff in HKs as (Ha & HKs').
    destruct (IH ws ltac:(simpl in Hlen; lia) HKs') as (IH1 & IH2).
    change (sum_axis0_vec n (map2 vscale (w :: ws) (a :: Ks)))
      with (vadd (vscale w a) (sum_axis0_vec n (map2 vscale ws Ks))).
    assert (Hs : length (vscale w a) = n) by (unfold vscale; rewrite length_map; exact Ha).
    split.
    + unfold vadd. rewrite length_map2 by congruence. exact Hs.
    + intros i Hi. rewrite (nth_vadd n) by assumption.
      rewrite nth_vscale by lia. rewrite IH2 by exact Hi.
      simpl length. rewrite big_sum_S. reflexivity.
Qed.

(** The entries of a weighted sum of matrices over the first axis. *)
Lemma sum_axis0_mat_entries n m (ws : list R) (Ks : list (list (list R))) :
  length ws = length Ks -> Forall (fun A => length A = n /\ has_cols m A) Ks ->
  (length (sum_axis0_mat n m (map2 mscale ws Ks)) = n
   /\ has_cols m (sum_axis0_mat n m (map2 mscale ws Ks)))
  /\ forall i j, (i < n)%nat -> (j < m)%nat ->
       entry (sum_axis0_mat n m (map2 mscale ws Ks)) i j
       = big_sum (length Ks) (fun t => nth t ws 0 * entry (nth t Ks []) i j).
Proof.
  revert ws. induction Ks as [|A Ks IH]; intros [|w ws] Hlen HKs; try discriminate.
  - split; [apply fill2_shape|]. intros i j Hi Hj.
    unfold sum_axis0_mat, fill2, entry. simpl.
    rewrite !nth_repeat_lt by assumption. reflexivity.
  - apply Forall_cons_iff in HKs as (HA & HKs').
    destruct (IH ws ltac:(simpl in Hlen; lia) HKs') as (IH1 & IH2).
    change (sum_axis0_mat n m (map2 mscale (w :: ws) (A :: Ks)))
      with (combine_K Add (mscale w A) (sum_axis0_mat n m (map2 mscale ws Ks))).
    pose proof (mscale_shape w n m A HA) as Hs.
    split; [apply combine_K_shape; assumption|].
    intros i j Hi Hj.
    rewrite (entry_combine_K_rect Add n m) by (tauto || assumption).
    rewrite entry_mscale.
    + rewrite IH2 by assumption. simpl length. rewrite big_sum_S. reflexivity.
    + destruct HA as (HA & _). lia.
    + destruct HA as (HA1 & HA2).
      rewrite (has_cols_In _ _ _ HA2) by (apply nth_In; lia). exact Hj.
Qed.

(** The entries of a weighted sum of rank-3 tensors over the first axis. *)
Lemma sum_axis0_t3_entries n m l (ws : list R) (Ts : list (list (list (list R)))) :
  length ws = length Ts ->
  Forall (fun T => length T = n /\ Forall (fun A => length A = m /\ has_cols l A) T) Ts ->
  (length (sum_axis0_t3 n m l (map2 t3scale ws Ts)) = n
   /\ Forall (fun A => length A = m /\ has_cols l A)
        (sum_axis0_t3 n m l (map2 t3scale ws Ts)))
  /\ forall i j c, (i < n)%nat -> (j < m)%nat -> (c < l)%nat ->
       entry (nth i (sum_axis0_t3 n m l (map2 t3scale ws Ts)) []) j c
       = big_sum (length Ts) (fun t => nth t ws 0 * entry (nth i (nth t Ts []) []) j c).
Proof.
  revert ws. induction Ts as [|T Ts IH]; intros [|w ws] Hlen HTs; try discriminate.
  - split.
    + split; [apply repeat_length|]. apply Forall_forall. intros A HA.
      apply repeat_spec in HA. subst A. apply fill2_shape.
    + intros i j c Hi Hj Hc. unfold sum_axis0_t3. simpl.
      rewrite nth_repeat_lt by exact Hi. unfold fill2, entry.
      rewrite !nth_repeat_lt by assumption. reflexivity.
  - apply Forall_cons_iff in HTs as (HT & HTs').
    destruct (IH ws ltac:(simpl in Hlen; lia) HTs') as ((IH1 & IH1') & IH2).
    change (sum_axis0_t3 n m l (map2 t3scale (w :: ws) (T :: Ts)))
      with (map2 madd (t3scale w T) (sum_axis0_t3 n m l (map2 t3scale ws Ts))).
    set (S0 := sum_axis0_t3 n m l (map2 t3scale ws Ts)) in *.
    destruct HT as (HT1 & HT2).
    assert (Hs1 : length (t3scale w T) = n) by (unfold t3scale; rewrite length_map; exact HT1).
    assert (Hs2 : Forall (fun A => length A = m /\ has_cols l A) (t3scale w T)).
    { apply Forall_forall. intros A HA. unfold t3scale in HA.
      apply in_map_iff in HA as (A0 & <- & HA0). apply mscale_shape.
      rewrite Forall_forall in HT2. apply HT2, HA0. }
    split; [split|].
    + rewrite length_map2 by congruence. exact Hs1.
    + apply Forall_forall. intros A HA.
      apply In_map2 in HA as (x & y & Hx & Hy & ->).
      rewrite Forall_forall in Hs2, IH1'.
      apply (combine_K_shape Add); [apply Hs2, Hx | apply IH1', Hy].
    + intros i j c Hi Hj Hc.
      rewrite (nth_map2 madd _ _ i [] [] []) by lia.
      rewrite Forall_forall in Hs2, IH1', HT2.
      assert (HTi : length (nth i T []) = m /\ has_cols l (nth i T []))
        by (apply HT2, nth_In; lia).
      assert (Hsi : In (nth i (t3scale w T) []) (t3scale w T)) by (apply nth_In; lia).
      assert (HSi : In (nth i S0 []) S0) by (apply nth_In; lia).
      change madd with (combine_K Add).
      destruct (Hs2 _ Hsi) as (Ha1 & Ha2). destruct (IH1' _ HSi) as (Hb1 & Hb2).
      rewrite (entry_combine_K_rect Add m l) by assumption.
      unfold t3scale at 1. rewrite (nth_map_lt (mscale w) T i [] []) by lia.
      rewrite entry_mscale.
      * rewrite IH2 by assumption. simpl length. rewrite big_sum_S. reflexivity.
      * destruct HTi as (H & _). lia.
      * destruct HTi as (H1 & H2).
        rewrite (has_cols_In _ _ _ H2) by (apply nth_In; lia). exact Hc.
Qed.

Lemma over_the_grid {B : Type} (f : list (list R) -> result B) means Ls gh_x D
      (g : nat -> B) :
  length Ls = nrows means ->
  Forall (fun L => length L = D /\ has_cols D L) Ls -> has_cols D means ->
  (forall t, (t < length gh_x ^ D)%nat -> f (grid_location means Ls gh_x D t) = Ok (g t)) ->
  mapM (fun x => f (quadrature_location means Ls x)) (cartesian_power gh_x D)
  = Ok (map g (seq 0 (length gh_x ^ D))).
Proof.
  intros HL HLs Hm H.
  rewrite <- (cartesian_power_length gh_x D).
  apply (mapM_grid _ _ []). intros t Ht. rewrite cartesian_power_length in Ht.
  rewrite quadrature_location_grid by assumption. apply H, Ht.
Qed.

Lemma nth_grid_values {B : Type} (g : nat -> B) (P t : nat) (d : B) :
  (t < P)%nat -> nth t (map g (seq 0 P)) d = g t.
Proof.
  intros Ht. rewrite (nth_map_lt _ _ _ 0%nat) by (rewrite length_seq; exact Ht).
  rewrite seq_nth by exact Ht. reflexivity.
Qed.

Lemma entry_outer (u v : list R) i j :
  (i < length u)%nat -> (j < length v)%nat ->
  entry (outer u v) i j = nth i u 0 * nth j v 0.
Proof.
  intros Hi Hj. unfold entry, outer.
  rewrite (nth_map_lt _ u i 0 [] Hi). apply (nth_map_lt _ v j 0 0 Hj).
Qed.

(** What [eKxz], [eKdiag] and [eKzxKxz] return, entry by entry. *)
Lemma eKxz_entries env k Z Xmu Xcov D Xmus Zs Xcovs gh_x gh_w Ls
      (Kf : nat -> list (list R)) :
  ~ quadrature_forbidden env k ->
  input_dim (base k) = Z.of_nat D -> (0 < D)%nat ->
  _slice (base k) Xmu (Some Z) = Ok (Xmus, Some Zs) ->
  _slice_cov (base k) Xcov = Ok Xcovs ->
  hermgauss env (num_gauss_hermite_points (base k)) = Some (gh_x, gh_w) ->
  Z.of_nat (length gh_x) = num_gauss_hermite_points (base k) ->
  length gh_w = length gh_x ->
  mapM (tf_cholesky env) Xcovs = Ok Ls ->
  length Ls = nrows Xmus ->
  Forall (fun L => length L = D /\ has_cols D L) Ls ->
  (forall t, (t < length gh_x ^ D)%nat ->
     K k (grid_location Xmus Ls gh_x D t) (Some Zs) (Some true) = Ok (Kf t)) ->
  exists E,
    eKxz env k Z Xmu Xcov = (quadrature_warnings env k, Ok E)
    /\ length E = nrows Xmu /\ has_cols (nrows Z) E
    /\ forall n m, (n < nrows Xmu)%nat -> (m < nrows Z)%nat ->
         entry E n m
         = big_sum (length gh_x ^ D) (fun t => entry (Kf t) n m * grid_weight gh_w D t).
Proof.
  intros Hallowed Hdim HD Hslice Hcov Hh Hgx Hgw Hchol HL HLs HK.
  pose proof (slice_has_cols _ _ _ _ _ _ Hdim Hslice) as Hm.
  set (P := (length gh_x ^ D)%nat) in *.
  set (Ks := map Kf (seq 0 P)).
  assert (HKs : mapM (fun x => K k (quadrature_location Xmus Ls x) (Some Zs) (Some true))
                     (cartesian_power gh_x D) = Ok Ks)
    by (apply (over_the_grid (fun X => K k X (Some Zs) (Some true))); assumption).
  destruct (quadrature_Kxz_value env k D gh_x gh_w Xmus Xcovs Ls Hallowed Hdim HD Hh Hgx
              Hgw Hchol HL HLs Hm Z Xmu Xcov Zs Ks Hslice Hcov HKs) as (_ & Hlen & Hshape).
  destruct (sum_axis0_mat_entries (nrows Xmu) (nrows Z) (quadrature_weights gh_w D) Ks
              (eq_sym Hlen) Hshape) as ((H1 & H2) & H3).
  eexists. split.
  - apply (eKxz_value env k D gh_x gh_w Xmus Xcovs Ls Hallowed Hdim HD Hh Hgx Hgw Hchol
             HL HLs Hm Z Xmu Xcov Zs Ks Hslice Hcov HKs).
  - split; [exact H1|]. split; [exact H2|].
    intros n m Hn Hm'. rewrite H3 by assumption.
    unfold Ks at 1. rewrite length_map, length_seq.
    apply big_sum_ext. intros t Ht.
    rewrite nth_quadrature_weights by (rewrite Hgw; exact Ht).
    unfold Ks. rewrite nth_grid_values by exact Ht. ring.
Qed.

Lemma eKdiag_entries env k Xmu Xcov D Xmus Xcovs gh_x gh_w Ls (Kf : nat -> list R) :
  ~ quadrature_forbidden env k ->
  input_dim (base k) = Z.of_nat D -> (0 < D)%nat ->
  _slice (base k) Xmu None = Ok (Xmus, None) ->
  _slice_cov (base k) Xcov = Ok Xcovs ->
  hermgauss env (num_gauss_hermite_points (base k)) = Some (gh_x, gh_w) ->
  Z.of_nat (length gh_x) = num_gauss_hermite_points (base k) ->
  length gh_w = length gh_x ->
  mapM (tf_cholesky env) Xcovs = Ok Ls ->
  length Ls = nrows Xmus ->
  Forall (fun L => length L = D /\ has_cols D L) Ls ->
  (forall t, (t < length gh_x ^ D)%nat ->
     Kdiag k (grid_location Xmus Ls gh_x D t) (Some true) = Ok (Kf t)) ->
  exists E,
    eKdiag env k Xmu Xcov = (quadrature_warnings env k, Ok E)
    /\ length E = nrows Xmu
    /\ forall n, (n < nrows Xmu)%nat ->
         nth n E 0
         = big_sum (length gh_x ^ D) (fun t => nth n (Kf t) 0 * grid_weight gh_w D t).
Proof.
  intros Hallowed Hdim HD Hslice Hcov Hh Hgx Hgw Hchol HL HLs HK.
  pose proof (slice_has_cols _ _ _ _ _ _ Hdim Hslice) as Hm.
  destruct (slice_shape _ _ _ _ _ Hslice) as (HN & _).
  set (P := (length gh_x ^ D)%nat) in *.
  set (Ks := map Kf (seq 0 P)).
  assert (HKs : mapM (fun x => Kdiag k (quadrature_location Xmus Ls x) (Some true))
                     (cartesian_power gh_x D) = Ok Ks)
    by (apply (over_the_grid (fun X => Kdiag k X (Some true))); assumption).
  assert (Hlen : length (quadrature_weights gh_w D) = length Ks).
  { unfold Ks. rewrite length_map, length_seq.
    rewrite (weights_length D gh_x gh_w Hgw). reflexivity. }
  assert (Hshape : has_cols (nrows Xmu) Ks).
  { apply has_cols_intro. intros a Ha.
    destruct (mapM_In _ _ _ HKs a Ha) as (x & _ & E).
    rewrite (Kdiag_length _ _ _ _ E), <- HN.
    apply (quadrature_location_shape Xmus Ls D x HL HLs Hm). }
  destruct (sum_axis0_vec_entries (nrows Xmu) (quadrature_weights gh_w D) Ks Hlen Hshape)
    as (H1 & H2).
  eexists. split.
  - apply (eKdiag_value env k D gh_x gh_w Xmus Xcovs Ls Hallowed Hdim HD Hh Hgx Hgw Hchol
             HL HLs Hm Xmu Xcov Ks Hslice Hcov HKs).
  - split; [exact H1|].
    intros n Hn. rewrite H2 by assumption.
    unfold Ks at 1. rewrite length_map, length_seq.
    apply big_sum_ext. intros t Ht.
    rewrite nth_quadrature_weights by (rewrite Hgw; exact Ht).
    unfold Ks. rewrite nth_grid_values by exact Ht. ring.
Qed.

Lemma eKzxKxz_entries env k Z Xmu Xcov D Xmus Zs Xcovs gh_x gh_w Ls
      (Kf : nat -> list (list R)) :
  ~ quadrature_forbidden env k ->
  input_dim (base k) = Z.of_nat D -> (0 < D)%nat ->
  _slice (base k) Xmu (Some Z) = Ok (Xmus, Some Zs) ->
  _slice_cov (base k) Xcov = Ok Xcovs ->
  hermgauss env (num_gauss_hermite_points (base k)) = Some (gh_x, gh_w) ->
  Z.of_nat (length gh_x) = num_gauss_hermite_points (base k) ->
  length gh_w = length gh_x ->
  mapM (tf_cholesky env) Xcovs = Ok Ls ->
  length Ls = nrows Xmus ->
  Forall (fun L => length L = D /\ has_cols D L) Ls ->
  (forall t, (t < length gh_x ^ D)%nat ->
     K k (grid_location Xmus Ls gh_x D t) (Some Zs) (Some true) = Ok (Kf t)) ->
  exists E,
    eKzxKxz env k Z Xmu Xcov = (quadrature_warnings env k, Ok E)
    /\ length E = nrows Xmu
    /\ Forall (fun A => length A = nrows Z /\ has_cols (nrows Z) A) E
    /\ forall n m m', (n < nrows Xmu)%nat -> (m < nrows Z)%nat -> (m' < nrows Z)%nat ->
         entry (nth n E []) m m'
         = big_sum (length gh_x ^ D)
             (fun t => entry (Kf t) n m * entry (Kf t) n m' * grid_weight gh_w D t).
Proof.
  intros Hallowed Hdim HD Hslice Hcov Hh Hgx Hgw Hchol HL HLs HK.
  pose proof (slice_has_cols _ _ _ _ _ _ Hdim Hslice) as Hm.
  set (P := (length gh_x ^ D)%nat) in *.
  set (Ks := map Kf (seq 0 P)).
  assert (HKs : mapM (fun x => K k (quadrature_location Xmus Ls x) (Some Zs) (Some true))
                     (cartesian_power gh_x D) = Ok Ks)
    by (apply (over_the_grid (fun X => K k X (Some Zs) (Some true))); assumption).
  destruct (quadrature_Kxz_value env k D gh_x gh_w Xmus Xcovs Ls Hallowed Hdim HD Hh Hgx
              Hgw Hchol HL HLs Hm Z Xmu Xcov Zs Ks Hslice Hcov HKs) as (_ & Hlen & Hshape).
  set (Ts := map (map (fun row => outer row row)) Ks).
  assert (HlenT : length (quadrature_weights gh_w D) = length Ts)
    by (unfold Ts; rewrite length_map; symmetry; exact Hlen).
  assert (HshapeT : Forall (fun T => length T = nrows Xmu
                      /\ Forall (fun A => length A = nrows Z /\ has_cols (nrows Z) A) T) Ts).
  { apply Forall_forall. intros T HT. unfold Ts in HT.
    apply in_map_iff in HT as (A & <- & HA).
    rewrite Forall_forall in Hshape. destruct (Hshape A HA) as (HA1 & HA2).
    split; [rewrite length_map; exact HA1|].
    apply Forall_forall. intros O HO. apply in_map_iff in HO as (row & <- & Hrow).
    pose proof (has_cols_In _ _ _ HA2 Hrow) as Hr.
    unfold outer. split; [rewrite length_map; exact Hr|].
    apply has_cols_intro. intros r Hr'. apply in_map_iff in Hr' as (a & <- & _).
    rewrite length_map. exact Hr. }
  destruct (sum_axis0_t3_entries (nrows Xmu) (nrows Z) (nrows Z)
              (quadrature_weights gh_w D) Ts HlenT HshapeT) as ((H1 & H2) & H3).
  eexists. split.
  - apply (eKzxKxz_value env k D gh_x gh_w Xmus Xcovs Ls Hallowed Hdim HD Hh Hgx Hgw Hchol
             HL HLs Hm Z Xmu Xcov Zs Ks Hslice Hcov HKs).
  - fold Ts. split; [exact H1|]. split; [exact H2|].
    intros n m m' Hn Hm1 Hm2. rewrite H3 by assumption.
    unfold Ts at 1. unfold Ks at 1. rewrite !length_map, length_seq.
    apply big_sum_ext. intros t Ht.
    rewrite nth_quadrature_weights by (rewrite Hgw; exact Ht).
    assert (HKt : In (Kf t) Ks).
    { unfold Ks. apply in_map. apply in_seq. lia. }
    rewrite Forall_forall in Hshape. destruct (Hshape _ HKt) as (HA1 & HA2).
    unfold Ts. rewrite (nth_map_lt _ Ks t [] [])
      by (unfold Ks; rewrite length_map, length_seq; exact Ht).
    unfold Ks. rewrite nth_grid_values by exact Ht.
    rewrite (nth_map_lt _ (Kf t) n [] []) by lia.
    assert (Hrow : length (nth n (Kf t) []) = nrows Z)
      by (apply (has_cols_In _ _ _ HA2), nth_In; lia).
    rewrite entry_outer by lia. unfold entry. ring.
Qed.

(** C2, as amended: when quadrature is allowed, the inputs slice, [hermgauss]
    yields [H] nodes and weights, the Cholesky factors of the [N] sliced
    covariances are [D x D], and the kernel's [K] returns [Kf t] on the
    location of the [t]-th grid point with [presliced=True] (as the [K] of
    every class but [Coregion] can), [eKxz] returns the [N x M] matrix whose
    entry [(n, m)] is the sum over the [H^D] grid points [t] of
    [Kf t [n, m]] times the weight of [t].  The grid is the Cartesian power
    of the nodes with the last axis varying fastest; row [n] of the location
    of [t] is [Xmu[n] + sqrt(2) chol(Xcov[n]) x_t], and the weight of [t] is
    the product of the one-dimensional weights times [pi^(-D/2)]. *)
Theorem eKxz_is_quadrature :
  forall env k Z Xmu Xcov D Xmus Zs Xcovs gh_x gh_w Ls (Kf : nat -> list (list R)),
    ~ quadrature_forbidden env k ->
    input_dim (base k) = Z.of_nat D -> (0 < D)%nat ->
    _slice (base k) Xmu (Some Z) = Ok (Xmus, Some Zs) ->
    _slice_cov (base k) Xcov = Ok Xcovs ->
    hermgauss env (num_gauss_hermite_points (base k)) = Some (gh_x, gh_w) ->
    Z.of_nat (length gh_x) = num_gauss_hermite_points (base k) ->
    length gh_w = length gh_x ->
    mapM (tf_cholesky env) Xcovs = Ok Ls ->
    length Ls = nrows Xmus ->
    Forall (fun L => length L = D /\ has_cols D L) Ls ->
    (forall t, (t < length gh_x ^ D)%nat ->
       K k (grid_location Xmus Ls gh_x D t) (Some Zs) (Some true) = Ok (Kf t)) ->
    exists E,
      eKxz env k Z Xmu Xcov = (quadrature_warnings env k, Ok E)
      /\ length E = nrows Xmu /\ has_cols (nrows Z) E
      /\ forall n m, (n < nrows Xmu)%nat -> (m < nrows Z)%nat ->
           entry E n m
           = big_sum (length gh_x ^ D) (fun t => entry (Kf t) n m * grid_weight gh_w D t).
Proof.
  intros. eapply eKxz_entries; eassumption.
Qed.

(** [Linear(2)] under the two-point rule: two inputs with diagonal
    covariances, three fixed inputs, four grid points. *)
Lemma eKxz_is_quadrature_witness :
  exists E,
    eKxz two_point_env linear2_two_point [[1; 0]; [0; 1]; [1; 1]] [[1; 2]; [3; 4]]
         (DiagCov [[4; 9]; [1; 16]])
    = (quadrature_warnings two_point_env linear2_two_point, Ok E)
    /\ length E = 2%nat /\ has_cols 3 E
    /\ forall n m, (n < 2)%nat -> (m < 3)%nat ->
         entry E n m
         = big_sum 4
             (fun t =>
                entry (match K linear2_two_point
                               (grid_location [[1; 2]; [3; 4]]
                                  [mmap sqrt (diag [4; 9]); mmap sqrt (diag [1; 16])]
                                  [- / sqrt 2; / sqrt 2] 2 t)
                               (Some [[1; 0]; [0; 1]; [1; 1]]) (Some true) with
                       | Ok A => A
                       | Raise _ => []
                       end) n m
                * grid_weight [sqrt PI / 2; sqrt PI / 2] 2 t).
Proof.
  apply (eKxz_is_quadrature two_point_env linear2_two_point
           [[1; 0]; [0; 1]; [1; 1]] [[1; 2]; [3; 4]] (DiagCov [[4; 9]; [1; 16]])
           2 [[1; 2]; [3; 4]] [[1; 0]; [0; 1]; [1; 1]] [diag [4; 9]; diag [1; 16]]
           [- / sqrt 2; / sqrt 2] [sqrt PI / 2; sqrt PI / 2]
           [mmap sqrt (diag [4; 9]); mmap sqrt (diag [1; 16])]).
  - intros [H|H]; discriminate H.
  - reflexivity.
  - lia.
  - reflexivity.
  - reflexivity.
  - reflexivity.
  - reflexivity.
  - reflexivity.
  - reflexivity.
  - reflexivity.
  - repeat constructor.
  - intros t _. reflexivity.
Defined.

Lemma mvhermgauss_entries env means covs H D gh_x gh_w Ls :
  (0 < D)%nat ->
  hermgauss env H = Some (gh_x, gh_w) ->
  length gh_w = length gh_x ->
  mapM (tf_cholesky env) covs = Ok Ls ->
  length Ls = nrows means ->
  Forall (fun L => length L = D /\ has_cols D L) Ls ->
  has_cols D means ->
  exists X wn,
    mvhermgauss env means covs H (Z.of_nat D) = Ok (X, wn)
    /\ nrows X = (length gh_x ^ D * nrows means)%nat
    /\ has_cols D X
    /\ length wn = (length gh_x ^ D)%nat
    /\ (forall t n d,
          (t < length gh_x ^ D)%nat -> (n < nrows means)%nat -> (d < D)%nat ->
          entry X (t * nrows means + n) d
          = sqrt 2 * big_sum D (fun e => nth e (nth d (nth n Ls []) []) 0
                                         * grid_coordinate gh_x D t e)
            + entry means n d)
    /\ (forall t, (t < length gh_x ^ D)%nat ->
          nth t wn 0
          = big_prod D (grid_coordinate gh_w D t) * Rpower PI (- IZR (Z.of_nat D) * 0.5)).
Proof.
  intros HD Hh Hgw Hchol HL HLs Hm.
  eexists; eexists. split; [apply mvhermgauss_locations; eassumption|].
  assert (Hloc : forall x, length (quadrature_location means Ls x) = nrows means
                           /\ has_cols D (quadrature_location means Ls x))
    by (intros x; apply quadrature_location_shape; assumption).
  assert (Hall : Forall (fun r => length r = nrows means)
                   (map (quadrature_location means Ls) (cartesian_power gh_x D))).
  { apply Forall_forall. intros A HA. apply in_map_iff in HA as (x & <- & _). apply Hloc. }
  split; [|split; [|split; [|split]]].
  - unfold nrows at 1. rewrite (length_concat_uniform (nrows means)) by exact Hall.
    rewrite length_map, cartesian_power_length. reflexivity.
  - apply has_cols_intro. intros r Hr. apply in_concat in Hr as (A & HA & Hr).
    apply in_map_iff in HA as (x & <- & _).
    apply (has_cols_In _ _ _ (proj2 (Hloc x)) Hr).
  - unfold quadrature_weights, row_products.
    rewrite !length_map, cartesian_power_length. congruence.
  - intros t n d Ht Hn Hd. unfold entry at 1.
    rewrite (nth_concat_uniform (nrows means)) by assumption.
    rewrite (nth_map_lt _ _ _ []) by (rewrite cartesian_power_length; exact Ht).
    rewrite quadrature_location_grid by assumption.
    unfold grid_location.
    rewrite (nth_map_lt _ _ _ 0%nat) by (rewrite length_seq; exact Hn).
    rewrite seq_nth by exact Hn.
    rewrite (nth_map_lt _ _ _ 0%nat) by (rewrite length_seq; exact Hd).
    rewrite seq_nth by exact Hd. reflexivity.
  - intros t Ht. rewrite nth_quadrature_weights by (rewrite Hgw; exact Ht). reflexivity.
Qed.

(** X11: [mvhermgauss] returns [H^D * N] rows of [D] columns and [H^D]
    weights.  Row [t * N + n] is the location of input [n] for the [t]-th
    point of the grid (the Cartesian power of the nodes, last axis fastest):
    the mean plus [sqrt 2] times the Cholesky factor applied to the grid
    point.  Weight [t] is the product of the one-dimensional weights of the
    grid point, times [pi^(-D/2)]. *)
Theorem mvhermgauss_grid :
  forall env means covs H D gh_x gh_w Ls,
    (0 < D)%nat ->
    hermgauss env H = Some (gh_x, gh_w) ->
    length gh_w = length gh_x ->
    mapM (tf_cholesky env) covs = Ok Ls ->
    length Ls = nrows means ->
    Forall (fun L => length L = D /\ has_cols D L) Ls ->
    has_cols D means ->
    exists X wn,
      mvhermgauss env means covs H (Z.of_nat D) = Ok (X, wn)
      /\ nrows X = (length gh_x ^ D * nrows means)%nat
      /\ has_cols D X
      /\ length wn = (length gh_x ^ D)%nat
      /\ (forall t n d,
            (t < length gh_x ^ D)%nat -> (n < nrows means)%nat -> (d < D)%nat ->
            entry X (t * nrows means + n) d
            = sqrt 2 * big_sum D (fun e => nth e (nth d (nth n Ls []) []) 0
                                           * grid_coordinate gh_x D t e)
              + entry means n d)
      /\ (forall t, (t < length gh_x ^ D)%nat ->
            nth t wn 0
            = big_prod D (grid_coordinate gh_w D t)
              * Rpower PI (- IZR (Z.of_nat D) * 0.5)).
Proof.
  intros. eapply mvhermgauss_entries; eassumption.
Qed.

(** Two means with diagonal covariances under the two-point rule in two
    dimensions: eight rows and four weights. *)
Lemma mvhermgauss_grid_witness :
  exists X wn,
    mvhermgauss two_point_env [[1; 2]; [3; 4]] [diag [4; 9]; diag [1; 16]] 2 (Z.of_nat 2)
    = Ok (X, wn)
    /\ nrows X = 8%nat
    /\ has_cols 2 X
    /\ length wn = 4%nat
    /\ (forall t n d,
          (t < 4)%nat -> (n < 2)%nat -> (d < 2)%nat ->
          entry X (t * 2 + n) d
          = sqrt 2 * big_sum 2
                       (fun e => nth e (nth d (nth n [mmap sqrt (diag [4; 9]);
                                                      mmap sqrt (diag [1; 16])] []) []) 0
                                 * grid_coordinate [- / sqrt 2; / sqrt 2] 2 t e)
            + entry [[1; 2]; [3; 4]] n d)
    /\ (forall t, (t < 4)%nat ->
          nth t wn 0
          = big_prod 2 (grid_coordinate [sqrt PI / 2; sqrt PI / 2] 2 t)
            * Rpower PI (- IZR (Z.of_nat 2) * 0.5)).
Proof.
  apply (mvhermgauss_grid two_point_env [[1; 2]; [3; 4]] [diag [4; 9]; diag [1; 16]] 2 2
           [- / sqrt 2; / sqrt 2] [sqrt PI / 2; sqrt PI / 2]
           [mmap sqrt (diag [4; 9]); mmap sqrt (diag [1; 16])]).
  - lia.
  - reflexivity.
  - reflexivity.
  - reflexivity.
  - reflexivity.
  - repeat constructor.
  - repeat constructor.
Defined.

(** X12: when quadrature is allowed, the inputs slice, [hermgauss] yields [H]
    nodes and weights, the Cholesky factors of the [N] sliced covariances
    are [D x D], and the kernel's [Kdiag] returns [Kf t] on the location of
    the [t]-th grid point with [presliced=True], [eKdiag] returns the vector
    whose entry [n] is the sum over the [H^D] grid points [t] of [Kf t [n]]
    times the weight of [t]. *)
Theorem eKdiag_is_quadrature :
  forall env k Xmu Xcov D Xmus Xcovs gh_x gh_w Ls (Kf : nat -> list R),
    ~ quadrature_forbidden env k ->
    input_dim (base k) = Z.of_nat D -> (0 < D)%nat ->
    _slice (base k) Xmu None = Ok (Xmus, None) ->
    _slice_cov (base k) Xcov = Ok Xcovs ->
    hermgauss env (num_gauss_hermite_points (base k)) = Some (gh_x, gh_w) ->
    Z.of_nat (length gh_x) = num_gauss_hermite_points (base k) ->
    length gh_w = length gh_x ->
    mapM (tf_cholesky env) Xcovs = Ok Ls ->
    length Ls = nrows Xmus ->
    Forall (fun L => length L = D /\ has_cols D L) Ls ->
    (forall t, (t < length gh_x ^ D)%nat ->
       Kdiag k (grid_location Xmus Ls gh_x D t) (Some true) = Ok (Kf t)) ->
    exists E,
      eKdiag env k Xmu Xcov = (quadrature_warnings env k, Ok E)
      /\ length E = nrows Xmu
      /\ forall n, (n < nrows Xmu)%nat ->
           nth n E 0
           = big_sum (length gh_x ^ D) (fun t => nth n (Kf t) 0 * grid_weight gh_w D t).
Proof.
  intros. eapply eKdiag_entries; eassumption.
Qed.

(** The diagonal of [Linear(2)] under the two-point rule, for two inputs. *)
Lemma eKdiag_is_quadrature_witness :
  exists E,
    eKdiag two_point_env linear2_two_point [[1; 2]; [3; 4]] (DiagCov [[4; 9]; [1; 16]])
    = (quadrature_warnings two_point_env linear2_two_point, Ok E)
    /\ length E = 2%nat
    /\ forall n, (n < 2)%nat ->
         nth n E 0
         = big_sum 4
             (fun t =>
                nth n (match Kdiag linear2_two_point
                               (grid_location [[1; 2]; [3; 4]]
                                  [mmap sqrt (diag [4; 9]); mmap sqrt (diag [1; 16])]
                                  [- / sqrt 2; / sqrt 2] 2 t) (Some true) with
                       | Ok a => a
                       | Raise _ => []
                       end) 0
                * grid_weight [sqrt PI / 2; sqrt PI / 2] 2 t).
Proof.
  apply (eKdiag_is_quadrature two_point_env linear2_two_point
           [[1; 2]; [3; 4]] (DiagCov [[4; 9]; [1; 16]])
           2 [[1; 2]; [3; 4]] [diag [4; 9]; diag [1; 16]]
           [- / sqrt 2; / sqrt 2] [sqrt PI / 2; sqrt PI / 2]
           [mmap sqrt (diag [4; 9]); mmap sqrt (diag [1; 16])]).
  - intros [H|H]; discriminate H.
  - reflexivity.
  - lia.
  - reflexivity.
  - reflexivity.
  - reflexivity.
  - reflexivity.
  - reflexivity.
  - reflexivity.
  - reflexivity.
  - repeat constructor.
  - intros t _. reflexivity.
Defined.

(** X13: under the conditions of [eKxz], [eKzxKxz] returns [N] matrices of
    size [M x M]: entry [(m, m')] of the [n]-th is the sum over the grid
    points [t] of [Kf t [n, m] * Kf t [n, m']] times the weight of [t]. *)
Theorem eKzxKxz_is_quadrature :
  forall env k Z Xmu Xcov D Xmus Zs Xcovs gh_x gh_w Ls (Kf : nat -> list (list R)),
    ~ quadrature_forbidden env k ->
    input_dim (base k) = Z.of_nat D -> (0 < D)%nat ->
    _slice (base k) Xmu (Some Z) = Ok (Xmus, Some Zs) ->
    _slice_cov (base k) Xcov = Ok Xcovs ->
    hermgauss env (num_gauss_hermite_points (base k)) = Some (gh_x, gh_w) ->
    Z.of_nat (length gh_x) = num_gauss_hermite_points (base k) ->
    length gh_w = length gh_x ->
    mapM (tf_cholesky env) Xcovs = Ok Ls ->
    length Ls = nrows Xmus ->
    Forall (fun L => length L = D /\ has_cols D L) Ls ->
    (forall t, (t < length gh_x ^ D)%nat ->
       K k (grid_location Xmus Ls gh_x D t) (Some Zs) (Some true) = Ok (Kf t)) ->
    exists E,
      eKzxKxz env k Z Xmu Xcov = (quadrature_warnings env k, Ok E)
      /\ length E = nrows Xmu
      /\ Forall (fun A => length A = nrows Z /\ has_cols (nrows Z) A) E
      /\ forall n m m', (n < nrows Xmu)%nat -> (m < nrows Z)%nat -> (m' < nrows Z)%nat ->
           entry (nth n E []) m m'
           = big_sum (length gh_x ^ D)
               (fun t => entry (Kf t) n m * entry (Kf t) n m' * grid_weight gh_w D t).
Proof.
  intros. eapply eKzxKxz_entries; eassumption.
Qed.

(** [Linear(2)] under the two-point rule: two inputs, three fixed inputs. *)
Lemma eKzxKxz_is_quadrature_witness :
  exists E,
    eKzxKxz two_point_env linear2_two_point [[1; 0]; [0; 1]; [1; 1]] [[1; 2]; [3; 4]]
            (DiagCov [[4; 9]; [1; 16]])
    = (quadrature_warnings two_point_env linear2_two_point, Ok E)
    /\ length E = 2%nat
    /\ Forall (fun A => length A = 3%nat /\ has_cols 3 A) E
    /\ forall n m m', (n < 2)%nat -> (m < 3)%nat -> (m' < 3)%nat ->
         entry (nth n E []) m m'
         = big_sum 4
             (fun t =>
                entry (match K linear2_two_point
                               (grid_location [[1; 2]; [3; 4]]
                                  [mmap sqrt (diag [4; 9]); mmap sqrt (diag [1; 16])]
                                  [- / sqrt 2; / sqrt 2] 2 t)
                               (Some [[1; 0]; [0; 1]; [1; 1]]) (Some true) with
                       | Ok A => A
                       | Raise _ => []
                       end) n m
                * entry (match K linear2_two_point
                                 (grid_location [[1; 2]; [3; 4]]
                                    [mmap sqrt (diag [4; 9]); mmap sqrt (diag [1; 16])]
                                    [- / sqrt 2; / sqrt 2] 2 t)
                                 (Some [[1; 0]; [0; 1]; [1; 1]]) (Some true) with
                         | Ok A => A
                         | Raise _ => []
                         end) n m'
                * grid_weight [sqrt PI / 2; sqrt PI / 2] 2 t).
Proof.
  apply (eKzxKxz_is_quadrature two_point_env linear2_two_point
           [[1; 0]; [0; 1]; [1; 1]] [[1; 2]; [3; 4]] (DiagCov [[4; 9]; [1; 16]])
           2 [[1; 2]; [3; 4]] [[1; 0]; [0; 1]; [1; 1]] [diag [4; 9]; diag [1; 16]]
           [- / sqrt 2; / sqrt 2] [sqrt PI / 2; sqrt PI / 2]
           [mmap sqrt (diag [4; 9]); mmap sqrt (diag [1; 16])]).
  - intros [H|H]; discriminate H.
  - reflexivity.
  - lia.
  - reflexivity.
  - reflexivity.
  - reflexivity.
  - reflexivity.
  - reflexivity.
  - reflexivity.
  - reflexivity.
  - repeat constructor.
  - intros t _. reflexivity.
Defined.

(** X14: [eKdiag] of a stationary or a periodic kernel does not depend on the
    means and the covariances: [Kdiag] is the variance at every quadrature
    point, and every entry of the result is the sum over the grid points of
    the variance times the weight. *)
Theorem eKdiag_of_stationary_is_variance :
  forall env k variance Xmu Xcov D Xmus Xcovs gh_x gh_w Ls,
    ((exists c b lengthscales ARD, k = Stationary c b variance lengthscales ARD)
     \/ (exists b lengthscales period, k = PeriodicKernel b variance lengthscales period)) ->
    ~ quadrature_forbidden env k ->
    input_dim (base k) = Z.of_nat D -> (0 < D)%nat ->
    _slice (base k) Xmu None = Ok (Xmus, None) ->
    _slice_cov (base k) Xcov = Ok Xcovs ->
    hermgauss env (num_gauss_hermite_points (base k)) = Some (gh_x, gh_w) ->
    Z.of_nat (length gh_x) = num_gauss_hermite_points (base k) ->
    length gh_w = length gh_x ->
    mapM (tf_cholesky env) Xcovs = Ok Ls ->
    length Ls = nrows Xmus ->
    Forall (fun L => length L = D /\ has_cols D L) Ls ->
    exists E,
      eKdiag env k Xmu Xcov = (quadrature_warnings env k, Ok E)
      /\ length E = nrows Xmu
      /\ forall n, (n < nrows Xmu)%nat ->
           nth n E 0 = big_sum (length gh_x ^ D) (fun t => variance * grid_weight gh_w D t).
Proof.
  intros env k variance Xmu Xcov D Xmus Xcovs gh_x gh_w Ls Hk
         Hallowed Hdim HD Hslice Hcov Hh Hgx Hgw Hchol HL HLs.
  pose proof (slice_has_cols _ _ _ _ _ _ Hdim Hslice) as Hm.
  destruct (slice_shape _ _ _ _ _ Hslice) as (HN & _).
  destruct (eKdiag_entries env k Xmu Xcov D Xmus Xcovs gh_x gh_w Ls
              (fun _ => fill1 (nrows Xmu) variance)
              Hallowed Hdim HD Hslice Hcov Hh Hgx Hgw Hchol HL HLs) as (E & H1 & H2 & H3).
  - intros t Ht.
    assert (Hr : nrows (grid_location Xmus Ls gh_x D t) = nrows Xmu).
    { unfold grid_location, nrows. rewrite length_map, length_seq. exact HN. }
    destruct Hk as [(c & b & ls & ard & ->)|(b & ls & p & ->)]; simpl;
      unfold Stationary_Kdiag, PeriodicKernel_Kdiag; rewrite Hr; reflexivity.
  - exists E. split; [exact H1|]. split; [exact H2|].
    intros n Hn. rewrite (H3 n Hn). apply big_sum_ext. intros t _.
    unfold fill1. rewrite nth_repeat_lt by exact Hn. reflexivity.
Qed.

(** [RBF(2)] with variance 3 under the two-point rule, for two inputs. *)
Lemma eKdiag_of_stationary_is_variance_witness :
  exists E,
    eKdiag two_point_env
           (Stationary RBF (mk_base 2 (ADslice None (Some 2%Z) None) 2 None) 3 [1] false)
           [[1; 2]; [3; 4]] (DiagCov [[4; 9]; [1; 16]])
    = (quadrature_warnings two_point_env
         (Stationary RBF (mk_base 2 (ADslice None (Some 2%Z) None) 2 None) 3 [1] false),
       Ok E)
    /\ length E = 2%nat
    /\ forall n, (n < 2)%nat ->
         nth n E 0 = big_sum 4 (fun t => 3 * grid_weight [sqrt PI / 2; sqrt PI / 2] 2 t).
Proof.
  apply (eKdiag_of_stationary_is_variance two_point_env
           (Stationary RBF (mk_base 2 (ADslice None (Some 2%Z) None) 2 None) 3 [1] false)
           3 [[1; 2]; [3; 4]] (DiagCov [[4; 9]; [1; 16]])
           2 [[1; 2]; [3; 4]] [diag [4; 9]; diag [1; 16]]
           [- / sqrt 2; / sqrt 2] [sqrt PI / 2; sqrt PI / 2]
           [mmap sqrt (diag [4; 9]); mmap sqrt (diag [1; 16])]).
  - left. exists RBF, (mk_base 2 (ADslice None (Some 2%Z) None) 2 None), [1], false.
    reflexivity.
  - intros [H|H]; discriminate H.
  - reflexivity.
  - lia.
  - reflexivity.
  - reflexivity.
  - reflexivity.
  - reflexivity.
  - reflexivity.
  - reflexivity.
  - reflexivity.
  - repeat constructor.
Defined.

(** X15: [eKxz] of a constant kernel does not depend on the inputs: every
    entry of the [N x M] result is the sum over the grid points of the
    variance times the weight; every entry of [eKxz] of the white kernel is
    zero. *)
Theorem eKxz_of_static_kernel :
  forall env c b variance Z Xmu Xcov D Xmus Zs Xcovs gh_x gh_w Ls,
    ~ quadrature_forbidden env (Static c b variance) ->
    input_dim b = Z.of_nat D -> (0 < D)%nat ->
    _slice b Xmu (Some Z) = Ok (Xmus, Some Zs) ->
    _slice_cov b Xcov = Ok Xcovs ->
    hermgauss env (num_gauss_hermite_points b) = Some (gh_x, gh_w) ->
    Z.of_nat (length gh_x) = num_gauss_hermite_points b ->
    length gh_w = length gh_x ->
    mapM (tf_cholesky env) Xcovs = Ok Ls ->
    length Ls = nrows Xmus ->
    Forall (fun L => length L = D /\ has_cols D L) Ls ->
    exists E,
      eKxz env (Static c b variance) Z Xmu Xcov
      = (quadrature_warnings env (Static c b variance), Ok E)
      /\ length E = nrows Xmu /\ has_cols (nrows Z) E
      /\ forall n m, (n < nrows Xmu)%nat -> (m < nrows Z)%nat ->
           entry E n m
           = match c with
             | White => 0
             | _ => big_sum (length gh_x ^ D) (fun t => variance * grid_weight gh_w D t)
             end.
Proof.
  intros env c b variance Z Xmu Xcov D Xmus Zs Xcovs gh_x gh_w Ls
         Hallowed Hdim HD Hslice Hcov Hh Hgx Hgw Hchol HL HLs.
  destruct (slice_shape _ _ _ _ _ Hslice) as (HN & HM).
  set (v := match c with White => 0 | _ => variance end).
  destruct (eKxz_entries env (Static c b variance) Z Xmu Xcov D Xmus Zs Xcovs gh_x gh_w Ls
              (fun _ => fill2 (nrows Xmu) (nrows Z) v)
              Hallowed Hdim HD Hslice Hcov Hh Hgx Hgw Hchol HL HLs) as (E & H1 & H2 & H3 & H4).
  - intros t Ht.
    assert (Hr : nrows (grid_location Xmus Ls gh_x D t) = nrows Xmu).
    { unfold grid_location, nrows. rewrite length_map, length_seq. exact HN. }
    destruct c; simpl; unfold v; rewrite Hr, HM; reflexivity.
  - exists E. split; [exact H1|]. split; [exact H2|]. split; [exact H3|].
    intros n m Hn Hm'. rewrite (H4 n m Hn Hm').
    assert (Hv : entry (fill2 (nrows Xmu) (nrows Z) v) n m = v).
    { unfold entry, fill2. rewrite !nth_repeat_lt by assumption. reflexivity. }
    destruct c; unfold v in *.
    + unfold big_sum. induction (seq 0 (length gh_x ^ D)) as [|t l IH]; simpl; [reflexivity|].
      rewrite IH, Hv. ring.
    + apply big_sum_ext. intros t _. rewrite Hv. reflexivity.
    + apply big_sum_ext. intros t _. rewrite Hv. reflexivity.
Qed.

(** [Constant(2, variance=3.0)] under the two-point rule: two inputs against
    three fixed inputs. *)
Lemma eKxz_of_static_kernel_witness :
  exists E,
    eKxz two_point_env
         (Static Constant (mk_base 2 (ADslice None (Some 2%Z) None) 2 None) 3)
         [[1; 0]; [0; 1]; [1; 1]] [[1; 2]; [3; 4]] (DiagCov [[4; 9]; [1; 16]])
    = (quadrature_warnings two_point_env
         (Static Constant (mk_base 2 (ADslice None (Some 2%Z) None) 2 None) 3), Ok E)
    /\ length E = 2%nat /\ has_cols 3 E
    /\ forall n m, (n < 2)%nat -> (m < 3)%nat ->
         entry E n m = big_sum 4 (fun t => 3 * grid_weight [sqrt PI / 2; sqrt PI / 2] 2 t).
Proof.
  apply (eKxz_of_static_kernel two_point_env Constant
           (mk_base 2 (ADslice None (Some 2%Z) None) 2 None) 3
           [[1; 0]; [0; 1]; [1; 1]] [[1; 2]; [3; 4]] (DiagCov [[4; 9]; [1; 16]])
           2 [[1; 2]; [3; 4]] [[1; 0]; [0; 1]; [1; 1]] [diag [4; 9]; diag [1; 16]]
           [- / sqrt 2; / sqrt 2] [sqrt PI / 2; sqrt PI / 2]
           [mmap sqrt (diag [4; 9]); mmap sqrt (diag [1; 16])]).
  - intros [H|H]; discriminate H.
  - reflexivity.
  - lia.
  - reflexivity.
  - reflexivity.
  - reflexivity.
  - reflexivity.
  - reflexivity.
  - reflexivity.
  - reflexivity.
  - repeat constructor.
Defined.


(** ** The expectation over pairs, entry by entry *)

Lemma exKxz_entries env k Z Xmu Xcov D Xcov0 Xcov1 gh_x gh_w Ls
      (Kf : nat -> list (list R)) :
  ~ quadrature_forbidden env k ->
  match input_size (base k) with
  | Some s => s
  | None => input_dim (base k)
  end = Z.of_nat D ->
  (0 < D)%nat -> has_cols D Xmu -> Xmu <> [] ->
  nth_error Xcov 0 = Some Xcov0 -> nth_error Xcov 1 = Some Xcov1 ->
  hermgauss env (num_gauss_hermite_points (base k)) = Some (gh_x, gh_w) ->
  Z.of_nat (length gh_x) = num_gauss_hermite_points (base k) ->
  length gh_w = length gh_x ->
  mapM (tf_cholesky env) (pair_covariances Xcov0 Xcov1) = Ok Ls ->
  length Ls = nrows (pair_means Xmu) ->
  Forall (fun L => length L = (2 * D)%nat /\ has_cols (2 * D) L) Ls ->
  (forall t, (t < length gh_x ^ (2 * D))%nat ->
     K k (map (firstn D) (grid_location (pair_means Xmu) Ls gh_x (2 * D) t)) (Some Z) None
     = Ok (Kf t)) ->
  exists E,
    exKxz env k Z Xmu Xcov = (quadrature_warnings env k, Ok E)
    /\ length E = (nrows Xmu - 1)%nat
    /\ Forall (fun A => length A = nrows Z /\ has_cols D A) E
    /\ forall n m d, (n < nrows Xmu - 1)%nat -> (m < nrows Z)%nat -> (d < D)%nat ->
         entry (nth n E []) m d
         = big_sum (length gh_x ^ (2 * D))
             (fun t => entry (grid_location (pair_means Xmu) Ls gh_x (2 * D) t) n (D + d)
                       * entry (Kf t) n m * grid_weight gh_w (2 * D) t).
Proof.
  intros Hallowed HD Hpos HXmu Hne H0 H1 Hrule Hnodes Hweights Hfac Hcount Hshapes HK.
  destruct (has_cols_pair_means D Xmu HXmu) as (Hfm & HfN).
  set (fXmu := pair_means Xmu) in *.
  set (P := (length gh_x ^ (2 * D))%nat) in *.
  set (Ks := map Kf (seq 0 P)).
  set (grid := cartesian_power gh_x (2 * D)).
  assert (Hgrid : length grid = P) by apply cartesian_power_length.
  assert (HKs : mapM (fun x => K k (map (firstn D) (quadrature_location fXmu Ls x))
                                 (Some Z) None) grid = Ok Ks).
  { apply (over_the_grid (fun X => K k (map (firstn D) X) (Some Z) None)); assumption. }
  assert (Hloc : forall x, length (quadrature_location fXmu Ls x) = nrows fXmu
                           /\ has_cols (2 * D) (quadrature_location fXmu Ls x)).
  { intros x. apply quadrature_location_shape; assumption. }
  assert (HKshape : Forall (fun A => length A = (nrows Xmu - 1)%nat /\ has_cols (nrows Z) A) Ks).
  { apply Forall_forall. intros A HA.
    destruct (mapM_In _ _ _ HKs A HA) as (x & _ & E).
    destruct (K_shape _ _ _ _ _ E) as (E1 & E2). split; [|exact E2].
    rewrite E1. unfold nrows. rewrite length_map. rewrite (proj1 (Hloc x)). exact HfN. }
  set (tails := map (fun x => map (skipn D) (quadrature_location fXmu Ls x)) grid).
  set (Ts := map2 pair_products tails Ks).
  assert (HlKs : length Ks = P) by (unfold Ks; rewrite length_map, length_seq; reflexivity).
  assert (Hltails : length tails = P) by (unfold tails; rewrite length_map; exact Hgrid).
  assert (HlTs : length Ts = P) by (unfold Ts; rewrite length_map2; congruence).
  assert (Hlw : length (quadrature_weights gh_w (2 * D)) = length Ts).
  { rewrite HlTs. unfold quadrature_weights, row_products.
    rewrite !length_map, cartesian_power_length, Hweights. reflexivity. }
  assert (Htail : forall t, (t < P)%nat ->
            nth t tails [] = map (skipn D) (grid_location fXmu Ls gh_x (2 * D) t)).
  { intros t Ht. unfold tails.
    rewrite (nth_map_lt _ grid t [] []) by (rewrite Hgrid; exact Ht).
    unfold grid. rewrite quadrature_location_grid by assumption. reflexivity. }
  assert (Hgl : forall t, length (grid_location fXmu Ls gh_x (2 * D) t) = (nrows Xmu - 1)%nat
                          /\ has_cols (2 * D) (grid_location fXmu Ls gh_x (2 * D) t)).
  { intros t. unfold grid_location. split.
    - rewrite length_map, length_seq. exact HfN.
    - apply has_cols_intro. intros r Hr. apply in_map_iff in Hr as (n & <- & _).
      rewrite length_map. apply length_seq. }
  assert (HT : forall t, (t < P)%nat ->
            nth t Ts [] = pair_products (map (skipn D) (grid_location fXmu Ls gh_x (2 * D) t))
                                        (Kf t)).
  { intros t Ht. unfold Ts.
    rewrite (nth_map2 pair_products tails Ks t [] [] []) by congruence.
    rewrite Htail by exact Ht. unfold Ks. rewrite nth_grid_values by exact Ht.
    reflexivity. }
  assert (HKf : forall t, (t < P)%nat ->
            length (Kf t) = (nrows Xmu - 1)%nat /\ has_cols (nrows Z) (Kf t)).
  { intros t Ht. rewrite Forall_forall in HKshape. apply HKshape.
    unfold Ks. apply in_map, in_seq. lia. }
  assert (Hpp : forall t, (t < P)%nat ->
            length (nth t Ts []) = (nrows Xmu - 1)%nat
            /\ Forall (fun A => length A = nrows Z /\ has_cols D A) (nth t Ts [])).
  { intros t Ht. rewrite (HT t Ht). unfold pair_products.
    destruct (HKf t Ht) as (Hk1 & Hk2). destruct (Hgl t) as (Hg1 & Hg2).
    split.
    - rewrite length_map2 by (rewrite length_map; congruence).
      rewrite length_map. exact Hg1.
    - apply Forall_forall. intros A HA. apply In_map2 in HA as (x & kz & Hx & Hkz & ->).
      split; [rewrite length_map; apply (has_cols_In _ _ _ Hk2 Hkz)|].
      apply has_cols_intro. intros r Hr. apply in_map_iff in Hr as (c & <- & _).
      rewrite length_map. apply in_map_iff in Hx as (row & <- & Hrow).
      rewrite length_skipn, (has_cols_In _ _ _ Hg2 Hrow). lia. }
  assert (HshapeT : Forall (fun T => length T = (nrows Xmu - 1)%nat
                      /\ Forall (fun A => length A = nrows Z /\ has_cols D A) T) Ts).
  { apply Forall_forall. intros T HTin.
    destruct (In_nth Ts T [] HTin) as (t & Ht & <-). apply Hpp. congruence. }
  destruct (sum_axis0_t3_entries (nrows Xmu - 1) (nrows Z) D
              (quadrature_weights gh_w (2 * D)) Ts Hlw HshapeT) as ((E1 & E2) & E3).
  eexists. split.
  - apply (exKxz_value env k Z Xmu Xcov D Xcov0 Xcov1 gh_x gh_w Ls Ks); assumption.
  - fold fXmu. fold grid. fold tails. fold Ts.
    split; [exact E1|]. split; [exact E2|].
    intros n m d Hn Hm Hd. rewrite E3 by assumption. rewrite HlTs.
    apply big_sum_ext. intros t Ht.
    rewrite nth_quadrature_weights by (rewrite Hweights; exact Ht).
    rewrite (HT t Ht). unfold pair_products.
    destruct (HKf t Ht) as (Hk1 & Hk2). destruct (Hgl t) as (Hg1 & Hg2).
    rewrite (nth_map2 _ _ _ n [] [] []) by (rewrite length_map; lia || congruence).
    unfold entry at 1.
    assert (Hrow : length (nth n (Kf t) []) = nrows Z)
      by (apply (has_cols_In _ _ _ Hk2), nth_In; lia).
    rewrite (nth_map_lt _ (nth n (Kf t) []) m 0 []) by lia.
    assert (Hl : length (nth n (grid_location fXmu Ls gh_x (2 * D) t) []) = (2 * D)%nat)
      by (apply (has_cols_In _ _ _ Hg2), nth_In; lia).
    rewrite (nth_map_lt _ _ n [] []) by lia.
    rewrite (nth_map_lt _ _ d 0 0) by (rewrite length_skipn; lia).
    rewrite nth_skipn. unfold entry. ring.
Qed.

(** X26: [exKxz] does not slice: when quadrature is allowed and [Xmu] has at
    least one row and [D] columns ([input_size] if the kernel has the
    attribute, [input_dim] otherwise), it returns, for each pair [n] of
    consecutive inputs, the [M x D] matrix whose entry [(m, d)] is the sum
    over the [H^(2D)] grid points [t] of entry [D + d] of row [n] of the
    location of [t], times [Kf t [n, m]], times the weight of [t], where
    [Kf t] is what [K] returns on the first [D] columns of the location;
    when a row of [Xmu] has another width it ends in
    [InvalidArgumentError]. *)
Theorem exKxz_is_quadrature :
  forall env k Z Xmu Xcov D,
    ~ quadrature_forbidden env k ->
    match input_size (base k) with
    | Some s => s
    | None => input_dim (base k)
    end = Z.of_nat D ->
    (forall Xcov0 Xcov1 gh_x gh_w Ls (Kf : nat -> list (list R)),
       (0 < D)%nat -> has_cols D Xmu -> Xmu <> [] ->
       nth_error Xcov 0 = Some Xcov0 -> nth_error Xcov 1 = Some Xcov1 ->
       hermgauss env (num_gauss_hermite_points (base k)) = Some (gh_x, gh_w) ->
       Z.of_nat (length gh_x) = num_gauss_hermite_points (base k) ->
       length gh_w = length gh_x ->
       mapM (tf_cholesky env) (pair_covariances Xcov0 Xcov1) = Ok Ls ->
       length Ls = nrows (pair_means Xmu) ->
       Forall (fun L => length L = (2 * D)%nat /\ has_cols (2 * D) L) Ls ->
       (forall t, (t < length gh_x ^ (2 * D))%nat ->
          K k (map (firstn D) (grid_location (pair_means Xmu) Ls gh_x (2 * D) t))
              (Some Z) None
          = Ok (Kf t)) ->
       exists E,
         exKxz env k Z Xmu Xcov = (quadrature_warnings env k, Ok E)
         /\ length E = (nrows Xmu - 1)%nat
         /\ Forall (fun A => length A = nrows Z /\ has_cols D A) E
         /\ forall n m d, (n < nrows Xmu - 1)%nat -> (m < nrows Z)%nat -> (d < D)%nat ->
              entry (nth n E []) m d
              = big_sum (length gh_x ^ (2 * D))
                  (fun t =>
                     entry (grid_location (pair_means Xmu) Ls gh_x (2 * D) t) n (D + d)
                     * entry (Kf t) n m * grid_weight gh_w (2 * D) t))
    /\ (Exists (fun row => length row <> D) Xmu ->
        exKxz env k Z Xmu Xcov
        = (quadrature_warnings env k, Raise InvalidArgumentError)).
Proof.
  intros env k Z Xmu Xcov D Hallowed HD. split.
  - intros Xcov0 Xcov1 gh_x gh_w Ls Kf. apply exKxz_entries; assumption.
  - intros Hex. unfold exKxz, after_check. rewrite (check_allowed env k Hallowed).
    cbv zeta. rewrite HD, (assert_cols_fails D Xmu Hex). reflexivity.
Qed.

(** [Linear(1)] under the two-point rule: three inputs, hence two pairs and
    four grid points, against two fixed inputs. *)
Lemma exKxz_is_quadrature_witness :
  ~ quadrature_forbidden two_point_env linear1_two_point
  /\ exists E,
       exKxz two_point_env linear1_two_point [[5]; [7]] [[1]; [2]; [3]]
             [[[[4]]; [[9]]; [[16]]]; [[[0]]; [[0]]; [[0]]]]
       = (quadrature_warnings two_point_env linear1_two_point, Ok E)
       /\ length E = 2%nat
       /\ Forall (fun A => length A = 2%nat /\ has_cols 1 A) E
       /\ forall n m d, (n < 2)%nat -> (m < 2)%nat -> (d < 1)%nat ->
            entry (nth n E []) m d
            = big_sum 4
                (fun t =>
                   entry (grid_location [[1; 2]; [2; 3]]
                            [mmap sqrt [[4; 0]; [0; 9]]; mmap sqrt [[9; 0]; [0; 16]]]
                            [- / sqrt 2; / sqrt 2] 2 t) n (1 + d)
                   * entry (match K linear1_two_point
                                    (map (firstn 1)
                                       (grid_location [[1; 2]; [2; 3]]
                                          [mmap sqrt [[4; 0]; [0; 9]];
                                           mmap sqrt [[9; 0]; [0; 16]]]
                                          [- / sqrt 2; / sqrt 2] 2 t))
                                    (Some [[5]; [7]]) None with
                            | Ok A => A
                            | Raise _ => []
                            end) n m
                   * grid_weight [sqrt PI / 2; sqrt PI / 2] 2 t).
Proof.
  assert (Ha : ~ quadrature_forbidden two_point_env linear1_two_point)
    by (intros [H|H]; discriminate H).
  split; [exact Ha|].
  apply (proj1 (exKxz_is_quadrature two_point_env linear1_two_point [[5]; [7]]
                  [[1]; [2]; [3]] [[[[4]]; [[9]]; [[16]]]; [[[0]]; [[0]]; [[0]]]]
                  1%nat Ha eq_refl)
           [[[4]]; [[9]]; [[16]]] [[[0]]; [[0]]; [[0]]]
           [- / sqrt 2; / sqrt 2] [sqrt PI / 2; sqrt PI / 2]
           [mmap sqrt [[4; 0]; [0; 9]]; mmap sqrt [[9; 0]; [0; 16]]]).
  - lia.
  - repeat constructor.
  - discriminate.
  - reflexivity.
  - reflexivity.
  - reflexivity.
  - reflexivity.
  - reflexivity.
  - reflexivity.
  - reflexivity.
  - repeat constructor.
  - intros t _. reflexivity.
Defined.


(** ** Static and periodic kernels *)

Lemma static_or_periodic_plain k :
  static_or_periodic k -> jitter_free k /\ coregion_shaped k.
Proof.
  induction k using kern_induction; simpl; try tauto.
  intros Hs. induction H as [|k' l' Hk' _ IHl]; [tauto|].
  destruct Hs as (H1 & H2). destruct (Hk' H1) as (Ha & Hb).
  destruct (IHl H2) as (Hc & Hd). tauto.
Qed.

(** X17: for a static or a periodic kernel, and for the sums and products of
    such kernels, [Kdiag(X)] is the diagonal of [K(X)] whenever [K(X)]
    returns. *)
Theorem Kdiag_is_diagonal :
  forall k X R0,
    static_or_periodic k ->
    K k X None None = Ok R0 -> Kdiag k X None = Ok (diag_part R0).
Proof.
  intros k X R0 Hs.
  destruct (static_or_periodic_plain k Hs) as (Hj & Hc).
  apply Kdiag_diagonal; assumption.
Qed.

(** The sum of a periodic and a constant kernel on two points. *)
Lemma Kdiag_is_diagonal_witness :
  static_or_periodic (Combination Add base1 [periodic1; constant1])
  /\ exists R0,
       K (Combination Add base1 [periodic1; constant1]) [[1]; [2]] None None = Ok R0
       /\ Kdiag (Combination Add base1 [periodic1; constant1]) [[1]; [2]] None
          = Ok (diag_part R0).
Proof.
  assert (Hs : static_or_periodic (Combination Add base1 [periodic1; constant1])).
  { simpl. repeat split; try exact I; lra. }
  split; [exact Hs|]. eexists. split; [reflexivity|].
  apply (Kdiag_is_diagonal (Combination Add base1 [periodic1; constant1]) [[1]; [2]] _ Hs).
  reflexivity.
Defined.

(** X19: for a static or a periodic kernel, and for the sums and products of
    such kernels, the matrix returned for [(X2, X)] is the transpose of the
    one returned for [(X, X2)], and the matrix for one input is symmetric. *)
Theorem K_transposed :
  forall k X,
    static_or_periodic k ->
    (forall X2 A B,
       K k X (Some X2) None = Ok A -> K k X2 (Some X) None = Ok B ->
       forall i j, (i < nrows X)%nat -> (j < nrows X2)%nat -> entry B j i = entry A i j)
    /\ (forall A,
          K k X None None = Ok A ->
          forall i j, (i < nrows X)%nat -> (j < nrows X)%nat -> entry A j i = entry A i j).
Proof.
  intros k X Hs. destruct (static_or_periodic_plain k Hs) as (_ & Hc). split.
  - intros X2 A B. apply K_transposed_entries. exact Hc.
  - intros A. apply K_symmetric_entries. exact Hc.
Qed.

(** The product of a periodic and a constant kernel on two points against
    one. *)
Lemma K_transposed_witness :
  static_or_periodic (Combination Prod base1 [periodic1; constant1])
  /\ exists A B,
       K (Combination Prod base1 [periodic1; constant1]) [[1]; [2]] (Some [[3]]) None = Ok A
       /\ K (Combination Prod base1 [periodic1; constant1]) [[3]] (Some [[1]; [2]]) None
          = Ok B
       /\ entry B 0 1 = entry A 1 0.
Proof.
  assert (Hs : static_or_periodic (Combination Prod base1 [periodic1; constant1])).
  { simpl. repeat split; try exact I; lra. }
  split; [exact Hs|]. eexists. eexists. split; [reflexivity|]. split; [reflexivity|].
  apply (proj1 (K_transposed (Combination Prod base1 [periodic1; constant1]) [[1]; [2]] Hs)
           [[3]] _ _ eq_refl eq_refl 1%nat 0%nat);
    simpl; lia.
Defined.





(** ** Positive semi-definiteness of the static kernels *)





(** ** Rounding *)

(** The value of a floating-point literal as a quotient of integers. *)
Ltac float_value c :=
  let v := eval vm_compute in (Prim2SF c) in
  lazymatch v with
  | S754_finite ?s ?m ?e =>
      let num := eval vm_compute in (if s then Zneg m else Zpos m) in
      let nonneg := eval vm_compute in (0 <=? e)%Z in
      lazymatch nonneg with
      | true => let p := eval vm_compute in (2 ^ e)%Z in
                change (Binary64.to_R c) with (IZR num * IZR p)
      | false => let p := eval vm_compute in (2 ^ (- e))%Z in
                 change (Binary64.to_R c) with (IZR num * / IZR p)
      end
  | _ => change (Binary64.to_R c) with 0
  end.

Ltac float_values :=
  repeat match goal with
         | |- context [Binary64.to_R ?c] => float_value c
         end.





(** C3: in [float64], [Constant(0.1) + (Constant(0.2) + Constant(0.3))] is the
    [Add] of the three constants, whose [K] is [(0.1 + 0.2) + 0.3], while the
    sum of the [K] of the two operands is [0.1 + (0.2 + 0.3)]: the two round
    differently, and so do the two [Kdiag]. *)
Lemma Add_of_a_sum_rounds :
  Binary64.Static_init Constant 1 0.1 None = Ok Binary64.constant_01
  /\ Binary64.Static_init Constant 1 0.2 None = Ok Binary64.constant_02
  /\ Binary64.Static_init Constant 1 0.3 None = Ok Binary64.constant_03
  /\ Binary64.kern_add Binary64.constant_02 Binary64.constant_03 = Ok Binary64.sum_02_03
  /\ Binary64.kern_add Binary64.constant_01 Binary64.sum_02_03
     = Ok (Binary64.Combination Add base1
             [Binary64.constant_01; Binary64.constant_02; Binary64.constant_03])
  /\ Binary64.K Binary64.sample_libm
       (Binary64.Combination Add base1
          [Binary64.constant_01; Binary64.constant_02; Binary64.constant_03])
       [[0]]%float None None
     = Ok [[0.6000000000000001]]%float
  /\ Binary64.K Binary64.sample_libm Binary64.constant_01 [[0]]%float None None
     = Ok [[0.1]]%float
  /\ Binary64.K Binary64.sample_libm Binary64.sum_02_03 [[0]]%float None None
     = Ok [[0.5]]%float
  /\ Binary64.madd [[0.1]]%float [[0.5]]%float = [[0.6]]%float
  /\ Binary64.Kdiag Binary64.sample_libm
       (Binary64.Combination Add base1
          [Binary64.constant_01; Binary64.constant_02; Binary64.constant_03])
       [[0]]%float None
     = Ok [0.6000000000000001]%float
  /\ Binary64.Kdiag Binary64.sample_libm Binary64.constant_01 [[0]]%float None
     = Ok [0.1]%float
  /\ Binary64.Kdiag Binary64.sample_libm Binary64.sum_02_03 [[0]]%float None
     = Ok [0.5]%float
  /\ Binary64.vadd [0.1]%float [0.5]%float = [0.6]%float
  /\ Binary64.to_R 0.6%float < Binary64.to_R 0.6000000000000001%float.
Proof.
  repeat (split; [reflexivity|]). float_values. lra.
Qed.

(** C4: in [float64], [Constant(0.1) * (Constant(0.2) * Constant(0.3))] is the
    [Prod] of the three constants, whose [K] is [(0.1 * 0.2) * 0.3], while the
    product of the [K] of the two operands is [0.1 * (0.2 * 0.3)]. *)
Lemma Prod_of_a_product_rounds :
  Binary64.Static_init Constant 1 0.1 None = Ok Binary64.constant_01
  /\ Binary64.Static_init Constant 1 0.2 None = Ok Binary64.constant_02
  /\ Binary64.Static_init Constant 1 0.3 None = Ok Binary64.constant_03
  /\ Binary64.kern_mul Binary64.constant_02 Binary64.constant_03 = Ok Binary64.product_02_03
  /\ Binary64.kern_mul Binary64.constant_01 Binary64.product_02_03
     = Ok (Binary64.Combination Prod base1
             [Binary64.constant_01; Binary64.constant_02; Binary64.constant_03])
  /\ Binary64.K Binary64.sample_libm
       (Binary64.Combination Prod base1
          [Binary64.constant_01; Binary64.constant_02; Binary64.constant_03])
       [[0]]%float None None
     = Ok [[0.006000000000000001]]%float
  /\ Binary64.K Binary64.sample_libm Binary64.constant_01 [[0]]%float None None
     = Ok [[0.1]]%float
  /\ Binary64.K Binary64.sample_libm Binary64.product_02_03 [[0]]%float None None
     = Ok [[0.06]]%float
  /\ Binary64.mmul [[0.1]]%float [[0.06]]%float = [[0.006]]%float
  /\ Binary64.Kdiag Binary64.sample_libm
       (Binary64.Combination Prod base1
          [Binary64.constant_01; Binary64.constant_02; Binary64.constant_03])
       [[0]]%float None
     = Ok [0.006000000000000001]%float
  /\ Binary64.Kdiag Binary64.sample_libm Binary64.constant_01 [[0]]%float None
     = Ok [0.1]%float
  /\ Binary64.Kdiag Binary64.sample_libm Binary64.product_02_03 [[0]]%float None
     = Ok [0.06]%float
  /\ Binary64.vmul [0.1]%float [0.06]%float = [0.006]%float
  /\ Binary64.to_R 0.006%float < Binary64.to_R 0.006000000000000001%float.
Proof.
  repeat (split; [reflexivity|]). float_values. lra.
Qed.





